(** * ReadingGame: the word-game phase engine, the letter-sound player and
      the deck

    A shallow embedding of [src/components/WordsGame.tsx] (the buffered
    type-ahead component, and the handlers of the strict component that
    shares the file), of [src/engine/speech.ts] and of
    [src/engine/shuffle.ts].

    The React component is modelled by explicit state passing:
    - the values held by [useState] are the fields of [View];
    - the values held by [useRef] are the fields of [Refs]; they are written
      at once, where the source writes [x.current];
    - a call of a state setter appends an [Update] to a queue; the queue is
      applied when the running handler returns ([commit]), and the effects
      whose dependencies changed run after it, as React does for a batched
      render;
    - [window.setTimeout] adds a [Timer] to the pending timers and
      [clearTimeout] removes it; time is a natural number of milliseconds;
    - a function declared in the component body closes over the [phase]
      constant of the render that created it; that value is an explicit
      argument ([phase_c]) of the functions that read it. *)

From Stdlib Require Import List String Ascii Arith Bool Lia PeanoNat DecimalString.
From Stdlib Require Import ZArith QArith Qround Permutation.
Import ListNotations.
Open Scope string_scope.
Open Scope nat_scope.

(** ** Strings as the source uses them *)

(** [String.prototype.toUpperCase].  A string is held as its UTF-8 bytes.
    The function is the source's on the ASCII characters, on the dotless i
    (U+0131, bytes 196 177, upper case "I") and on the long s (U+017F, bytes
    197 191, upper case "S"): these two are the only characters outside
    ASCII whose upper case is an ASCII letter.  Any other character is left
    as it is; the component only asks whether the result is one of
    [LETTERS] and which one, and that answer is the source's for every
    string. *)
Definition upper_ascii (c : ascii) : ascii :=
  let n := nat_of_ascii c in
  if (97 <=? n) && (n <=? 122) then ascii_of_nat (n - 32) else c.

Definition upper_pair (c d : ascii) : option ascii :=
  if (nat_of_ascii c =? 196) && (nat_of_ascii d =? 177) then Some "I"%char
  else if (nat_of_ascii c =? 197) && (nat_of_ascii d =? 191) then Some "S"%char
  else None.

Fixpoint toUpperCase (s : string) : string :=
  match s with
  | EmptyString => EmptyString
  | String c r =>
      match r with
      | EmptyString => String (upper_ascii c) EmptyString
      | String d r' =>
          match upper_pair c d with
          | Some u => String u (toUpperCase r')
          | None => String (upper_ascii c) (toUpperCase r)
          end
      end
  end.

(** [s.split("")]: the one-character strings of [s]. *)
Fixpoint split_chars (s : string) : list string :=
  match s with
  | EmptyString => []
  | String c r => String c EmptyString :: split_chars r
  end.

(** [xs.join("")]. *)
Definition join (xs : list string) : string := String.concat "" xs.

(** [xs.slice(0, k)]. *)
Definition slice0 {A} (k : nat) (xs : list A) : list A := firstn k xs.

(** [s[i]]: [None] stands for [undefined]. *)
Definition char_at (s : string) (i : nat) : option string :=
  nth_error (split_chars s) i.

(** [xs.includes(x)] on strings. *)
Definition includes (xs : list string) (x : string) : bool :=
  existsb (String.eqb x) xs.

Definition string_of_nat (n : nat) : string :=
  NilEmpty.string_of_uint (Nat.to_uint n).

(** ** Constants of the component *)

Definition LETTERS : list string := split_chars "ABCDEFGHIJKLMNOPQRSTUVWXYZ".
Definition WORDS : list string := ["DOG"; "CAT"].

Definition BUFFER_MAX : nat := 16.
Definition BUFFER_ITEM_TTL_MS : nat := 3000.
Definition KEY_REPEAT_GUARD_MS : nat := 30.

(** ** Data model *)

Record KeyEvent := mkKeyEvent { key : string; t : nat }.

(** The [Phase] union of the source; the sub-index types [0 | 1 | 2] and
    [2 | 3] are static annotations, the run-time values are numbers. *)
Inductive Phase :=
| click_letter (clickIndex : nat)
| blend_prefix (k : nat)
| type_prefix (k : nat).

Definition Phase_eqb (p q : Phase) : bool :=
  match p, q with
  | click_letter i, click_letter j => i =? j
  | blend_prefix i, blend_prefix j => i =? j
  | type_prefix i, type_prefix j => i =? j
  | _, _ => false
  end.

Definition phase_type (p : Phase) : string :=
  match p with
  | click_letter _ => "click_letter"
  | blend_prefix _ => "blend_prefix"
  | type_prefix _ => "type_prefix"
  end.

(** ["clickIndex" in phase ? phase.clickIndex : phase.k] *)
Definition phase_sub (p : Phase) : nat :=
  match p with
  | click_letter i => i
  | blend_prefix k => k
  | type_prefix k => k
  end.

Inductive EffectKind := correct | wrong.

(** What the component asks of the audio collaborators, in call order. *)
Inductive Cue :=
| SoundEffect (kind : EffectKind)
| LetterSound (letter : option string)
| Clip (base : string).

Definition is_wrong (c : Cue) : bool :=
  match c with SoundEffect wrong => true | _ => false end.

Definition is_audio (c : Cue) : bool :=
  match c with LetterSound _ | Clip _ => true | _ => false end.

(** A call of a [useState] setter. *)
Inductive Update :=
| SetWordIndexNext                       (* setWordIndex((i) => (i + 1) % WORDS.length) *)
| SetPhase (p : Phase)
| SetTypedBuffer (s : string)
| SetBlendHighlightStep (n : nat)
| SetTypingCurrentIndex (n : nat)
| AdvanceTypingIndex                     (* the updater passed by handleCorrectType *)
| SetAnnouncement (s : string)
| SetShowImage (b : bool).

(** The body of a scheduled callback. *)
Inductive Callback :=
| ClearAnnouncement                      (* () => setAnnouncement("") *)
| Noop                                   (* the empty 100 ms callback *)
| BlendStep (v : nat)                    (* () => setBlendHighlightStep(i + 1) *)
| BlendRed (k : nat)                     (* the callback at +k seconds *)
| ToTypePrefix (k : nat)                 (* the nested 100 ms callback *)
| DrainTimer (phase_c : Phase).          (* () => processBuffer(), of a given render *)

(** A pending timer.  [born] is a history variable that no code reads: the
    identity of the [phase] object that was current when the timer was
    scheduled. *)
Record Timer := mkTimer { tid : nat; due : nat; cb : Callback; born : nat }.

(** The [useState] values. *)
Record View := mkView {
  wordIndex : nat;
  phase : Phase;
  typedBuffer : string;
  blendHighlightStep : nat;
  typingCurrentIndex : nat;
  announcement : string;
  showImage : bool;
  phaseId : nat                (* identity of the object held by [phase] *)
}.

(** The [useRef] values. *)
Record Refs := mkRefs {
  keyBufferRef : list KeyEvent;
  lastKeyRef : option KeyEvent;
  phaseRef : Phase;
  typingCurrentIndexRef : nat;
  typedBufferRef : string;
  lettersRef : list string;
  blendTimeoutsRef : list nat;
  lastAutoRef : string
}.

(** The component instance together with the timer service and the clock. *)
Record State := mkState {
  view : View;
  refs : Refs;
  queue : list Update;        (* setter calls not yet applied *)
  timers : list Timer;        (* pending timers of the window *)
  nextId : nat;               (* the id the next setTimeout returns *)
  drainId : option nat;       (* [timer] of the live drain effect *)
  now : nat;                  (* Date.now() *)
  cues : list Cue             (* audio requests so far, latest first *)
}.

(** ** Field updates *)

Definition set_view (v : View) (s : State) : State :=
  mkState v (refs s) (queue s) (timers s) (nextId s) (drainId s) (now s) (cues s).
Definition set_refs (r : Refs) (s : State) : State :=
  mkState (view s) r (queue s) (timers s) (nextId s) (drainId s) (now s) (cues s).
Definition set_queue (q : list Update) (s : State) : State :=
  mkState (view s) (refs s) q (timers s) (nextId s) (drainId s) (now s) (cues s).
Definition set_timers (ts : list Timer) (s : State) : State :=
  mkState (view s) (refs s) (queue s) ts (nextId s) (drainId s) (now s) (cues s).
Definition set_nextId (n : nat) (s : State) : State :=
  mkState (view s) (refs s) (queue s) (timers s) n (drainId s) (now s) (cues s).
Definition set_drainId (d : option nat) (s : State) : State :=
  mkState (view s) (refs s) (queue s) (timers s) (nextId s) d (now s) (cues s).
Definition set_now (n : nat) (s : State) : State :=
  mkState (view s) (refs s) (queue s) (timers s) (nextId s) (drainId s) n (cues s).
Definition set_cues (c : list Cue) (s : State) : State :=
  mkState (view s) (refs s) (queue s) (timers s) (nextId s) (drainId s) (now s) c.

Definition set_wordIndex (x : nat) (v : View) : View :=
  mkView x (phase v) (typedBuffer v) (blendHighlightStep v)
         (typingCurrentIndex v) (announcement v) (showImage v) (phaseId v).
(** [setPhase({ ... })]: the argument is always an object literal, a new
    object, so the identity changes even when the contents do not. *)
Definition set_phase (x : Phase) (v : View) : View :=
  mkView (wordIndex v) x (typedBuffer v) (blendHighlightStep v)
         (typingCurrentIndex v) (announcement v) (showImage v) (S (phaseId v)).
Definition set_typedBuffer (x : string) (v : View) : View :=
  mkView (wordIndex v) (phase v) x (blendHighlightStep v)
         (typingCurrentIndex v) (announcement v) (showImage v) (phaseId v).
Definition set_blendHighlightStep (x : nat) (v : View) : View :=
  mkView (wordIndex v) (phase v) (typedBuffer v) x
         (typingCurrentIndex v) (announcement v) (showImage v) (phaseId v).
Definition set_typingCurrentIndex (x : nat) (v : View) : View :=
  mkView (wordIndex v) (phase v) (typedBuffer v) (blendHighlightStep v)
         x (announcement v) (showImage v) (phaseId v).
Definition set_announcement (x : string) (v : View) : View :=
  mkView (wordIndex v) (phase v) (typedBuffer v) (blendHighlightStep v)
         (typingCurrentIndex v) x (showImage v) (phaseId v).
Definition set_showImage (x : bool) (v : View) : View :=
  mkView (wordIndex v) (phase v) (typedBuffer v) (blendHighlightStep v)
         (typingCurrentIndex v) (announcement v) x (phaseId v).

Definition set_keyBufferRef (x : list KeyEvent) (r : Refs) : Refs :=
  mkRefs x (lastKeyRef r) (phaseRef r) (typingCurrentIndexRef r)
         (typedBufferRef r) (lettersRef r) (blendTimeoutsRef r) (lastAutoRef r).
Definition set_lastKeyRef (x : option KeyEvent) (r : Refs) : Refs :=
  mkRefs (keyBufferRef r) x (phaseRef r) (typingCurrentIndexRef r)
         (typedBufferRef r) (lettersRef r) (blendTimeoutsRef r) (lastAutoRef r).
Definition set_phaseRef (x : Phase) (r : Refs) : Refs :=
  mkRefs (keyBufferRef r) (lastKeyRef r) x (typingCurrentIndexRef r)
         (typedBufferRef r) (lettersRef r) (blendTimeoutsRef r) (lastAutoRef r).
Definition set_typingCurrentIndexRef (x : nat) (r : Refs) : Refs :=
  mkRefs (keyBufferRef r) (lastKeyRef r) (phaseRef r) x
         (typedBufferRef r) (lettersRef r) (blendTimeoutsRef r) (lastAutoRef r).
Definition set_typedBufferRef (x : string) (r : Refs) : Refs :=
  mkRefs (keyBufferRef r) (lastKeyRef r) (phaseRef r) (typingCurrentIndexRef r)
         x (lettersRef r) (blendTimeoutsRef r) (lastAutoRef r).
Definition set_lettersRef (x : list string) (r : Refs) : Refs :=
  mkRefs (keyBufferRef r) (lastKeyRef r) (phaseRef r) (typingCurrentIndexRef r)
         (typedBufferRef r) x (blendTimeoutsRef r) (lastAutoRef r).
Definition set_blendTimeoutsRef (x : list nat) (r : Refs) : Refs :=
  mkRefs (keyBufferRef r) (lastKeyRef r) (phaseRef r) (typingCurrentIndexRef r)
         (typedBufferRef r) (lettersRef r) x (lastAutoRef r).
Definition set_lastAutoRef (x : string) (r : Refs) : Refs :=
  mkRefs (keyBufferRef r) (lastKeyRef r) (phaseRef r) (typingCurrentIndexRef r)
         (typedBufferRef r) (lettersRef r) (blendTimeoutsRef r) x.

(** Shorthands: write a ref, call a setter, request a sound. *)
Definition on_refs (f : Refs -> Refs) (s : State) : State := set_refs (f (refs s)) s.
Definition enqueue (u : Update) (s : State) : State := set_queue (queue s ++ [u]) s.
Definition play (c : Cue) (s : State) : State := set_cues (c :: cues s) s.

(** ** The timer service *)

(** [window.setTimeout(cb, delay)]: returns the new state and the timer id. *)
Definition setTimeout (c : Callback) (delay : nat) (s : State) : State * nat :=
  (set_nextId (S (nextId s))
     (set_timers
        (timers s ++ [mkTimer (nextId s) (now s + delay) c (phaseId (view s))]) s),
   nextId s).

(** [window.clearTimeout(id)]. *)
Definition clearTimeout (id : nat) (s : State) : State :=
  set_timers (filter (fun tm => negb (tid tm =? id)) (timers s)) s.

(** ** The word and its letters *)

(** [WORDS[wordIndex]]; the index stays below [WORDS.length], see
    [wordIndex_in_range]. *)
Definition word (v : View) : string := nth (wordIndex v) WORDS "".
Definition letters (v : View) : list string := split_chars (word v).

(** ** The operations of the buffered component *)

Definition clearBlendTimeouts (s : State) : State :=
  on_refs (set_blendTimeoutsRef [])
          (fold_left (fun acc id => clearTimeout id acc) (blendTimeoutsRef (refs s)) s).

Definition fresh (n : nat) (ev : KeyEvent) : bool := n - t ev <? BUFFER_ITEM_TTL_MS.

Definition pruneBuffer (s : State) : State :=
  on_refs (set_keyBufferRef (filter (fresh (now s)) (keyBufferRef (refs s)))) s.

Definition repeat_guard (k : string) (n : nat) (last : option KeyEvent) : bool :=
  match last with
  | Some lk => (key lk =? k)%string && (n - t lk <? KEY_REPEAT_GUARD_MS)
  | None => false
  end.

Definition addToBuffer (k : string) (s : State) : State :=
  let n := now s in
  let s := pruneBuffer s in
  if repeat_guard k n (lastKeyRef (refs s)) then s
  else
    let s := on_refs (set_lastKeyRef (Some (mkKeyEvent k n))) s in
    let s := if BUFFER_MAX <=? List.length (keyBufferRef (refs s))
             then on_refs (set_keyBufferRef (tl (keyBufferRef (refs s)))) s
             else s in
    on_refs (set_keyBufferRef (keyBufferRef (refs s) ++ [mkKeyEvent k n])) s.

(** [string | null], read from the refs; [None] is [null] or [undefined]. *)
Definition getExpectedLetter (s : State) : option string :=
  match phaseRef (refs s) with
  | click_letter i => nth_error (lettersRef (refs s)) i
  | type_prefix k =>
      char_at (join (slice0 k (lettersRef (refs s)))) (typingCurrentIndexRef (refs s))
  | blend_prefix _ => None
  end.

(** JavaScript truthiness of a [string | null]. *)
Definition truthy (o : option string) : bool :=
  match o with
  | Some x => negb (x =? "")%string
  | None => false
  end.

Definition playSoundEffect (kind : EffectKind) (s : State) : State :=
  play (SoundEffect kind) s.

(** The status line: [setAnnouncement(msg)], cleared by a timer 1000 ms later. *)
Definition announce (msg : string) (s : State) : State :=
  fst (setTimeout ClearAnnouncement 1000 (enqueue (SetAnnouncement msg) s)).

(** [advanceToNextPhase]: it reads [phase], the constant of the render that
    created this function ([phase_c]), not [phaseRef]. *)
Definition advanceToNextPhase (phase_c : Phase) (s : State) : State :=
  match phase_c with
  | click_letter 0 => enqueue (SetTypedBuffer "") (enqueue (SetPhase (click_letter 1)) s)
  | click_letter 1 => enqueue (SetTypedBuffer "") (enqueue (SetPhase (blend_prefix 2)) s)
  | click_letter 2 => enqueue (SetTypedBuffer "") (enqueue (SetPhase (blend_prefix 3)) s)
  | _ => s
  end.

Definition handleCorrectLetterClick (phase_c : Phase) (ch : string) (s : State) : State :=
  let s := playSoundEffect correct s in
  let s := announce "Correct" s in
  let s := advanceToNextPhase phase_c s in
  fst (setTimeout Noop 100 s).

Definition handleCorrectType (ch : string) (s : State) : State :=
  let s := playSoundEffect correct s in
  let s := announce "Correct" s in
  let nextBuffer := (typedBufferRef (refs s) ++ ch)%string in
  let s := enqueue (SetTypedBuffer (toUpperCase nextBuffer)) s in
  enqueue AdvanceTypingIndex s.

(** The index the [for] loop of [processBuffer] stops at: the first [i] with
    [buffer[i].key === expected]. *)
Fixpoint find_key (expected : string) (buffer : list KeyEvent) : option nat :=
  match buffer with
  | [] => None
  | ev :: rest =>
      if (key ev =? expected)%string then Some 0
      else option_map S (find_key expected rest)
  end.

(** [buffer.splice(i, 1)]. *)
Fixpoint splice1 {A} (i : nat) (xs : list A) : list A :=
  match xs, i with
  | [], _ => []
  | _ :: r, 0 => r
  | x :: r, S j => x :: splice1 j r
  end.

(** [processBuffer], of the render whose [phase] is [phase_c].  The recursion
    of the source is bounded here by [fuel]; [None] means the fuel ran out
    ([processBuffer_total] shows it does not, from the buffer's length on). *)
Fixpoint processBuffer (fuel : nat) (phase_c : Phase) (s : State) : option State :=
  match fuel with
  | 0 => None
  | S fuel' =>
      let s := pruneBuffer s in
      let expected := getExpectedLetter s in
      if negb (truthy expected) then Some s
      else
        let e := match expected with Some x => x | None => "" end in
        let currentPhase := phaseRef (refs s) in
        match find_key e (keyBufferRef (refs s)) with
        | None => Some s
        | Some i =>
            let s := on_refs (set_keyBufferRef (splice1 i (keyBufferRef (refs s)))) s in
            let s := match currentPhase with
                     | click_letter _ => handleCorrectLetterClick phase_c e s
                     | type_prefix _ => handleCorrectType e s
                     | blend_prefix _ => s
                     end in
            processBuffer fuel' phase_c s
        end
  end.

(** A drain pass: [processBuffer()] called from a handler or a timer. *)
Definition drain (phase_c : Phase) (s : State) : State :=
  match processBuffer (S (List.length (keyBufferRef (refs s)))) phase_c s with
  | Some s' => s'
  | None => s
  end.

Definition resetForNext (s : State) : State :=
  let s := clearBlendTimeouts s in
  let s := on_refs (set_keyBufferRef []) s in
  let s := on_refs (set_lastKeyRef None) s in
  let s := enqueue SetWordIndexNext s in
  let s := enqueue (SetPhase (click_letter 0)) s in
  let s := enqueue (SetTypedBuffer "") s in
  let s := enqueue (SetTypingCurrentIndex 0) s in
  let s := enqueue (SetBlendHighlightStep 0) s in
  let s := on_refs (set_lastAutoRef "") s in
  let s := enqueue (SetAnnouncement "") s in
  enqueue (SetShowImage false) s.

(** The updater [(currentIdx) => ...] of [handleCorrectType]; it runs when
    React applies the update, and the setters it calls are queued behind the
    updates already pending. *)
Definition advance_index (s : State) : State :=
  let nextIndex := typingCurrentIndex (view s) + 1 in
  let s :=
    match phaseRef (refs s) with
    | type_prefix k =>
        if nextIndex =? k then
          if k =? 2 then
            enqueue (SetShowImage false)
              (enqueue (SetTypingCurrentIndex 0)
                 (enqueue (SetTypedBuffer "")
                    (enqueue (SetPhase (click_letter 2)) s)))
          else if k =? 3 then resetForNext (enqueue (SetShowImage false) s)
          else s
        else s
    | _ => s
    end in
  set_view (set_typingCurrentIndex nextIndex (view s)) s.

Definition apply_update (u : Update) (s : State) : State :=
  match u with
  | SetWordIndexNext =>
      set_view (set_wordIndex ((wordIndex (view s) + 1) mod List.length WORDS) (view s)) s
  | SetPhase p => set_view (set_phase p (view s)) s
  | SetTypedBuffer x => set_view (set_typedBuffer x (view s)) s
  | SetBlendHighlightStep n => set_view (set_blendHighlightStep n (view s)) s
  | SetTypingCurrentIndex n => set_view (set_typingCurrentIndex n (view s)) s
  | AdvanceTypingIndex => advance_index s
  | SetAnnouncement x => set_view (set_announcement x (view s)) s
  | SetShowImage b => set_view (set_showImage b (view s)) s
  end.

(** One render: the pending updates are applied in call order; setters called
    by an updater meanwhile are applied by a further pass (React allows 25). *)
Fixpoint render (passes : nat) (s : State) : State :=
  match passes with
  | 0 => s
  | S n =>
      match queue s with
      | [] => s
      | us => render n (fold_left (fun acc u => apply_update u acc) us (set_queue [] s))
      end
  end.

(** ** Effects *)

(** The key of the auto-pronounce effect:
    [`${word}:${phase.type}:${"clickIndex" in phase ? phase.clickIndex : phase.k}`]. *)
Definition signature (v : View) : string :=
  (word v ++ ":" ++ phase_type (phase v) ++ ":" ++ string_of_nat (phase_sub (phase v)))%string.

Definition push_blendTimeout (id : nat) (s : State) : State :=
  on_refs (fun r => set_blendTimeoutsRef (blendTimeoutsRef r ++ [id]) r) s.

(** [for (let i = 0; i < phase.k; i++)]: [n] rounds remain, the next is [i]. *)
Fixpoint schedule_steps (n i : nat) (s : State) : State :=
  match n with
  | 0 => s
  | S n' =>
      let (s1, id) := setTimeout (BlendStep (i + 1)) (i * 1000) s in
      schedule_steps n' (S i) (push_blendTimeout id s1)
  end.

(** Body of the auto-pronounce effect (deps [phase, word, letters]). *)
Definition auto_effect (s : State) : State :=
  let v := view s in
  let k_ := signature v in
  if (lastAutoRef (refs s) =? k_)%string then s
  else
    let s := on_refs (set_lastAutoRef k_) s in
    match phase v with
    | click_letter i => play (LetterSound (nth_error (letters v) i)) s
    | blend_prefix k =>
        let s := play (Clip (join (slice0 k (letters v)))) s in
        let s := if k =? 3 then enqueue (SetShowImage true) s else s in
        let s := clearBlendTimeouts s in
        let s := enqueue (SetBlendHighlightStep 0) s in
        let s := schedule_steps k 0 s in
        let (s, id) := setTimeout (BlendRed k) (k * 1000) s in
        push_blendTimeout id s
    | type_prefix _ => s
    end.

(** The drain effect (deps [phase, typingCurrentIndex, word, letters,
    typedBuffer]) and its cleanup. *)
Definition drain_effect (s : State) : State :=
  let (s1, id) := setTimeout (DrainTimer (phase (view s))) 0 s in
  set_drainId (Some id) s1.

Definition drain_cleanup (s : State) : State :=
  match drainId s with
  | Some id => clearTimeout id s
  | None => s
  end.

(** After a render: the cleanups of the effects whose dependencies changed,
    then their bodies, in declaration order.  [old] is the view of the
    previous render. *)
Definition run_effects (old : View) (s : State) : State :=
  let v := view s in
  let phaseCh := negb (phaseId old =? phaseId v) in
  let idxCh := negb (typingCurrentIndex old =? typingCurrentIndex v) in
  let typedCh := negb (typedBuffer old =? typedBuffer v)%string in
  let wordCh := negb (word old =? word v)%string in
  let autoCh := phaseCh || wordCh in
  let drainCh := phaseCh || idxCh || wordCh || typedCh in
  let s := if autoCh then clearBlendTimeouts s else s in
  let s := if drainCh then drain_cleanup s else s in
  let s := if phaseCh then on_refs (set_phaseRef (phase v)) s else s in
  let s := if idxCh then on_refs (set_typingCurrentIndexRef (typingCurrentIndex v)) s else s in
  let s := if typedCh then on_refs (set_typedBufferRef (typedBuffer v)) s else s in
  let s := if wordCh then on_refs (set_lettersRef (letters v)) s else s in
  let s := if autoCh then auto_effect s else s in
  if drainCh then drain_effect s else s.

Definition commit_once (s : State) : State :=
  run_effects (view s) (render 25 s).

(** Render and run effects until no setter call is pending (React stops a
    chain of nested updates after 50). *)
Fixpoint settle (n : nat) (s : State) : State :=
  match n with
  | 0 => s
  | S n' =>
      match queue s with
      | [] => s
      | _ => settle n' (commit_once s)
      end
  end.

Definition commit (s : State) : State := settle 50 s.

(** ** Handlers *)

(** The render whose closure the key handler keeps: the effect that installs
    [onKey] has the dependency list [[]], so it runs at mount only. *)
Definition mount_phase : Phase := click_letter 0.

(** [ch === expected] for an optional [expected]. *)
Definition same_letter (ch : string) (expected : option string) : bool :=
  match expected with
  | Some x => (ch =? x)%string
  | None => false
  end.

(** [onKey], with [e.key] as argument; the state is committed when the
    handler returns. *)
Definition onKey_body (k : string) (s : State) : State :=
  let ch := toUpperCase k in
  if negb (includes LETTERS ch) then s
  else
    match phaseRef (refs s) with
    | blend_prefix _ => s
    | _ =>
        let expected := getExpectedLetter s in
        if truthy expected && same_letter ch expected then
          drain mount_phase (addToBuffer ch s)
        else if truthy expected then
          let s := playSoundEffect wrong s in
          let s := announce "Try again" s in
          addToBuffer ch s
        else s
    end.

Definition onKey (k : string) (s : State) : State := commit (onKey_body k s).

(** ** Timer callbacks *)

Definition run_callback (c : Callback) (s : State) : State :=
  match c with
  | ClearAnnouncement => enqueue (SetAnnouncement "") s
  | Noop => s
  | BlendStep v => enqueue (SetBlendHighlightStep v) s
  | BlendRed k =>
      fst (setTimeout (ToTypePrefix k) 100 (enqueue (SetBlendHighlightStep (k + 1)) s))
  | ToTypePrefix k =>
      let s := enqueue (SetPhase (type_prefix k)) s in
      let s := enqueue (SetTypedBuffer "") s in
      let s := enqueue (SetTypingCurrentIndex 0) s in
      if negb (k =? 3) then enqueue (SetShowImage false) s else s
  | DrainTimer phase_c => drain phase_c s
  end.

(** The pending timer that fires next: the earliest due, the one scheduled
    first among equals. *)
Fixpoint earliest (ts : list Timer) : option Timer :=
  match ts with
  | [] => None
  | tm :: r =>
      match earliest r with
      | Some m => if due m <? due tm then Some m else Some tm
      | None => Some tm
      end
  end.

Definition fire (tm : Timer) (s : State) : State :=
  commit (run_callback (cb tm) (clearTimeout (tid tm) s)).

(** [onClick] of the Replay button, of the render on screen: the sound of
    the letter to press again, or the clip of the prefix; no setter is
    called. *)
Definition replay (s : State) : State :=
  let v := view s in
  match phase v with
  | click_letter clickIndex => play (LetterSound (nth_error (letters v) clickIndex)) s
  | blend_prefix k | type_prefix k => play (Clip (join (slice0 k (letters v)))) s
  end.

(** ** The event loop

    Events run one at a time.  A timer fires when the loop picks it, at its
    due time or later, never earlier, and the earliest due goes first. *)

Inductive Event :=
| Key (k : string)      (* a keydown event *)
| Tick                  (* the next due timer fires *)
| Wait (dt : nat)       (* [dt] ms pass *)
| Replay.               (* a click on the Replay button *)

Definition step (e : Event) (s : State) : option State :=
  match e with
  | Key k => Some (onKey k s)
  | Tick =>
      match earliest (timers s) with
      | Some tm => if due tm <=? now s then Some (fire tm s) else None
      | None => None
      end
  | Wait dt => Some (set_now (now s + dt) s)
  | Replay => Some (replay s)
  end.

Fixpoint run (es : list Event) (s : State) : option State :=
  match es with
  | [] => Some s
  | e :: r =>
      match step e s with
      | Some s' => run r s'
      | None => None
      end
  end.

(** The component before its first effects ([useState] and [useRef]
    initial values), at clock [t0]. *)
Definition first_render (t0 : nat) : State :=
  let v := mkView 0 (click_letter 0) "" 0 0 "" false 0 in
  mkState v (mkRefs [] None (phase v) 0 "" (letters v) [] "") [] [] 0 None t0 [].

(** Mount: every effect body runs once. *)
Definition mount (t0 : nat) : State :=
  commit (drain_effect (auto_effect (first_render t0))).

(** States the component can be in: after any run of events from mount. *)
Definition reachable (s : State) : Prop :=
  exists t0 es, run es (mount t0) = Some s.

(** Simulated time: [dt] ms pass and every timer that becomes due fires, in
    due order, at its due time.  [None]: the fuel ran out. *)
Fixpoint elapse (fuel dt : nat) (s : State) : option State :=
  match fuel with
  | 0 => None
  | S f =>
      match earliest (timers s) with
      | Some tm =>
          if due tm <=? now s then elapse f dt (fire tm s)
          else if due tm - now s <=? dt
               then elapse f (dt - (due tm - now s)) (set_now (due tm) s)
               else Some (set_now (now s + dt) s)
      | None => Some (set_now (now s + dt) s)
      end
  end.

(** A script of key presses and pauses, every timer firing on time. *)
Inductive Action := Press (k : string) | Pause (dt : nat).

Fixpoint play_script (acts : list Action) (s : State) : option State :=
  match acts with
  | [] => Some s
  | Press k :: r => play_script r (onKey k s)
  | Pause dt :: r =>
      match elapse 100 dt s with
      | Some s' => play_script r s'
      | None => None
      end
  end.

(** ** What the render shows *)

(** [colorForIndex], [shouldPulsate] and [currentPrefix] of a render: they
    read the state of that render. *)
Definition colorForIndex (v : View) (idx : nat) : string :=
  match phase v with
  | click_letter clickIndex =>
      if idx =? clickIndex then "text-black" else "text-gray-300"
  | blend_prefix k =>
      if blendHighlightStep v <=? k
      then (if idx <? blendHighlightStep v then "text-black" else "text-gray-300")
      else (if idx <? k then "text-red-600" else "text-gray-300")
  | type_prefix k =>
      if idx <? k then "text-red-600" else "text-gray-300"
  end.

Definition shouldPulsate (v : View) (idx : nat) : bool :=
  match phase v with
  | type_prefix k => (idx =? typingCurrentIndex v) && (2 <=? k)
  | _ => false
  end.

(** [None] is [undefined]. *)
Definition currentPrefix (v : View) : option string :=
  match phase v with
  | click_letter clickIndex => nth_error (letters v) clickIndex
  | blend_prefix k | type_prefix k => Some (join (slice0 k (letters v)))
  end.

(** ** The strict component

    The third component of [WordsGame.tsx] has no buffer.  Its key handler is
    installed again whenever [phase], [typedBuffer] or [word] change, so a
    handler reads the state of the last render; what it does is the list of
    the calls it makes, in order. *)

Module Strict.

(** Its [useState] values. *)
Record View := mkView {
  wordIndex : nat;
  phase : Phase;
  typedBuffer : string;
  blendHighlightStep : nat
}.

Inductive Update :=
| SetWordIndexNext                     (* setWordIndex((i) => (i + 1) % WORDS.length) *)
| SetPhase (p : Phase)
| SetTypedBuffer (x : string)
| SetBlendHighlightStep (n : nat).

(** [playFeedback(kind)]. *)
Inductive Feedback := success | failure.

(** A call a handler makes. *)
Inductive Op :=
| Set_ (u : Update)                    (* a [useState] setter *)
| PlayFeedback (kind : Feedback)
| PlayLetterSound (letter : option string)
| ResetAfter (delay : nat)             (* setTimeout(() => resetForNext(), delay) *)
| ClearBlendTimeouts
| SetLastAuto (x : string).            (* lastAutoRef.current = x *)

Definition word (v : View) : string := nth (wordIndex v) WORDS "".
Definition letters (v : View) : list string := split_chars (word v).

Definition resetForNext : list Op :=
  [ClearBlendTimeouts;
   Set_ SetWordIndexNext;
   Set_ (SetPhase (click_letter 0));
   Set_ (SetTypedBuffer "");
   Set_ (SetBlendHighlightStep 0);
   SetLastAuto ""].

Definition handleLetterClick (v : View) (ch : string) : list Op :=
  match phase v with
  | click_letter clickIndex =>
      let need := nth_error (letters v) clickIndex in
      if negb (same_letter ch need) then
        [PlayFeedback failure; PlayLetterSound need]
      else
        PlayFeedback success ::
        (if clickIndex =? 0 then
           [Set_ (SetPhase (click_letter 1)); Set_ (SetTypedBuffer "")]
         else if clickIndex =? 1 then
           [Set_ (SetPhase (blend_prefix 2)); Set_ (SetTypedBuffer "")]
         else if clickIndex =? 2 then
           [Set_ (SetPhase (blend_prefix 3)); Set_ (SetTypedBuffer "")]
         else [])
  | _ => []
  end.

Definition handleType (v : View) (ch : string) : list Op :=
  match phase v with
  | type_prefix k =>
      let target := toUpperCase (join (slice0 k (letters v))) in
      let next := toUpperCase (typedBuffer v ++ ch) in
      if negb (prefix next target) then      (* !target.startsWith(next) *)
        [PlayFeedback failure]
      else
        [Set_ (SetTypedBuffer next); PlayFeedback success]
        ++ (if (next =? target)%string then
              if k =? 2 then
                [Set_ (SetPhase (click_letter 2)); Set_ (SetTypedBuffer "")]
              else if k =? 3 then [ResetAfter 350]
              else []
            else [])
  | _ => []
  end.

(** [onKey], with [e.key] as argument. *)
Definition onKey (v : View) (k : string) : list Op :=
  let ch := toUpperCase k in
  if negb (includes LETTERS ch) then []
  else
    match phase v with
    | click_letter _ => handleLetterClick v ch
    | type_prefix _ => handleType v ch
    | blend_prefix _ => []
    end.

Definition apply_update (u : Update) (v : View) : View :=
  match u with
  | SetWordIndexNext =>
      mkView ((wordIndex v + 1) mod List.length WORDS) (phase v) (typedBuffer v)
             (blendHighlightStep v)
  | SetPhase p => mkView (wordIndex v) p (typedBuffer v) (blendHighlightStep v)
  | SetTypedBuffer x => mkView (wordIndex v) (phase v) x (blendHighlightStep v)
  | SetBlendHighlightStep n => mkView (wordIndex v) (phase v) (typedBuffer v) n
  end.

(** The state of the render that follows: the setter calls applied in call
    order. *)
Definition rendered (ops : list Op) (v : View) : View :=
  fold_left (fun acc o => match o with Set_ u => apply_update u acc | _ => acc end) ops v.

(** A key press and the render it causes. *)
Definition press (v : View) (k : string) : View := rendered (onKey v k) v.

Definition presses (ks : list string) (v : View) : View := fold_left press ks v.

(** The sounds asked for, in call order. *)
Definition sounds (ops : list Op) : list Op :=
  filter (fun o => match o with PlayFeedback _ | PlayLetterSound _ => true | _ => false end)
         ops.

(** [target] of [handleType]. *)
Definition target (k : nat) (v : View) : string :=
  toUpperCase (join (slice0 k (letters v))).

End Strict.

(** ** The delayed component

    The second component of [WordsGame.tsx] has no buffer either; it answers
    a correct key at once and moves on 1500 ms later.  Its key handler is
    installed again when [phase], [typedBuffer], [typingCurrentIndex] or the
    word change, so a handler reads the state of the last render, and a
    timer callback keeps the values of the render that scheduled it. *)

Module Delayed.

(** Its [useState] values. *)
Record View := mkView {
  wordIndex : nat;
  phase : Phase;
  typedBuffer : string;
  blendHighlightStep : nat;
  typingCurrentIndex : nat;
  announcement : string;
  showImage : bool
}.

Inductive Update :=
| SetWordIndexNext                     (* setWordIndex((i) => (i + 1) % WORDS.length) *)
| SetPhase (p : Phase)
| SetTypedBuffer (x : string)
| SetBlendHighlightStep (n : nat)
| SetTypingCurrentIndex (n : nat)
| SetAnnouncement (x : string)
| SetShowImage (b : bool).

(** The body of a scheduled callback, with the values it closes over. *)
Inductive Callback :=
| ClearAnnouncement                    (* () => setAnnouncement("") *)
| AdvanceClick (clickIndex : nat)      (* the 1500 ms callback of handleLetterClick *)
| AdvanceType (typingCurrentIndex k : nat).  (* the 1500 ms callback of handleType *)

(** A call a handler or a callback makes. *)
Inductive Op :=
| Set_ (u : Update)                    (* a [useState] setter *)
| PlaySoundEffect (kind : EffectKind)
| PlayLetterSound (letter : option string)
| SetTimeout (c : Callback) (delay : nat)
| ClearBlendTimeouts
| SetLastAuto (x : string).            (* lastAutoRef.current = x *)

Definition word (v : View) : string := nth (wordIndex v) WORDS "".
Definition letters (v : View) : list string := split_chars (word v).

Definition resetForNext : list Op :=
  [ClearBlendTimeouts;
   Set_ SetWordIndexNext;
   Set_ (SetPhase (click_letter 0));
   Set_ (SetTypedBuffer "");
   Set_ (SetTypingCurrentIndex 0);
   Set_ (SetBlendHighlightStep 0);
   SetLastAuto "";
   Set_ (SetAnnouncement "");
   Set_ (SetShowImage false)].

Definition handleLetterClick (v : View) (ch : string) : list Op :=
  match phase v with
  | click_letter clickIndex =>
      let need := nth_error (letters v) clickIndex in
      if negb (same_letter ch need) then
        [PlaySoundEffect wrong;
         Set_ (SetAnnouncement "Try again");
         SetTimeout ClearAnnouncement 1000;
         PlayLetterSound need]
      else
        [PlaySoundEffect correct;
         Set_ (SetAnnouncement "Correct");
         SetTimeout ClearAnnouncement 1000;
         SetTimeout (AdvanceClick clickIndex) 1500]
  | _ => []
  end.

Definition handleType (v : View) (ch : string) : list Op :=
  match phase v with
  | type_prefix k =>
      let target := toUpperCase (join (slice0 k (letters v))) in
      let expectedLetter := char_at target (typingCurrentIndex v) in
      let pressed := toUpperCase ch in
      if negb (same_letter pressed expectedLetter) then
        [PlaySoundEffect wrong;
         Set_ (SetAnnouncement "Try again");
         SetTimeout ClearAnnouncement 1000]
      else
        let nextBuffer := (typedBuffer v ++ ch)%string in
        [PlaySoundEffect correct;
         Set_ (SetAnnouncement "Correct");
         SetTimeout ClearAnnouncement 1000;
         Set_ (SetTypedBuffer (toUpperCase nextBuffer));
         SetTimeout (AdvanceType (typingCurrentIndex v) k) 1500]
  | _ => []
  end.

(** [onKey], with [e.key] as argument. *)
Definition onKey (v : View) (k : string) : list Op :=
  let ch := toUpperCase k in
  if negb (includes LETTERS ch) then []
  else
    match phase v with
    | click_letter _ => handleLetterClick v ch
    | type_prefix _ => handleType v ch
    | blend_prefix _ => []
    end.

(** What a callback does when its timer fires. *)
Definition run_callback (c : Callback) : list Op :=
  match c with
  | ClearAnnouncement => [Set_ (SetAnnouncement "")]
  | AdvanceClick clickIndex =>
      if clickIndex =? 0 then
        [Set_ (SetPhase (click_letter 1)); Set_ (SetTypedBuffer "")]
      else if clickIndex =? 1 then
        [Set_ (SetPhase (blend_prefix 2)); Set_ (SetTypedBuffer "")]
      else if clickIndex =? 2 then
        [Set_ (SetPhase (blend_prefix 3)); Set_ (SetTypedBuffer "")]
      else []
  | AdvanceType typingCurrentIndex k =>
      Set_ (SetTypingCurrentIndex (typingCurrentIndex + 1)) ::
      (if typingCurrentIndex + 1 =? k then
         if k =? 2 then
           [Set_ (SetPhase (click_letter 2));
            Set_ (SetTypedBuffer "");
            Set_ (SetTypingCurrentIndex 0);
            Set_ (SetShowImage false)]
         else if k =? 3 then Set_ (SetShowImage false) :: resetForNext
         else []
       else [])
  end.

Definition apply_update (u : Update) (v : View) : View :=
  match u with
  | SetWordIndexNext =>
      mkView ((wordIndex v + 1) mod List.length WORDS) (phase v) (typedBuffer v)
             (blendHighlightStep v) (typingCurrentIndex v) (announcement v) (showImage v)
  | SetPhase p =>
      mkView (wordIndex v) p (typedBuffer v) (blendHighlightStep v)
             (typingCurrentIndex v) (announcement v) (showImage v)
  | SetTypedBuffer x =>
      mkView (wordIndex v) (phase v) x (blendHighlightStep v)
             (typingCurrentIndex v) (announcement v) (showImage v)
  | SetBlendHighlightStep n =>
      mkView (wordIndex v) (phase v) (typedBuffer v) n
             (typingCurrentIndex v) (announcement v) (showImage v)
  | SetTypingCurrentIndex n =>
      mkView (wordIndex v) (phase v) (typedBuffer v) (blendHighlightStep v)
             n (announcement v) (showImage v)
  | SetAnnouncement x =>
      mkView (wordIndex v) (phase v) (typedBuffer v) (blendHighlightStep v)
             (typingCurrentIndex v) x (showImage v)
  | SetShowImage b =>
      mkView (wordIndex v) (phase v) (typedBuffer v) (blendHighlightStep v)
             (typingCurrentIndex v) (announcement v) b
  end.

(** The state of the render that follows: the setter calls applied in call
    order. *)
Definition rendered (ops : list Op) (v : View) : View :=
  fold_left (fun acc o => match o with Set_ u => apply_update u acc | _ => acc end) ops v.

(** The timers a handler set, in call order. *)
Fixpoint timeouts (ops : list Op) : list (Callback * nat) :=
  match ops with
  | [] => []
  | SetTimeout c d :: r => (c, d) :: timeouts r
  | _ :: r => timeouts r
  end.

(** A key press and the render it causes. *)
Definition press (v : View) (k : string) : View := rendered (onKey v k) v.

(** A timer fires: its callback runs, and the component renders. *)
Definition fire (v : View) (c : Callback) : View := rendered (run_callback c) v.

(** A key press, and then nothing until the timers it set have fired (the
    one at 1000 ms before the one at 1500 ms). *)
Definition press_and_wait (v : View) (k : string) : View :=
  fold_left fire (map fst (timeouts (onKey v k))) (press v k).

End Delayed.

(** ** The clip player ([playClip] of [WordsGame.tsx])

    [playClip] makes an audio element for the m4a file and, when that one
    fails, for the mp3 file.  An element is a number, the order of its
    creation; the browser is the sequence of events of the elements, and
    [new Audio(url)] and [el.play()] return (they do not throw). *)

Module Clip.

(** An element made by [tryExt]: its file, the promise its [onended]
    resolves, and what its [onerror] and the rejection of its [play()] go on
    with: [tryExt(rest)] for the same clip. *)
Record Element := mkElement {
  url : string;
  promise : nat;
  base : string;
  rest : list string
}.

Record World := mkWorld {
  elements : list Element;     (* in creation order *)
  resolved : list nat;         (* the promises that are resolved *)
  nextPromise : nat
}.

Definition resolve (p : nat) (w : World) : World :=
  if existsb (Nat.eqb p) (resolved w) then w
  else mkWorld (elements w) (p :: resolved w) (nextPromise w).

(** [tryExt(exts)] of the call with promise [p]. *)
Definition tryExt (p : nat) (b : string) (exts : list string) (w : World) : World :=
  match exts with
  | [] => resolve p w
  | ext :: rest =>
      mkWorld (elements w ++ [mkElement ("/audio/" ++ b ++ "." ++ ext) p b rest])
              (resolved w) (nextPromise w)
  end.

(** [playClip(base)]: the new state and the promise returned. *)
Definition playClip (b : string) (w : World) : World * nat :=
  let p := nextPromise w in
  (tryExt p b ["m4a"; "mp3"] (mkWorld (elements w) (resolved w) (S p)), p).

Inductive Event :=
| Ended (el : nat)           (* the element fires [ended] *)
| Error (el : nat)           (* it fires [error] *)
| PlayRejected (el : nat).   (* the promise of its [play()] rejects *)

Definition step (e : Event) (w : World) : World :=
  match e with
  | Ended i =>
      match nth_error (elements w) i with
      | Some el => resolve (promise el) w
      | None => w
      end
  | Error i | PlayRejected i =>
      match nth_error (elements w) i with
      | Some el => tryExt (promise el) (base el) (rest el) w
      | None => w
      end
  end.

Definition run (es : list Event) (w : World) : World := fold_left (fun acc e => step e acc) es w.

Definition is_resolved (p : nat) (w : World) : bool := existsb (Nat.eqb p) (resolved w).

End Clip.

(** ** The letter-sound player ([src/engine/speech.ts])

    The module keeps a cache of audio elements and falls back to speech
    synthesis.  The browser is a parameter: what it can play, whether it has
    speech synthesis, and how an attempt to play goes.  A promise is a
    number; [resolved] lists the promises that are resolved. *)

Module Speech.

Record Phon := mkPhon { name : string; sound : string }.

Definition PHONICS : list (string * Phon) :=
  [("A", mkPhon "ay" "ah");   ("B", mkPhon "bee" "buh"); ("C", mkPhon "see" "kuh");
   ("D", mkPhon "dee" "duh"); ("E", mkPhon "ee" "eh");   ("F", mkPhon "ef" "fff");
   ("G", mkPhon "jee" "guh"); ("H", mkPhon "aitch" "hhh"); ("I", mkPhon "eye" "ih");
   ("J", mkPhon "jay" "juh"); ("K", mkPhon "kay" "kuh"); ("L", mkPhon "el" "lll");
   ("M", mkPhon "em" "mmm");  ("N", mkPhon "en" "nnn");  ("O", mkPhon "oh" "aw");
   ("P", mkPhon "pee" "puh"); ("Q", mkPhon "cue" "kw");  ("R", mkPhon "ar" "rrr");
   ("S", mkPhon "es" "sss");  ("T", mkPhon "tee" "tuh"); ("U", mkPhon "you" "uh");
   ("V", mkPhon "vee" "vvv"); ("W", mkPhon "double you" "wuh");
   ("X", mkPhon "ex" "ks");   ("Y", mkPhon "why" "yuh"); ("Z", mkPhon "zee" "zzz")].

(** [PHONICS[letter]], for the strings [ttsLetter] is called with: they
    come out of [toUpperCase], and no inherited property of an object has
    a name without a lower-case letter. *)
Definition phonics (letter : string) : option Phon :=
  option_map snd (find (fun e => (fst e =? letter)%string) PHONICS).

(** The browser, as far as the module depends on it. *)
Record Browser := mkBrowser {
  hasAudio : bool;                   (* typeof Audio !== "undefined" *)
  canPlayType : string -> string;    (* testEl.canPlayType(type) *)
  hasSpeech : bool                   (* SpeechSynthesisUtterance and speechSynthesis exist *)
}.

Inductive Ext := m4a | mp3.

Definition ext_name (e : Ext) : string :=
  match e with m4a => "m4a" | mp3 => "mp3" end.

Definition canPlay (b : Browser) (ext : Ext) : bool :=
  if negb (hasAudio b) then false
  else
    let type := match ext with
                | m4a => "audio/mp4; codecs=mp4a.40.2"
                | mp3 => "audio/mpeg"
                end in
    let res := canPlayType b type in
    (res =? "probably")%string || (res =? "maybe")%string.

(** [string | null]. *)
Definition resolveUrl (b : Browser) (base : string) : option string :=
  if canPlay b m4a then Some ("/audio/" ++ base ++ ".m4a")
  else if canPlay b mp3 then Some ("/audio/" ++ base ++ ".mp3")
  else None.

(** An [HTMLAudioElement]: its source, whether [preload = "auto"] and
    [load()] were done, and the promise its [onended] handler resolves. *)
Record Audio := mkAudio {
  src : string;
  preloaded : bool;
  onended : option nat
}.

(** A property of [cache]: absent ([undefined]), [null], or an element. *)
Inductive Slot := Absent | Null | Element (el : Audio).

(** An utterance handed to [speechSynthesis.speak]; the rate is 0.9. *)
Record Utterance := mkUtterance { text : string; rate_percent : nat }.

Record World := mkWorld {
  cache : string -> Slot;
  didPreload : bool;
  speaking : list Utterance;          (* the queue of speechSynthesis *)
  resolved : list nat;                (* the promises that are resolved *)
  nextPromise : nat;
  playing : list (nat * string);      (* pending [el.play()]: promise, cache key *)
  asked : list string                 (* keys of the elements asked to play, latest first *)
}.

Definition set_cache (x : string -> Slot) (w : World) : World :=
  mkWorld x (didPreload w) (speaking w) (resolved w) (nextPromise w) (playing w) (asked w).
Definition set_didPreload (x : bool) (w : World) : World :=
  mkWorld (cache w) x (speaking w) (resolved w) (nextPromise w) (playing w) (asked w).
Definition set_speaking (x : list Utterance) (w : World) : World :=
  mkWorld (cache w) (didPreload w) x (resolved w) (nextPromise w) (playing w) (asked w).
Definition set_resolved (x : list nat) (w : World) : World :=
  mkWorld (cache w) (didPreload w) (speaking w) x (nextPromise w) (playing w) (asked w).
Definition set_nextPromise (x : nat) (w : World) : World :=
  mkWorld (cache w) (didPreload w) (speaking w) (resolved w) x (playing w) (asked w).
Definition set_playing (x : list (nat * string)) (w : World) : World :=
  mkWorld (cache w) (didPreload w) (speaking w) (resolved w) (nextPromise w) x (asked w).
Definition set_asked (x : list string) (w : World) : World :=
  mkWorld (cache w) (didPreload w) (speaking w) (resolved w) (nextPromise w) (playing w) x.

(** [cache[k] = v]. *)
Definition store (k : string) (v : Slot) (c : string -> Slot) : string -> Slot :=
  fun k' => if (k' =? k)%string then v else c k'.

(** The module as loaded. *)
Definition initial : World := mkWorld (fun _ => Absent) false [] [] 0 [] [].

(** What [ttsLetter] says. *)
Definition utterance (letter : string) : Utterance :=
  mkUtterance
    (match phonics letter with
     | Some p => letter ++ ", " ++ name p ++ ". " ++ sound p
     | None => letter
     end)
    90.

(** [ttsLetter]: [cancel()] empties the queue, [speak(u)] adds to it; an
    exception (no speech synthesis) is swallowed. *)
Definition ttsLetter (b : Browser) (letter : string) (w : World) : World :=
  if hasSpeech b then set_speaking [utterance letter] w else w.

(** One round of the loops of [preloadLetterSounds]. *)
Definition preload_one (b : Browser) (c : string -> Slot) (base : string) : string -> Slot :=
  match resolveUrl b base with
  | Some url => store base (Element (mkAudio url true None)) c
  | None => store base Null c
  end.

Definition preload_names : list string :=
  (split_chars "ABCDEFGHIJKLMNOPQRSTUVWXYZ" ++ ["success"; "failure"])%list.

Definition preloadLetterSounds (b : Browser) (w : World) : World :=
  if didPreload w then w
  else
    let c := fold_left (preload_one b) (split_chars "ABCDEFGHIJKLMNOPQRSTUVWXYZ") (cache w) in
    let c := fold_left (preload_one b) ["success"; "failure"] c in
    set_didPreload true (set_cache c w).

(** [resolve()] of promise [p]; a second call has no effect. *)
Definition resolve (p : nat) (w : World) : World :=
  if existsb (Nat.eqb p) (resolved w) then w else set_resolved (p :: resolved w) w.

(** How the element takes [el.currentTime = 0] and [el.play()]. *)
Inductive Attempt :=
| SeekThrows       (* the assignment throws *)
| PlayThrows       (* [play()] throws *)
| Started.         (* [play()] returns its promise *)

(** [playLetterSound(letter)]: the new state and the promise returned. *)
Definition playLetterSound (b : Browser) (how : Attempt) (letter : string) (w : World)
  : World * nat :=
  let L := toUpperCase letter in
  let p := nextPromise w in
  let w := set_nextPromise (S p) w in
  match cache w L with
  | Element el =>
      match how with
      | SeekThrows => (resolve p (ttsLetter b L w), p)
      | PlayThrows =>
          let w := set_cache (store L (Element (mkAudio (src el) (preloaded el) (Some p)))
                                    (cache w)) w in
          let w := set_asked (L :: asked w) w in
          (resolve p (ttsLetter b L w), p)
      | Started =>
          let w := set_cache (store L (Element (mkAudio (src el) (preloaded el) (Some p)))
                                    (cache w)) w in
          let w := set_asked (L :: asked w) w in
          (set_playing ((p, L) :: playing w) w, p)
      end
  | _ => (resolve p (ttsLetter b L w), p)
  end.

(** [playFeedback(kind)], with ["success"] or ["failure"]: the promise of
    [play()] is dropped, and so is an exception. *)
Definition playFeedback (how : Attempt) (kind : string) (w : World) : World :=
  match cache w kind with
  | Element _ =>
      match how with
      | SeekThrows => w
      | _ => set_asked (kind :: asked w) w
      end
  | _ => w
  end.

Definition remove_play (p : nat) (w : World) : World :=
  set_playing (filter (fun e => negb (fst e =? p)) (playing w)) w.

(** What the browser does later. *)
Inductive Event :=
| PlayRejected (p : nat)     (* the promise of [el.play()] of call [p] rejects *)
| PlayFulfilled (p : nat)    (* it is fulfilled: the sound plays *)
| Ended (k : string).        (* the element [cache[k]] fires [ended] *)

Definition step (b : Browser) (e : Event) (w : World) : World :=
  match e with
  | PlayRejected p =>
      match find (fun e => fst e =? p) (playing w) with
      | Some (_, L) => resolve p (ttsLetter b L (remove_play p w))
      | None => w
      end
  | PlayFulfilled p => remove_play p w
  | Ended k =>
      match cache w k with
      | Element el =>
          match onended el with
          | Some p => resolve p w
          | None => w
          end
      | _ => w
      end
  end.

Definition run (b : Browser) (es : list Event) (w : World) : World :=
  fold_left (fun acc e => step b e acc) es w.

Definition is_resolved (p : nat) (w : World) : bool := existsb (Nat.eqb p) (resolved w).

End Speech.

(** ** The exhaustive deck ([src/engine/shuffle.ts])

    [Math.random] is a parameter: [random n] is the double the [n]-th call
    returns, as the rational it is.  The deck is a JavaScript array: a cell
    holds a value or [undefined], a read outside the array gives
    [undefined] and a write outside extends the array. *)

(** [2^53], and half the distance from an integer [c >= 1] to the double
    just below it: with [2^e < c <= 2^(e+1)] the doubles below [c] are
    [2^(e-52)] apart, so half of that is [2^e / 2^53] (below 1 they are
    [2^-53] apart). *)
Definition two53 : positive := 9007199254740992%positive.

Definition half_gap (c : Z) : Q :=
  if (c <=? 1)%Z then Qmake 1 (2 * two53) else Qmake (2 ^ Z.log2 (c - 1)) two53.

Module Shuffle.
Section Deck.

Variable T : Type.
Variable random : nat -> Q.

(** [deck[i]]. *)
Definition read (i : nat) (d : list (option T)) : option T :=
  match nth_error d i with
  | Some x => x
  | None => None
  end.

(** [deck[i] = x]. *)
Fixpoint write (i : nat) (x : option T) (d : list (option T)) : list (option T) :=
  match i, d with
  | 0, [] => [x]
  | 0, _ :: r => x :: r
  | S i', [] => None :: write i' x []
  | S i', y :: r => y :: write i' x r
  end.

(** [[deck[i], deck[j]] = [deck[j], deck[i]]]. *)
Definition swap (i j : nat) (d : list (option T)) : list (option T) :=
  let dj := read j d in
  let di := read i d in
  write j di (write i dj d).

(** [Math.floor(r * (i + 1))], in double arithmetic.  The product is the
    double nearest to the exact product [x], a tie going to the even
    mantissa.  The integers up to [2^53] are doubles and rounding is
    monotone, so the rounded product lies between the floor and the ceiling
    [c] of [x], and its floor is [c] exactly when [x] rounds to [c]: when
    [x] is at least [c] minus half the gap below [c] (at the midpoint the
    tie goes to [c], whose mantissa is even).  Otherwise it is the floor of
    [x].  This is exact for [i + 1 <= 2^52]; an array has fewer than [2^32]
    cells. *)
Definition pick (r : Q) (i : nat) : nat :=
  let x := Qmult r (inject_Z (Z.of_nat (i + 1))) in
  let c := Qceiling x in
  Z.to_nat (if Qle_bool (Qminus (inject_Z c) (half_gap c)) x then c else Qfloor x).

(** The deck and the number of calls of [Math.random] so far. *)
Record State := mkState { deck : list (option T); calls : nat }.

(** [for (let i = ...; i > 0; i--)], from [i] down. *)
Fixpoint shuffle_from (i : nat) (s : State) : State :=
  match i with
  | 0 => s
  | S i' =>
      let j := pick (random (calls s)) i in
      shuffle_from i' (mkState (swap i j (deck s)) (S (calls s)))
  end.

Definition shuffle (s : State) : State :=
  shuffle_from (List.length (deck s) - 1) s.

(** [deck = [...items]; shuffle()]. *)
Definition refill (items : list T) (s : State) : State :=
  shuffle (mkState (map Some items) (calls s)).

Definition makeExhaustiveDeck (items : list T) : State :=
  refill items (mkState [] 0).

(** [next()]: the card, [None] for [undefined], and the new state. *)
Definition next (items : list T) (s : State) : option T * State :=
  let s := if List.length (deck s) =? 0 then refill items s else s in
  (read (List.length (deck s) - 1) (deck s),          (* deck.pop() *)
   mkState (removelast (deck s)) (calls s)).

(** [n] calls of [next()]: the cards in the order dealt. *)
Fixpoint deal (items : list T) (n : nat) (s : State) : list (option T) * State :=
  match n with
  | 0 => ([], s)
  | S n' =>
      let (c, s1) := next items s in
      let (cs, s2) := deal items n' s1 in
      (c :: cs, s2)
  end.

End Deck.
End Shuffle.

Arguments Shuffle.read {T}.
Arguments Shuffle.write {T}.
Arguments Shuffle.swap {T}.
Arguments Shuffle.mkState {T}.
Arguments Shuffle.deck {T}.
Arguments Shuffle.calls {T}.
Arguments Shuffle.shuffle_from {T}.
Arguments Shuffle.shuffle {T}.
Arguments Shuffle.refill {T}.
Arguments Shuffle.makeExhaustiveDeck {T}.
Arguments Shuffle.next {T}.
Arguments Shuffle.deal {T}.

(** * Properties *)

(** ** The drain pass terminates *)

Section Drain.

Abbreviation buf s := (keyBufferRef (refs s)).

Lemma find_key_lt (e : string) (b : list KeyEvent) (i : nat) :
  find_key e b = Some i -> i < List.length b.
Proof.
  revert i; induction b as [|ev r IH]; simpl; intros i H; [discriminate|].
  destruct (key ev =? e)%string.
  - injection H as <-. lia.
  - destruct (find_key e r) as [j|]; simpl in H; [|discriminate].
    injection H as <-. specialize (IH j eq_refl). lia.
Qed.

Lemma splice1_length {A} (i : nat) (xs : list A) :
  i < List.length xs -> S (List.length (splice1 i xs)) = List.length xs.
Proof.
  revert i; induction xs as [|x r IH]; simpl; intros i H; [lia|].
  destruct i; simpl; [reflexivity|]. rewrite IH; lia.
Qed.

Lemma filter_length_le {A} (f : A -> bool) (xs : list A) :
  List.length (filter f xs) <= List.length xs.
Proof. induction xs as [|x r IH]; simpl; [lia|]. destruct (f x); simpl; lia. Qed.

Lemma splice1_incl {A} (i : nat) (xs : list A) : incl (splice1 i xs) xs.
Proof.
  revert i; induction xs as [|x r IH]; intros i y H; [destruct i; exact H|].
  destruct i; simpl in H; [right; exact H|].
  destruct H as [<-|H]; [left; reflexivity|right; exact (IH i y H)].
Qed.

Lemma filter_splice1_id {A} (f : A -> bool) (i : nat) (xs : list A) :
  (forall x, In x xs -> f x = true) -> filter f (splice1 i xs) = splice1 i xs.
Proof.
  revert i; induction xs as [|x r IH]; intros i H; [destruct i; reflexivity|].
  assert (Hr : forall y, In y r -> f y = true) by (intros; apply H; right; assumption).
  destruct i; simpl.
  - clear IH. induction r as [|y r' IHr]; simpl; [reflexivity|].
    rewrite (Hr y (or_introl eq_refl)). f_equal. apply IHr; intros; [|apply Hr; right; assumption].
    destruct H0 as [<-|H0]; [apply H; left; reflexivity|apply Hr; right; assumption].
  - rewrite (H x (or_introl eq_refl)), IH; auto.
Qed.

Lemma handleCorrectLetterClick_buf (p : Phase) (ch : string) (s : State) :
  buf (handleCorrectLetterClick p ch s) = buf s
  /\ now (handleCorrectLetterClick p ch s) = now s
  /\ cues (handleCorrectLetterClick p ch s) = SoundEffect correct :: cues s.
Proof. destruct p as [[|[|[|i]]]|k|k]; repeat split. Qed.

Lemma handleCorrectType_buf (ch : string) (s : State) :
  buf (handleCorrectType ch s) = buf s
  /\ now (handleCorrectType ch s) = now s
  /\ cues (handleCorrectType ch s) = SoundEffect correct :: cues s.
Proof. repeat split. Qed.

Lemma getExpectedLetter_blend (s : State) (k : nat) :
  phaseRef (refs s) = blend_prefix k -> getExpectedLetter s = None.
Proof. unfold getExpectedLetter. intros ->. reflexivity. Qed.

(** With more fuel than buffered keys the pass returns; what it removes from
    the pruned buffer it has answered with one correct cue each. *)
Lemma processBuffer_fuel (fuel : nat) :
  forall (phase_c : Phase) (s : State),
    List.length (buf s) < fuel ->
    exists s',
      processBuffer fuel phase_c s = Some s'
      /\ now s' = now s
      /\ List.length (cues s') + List.length (buf s')
         = List.length (cues s) + List.length (filter (fresh (now s)) (buf s))
      /\ incl (buf s') (buf s).
Proof.
  induction fuel as [|f IH]; intros phase_c s Hlen; [lia|].
  cbn [processBuffer].
  set (s1 := pruneBuffer s).
  assert (Hb1 : buf s1 = filter (fresh (now s)) (buf s)) by reflexivity.
  assert (Hn1 : now s1 = now s) by reflexivity.
  assert (Hc1 : cues s1 = cues s) by reflexivity.
  destruct (negb (truthy (getExpectedLetter s1))) eqn:Ht.
  { exists s1. rewrite Hc1, Hb1. auto using incl_filter. }
  set (e := match getExpectedLetter s1 with Some x => x | None => "" end).
  destruct (find_key e (buf s1)) as [i|] eqn:Hf.
  2:{ exists s1. rewrite Hc1, Hb1. auto using incl_filter. }
  pose proof (splice1_length i (buf s1) (find_key_lt _ _ _ Hf)) as Hsp.
  pose proof (filter_length_le (fresh (now s)) (buf s)) as Hfl.
  set (s2 := on_refs (set_keyBufferRef (splice1 i (buf s1))) s1).
  assert (Hb2 : buf s2 = splice1 i (buf s1)) by reflexivity.
  assert (Hp2 : phaseRef (refs s2) = phaseRef (refs s1)) by reflexivity.
  destruct (phaseRef (refs s1)) as [ci|k|k] eqn:Hph.
  - destruct (handleCorrectLetterClick_buf phase_c e s2) as (B & N & C).
    destruct (IH phase_c (handleCorrectLetterClick phase_c e s2)) as (s' & R & N' & L & I).
    { rewrite B, Hb2. rewrite <- Hb1 in Hfl. lia. }
    exists s'. split; [exact R|]. split; [rewrite N'; rewrite N; reflexivity|].
    split.
    2:{ rewrite B, Hb2, Hb1 in I. intros x Hx.
        apply (incl_filter (fresh (now s)) (buf s)). exact (splice1_incl _ _ _ (I x Hx)). }
    rewrite L, N, C, B, Hb2.
    change (now s2) with (now s).
    assert (Hff : filter (fresh (now s)) (splice1 i (buf s1)) = splice1 i (buf s1)).
    { apply filter_splice1_id. intros x Hx. rewrite Hb1 in Hx.
      apply filter_In in Hx. tauto. }
    rewrite Hff. change (cues s2) with (cues s). cbn [List.length].
    rewrite <- Hb1. lia.
  - rewrite (getExpectedLetter_blend s1 k Hph) in Ht. discriminate.
  - destruct (handleCorrectType_buf e s2) as (B & N & C).
    destruct (IH phase_c (handleCorrectType e s2)) as (s' & R & N' & L & I).
    { rewrite B, Hb2. rewrite <- Hb1 in Hfl. lia. }
    exists s'. split; [exact R|]. split; [rewrite N'; rewrite N; reflexivity|].
    split.
    2:{ rewrite B, Hb2, Hb1 in I. intros x Hx.
        apply (incl_filter (fresh (now s)) (buf s)). exact (splice1_incl _ _ _ (I x Hx)). }
    rewrite L, N, C, B, Hb2.
    change (now s2) with (now s).
    assert (Hff : filter (fresh (now s)) (splice1 i (buf s1)) = splice1 i (buf s1)).
    { apply filter_splice1_id. intros x Hx. rewrite Hb1 in Hx.
      apply filter_In in Hx. tauto. }
    rewrite Hff. change (cues s2) with (cues s). cbn [List.length].
    rewrite <- Hb1. lia.
Qed.

(** Fuel beyond what a pass needs does not change its result. *)
Lemma processBuffer_more_fuel (fuel : nat) :
  forall (phase_c : Phase) (s s' : State) (extra : nat),
    processBuffer fuel phase_c s = Some s' ->
    processBuffer (fuel + extra) phase_c s = Some s'.
Proof.
  induction fuel as [|f IH]; intros phase_c s s' extra H; [discriminate|].
  cbn [processBuffer Nat.add] in *.
  destruct (negb (truthy (getExpectedLetter (pruneBuffer s)))); [exact H|].
  destruct (find_key _ _); [|exact H].
  apply IH. exact H.
Qed.

(** One invocation of [processBuffer]: it stops, or it takes exactly one
    entry out of the pruned buffer and recurses on the rest. *)
Lemma processBuffer_unfold (f : nat) (phase_c : Phase) (s : State) :
  processBuffer (S f) phase_c s = Some (pruneBuffer s)
  \/ exists i s2,
       i < List.length (keyBufferRef (refs (pruneBuffer s)))
       /\ keyBufferRef (refs s2) = splice1 i (keyBufferRef (refs (pruneBuffer s)))
       /\ S (List.length (keyBufferRef (refs s2)))
          = List.length (keyBufferRef (refs (pruneBuffer s)))
       /\ processBuffer (S f) phase_c s = processBuffer f phase_c s2.
Proof.
  cbn [processBuffer].
  destruct (negb (truthy (getExpectedLetter (pruneBuffer s)))); [left; reflexivity|].
  destruct (find_key _ _) as [i|] eqn:Hf; [|left; reflexivity].
  right. pose proof (find_key_lt _ _ _ Hf) as Hi.
  eexists i, _. split; [exact Hi|]. split; [|split; [|reflexivity]].
  - destruct (phaseRef (refs (pruneBuffer s))) as [ci|k|k].
    + apply handleCorrectLetterClick_buf.
    + reflexivity.
    + apply handleCorrectType_buf.
  - destruct (phaseRef (refs (pruneBuffer s))) as [ci|k|k].
    + rewrite (proj1 (handleCorrectLetterClick_buf _ _ _)). apply splice1_length, Hi.
    + apply splice1_length, Hi.
    + rewrite (proj1 (handleCorrectType_buf _ _)). apply splice1_length, Hi.
Qed.

(** C9. Every drain pass terminates: an invocation of [processBuffer] stops
    or removes exactly one buffered entry before it recurses, no entry is
    added, and with fuel for one more call than there are buffered
    entries the pass returns, having consumed (answered with a correct cue)
    at most as many entries as the buffer held. *)
Theorem processBuffer_terminates (phase_c : Phase) (s : State) :
  exists s',
    processBuffer (S (List.length (keyBufferRef (refs s)))) phase_c s = Some s'
    /\ drain phase_c s = s'
    /\ (forall extra,
          processBuffer (S (List.length (keyBufferRef (refs s))) + extra) phase_c s = Some s')
    /\ incl (keyBufferRef (refs s')) (keyBufferRef (refs s))
    /\ List.length (cues s') + List.length (keyBufferRef (refs s'))
       = List.length (cues s)
         + List.length (filter (fresh (now s)) (keyBufferRef (refs s)))
    /\ List.length (cues s') - List.length (cues s) <= List.length (keyBufferRef (refs s))
    /\ (forall f x,
          processBuffer (S f) phase_c x = Some (pruneBuffer x)
          \/ exists i x2,
               i < List.length (keyBufferRef (refs (pruneBuffer x)))
               /\ keyBufferRef (refs x2) = splice1 i (keyBufferRef (refs (pruneBuffer x)))
               /\ S (List.length (keyBufferRef (refs x2)))
                  = List.length (keyBufferRef (refs (pruneBuffer x)))
               /\ processBuffer (S f) phase_c x = processBuffer f phase_c x2).
Proof.
  destruct (processBuffer_fuel (S (List.length (keyBufferRef (refs s)))) phase_c s)
    as (s' & R & N & L & I); [lia|].
  exists s'. split; [exact R|]. split; [unfold drain; rewrite R; reflexivity|].
  split; [intro extra; apply processBuffer_more_fuel, R|].
  split; [exact I|]. split; [exact L|]. split.
  - pose proof (filter_length_le (fresh (now s)) (keyBufferRef (refs s))). lia.
  - intros f x. apply processBuffer_unfold.
Qed.

End Drain.

(** ** Commits that touch no effect dependency *)

Lemma run_effects_same_deps (old : View) (s : State) :
  phaseId old = phaseId (view s) ->
  typingCurrentIndex old = typingCurrentIndex (view s) ->
  typedBuffer old = typedBuffer (view s) ->
  wordIndex old = wordIndex (view s) ->
  run_effects old s = s.
Proof.
  intros Hp Hi Ht Hw. unfold run_effects, word.
  rewrite Hp, Hi, Ht, Hw, !Nat.eqb_refl, !String.eqb_refl. reflexivity.
Qed.

Lemma settle_S (n : nat) (s : State) :
  settle (S n) s = match queue s with [] => s | _ => settle n (commit_once s) end.
Proof. reflexivity. Qed.

Lemma render_S (n : nat) (s : State) :
  render (S n) s
  = match queue s with
    | [] => s
    | us => render n (fold_left (fun acc u => apply_update u acc) us (set_queue [] s))
    end.
Proof. reflexivity. Qed.

Lemma commit_idle (s : State) : queue s = [] -> commit s = s.
Proof. intro H. unfold commit. rewrite settle_S, H. reflexivity. Qed.

(** A commit of updates that only change the status line, the animation
    step or the image flag renders and runs no effect. *)
Definition quiet (u : Update) : bool :=
  match u with
  | SetAnnouncement _ | SetBlendHighlightStep _ | SetShowImage _ => true
  | _ => false
  end.

Definition apply_quiet (us : list Update) (s : State) : State :=
  fold_left (fun acc u => apply_update u acc) us (set_queue [] s).

Lemma apply_quiet_frame (us : list Update) :
  forall s,
    forallb quiet us = true ->
    let s' := fold_left (fun acc u => apply_update u acc) us s in
    phaseId (view s') = phaseId (view s)
    /\ phase (view s') = phase (view s)
    /\ typingCurrentIndex (view s') = typingCurrentIndex (view s)
    /\ typedBuffer (view s') = typedBuffer (view s)
    /\ wordIndex (view s') = wordIndex (view s)
    /\ refs s' = refs s /\ queue s' = queue s /\ timers s' = timers s
    /\ nextId s' = nextId s /\ drainId s' = drainId s
    /\ now s' = now s /\ cues s' = cues s.
Proof.
  induction us as [|u r IH]; intros s H; simpl in *; [repeat split|].
  apply andb_prop in H as [Hu Hr].
  specialize (IH (apply_update u s) Hr). simpl in IH.
  destruct u; try discriminate; simpl in IH; exact IH.
Qed.

Lemma commit_quiet (s : State) :
  queue s <> [] -> forallb quiet (queue s) = true ->
  commit s = apply_quiet (queue s) s.
Proof.
  intros Hne Hq. unfold commit. rewrite settle_S.
  destruct (queue s) as [|u us] eqn:Eq; [contradiction|].
  unfold commit_once. rewrite render_S, Eq.
  fold (apply_quiet (u :: us) s).
  pose proof (apply_quiet_frame (u :: us) (set_queue [] s) Hq) as F.
  cbv zeta in F. fold (apply_quiet (u :: us) s) in F.
  destruct F as (F1 & F2 & F3 & F4 & F5 & F6 & F7 & F8).
  change (queue (set_queue [] s)) with (@nil Update) in F7.
  rewrite render_S, F7.
  rewrite run_effects_same_deps; auto.
  rewrite settle_S, F7. reflexivity.
Qed.

(** ** Wrong keys *)

Definition count_wrong (cs : list Cue) : nat := List.length (filter is_wrong cs).

Lemma addToBuffer_frame (k : string) (s : State) :
  view (addToBuffer k s) = view s
  /\ queue (addToBuffer k s) = queue s
  /\ timers (addToBuffer k s) = timers s
  /\ cues (addToBuffer k s) = cues s
  /\ phaseRef (refs (addToBuffer k s)) = phaseRef (refs s)
  /\ typingCurrentIndexRef (refs (addToBuffer k s)) = typingCurrentIndexRef (refs s)
  /\ typedBufferRef (refs (addToBuffer k s)) = typedBufferRef (refs s)
  /\ lettersRef (refs (addToBuffer k s)) = lettersRef (refs s).
Proof.
  unfold addToBuffer.
  destruct (repeat_guard k (now s) (lastKeyRef (refs (pruneBuffer s)))); [repeat split|].
  match goal with |- context [if ?c then _ else _] => destruct c end; repeat split.
Qed.

Lemma same_letter_false (ch e : string) : ch <> e -> same_letter ch (Some e) = false.
Proof. intro H. simpl. apply String.eqb_neq, H. Qed.

Lemma truthy_Some (e : string) : e <> "" -> truthy (Some e) = true.
Proof. intro H. simpl. apply negb_true_iff, String.eqb_neq, H. Qed.

Lemma onKey_body_wrong (s : State) (k e : string) :
  includes LETTERS (toUpperCase k) = true ->
  getExpectedLetter s = Some e ->
  e <> "" ->
  toUpperCase k <> e ->
  onKey_body k s
  = addToBuffer (toUpperCase k) (announce "Try again" (playSoundEffect wrong s)).
Proof.
  intros Hin He Hne Hk. unfold onKey_body. rewrite Hin. cbn [negb]. cbv zeta.
  rewrite He, (truthy_Some e Hne), (same_letter_false _ _ Hk). cbn [andb].
  destruct (phaseRef (refs s)) eqn:Hp; try reflexivity.
  rewrite (getExpectedLetter_blend s _ Hp) in He. discriminate.
Qed.

(** C6. In an interactive phase (the expected letter exists), a letter key
    that is not the expected letter leaves the phase, the typing index and
    the typed buffer as they were, plays exactly one wrong cue and sets the
    status to "Try again", to be cleared 1000 ms later. *)
Theorem wrong_key_rejected (s : State) (k e : string) :
  queue s = [] ->
  includes LETTERS (toUpperCase k) = true ->
  getExpectedLetter s = Some e ->
  e <> "" ->
  toUpperCase k <> e ->
  let s' := onKey k s in
  phase (view s') = phase (view s)
  /\ typingCurrentIndex (view s') = typingCurrentIndex (view s)
  /\ typedBuffer (view s') = typedBuffer (view s)
  /\ wordIndex (view s') = wordIndex (view s)
  /\ phaseRef (refs s') = phaseRef (refs s)
  /\ typingCurrentIndexRef (refs s') = typingCurrentIndexRef (refs s)
  /\ typedBufferRef (refs s') = typedBufferRef (refs s)
  /\ cues s' = SoundEffect wrong :: cues s
  /\ count_wrong (cues s') = S (count_wrong (cues s))
  /\ announcement (view s') = "Try again"
  /\ timers s' = (timers s ++ [mkTimer (nextId s) (now s + 1000) ClearAnnouncement
                                       (phaseId (view s))])%list.
Proof.
  intros Hq Hin He Hne Hk s'. subst s'. unfold onKey.
  rewrite (onKey_body_wrong s k e Hin He Hne Hk).
  set (body := addToBuffer (toUpperCase k) (announce "Try again" (playSoundEffect wrong s))).
  destruct (addToBuffer_frame (toUpperCase k) (announce "Try again" (playSoundEffect wrong s)))
    as (Fv & Fq & Ft & Fc & Fp & Fi & Fb & Fl).
  fold body in Fv, Fq, Ft, Fc, Fp, Fi, Fb, Fl.
  assert (Q : queue body = [SetAnnouncement "Try again"]).
  { rewrite Fq. cbn. rewrite Hq. reflexivity. }
  rewrite commit_quiet; [|rewrite Q; discriminate|rewrite Q; reflexivity].
  rewrite Q. unfold apply_quiet. cbn [fold_left apply_update].
  cbn [view set_view set_queue refs cues timers phase typingCurrentIndex typedBuffer
       wordIndex announcement set_announcement].
  rewrite Fv, Fp, Fi, Fb, Fc, Ft.
  repeat split.
Qed.

Lemma wrong_key_rejected_witness :
  let s := mount 0 in
  let s' := onKey "x" s in
  phase (view s') = phase (view s)
  /\ count_wrong (cues s') = S (count_wrong (cues s))
  /\ announcement (view s') = "Try again".
Proof.
  pose proof (wrong_key_rejected (mount 0) "x" "D" eq_refl eq_refl eq_refl
                ltac:(discriminate) ltac:(discriminate)) as H.
  cbv zeta in H |- *. tauto.
Defined.

(** ** Keys with no expected letter *)

Lemma split_chars_join (l : list string) :
  Forall (fun x => exists c, x = String c "") l -> split_chars (join l) = l.
Proof.
  unfold join. induction 1 as [|x r [c ->] Hr IH]; [reflexivity|].
  destruct r as [|y r']; [reflexivity|].
  change (String.concat "" (String c "" :: y :: r'))
    with (String c ("" ++ String.concat "" (y :: r')))%string.
  cbn [split_chars append]. rewrite IH. reflexivity.
Qed.

Lemma split_chars_single (w : string) :
  Forall (fun x => exists c, x = String c "") (split_chars w).
Proof. induction w as [|c r IH]; simpl; constructor; eauto. Qed.

Lemma Forall_firstn {A} (P : A -> Prop) (n : nat) (l : list A) :
  Forall P l -> Forall P (firstn n l).
Proof.
  intro H. revert n. induction H as [|x r Hx Hr IH]; intros [|n]; simpl; auto.
Qed.

Lemma getExpectedLetter_past_prefix (s : State) (w : string) (k : nat) :
  lettersRef (refs s) = split_chars w ->
  phaseRef (refs s) = type_prefix k ->
  k <= typingCurrentIndexRef (refs s) ->
  getExpectedLetter s = None.
Proof.
  intros Hl Hp Hk. unfold getExpectedLetter, char_at, slice0. rewrite Hp, Hl.
  rewrite split_chars_join by apply Forall_firstn, split_chars_single.
  apply nth_error_None. rewrite length_firstn. lia.
Qed.

Lemma onKey_body_no_expected (s : State) (k : string) :
  getExpectedLetter s = None -> onKey_body k s = s.
Proof.
  intro He. unfold onKey_body. cbv zeta. rewrite He. cbn [truthy andb].
  destruct (negb (includes LETTERS (toUpperCase k))); [reflexivity|].
  destruct (phaseRef (refs s)); reflexivity.
Qed.

Lemma drain_no_expected (phase_c : Phase) (s : State) :
  getExpectedLetter s = None -> drain phase_c s = pruneBuffer s.
Proof.
  intro He. unfold drain. cbn [processBuffer].
  change (getExpectedLetter (pruneBuffer s)) with (getExpectedLetter s).
  rewrite He. reflexivity.
Qed.

Lemma filter_all {A} (f : A -> bool) (l : list A) :
  forallb f l = true -> filter f l = l.
Proof.
  induction l as [|x r IH]; simpl; [reflexivity|].
  intro H. apply andb_prop in H as [Hx Hr]. rewrite Hx, IH; auto.
Qed.

Lemma pruneBuffer_fresh (s : State) :
  forallb (fresh (now s)) (keyBufferRef (refs s)) = true -> pruneBuffer s = s.
Proof.
  intro H. unfold pruneBuffer, on_refs. rewrite (filter_all _ _ H).
  destruct s as [v [b l p i tb ls bt la] q ts n d nw c]. reflexivity.
Qed.

(** C10 (as the code has it). In a blend phase, and in a typing phase whose
    index is at or past [k], there is no expected letter; the key handler
    then changes nothing, and a drain pass changes nothing but the buffer,
    from which it purges the expired entries (nothing at all when no entry
    has expired). *)
Theorem no_expected_letter_guard (s : State) (w : string) (k : nat) :
  queue s = [] ->
  lettersRef (refs s) = split_chars w ->
  phaseRef (refs s) = blend_prefix k
  \/ (phaseRef (refs s) = type_prefix k /\ k <= typingCurrentIndexRef (refs s)) ->
  getExpectedLetter s = None
  /\ (forall key, onKey key s = s)
  /\ (forall phase_c,
        drain phase_c s = pruneBuffer s
        /\ commit (drain phase_c s) = pruneBuffer s
        /\ (forallb (fresh (now s)) (keyBufferRef (refs s)) = true ->
            drain phase_c s = s)).
Proof.
  intros Hq Hl Hp.
  assert (He : getExpectedLetter s = None).
  { destruct Hp as [Hp|[Hp Hk]].
    - apply (getExpectedLetter_blend s k Hp).
    - apply (getExpectedLetter_past_prefix s w k Hl Hp Hk). }
  split; [exact He|]. split.
  - intro key0. unfold onKey. rewrite (onKey_body_no_expected s key0 He).
    apply commit_idle, Hq.
  - intro phase_c. rewrite (drain_no_expected phase_c s He).
    split; [reflexivity|]. split; [apply commit_idle; exact Hq|].
    apply pruneBuffer_fresh.
Qed.

Definition blend_with_stale_key : option State :=
  run [Key "x"; Key "o"; Key "d"; Tick; Tick; Wait 3000] (mount 0).

Lemma no_expected_letter_guard_witness :
  exists s,
    blend_with_stale_key = Some s
    /\ getExpectedLetter s = None
    /\ (forall key, onKey key s = s)
    /\ drain (blend_prefix 2) s = pruneBuffer s.
Proof.
  eexists. split; [vm_compute; reflexivity|].
  match goal with |- getExpectedLetter ?s = _ /\ _ =>
    pose proof (no_expected_letter_guard s "DOG" 2 eq_refl eq_refl (or_introl eq_refl)) as H
  end.
  destruct H as (H1 & H2 & H3). split; [exact H1|]. split; [exact H2|].
  exact (proj1 (H3 (blend_prefix 2))).
Defined.

(** C10 (as stated) fails: a key pressed in ClickLetter(0) is still buffered
    when the drain timer of BlendPrefix(2) fires 3000 ms late; the pass finds
    no expected letter and yet empties the buffer. *)
Lemma drain_without_expected_letter_prunes :
  exists s s',
    blend_with_stale_key = Some s
    /\ phase (view s) = blend_prefix 2
    /\ getExpectedLetter s = None
    /\ step Tick s = Some s'
    /\ s' = commit (drain (blend_prefix 2) (clearTimeout 11 s))
    /\ keyBufferRef (refs s) = [mkKeyEvent "X" 0]
    /\ keyBufferRef (refs s') = []
    /\ drain (blend_prefix 2) s <> s.
Proof.
  eexists. eexists.
  split; [vm_compute; reflexivity|].
  split; [reflexivity|]. split; [reflexivity|].
  split; [vm_compute; reflexivity|].
  split; [vm_compute; reflexivity|].
  split; [reflexivity|]. split; [reflexivity|].
  vm_compute. discriminate.
Qed.

(** ** The blend timeout group *)

Definition in_ids (ids : list nat) (tm : Timer) : bool := existsb (Nat.eqb (tid tm)) ids.

Lemma filter_filter {A} (f g : A -> bool) (l : list A) :
  filter f (filter g l) = filter (fun x => g x && f x) l.
Proof.
  induction l as [|x r IH]; simpl; [reflexivity|].
  destruct (g x); simpl; [destruct (f x)|]; rewrite IH; reflexivity.
Qed.

Lemma clear_all_spec (ids : list nat) :
  forall s,
    let x := fold_left (fun acc id => clearTimeout id acc) ids s in
    view x = view s /\ refs x = refs s /\ queue x = queue s
    /\ nextId x = nextId s /\ drainId x = drainId s /\ now x = now s
    /\ cues x = cues s
    /\ timers x = filter (fun tm => negb (in_ids ids tm)) (timers s).
Proof.
  induction ids as [|id r IH]; intro s; cbn [fold_left].
  - repeat split. symmetry. apply filter_all. apply forallb_forall. reflexivity.
  - destruct (IH (clearTimeout id s)) as (V & R & Q & N & D & W & C & T).
    cbv zeta. rewrite V, R, Q, N, D, W, C, T. repeat split.
    unfold clearTimeout. cbn [timers set_timers]. rewrite filter_filter.
    apply filter_ext. intro tm. unfold in_ids. cbn [existsb].
    rewrite negb_orb. reflexivity.
Qed.

Lemma clearBlendTimeouts_spec (s : State) :
  let x := clearBlendTimeouts s in
  view x = view s /\ queue x = queue s
  /\ nextId x = nextId s /\ drainId x = drainId s /\ now x = now s
  /\ cues x = cues s
  /\ refs x = set_blendTimeoutsRef [] (refs s)
  /\ timers x = filter (fun tm => negb (in_ids (blendTimeoutsRef (refs s)) tm)) (timers s).
Proof.
  destruct (clear_all_spec (blendTimeoutsRef (refs s)) s) as (V & R & Q & N & D & W & C & T).
  unfold clearBlendTimeouts, on_refs. cbv zeta.
  cbn [view queue nextId drainId now cues refs timers set_refs].
  rewrite V, R, Q, N, D, W, C, T. repeat split.
Qed.

(** ** Re-entering the phase already announced *)

Lemma signature_set_phase_same (v : View) :
  signature (set_phase (phase v) v) = signature v.
Proof. reflexivity. Qed.

Lemma eqb_succ_false (n : nat) : (n =? S n) = false.
Proof. apply Nat.eqb_neq. lia. Qed.

Lemma auto_effect_same (s : State) :
  lastAutoRef (refs s) = signature (view s) -> auto_effect s = s.
Proof. intro H. unfold auto_effect. cbv zeta. rewrite H, String.eqb_refl. reflexivity. Qed.

(** The timers the [for] loop of the blend branch schedules. *)
Definition step_timers (id0 t0 born0 i n : nat) : list Timer :=
  map (fun j => mkTimer (id0 + j) (t0 + (i + j) * 1000) (BlendStep (i + j + 1)) born0)
      (seq 0 n).

Lemma step_timers_S (id0 t0 born0 i n : nat) :
  step_timers id0 t0 born0 i (S n)
  = mkTimer id0 (t0 + i * 1000) (BlendStep (i + 1)) born0
    :: step_timers (S id0) t0 born0 (S i) n.
Proof.
  unfold step_timers. cbn [seq map]. rewrite !Nat.add_0_r. f_equal.
  rewrite <- seq_shift, map_map. apply map_ext. intro j.
  f_equal; try lia. f_equal. lia.
Qed.

Lemma schedule_steps_spec (n : nat) :
  forall i x,
    let y := schedule_steps n i x in
    view y = view x /\ queue y = queue x /\ cues y = cues x /\ now y = now x
    /\ drainId y = drainId x
    /\ nextId y = nextId x + n
    /\ timers y
       = (timers x ++ step_timers (nextId x) (now x) (phaseId (view x)) i n)%list
    /\ refs y
       = set_blendTimeoutsRef
           (blendTimeoutsRef (refs x) ++ map (fun j => nextId x + j) (seq 0 n))%list
           (refs x).
Proof.
  induction n as [|n IH]; intros i x; cbv zeta.
  - cbn [schedule_steps seq map step_timers]. rewrite !app_nil_r, Nat.add_0_r.
    repeat split. destruct (refs x); reflexivity.
  - cbn [schedule_steps setTimeout].
    destruct (IH (S i)
                (push_blendTimeout (nextId x)
                   (set_nextId (S (nextId x))
                      (set_timers
                         (timers x ++
                          [mkTimer (nextId x) (now x + i * 1000) (BlendStep (i + 1))
                                   (phaseId (view x))]) x))))
      as (V & Q & C & W & D & N & T & R).
    cbv zeta in V, Q, C, W, D, N, T, R.
    rewrite V, Q, C, W, D, N, T, R. clear V Q C W D N T R.
    cbn [push_blendTimeout on_refs view queue cues now drainId nextId timers refs
         set_refs set_nextId set_timers].
    repeat split; try lia.
    + rewrite step_timers_S, <- app_assoc. reflexivity.
    + unfold set_blendTimeoutsRef.
      cbn [blendTimeoutsRef keyBufferRef lastKeyRef phaseRef
           typingCurrentIndexRef typedBufferRef lettersRef lastAutoRef].
      f_equal. rewrite <- app_assoc. f_equal. cbn [seq map app].
      rewrite Nat.add_0_r. f_equal. rewrite <- seq_shift, map_map.
      apply map_ext. intro j. lia.
Qed.

Definition red_timer (id0 t0 born0 k : nat) : Timer :=
  mkTimer (id0 + k) (t0 + k * 1000) (BlendRed k) born0.

(** What entering a blend phase does, field by field. *)
Lemma auto_effect_blend (s : State) (k : nat) :
  phase (view s) = blend_prefix k ->
  lastAutoRef (refs s) <> signature (view s) ->
  let y := auto_effect s in
  view y = view s
  /\ cues y = Clip (join (slice0 k (letters (view s)))) :: cues s
  /\ now y = now s /\ drainId y = drainId s
  /\ queue y = (queue s ++ (if k =? 3 then [SetShowImage true] else [])
                        ++ [SetBlendHighlightStep 0])%list
  /\ nextId y = S (nextId s + k)
  /\ timers y
     = (filter (fun tm => negb (in_ids (blendTimeoutsRef (refs s)) tm)) (timers s)
        ++ step_timers (nextId s) (now s) (phaseId (view s)) 0 k
        ++ [red_timer (nextId s) (now s) (phaseId (view s)) k])%list
  /\ refs y
     = set_blendTimeoutsRef (map (fun j => nextId s + j) (seq 0 (S k)))
         (set_lastAutoRef (signature (view s)) (refs s)).
Proof.
  intros Hp Hne. unfold auto_effect. cbv zeta.
  apply String.eqb_neq in Hne. rewrite Hne, Hp.
  set (s1 := if k =? 3
             then enqueue (SetShowImage true)
                    (play (Clip (join (slice0 k (letters (view s)))))
                       (on_refs (set_lastAutoRef (signature (view s))) s))
             else play (Clip (join (slice0 k (letters (view s)))))
                    (on_refs (set_lastAutoRef (signature (view s))) s)).
  assert (H1 : view s1 = view s /\ cues s1 = Clip (join (slice0 k (letters (view s)))) :: cues s
               /\ now s1 = now s /\ drainId s1 = drainId s
               /\ queue s1 = (queue s ++ (if k =? 3 then [SetShowImage true] else []))%list
               /\ nextId s1 = nextId s /\ timers s1 = timers s
               /\ refs s1 = set_lastAutoRef (signature (view s)) (refs s)).
  { subst s1. destruct (k =? 3); cbn; rewrite ?app_nil_r; repeat split. }
  destruct H1 as (V1 & C1 & W1 & D1 & Q1 & N1 & T1 & R1).
  destruct (clearBlendTimeouts_spec s1) as (V2 & Q2 & N2 & D2 & W2 & C2 & R2 & T2).
  set (s2 := clearBlendTimeouts s1) in *.
  set (s3 := enqueue (SetBlendHighlightStep 0) s2).
  destruct (schedule_steps_spec k 0 s3) as (V4 & Q4 & C4 & W4 & D4 & N4 & T4 & R4).
  set (s4 := schedule_steps k 0 s3) in *.
  cbn [setTimeout push_blendTimeout on_refs view cues now drainId queue nextId timers refs
       set_refs set_nextId set_timers].
  rewrite V4, Q4, C4, W4, D4, N4, T4, R4.
  subst s3. cbn [enqueue view cues now drainId queue nextId timers refs set_queue].
  rewrite V2, Q2, N2, D2, W2, C2, R2, T2, V1, C1, W1, D1, Q1, N1, T1, R1.
  repeat split.
  all: try lia.
  - rewrite <- app_assoc. reflexivity.
  - rewrite <- app_assoc. reflexivity.
  - unfold set_blendTimeoutsRef, set_lastAutoRef.
    cbn [blendTimeoutsRef keyBufferRef lastKeyRef phaseRef
         typingCurrentIndexRef typedBufferRef lettersRef lastAutoRef app].
    f_equal. rewrite seq_S, map_app. reflexivity.
Qed.

Lemma auto_effect_frame (s : State) :
  let y := auto_effect s in
  view y = view s /\ now y = now s /\ drainId y = drainId s
  /\ lastAutoRef (refs y) = signature (view s).
Proof.
  cbv zeta.
  destruct (String.eqb_spec (lastAutoRef (refs s)) (signature (view s))) as [E|E].
  - rewrite (auto_effect_same s E). auto.
  - destruct (phase (view s)) as [i|k|k] eqn:Hp.
    + unfold auto_effect. cbv zeta. apply String.eqb_neq in E. rewrite E, Hp. auto.
    + destruct (auto_effect_blend s k Hp E) as (V & _ & W & D & _ & _ & _ & R).
      rewrite V, W, D, R. auto.
    + unfold auto_effect. cbv zeta. apply String.eqb_neq in E. rewrite E, Hp. auto.
Qed.

Lemma run_effects_phase_only (old : View) (s : State) :
  phaseId old <> phaseId (view s) ->
  typingCurrentIndex old = typingCurrentIndex (view s) ->
  typedBuffer old = typedBuffer (view s) ->
  wordIndex old = wordIndex (view s) ->
  run_effects old s
  = drain_effect
      (auto_effect
         (on_refs (set_phaseRef (phase (view s))) (drain_cleanup (clearBlendTimeouts s)))).
Proof.
  intros Hp Hi Ht Hw. unfold run_effects, word. cbv zeta.
  apply Nat.eqb_neq in Hp.
  rewrite Hp, Hi, Ht, Hw, !Nat.eqb_refl, !String.eqb_refl. reflexivity.
Qed.

Lemma drain_cleanup_frame (s : State) :
  view (drain_cleanup s) = view s /\ refs (drain_cleanup s) = refs s
  /\ queue (drain_cleanup s) = queue s /\ cues (drain_cleanup s) = cues s
  /\ now (drain_cleanup s) = now s /\ nextId (drain_cleanup s) = nextId s
  /\ incl (timers (drain_cleanup s)) (timers s).
Proof.
  unfold drain_cleanup. destruct (drainId s); repeat split; try apply incl_refl.
  apply incl_filter.
Qed.

(** The phase setter called with the phase already current, as a handler or
    a timer callback may do. *)
Definition reenter (s : State) : State := commit (enqueue (SetPhase (phase (view s))) s).

(** C7. Entering a phase whose signature equals the last one entered does
    nothing in the auto-pronounce effect: no audio request, no write to the
    animation step, no timer, no pending update, and the stored signature
    stays; a commit that sets the phase to itself therefore adds no cue and
    leaves the animation step alone.  The effect writes the signature only
    when it differs from the stored one. *)
Theorem reentry_same_signature (s : State) :
  queue s = [] ->
  lastAutoRef (refs s) = signature (view s) ->
  auto_effect s = s
  /\ cues (reenter s) = cues s
  /\ blendHighlightStep (view (reenter s)) = blendHighlightStep (view s)
  /\ phase (view (reenter s)) = phase (view s)
  /\ queue (reenter s) = []
  /\ lastAutoRef (refs (reenter s)) = lastAutoRef (refs s)
  /\ (forall tm, In tm (timers (reenter s)) ->
        In tm (timers s) \/ cb tm = DrainTimer (phase (view s)))
  /\ (forall x, lastAutoRef (refs (auto_effect x)) <> lastAutoRef (refs x) ->
        lastAutoRef (refs x) <> signature (view x)
        /\ lastAutoRef (refs (auto_effect x)) = signature (view x)).
Proof.
  intros Hq Hs. split; [apply auto_effect_same, Hs|].
  assert (Hx : forall x, lastAutoRef (refs (auto_effect x)) <> lastAutoRef (refs x) ->
                lastAutoRef (refs x) <> signature (view x)
                /\ lastAutoRef (refs (auto_effect x)) = signature (view x)).
  { intros x Hx. destruct (auto_effect_frame x) as (_ & _ & _ & L). split; [|exact L].
    intro E. apply Hx. rewrite L. symmetry. exact E. }
  unfold reenter, commit. rewrite settle_S.
  cbn [enqueue queue set_queue]. rewrite Hq. cbn [app].
  unfold commit_once. rewrite render_S. cbn [queue set_queue enqueue view].
  rewrite Hq. cbn [app fold_left apply_update]. rewrite render_S.
  cbn [queue set_queue set_view view].
  match goal with |- context [run_effects (view s) ?x] => set (s1 := x) end.
  assert (V1 : view s1 = set_phase (phase (view s)) (view s)) by reflexivity.
  assert (Q1 : queue s1 = []) by reflexivity.
  assert (C1 : cues s1 = cues s) by reflexivity.
  assert (R1 : refs s1 = refs s) by reflexivity.
  assert (T1 : timers s1 = timers s) by reflexivity.
  clearbody s1.
  rewrite (run_effects_phase_only (view s) s1);
    [|rewrite V1; cbn; lia|rewrite V1; reflexivity..].
  destruct (clearBlendTimeouts_spec s1) as (V2 & Q2 & N2 & D2 & W2 & C2 & R2 & T2).
  set (s2 := clearBlendTimeouts s1) in *.
  destruct (drain_cleanup_frame s2) as (V3 & R3 & Q3 & C3 & W3 & N3 & T3).
  set (s3 := drain_cleanup s2) in *.
  set (s4 := on_refs (set_phaseRef (phase (view s3))) s3).
  assert (E4 : lastAutoRef (refs s4) = signature (view s4)).
  { subst s4. cbn [on_refs refs set_refs view set_phaseRef lastAutoRef].
    rewrite R3, R2, V3, V2, R1, V1. exact Hs. }
  replace (phase (view s1)) with (phase (view s3)) by (rewrite V3, V2; reflexivity).
  fold s4. rewrite (auto_effect_same s4 E4).
  clearbody s2 s3. subst s4.
  unfold drain_effect. rewrite settle_S.
  cbn -[settle commit_once].
  rewrite Q3, Q2, Q1. cbn -[settle commit_once].
  rewrite ?C3, ?C2, ?C1, ?V3, ?V2, ?V1, ?R3, ?R2, ?R1.
  cbn -[signature auto_effect].
  refine (conj _ (conj _ (conj _ (conj _ (conj _ (conj _ Hx)))))); try reflexivity.
  - congruence.
  - intros tm Htm. apply in_app_or in Htm as [Htm|[<-|[]]]; [left|right; reflexivity].
    apply T3 in Htm. rewrite T2 in Htm. apply filter_In in Htm. rewrite <- T1. apply Htm.
Qed.

Lemma reentry_same_signature_witness :
  auto_effect (mount 0) = mount 0 /\ cues (reenter (mount 0)) = cues (mount 0).
Proof.
  pose proof (reentry_same_signature (mount 0) eq_refl eq_refl) as H.
  split; [exact (proj1 H)|exact (proj1 (proj2 H))].
Defined.

(** A click on Replay adds a cue and nothing else. *)
Lemma replay_frame (s : State) :
  view (replay s) = view s /\ refs (replay s) = refs s /\ queue (replay s) = queue s
  /\ timers (replay s) = timers s /\ nextId (replay s) = nextId s
  /\ drainId (replay s) = drainId s /\ now (replay s) = now s.
Proof. unfold replay. cbv zeta. destruct (phase (view s)); repeat split. Qed.

(** ** Timers of the blend group never outlive their phase *)

(** The callbacks that [blendTimeoutsRef] keeps track of. *)
Definition in_group (c : Callback) : bool :=
  match c with
  | BlendStep _ | BlendRed _ => true
  | _ => false
  end.

(** Every pending group timer is registered in [blendTimeoutsRef] and was
    scheduled under the phase object [pid]. *)
Definition grouped (pid : nat) (s : State) : Prop :=
  forall tm, In tm (timers s) -> in_group (cb tm) = true ->
    In (tid tm) (blendTimeoutsRef (refs s)) /\ born tm = pid.

Lemma in_ids_In (ids : list nat) (tm : Timer) :
  In (tid tm) ids -> in_ids ids tm = true.
Proof.
  intro H. unfold in_ids. apply existsb_exists. exists (tid tm).
  split; [exact H|apply Nat.eqb_refl].
Qed.

Lemma grouped_same (pid : nat) (x x' : State) :
  incl (timers x') (timers x) ->
  blendTimeoutsRef (refs x') = blendTimeoutsRef (refs x) ->
  grouped pid x -> grouped pid x'.
Proof. intros Ht Hr G tm Hin Hg. rewrite Hr. apply G; auto. Qed.

Lemma grouped_setTimeout (pid : nat) (c : Callback) (d : nat) (x : State) :
  in_group c = false -> grouped pid x -> grouped pid (fst (setTimeout c d x)).
Proof.
  intros Hc G tm Hin Hg. cbn in Hin |- *. apply in_app_or in Hin as [Hin|[<-|[]]].
  - apply G; assumption.
  - cbn in Hg. congruence.
Qed.

Lemma grouped_clearTimeout (pid id : nat) (x : State) :
  grouped pid x -> grouped pid (clearTimeout id x).
Proof. apply grouped_same; [apply incl_filter|reflexivity]. Qed.

Lemma grouped_clearBlendTimeouts (pid pid' : nat) (x : State) :
  grouped pid x -> grouped pid' (clearBlendTimeouts x).
Proof.
  intros G tm Hin Hg.
  destruct (clearBlendTimeouts_spec x) as (_ & _ & _ & _ & _ & _ & _ & T).
  rewrite T in Hin. apply filter_In in Hin as [Hin Hn].
  destruct (G tm Hin Hg) as [Hid _]. rewrite (in_ids_In _ _ Hid) in Hn. discriminate.
Qed.

Lemma grouped_enqueue (pid : nat) (u : Update) (x : State) :
  grouped pid x -> grouped pid (enqueue u x).
Proof. apply grouped_same; [apply incl_refl|reflexivity]. Qed.

Lemma grouped_announce (pid : nat) (msg : string) (x : State) :
  grouped pid x -> grouped pid (announce msg x).
Proof. intro G. apply grouped_setTimeout; [reflexivity|]. apply grouped_enqueue, G. Qed.

Lemma grouped_pruneBuffer (pid : nat) (x : State) :
  grouped pid x -> grouped pid (pruneBuffer x).
Proof. apply grouped_same; [apply incl_refl|reflexivity]. Qed.

Lemma grouped_addToBuffer (pid : nat) (k : string) (x : State) :
  grouped pid x -> grouped pid (addToBuffer k x).
Proof.
  apply grouped_same.
  - rewrite (proj1 (proj2 (proj2 (addToBuffer_frame k x)))). apply incl_refl.
  - unfold addToBuffer.
    destruct (repeat_guard k (now x) (lastKeyRef (refs (pruneBuffer x)))); [reflexivity|].
    match goal with |- context [if ?c then _ else _] => destruct c end; reflexivity.
Qed.

Lemma grouped_handleCorrectLetterClick (pid : nat) (p : Phase) (ch : string) (x : State) :
  grouped pid x -> grouped pid (handleCorrectLetterClick p ch x).
Proof.
  intro G. unfold handleCorrectLetterClick. cbv zeta.
  apply grouped_setTimeout; [reflexivity|].
  assert (G1 : grouped pid (announce "Correct" (playSoundEffect correct x))).
  { apply grouped_announce. revert G. apply grouped_same; [apply incl_refl|reflexivity]. }
  unfold advanceToNextPhase.
  destruct p as [[|[|[|i]]]|k|k]; try exact G1; repeat apply grouped_enqueue; exact G1.
Qed.

Lemma grouped_handleCorrectType (pid : nat) (ch : string) (x : State) :
  grouped pid x -> grouped pid (handleCorrectType ch x).
Proof.
  intro G. unfold handleCorrectType. cbv zeta. repeat apply grouped_enqueue.
  apply grouped_announce. revert G. apply grouped_same; [apply incl_refl|reflexivity].
Qed.

Lemma grouped_processBuffer (pid : nat) (fuel : nat) :
  forall phase_c x x',
    processBuffer fuel phase_c x = Some x' -> grouped pid x -> grouped pid x'.
Proof.
  induction fuel as [|f IH]; intros phase_c x x' H G; [discriminate|].
  cbn [processBuffer] in H.
  pose proof (grouped_pruneBuffer pid x G) as G1.
  destruct (negb (truthy (getExpectedLetter (pruneBuffer x)))).
  { injection H as <-. exact G1. }
  destruct (find_key _ _) as [i|]; [|injection H as <-; exact G1].
  apply IH in H; [exact H|].
  match goal with |- grouped pid (match _ with click_letter _ => ?a | blend_prefix _ => ?b
                                   | type_prefix _ => ?c end) =>
    assert (Gb : grouped pid b)
      by (revert G1; apply grouped_same; [apply incl_refl|reflexivity])
  end.
  destruct (phaseRef (refs (pruneBuffer x))).
  - apply grouped_handleCorrectLetterClick, Gb.
  - exact Gb.
  - apply grouped_handleCorrectType, Gb.
Qed.

Lemma grouped_drain (pid : nat) (phase_c : Phase) (x : State) :
  grouped pid x -> grouped pid (drain phase_c x).
Proof.
  intro G. unfold drain.
  destruct (processBuffer _ phase_c x) as [x'|] eqn:E; [|exact G].
  exact (grouped_processBuffer pid _ _ _ _ E G).
Qed.

Lemma grouped_onKey_body (pid : nat) (k : string) (x : State) :
  grouped pid x -> grouped pid (onKey_body k x).
Proof.
  intro G. unfold onKey_body. cbv zeta.
  destruct (negb (includes LETTERS (toUpperCase k))); [exact G|].
  assert (G' : grouped pid
                 (if truthy (getExpectedLetter x) && same_letter (toUpperCase k) (getExpectedLetter x)
                  then drain mount_phase (addToBuffer (toUpperCase k) x)
                  else if truthy (getExpectedLetter x)
                       then addToBuffer (toUpperCase k)
                              (announce "Try again" (playSoundEffect wrong x))
                       else x)).
  { destruct (truthy (getExpectedLetter x) && same_letter (toUpperCase k) (getExpectedLetter x)).
    - apply grouped_drain, grouped_addToBuffer, G.
    - destruct (truthy (getExpectedLetter x)); [|exact G].
      apply grouped_addToBuffer, grouped_announce.
      revert G. apply grouped_same; [apply incl_refl|reflexivity]. }
  destruct (phaseRef (refs x)); [exact G'|exact G|exact G'].
Qed.

Lemma grouped_run_callback (pid : nat) (c : Callback) (x : State) :
  grouped pid x -> grouped pid (run_callback c x).
Proof.
  intro G. destruct c as [| |v|k|k|p]; cbn [run_callback].
  - apply grouped_enqueue, G.
  - exact G.
  - apply grouped_enqueue, G.
  - apply grouped_setTimeout; [reflexivity|]. apply grouped_enqueue, G.
  - cbv zeta. destruct (negb (k =? 3)); repeat apply grouped_enqueue; exact G.
  - apply grouped_drain, G.
Qed.

Lemma grouped_on_refs (pid : nat) (f : Refs -> Refs) (x : State) :
  (forall r, blendTimeoutsRef (f r) = blendTimeoutsRef r) ->
  grouped pid x -> grouped pid (on_refs f x).
Proof. intro Hf. apply grouped_same; [apply incl_refl|apply Hf]. Qed.

Lemma grouped_set_view (pid : nat) (v : View) (x : State) :
  grouped pid x -> grouped pid (set_view v x).
Proof. apply grouped_same; [apply incl_refl|reflexivity]. Qed.

Lemma grouped_resetForNext (pid pid' : nat) (x : State) :
  grouped pid x -> grouped pid' (resetForNext x).
Proof.
  intro G. unfold resetForNext. cbv zeta.
  repeat first [apply grouped_enqueue
               |apply grouped_on_refs; [intro r; reflexivity|]].
  apply (grouped_clearBlendTimeouts pid), G.
Qed.

Lemma grouped_apply_update (pid : nat) (u : Update) (x : State) :
  grouped pid x -> grouped pid (apply_update u x).
Proof.
  intro G. destruct u; cbn [apply_update]; try (apply grouped_set_view, G).
  unfold advance_index. cbv zeta. apply grouped_set_view.
  destruct (phaseRef (refs x)) as [i|k|k]; try exact G.
  destruct (typingCurrentIndex (view x) + 1 =? k); [|exact G].
  destruct (k =? 2); [repeat apply grouped_enqueue; exact G|].
  destruct (k =? 3); [|exact G].
  apply (grouped_resetForNext pid), grouped_enqueue, G.
Qed.

Lemma grouped_fold_updates (pid : nat) (us : list Update) :
  forall x, grouped pid x ->
    grouped pid (fold_left (fun acc u => apply_update u acc) us x).
Proof.
  induction us as [|u r IH]; intros x G; [exact G|].
  cbn [fold_left]. apply IH, grouped_apply_update, G.
Qed.

Lemma grouped_render (pid : nat) (n : nat) :
  forall x, grouped pid x -> grouped pid (render n x).
Proof.
  induction n as [|n IH]; intros x G; [exact G|].
  rewrite render_S. destruct (queue x) as [|u us]; [exact G|].
  apply IH, grouped_fold_updates.
  revert G. apply grouped_same; [apply incl_refl|reflexivity].
Qed.

Lemma grouped_auto_effect (x : State) :
  grouped (phaseId (view x)) x -> grouped (phaseId (view x)) (auto_effect x).
Proof.
  intro G.
  destruct (String.eqb_spec (lastAutoRef (refs x)) (signature (view x))) as [E|E].
  { rewrite (auto_effect_same x E). exact G. }
  destruct (phase (view x)) as [i|k|k] eqn:Hp.
  - unfold auto_effect. cbv zeta. apply String.eqb_neq in E. rewrite E, Hp.
    revert G. apply grouped_same; [apply incl_refl|reflexivity].
  - destruct (auto_effect_blend x k Hp E) as (_ & _ & _ & _ & _ & _ & T & R).
    intros tm Hin Hg. rewrite T in Hin. rewrite R.
    cbn [blendTimeoutsRef set_blendTimeoutsRef].
    apply in_app_or in Hin as [Hin|Hin].
    + apply filter_In in Hin as [Hin Hn].
      destruct (G tm Hin Hg) as [Hid _]. rewrite (in_ids_In _ _ Hid) in Hn. discriminate.
    + apply in_app_or in Hin as [Hin|[<-|[]]].
      * unfold step_timers in Hin. apply in_map_iff in Hin as (j & <- & Hj).
        apply in_seq in Hj. cbn [tid born]. split; [|reflexivity].
        apply in_map_iff. exists j. split; [reflexivity|]. apply in_seq. lia.
      * cbn [red_timer tid born]. split; [|reflexivity].
        apply in_map_iff. exists k. split; [reflexivity|]. apply in_seq. lia.
  - unfold auto_effect. cbv zeta. apply String.eqb_neq in E. rewrite E, Hp.
    revert G. apply grouped_same; [apply incl_refl|reflexivity].
Qed.

Lemma grouped_drain_effect (pid : nat) (x : State) :
  grouped pid x -> grouped pid (drain_effect x).
Proof.
  intro G. unfold drain_effect.
  pose proof (grouped_setTimeout pid (DrainTimer (phase (view x))) 0 x eq_refl G) as G1.
  revert G1. apply grouped_same; [apply incl_refl|reflexivity].
Qed.

Lemma grouped_drain_cleanup (pid : nat) (x : State) :
  grouped pid x -> grouped pid (drain_cleanup x).
Proof.
  intro G. unfold drain_cleanup. destruct (drainId x); [|exact G].
  apply grouped_clearTimeout, G.
Qed.

Lemma if_preserves {A} (P : State -> A) (b : bool) (f : State -> State) (y : State) :
  (forall z, P (f z) = P z) -> P (if b then f y else y) = P y.
Proof. intro H. destruct b; [apply H|reflexivity]. Qed.

Lemma view_run_effects (old : View) (x : State) : view (run_effects old x) = view x.
Proof.
  unfold run_effects. cbv zeta.
  rewrite (if_preserves view _ drain_effect) by reflexivity.
  rewrite (if_preserves view _ auto_effect) by (intro z; apply auto_effect_frame).
  rewrite !(if_preserves view _ (on_refs _)) by reflexivity.
  rewrite (if_preserves view _ drain_cleanup) by (intro z; apply drain_cleanup_frame).
  rewrite (if_preserves view _ clearBlendTimeouts)
    by (intro z; apply (clearBlendTimeouts_spec z)).
  reflexivity.
Qed.

Lemma grouped_run_effects (old : View) (x : State) :
  grouped (phaseId old) x -> grouped (phaseId (view x)) (run_effects old x).
Proof.
  intro G. unfold run_effects. cbv zeta.
  set (P := fun y => grouped (phaseId (view x)) y /\ view y = view x).
  assert (Pif : forall (b : bool) (f : State -> State) y,
             (forall z, P z -> P (f z)) -> P y -> P (if b then f y else y)).
  { intros [|] f y Hf Hy; [apply Hf, Hy|exact Hy]. }
  assert (Prefs : forall f, (forall r, blendTimeoutsRef (f r) = blendTimeoutsRef r) ->
                  forall z, P z -> P (on_refs f z)).
  { intros f Hf z [Gz Vz]. split; [apply grouped_on_refs; assumption|exact Vz]. }
  set (autoCh := negb (phaseId old =? phaseId (view x))
                 || negb (word old =? word (view x))%string).
  assert (P1 : P (if autoCh then clearBlendTimeouts x else x)).
  { destruct autoCh eqn:Ea.
    - split; [apply (grouped_clearBlendTimeouts (phaseId old)), G|].
      apply (clearBlendTimeouts_spec x).
    - subst autoCh. apply orb_false_elim in Ea as [Ea _].
      apply negb_false_iff, Nat.eqb_eq in Ea. unfold P. rewrite <- Ea.
      split; [exact G|reflexivity]. }
  refine (proj1 (Pif _ drain_effect _ _ _)).
  { intros z [Gz Vz]. split; [apply grouped_drain_effect, Gz|].
    unfold drain_effect. cbn. exact Vz. }
  apply (Pif _ auto_effect).
  { intros z [Gz Vz]. destruct (auto_effect_frame z) as (V & _).
    split; [|rewrite V; exact Vz].
    rewrite <- Vz. apply grouped_auto_effect. rewrite Vz. exact Gz. }
  apply (Pif _ (on_refs (set_lettersRef (letters (view x))))); [apply Prefs; reflexivity|].
  apply (Pif _ (on_refs (set_typedBufferRef (typedBuffer (view x)))));
    [apply Prefs; reflexivity|].
  apply (Pif _ (on_refs (set_typingCurrentIndexRef (typingCurrentIndex (view x)))));
    [apply Prefs; reflexivity|].
  apply (Pif _ (on_refs (set_phaseRef (phase (view x))))); [apply Prefs; reflexivity|].
  apply (Pif _ drain_cleanup).
  { intros z [Gz Vz]. split; [apply grouped_drain_cleanup, Gz|].
    rewrite (proj1 (drain_cleanup_frame z)). exact Vz. }
  exact P1.
Qed.

Lemma grouped_commit_once (x : State) :
  grouped (phaseId (view x)) x ->
  grouped (phaseId (view (commit_once x))) (commit_once x).
Proof.
  intro G. unfold commit_once. rewrite view_run_effects.
  apply grouped_run_effects, grouped_render, G.
Qed.

Lemma grouped_settle (n : nat) :
  forall x, grouped (phaseId (view x)) x ->
            grouped (phaseId (view (settle n x))) (settle n x).
Proof.
  induction n as [|n IH]; intros x G; [exact G|].
  rewrite settle_S. destruct (queue x); [exact G|].
  apply IH, grouped_commit_once, G.
Qed.

Lemma grouped_commit (x : State) :
  grouped (phaseId (view x)) x -> grouped (phaseId (view (commit x))) (commit x).
Proof. apply grouped_settle. Qed.

Lemma view_processBuffer (fuel : nat) :
  forall phase_c x x', processBuffer fuel phase_c x = Some x' -> view x' = view x.
Proof.
  induction fuel as [|f IH]; intros phase_c x x' H; [discriminate|].
  cbn [processBuffer] in H.
  destruct (negb (truthy (getExpectedLetter (pruneBuffer x)))); [injection H as <-; reflexivity|].
  destruct (find_key _ _) as [i|]; [|injection H as <-; reflexivity].
  apply IH in H. rewrite H.
  destruct (phaseRef (refs (pruneBuffer x))) as [ci|k|k]; try reflexivity.
  unfold handleCorrectLetterClick, advanceToNextPhase. cbv zeta.
  destruct phase_c as [[|[|[|j]]]|k|k]; reflexivity.
Qed.

Lemma view_drain (phase_c : Phase) (x : State) : view (drain phase_c x) = view x.
Proof.
  unfold drain. destruct (processBuffer _ phase_c x) as [x'|] eqn:E; [|reflexivity].
  exact (view_processBuffer _ _ _ _ E).
Qed.

Lemma view_onKey_body (k : string) (x : State) : view (onKey_body k x) = view x.
Proof.
  unfold onKey_body. cbv zeta.
  destruct (negb (includes LETTERS (toUpperCase k))); [reflexivity|].
  assert (V : view (if truthy (getExpectedLetter x)
                       && same_letter (toUpperCase k) (getExpectedLetter x)
                    then drain mount_phase (addToBuffer (toUpperCase k) x)
                    else if truthy (getExpectedLetter x)
                         then addToBuffer (toUpperCase k)
                                (announce "Try again" (playSoundEffect wrong x))
                         else x) = view x).
  { destruct (truthy (getExpectedLetter x) && same_letter (toUpperCase k) (getExpectedLetter x)).
    - rewrite view_drain. apply addToBuffer_frame.
    - destruct (truthy (getExpectedLetter x)); [|reflexivity].
      rewrite (proj1 (addToBuffer_frame _ _)). reflexivity. }
  destruct (phaseRef (refs x)); [exact V|reflexivity|exact V].
Qed.

Lemma view_run_callback (c : Callback) (x : State) : view (run_callback c x) = view x.
Proof.
  destruct c as [| |v|k|k|p]; cbn [run_callback]; try reflexivity.
  - cbv zeta. destruct (negb (k =? 3)); reflexivity.
  - apply view_drain.
Qed.

Lemma grouped_step (e : Event) (s s' : State) :
  step e s = Some s' ->
  grouped (phaseId (view s)) s -> grouped (phaseId (view s')) s'.
Proof.
  intros H G. destruct e as [k| |dt|]; cbn [step] in H.
  - injection H as <-. unfold onKey. apply grouped_commit.
    rewrite view_onKey_body. apply grouped_onKey_body, G.
  - destruct (earliest (timers s)) as [tm|]; [|discriminate].
    destruct (due tm <=? now s); [|discriminate].
    injection H as <-. unfold fire. apply grouped_commit.
    rewrite view_run_callback. apply grouped_run_callback.
    change (view (clearTimeout (tid tm) s)) with (view s).
    apply grouped_clearTimeout, G.
  - injection H as <-. revert G. apply grouped_same; [apply incl_refl|reflexivity].
  - injection H as <-. destruct (replay_frame s) as (V & R & _ & T & _).
    rewrite V. revert G. apply grouped_same; [rewrite T; apply incl_refl|rewrite R; reflexivity].
Qed.

Lemma grouped_mount (t0 : nat) : grouped (phaseId (view (mount t0))) (mount t0).
Proof.
  unfold mount. apply grouped_commit.
  assert (G0 : grouped (phaseId (view (first_render t0))) (first_render t0))
    by (intros tm []).
  pose proof (grouped_auto_effect _ G0) as G1.
  rewrite <- (proj1 (auto_effect_frame (first_render t0))) in G1.
  apply grouped_drain_effect in G1. exact G1.
Qed.

Lemma grouped_run (es : list Event) :
  forall s s', run es s = Some s' ->
    grouped (phaseId (view s)) s -> grouped (phaseId (view s')) s'.
Proof.
  induction es as [|e r IH]; intros s s' H G; cbn [run] in H.
  - injection H as <-. exact G.
  - destruct (step e s) as [s1|] eqn:E; [|discriminate].
    exact (IH s1 s' H (grouped_step e s s1 E G)).
Qed.

(** BlendPrefix(2) just entered, its animation timers pending. *)
Definition blend2_entered : option State := run [Key "o"; Key "d"; Tick] (mount 0).

(** C3 (as stated) fails: the status timer scheduled by the correct "D" in
    ClickLetter(0) is still pending in ClickLetter(1); it fires there and
    changes the component state (it clears the status line). *)
Lemma status_timer_survives_phase_change :
  exists s tm s',
    run [Key "d"; Tick; Wait 100; Tick; Wait 900] (mount 0) = Some s
    /\ phase (view s) = click_letter 1
    /\ In tm (timers s)
    /\ cb tm = ClearAnnouncement
    /\ born tm <> phaseId (view s)
    /\ step Tick s = Some s'
    /\ s' = fire tm s
    /\ announcement (view s) = "Correct"
    /\ announcement (view s') = ""
    /\ view s' <> view s.
Proof.
  eexists. exists (mkTimer 1 1000 ClearAnnouncement 0). eexists.
  split; [vm_compute; reflexivity|].
  split; [reflexivity|].
  split; [left; reflexivity|].
  split; [reflexivity|].
  split; [cbn; discriminate|].
  split; [vm_compute; reflexivity|].
  split; [vm_compute; reflexivity|].
  split; [reflexivity|]. split; [reflexivity|].
  cbn. discriminate.
Qed.

(** ** The phase order and the key handler's closure *)

(** The successor of a phase in the order of the drill; [None]: the next
    word, restarting at ClickLetter(0). *)
Definition successor (p : Phase) : option Phase :=
  match p with
  | click_letter 0 => Some (click_letter 1)
  | click_letter 1 => Some (blend_prefix 2)
  | blend_prefix 2 => Some (type_prefix 2)
  | type_prefix 2 => Some (click_letter 2)
  | click_letter 2 => Some (blend_prefix 3)
  | blend_prefix 3 => Some (type_prefix 3)
  | _ => None
  end.

(** Called from the render whose [phase] is the current one,
    [advanceToNextPhase] asks for the successor. *)
Lemma advanceToNextPhase_successor (i : nat) (s : State) :
  i <= 2 ->
  queue (advanceToNextPhase (click_letter i) s)
  = (queue s ++ [SetPhase match successor (click_letter i) with
                          | Some p => p
                          | None => click_letter 0
                          end; SetTypedBuffer ""])%list.
Proof.
  intro H. destruct i as [|[|[|i]]]; [| | |lia]; cbn; rewrite <- app_assoc; reflexivity.
Qed.

Definition click1_reached : option State := run [Key "D"; Tick] (mount 0).

Definition click2_reached : option State :=
  play_script [Press "O"; Press "D"; Pause 2100; Press "D"; Press "O"; Pause 0] (mount 0).

(** C1 at the failing inputs.  The key handler is installed once, at mount,
    and keeps the functions of the first render, whose [phase] is
    ClickLetter(0).  The correct "O" in ClickLetter(1) is consumed, answered
    with the correct cue, and the phase is set to ClickLetter(1) again, not
    to its successor BlendPrefix(2); the correct "G" in ClickLetter(2) sets
    the phase back to ClickLetter(1), not to BlendPrefix(3). *)
Theorem key_handler_keeps_first_render_phase :
  (exists s1 s2,
      click1_reached = Some s1
      /\ phase (view s1) = click_letter 1
      /\ getExpectedLetter s1 = Some "O"
      /\ successor (phase (view s1)) = Some (blend_prefix 2)
      /\ run [Key "O"; Tick] s1 = Some s2
      /\ cues s2 = SoundEffect correct :: cues s1
      /\ keyBufferRef (refs s2) = []
      /\ phase (view s2) = click_letter 1)
  /\ (exists s1 s2,
        click2_reached = Some s1
        /\ phase (view s1) = click_letter 2
        /\ getExpectedLetter s1 = Some "G"
        /\ successor (phase (view s1)) = Some (blend_prefix 3)
        /\ run [Key "G"; Tick] s1 = Some s2
        /\ cues s2 = LetterSound (Some "O") :: SoundEffect correct :: cues s1
        /\ phase (view s2) = click_letter 1).
Proof.
  split.
  - eexists. eexists. split; [vm_compute; reflexivity|].
    split; [reflexivity|]. split; [reflexivity|]. split; [reflexivity|].
    split; [vm_compute; reflexivity|]. repeat split.
  - eexists. eexists. split; [vm_compute; reflexivity|].
    split; [reflexivity|]. split; [reflexivity|]. split; [reflexivity|].
    split; [vm_compute; reflexivity|]. repeat split.
Qed.

(** ** Type-ahead: keys pressed out of order *)

(** The scan of [processBuffer] stops at the earliest entry that carries the
    expected letter. *)
Lemma find_key_earliest (e : string) (b : list KeyEvent) (i : nat) :
  find_key e b = Some i ->
  (exists ev, nth_error b i = Some ev /\ key ev = e)
  /\ (forall j ev, j < i -> nth_error b j = Some ev -> key ev <> e).
Proof.
  revert i. induction b as [|x r IH]; intros i H; cbn [find_key] in H; [discriminate|].
  destruct (String.eqb_spec (key x) e) as [E|E].
  - injection H as <-. split; [exists x; split; [reflexivity|exact E]|]. intros j ev Hj. lia.
  - destruct (find_key e r) as [i'|]; [|discriminate]. injection H as <-.
    destruct (IH i' eq_refl) as [(ev & Hn & Hk) Hlt]. split.
    + exists ev. split; assumption.
    + intros [|j] ev' Hj Hn'; cbn in Hn'.
      * injection Hn' as <-. exact E.
      * apply (Hlt j ev'); [lia|exact Hn'].
Qed.

Lemma find_key_none (e : string) (b : list KeyEvent) :
  find_key e b = None -> forall ev, In ev b -> key ev <> e.
Proof.
  induction b as [|x r IH]; intros H ev Hin; [destruct Hin|].
  cbn [find_key] in H. destruct (String.eqb_spec (key x) e) as [E|E]; [discriminate|].
  destruct (find_key e r); [discriminate|].
  destruct Hin as [<-|Hin]; [exact E|apply IH; auto].
Qed.

(** TypePrefix(3) just entered, for "DOG" and then for "CAT". *)
Definition typing3_dog : option State :=
  play_script [Press "O"; Press "D"; Pause 2100; Press "G"; Press "D"; Press "O"; Pause 3100]
              (mount 0).

Definition typing3_cat : option State :=
  match typing3_dog with
  | Some s =>
      play_script [Press "O"; Press "G"; Press "D"; Pause 0;
                   Press "A"; Press "C"; Pause 2100;
                   Press "T"; Press "C"; Press "A"; Pause 3100] s
  | None => None
  end.

(** The orders in which three keys can arrive. *)
Definition arrival_orders (l : list string) : list (list string) :=
  match l with
  | [a; b; c] => [[a; b; c]; [a; c; b]; [b; a; c]; [b; c; a]; [c; a; b]; [c; b; a]]
  | _ => []
  end.

Definition word_completed (s s' : State) : Prop :=
  wordIndex (view s') = (wordIndex (view s) + 1) mod List.length WORDS
  /\ phase (view s') = click_letter 0
  /\ typedBuffer (view s') = ""
  /\ typingCurrentIndex (view s') = 0
  /\ keyBufferRef (refs s') = []
  /\ List.length (filter (fun c => match c with SoundEffect correct => true | _ => false end)
                         (cues s'))
     = 3 + List.length (filter (fun c => match c with SoundEffect correct => true | _ => false end)
                               (cues s)).

(** With the three letters of the word pressed at one instant in
    TypePrefix(3), and every timer firing on time, the word completes
    whatever the order of arrival: the pass run by the key handler takes the
    entries equal to the letter expected when it began, and the passes that
    the state-change effect schedules after each commit, with a zero delay,
    take the following letters. *)
Lemma all_orders_complete_when_timers_are_on_time (s : State) (order : list string) :
  In (Some s) [typing3_dog; typing3_cat] ->
  In order (arrival_orders (letters (view s))) ->
  (exists s',
      play_script (map Press order ++ [Pause 0]) s = Some s' /\ word_completed s s')
  /\ (forall e b i, find_key e b = Some i ->
        (exists ev, nth_error b i = Some ev /\ key ev = e)
        /\ (forall j ev, j < i -> nth_error b j = Some ev -> key ev <> e))
  /\ (exists s0 s1 s2 s3,
        typing3_dog = Some s0
        /\ play_script [Press "O"; Press "G"; Press "D"] s0 = Some s1
        /\ typedBuffer (view s1) = "D"
        /\ map key (keyBufferRef (refs s1)) = ["O"; "G"]
        /\ step Tick s1 = Some s2
        /\ typedBuffer (view s2) = "DO"
        /\ map key (keyBufferRef (refs s2)) = ["G"]
        /\ step Tick s2 = Some s3
        /\ word_completed s0 s3).
Proof.
  intros Hs Ho. split; [|split; [apply find_key_earliest|]].
  - destruct Hs as [Hs|[Hs|[]]]; vm_compute in Hs; injection Hs as <-;
      cbn in Ho;
      repeat (destruct Ho as [<-|Ho];
              [eexists; split; [vm_compute; reflexivity|repeat split]|]);
      destruct Ho.
  - do 4 eexists. split; [vm_compute; reflexivity|].
    split; [vm_compute; reflexivity|]. split; [reflexivity|]. split; [reflexivity|].
    split; [vm_compute; reflexivity|]. split; [reflexivity|]. split; [reflexivity|].
    split; [vm_compute; reflexivity|]. repeat split.
Qed.

(** C2. The claim does not hold of the code, and the code departs from its
    own comment in [processBuffer] ("This allows rapid typing: d,o,g all
    processed immediately").  A drain pass reads the expected letter from
    refs that only the next commit updates, so within one pass the expected
    letter never changes.  From TypePrefix(3) of "DOG", just entered:
    - "O", "G", "D" pressed at one instant: with all three in the buffer and
      "D" expected, the pass of the key handler consumes "D" alone; "O" and
      "G" stay buffered and the word is not completed by the pass;
    - "O", then "O" again 30 ms later, "G", "D": the pass of the drain timer
      takes both "O" for the one expected "O", the index reaches 3 and the
      word completes on D, O, O; "G" was never consumed and is thrown away;
    - "O", "G", and "D" 2999 ms later: all three are in the buffer, within
      the TTL and the capacity, and "D" is consumed; the pass of the drain
      timer, run 1 ms late, purges "O" and "G", and the word stays at its
      second letter with no pass to come. *)
Theorem drain_pass_keeps_expected_letter :
  exists s0,
    typing3_dog = Some s0
    /\ phase (view s0) = type_prefix 3 /\ letters (view s0) = ["D"; "O"; "G"]
    /\ typingCurrentIndex (view s0) = 0 /\ keyBufferRef (refs s0) = []
    /\ (exists sb sd s1,
          sb = addToBuffer "D" (onKey "G" (onKey "O" s0))
          /\ map key (keyBufferRef (refs sb)) = ["O"; "G"; "D"]
          /\ getExpectedLetter sb = Some "D"
          /\ sd = drain mount_phase sb
          /\ map key (keyBufferRef (refs sd)) = ["O"; "G"]
          /\ getExpectedLetter sd = Some "D"
          /\ s1 = onKey "D" (onKey "G" (onKey "O" s0))
          /\ s1 = commit sd
          /\ phase (view s1) = type_prefix 3
          /\ typingCurrentIndex (view s1) = 1
          /\ typedBuffer (view s1) = "D"
          /\ ~ word_completed s0 s1)
    /\ (exists s1 tm sd s2,
          run [Key "O"; Wait 30; Key "O"; Key "G"; Key "D"] s0 = Some s1
          /\ map key (keyBufferRef (refs s1)) = ["O"; "O"; "G"]
          /\ typedBuffer (view s1) = "D"
          /\ earliest (timers s1) = Some tm
          /\ cb tm = DrainTimer (type_prefix 3)
          /\ sd = drain (type_prefix 3) (clearTimeout (tid tm) s1)
          /\ map key (keyBufferRef (refs sd)) = ["G"]
          /\ step Tick s1 = Some s2
          /\ s2 = commit sd
          /\ word_completed s0 s2)
    /\ (exists sb s1 s2,
          run [Key "O"; Key "G"; Wait 2999; Tick; Tick] s0 = Some sb
          /\ map key (keyBufferRef (refs (addToBuffer "D" sb))) = ["O"; "G"; "D"]
          /\ forallb (fresh (now sb)) (keyBufferRef (refs (addToBuffer "D" sb))) = true
          /\ s1 = onKey "D" sb
          /\ typedBuffer (view s1) = "D"
          /\ map key (keyBufferRef (refs s1)) = ["O"; "G"]
          /\ run [Wait 1; Tick] s1 = Some s2
          /\ keyBufferRef (refs s2) = []
          /\ phase (view s2) = type_prefix 3
          /\ typingCurrentIndex (view s2) = 1
          /\ typedBuffer (view s2) = "D"
          /\ existsb (fun tm => match cb tm with DrainTimer _ => true | _ => false end)
                     (timers s2) = false).
Proof.
  eexists. split; [vm_compute; reflexivity|].
  split; [reflexivity|]. split; [reflexivity|]. split; [reflexivity|].
  split; [reflexivity|]. split; [|split].
  - do 3 eexists. split; [reflexivity|]. split; [vm_compute; reflexivity|].
    split; [vm_compute; reflexivity|]. split; [reflexivity|].
    split; [vm_compute; reflexivity|]. split; [vm_compute; reflexivity|].
    split; [reflexivity|]. split; [vm_compute; reflexivity|].
    split; [vm_compute; reflexivity|]. split; [vm_compute; reflexivity|].
    split; [vm_compute; reflexivity|].
    intros (_ & H & _). vm_compute in H. discriminate.
  - do 4 eexists. split; [vm_compute; reflexivity|].
    split; [reflexivity|]. split; [reflexivity|].
    split; [vm_compute; reflexivity|]. split; [reflexivity|].
    split; [reflexivity|]. split; [vm_compute; reflexivity|].
    split; [vm_compute; reflexivity|]. split; [vm_compute; reflexivity|].
    repeat split; vm_compute; reflexivity.
  - do 3 eexists. split; [vm_compute; reflexivity|].
    split; [vm_compute; reflexivity|]. split; [vm_compute; reflexivity|].
    split; [reflexivity|]. split; [vm_compute; reflexivity|].
    split; [vm_compute; reflexivity|]. split; [vm_compute; reflexivity|].
    split; [reflexivity|]. split; [reflexivity|]. split; [reflexivity|].
    split; reflexivity.
Qed.

(** ** The blend animation *)

(** Updates that are plain values (no updater function). *)
Definition plain (u : Update) : bool :=
  match u with AdvanceTypingIndex => false | _ => true end.

Lemma fold_plain_frame (us : list Update) :
  forallb plain us = true ->
  forall x,
    let y := fold_left (fun acc u => apply_update u acc) us x in
    queue y = queue x /\ refs y = refs x /\ timers y = timers x /\ cues y = cues x
    /\ now y = now x /\ nextId y = nextId x /\ drainId y = drainId x.
Proof.
  induction us as [|u r IH]; intros H x; cbn [fold_left]; [repeat split|].
  cbn [forallb] in H. apply andb_prop in H as [Hu Hr].
  destruct (IH Hr (apply_update u x)) as (Q & R & T & C & W & N & D).
  cbv zeta. rewrite Q, R, T, C, W, N, D.
  destruct u; try discriminate; repeat split.
Qed.

Lemma queue_auto_effect_not_blend (x : State) :
  (forall k, phase (view x) <> blend_prefix k) -> queue (auto_effect x) = queue x.
Proof.
  intro H. unfold auto_effect. cbv zeta.
  destruct (lastAutoRef (refs x) =? signature (view x))%string; [reflexivity|].
  destruct (phase (view x)) as [i|k|k]; [reflexivity| |reflexivity].
  exfalso. exact (H k eq_refl).
Qed.

Lemma queue_run_effects_not_blend (old : View) (x : State) :
  (forall k, phase (view x) <> blend_prefix k) -> queue (run_effects old x) = queue x.
Proof.
  intro H. unfold run_effects. cbv zeta.
  set (Q := fun y => queue y = queue x /\ view y = view x).
  assert (Qif : forall (b : bool) (f : State -> State) y,
             (forall z, Q z -> Q (f z)) -> Q y -> Q (if b then f y else y)).
  { intros [|] f y Hf Hy; [apply Hf, Hy|exact Hy]. }
  refine (proj1 (Qif _ drain_effect _ _ _)).
  { intros z [A B]. split; [exact A|exact B]. }
  apply (Qif _ auto_effect).
  { intros z [A B]. split.
    - rewrite queue_auto_effect_not_blend; [exact A|rewrite B; exact H].
    - rewrite (proj1 (auto_effect_frame z)). exact B. }
  apply (Qif _ (on_refs (set_lettersRef (letters (view x))))); [intros z Hz; exact Hz|].
  apply (Qif _ (on_refs (set_typedBufferRef (typedBuffer (view x))))); [intros z Hz; exact Hz|].
  apply (Qif _ (on_refs (set_typingCurrentIndexRef (typingCurrentIndex (view x)))));
    [intros z Hz; exact Hz|].
  apply (Qif _ (on_refs (set_phaseRef (phase (view x))))); [intros z Hz; exact Hz|].
  apply (Qif _ drain_cleanup).
  { intros z [A B]. destruct (drain_cleanup_frame z) as (V & _ & Qz & _).
    split; [rewrite Qz; exact A|rewrite V; exact B]. }
  apply (Qif _ clearBlendTimeouts).
  { intros z [A B]. destruct (clearBlendTimeouts_spec z) as (V & Qz & _).
    split; [rewrite Qz; exact A|rewrite V; exact B]. }
  split; reflexivity.
Qed.

(** A commit of plain updates that does not end in a blend phase: one
    render, then the effects. *)
Lemma commit_plain (x : State) :
  queue x <> [] -> forallb plain (queue x) = true ->
  let y := fold_left (fun acc u => apply_update u acc) (queue x) (set_queue [] x) in
  (forall k, phase (view y) <> blend_prefix k) ->
  commit x = run_effects (view x) y.
Proof.
  intros Hne Hp y Hb. unfold commit. rewrite settle_S.
  destruct (queue x) as [|u us] eqn:Eq; [contradiction|].
  unfold commit_once. rewrite render_S, Eq. fold y.
  destruct (fold_plain_frame (u :: us) Hp (set_queue [] x)) as (Q & _).
  fold y in Q. change (queue (set_queue [] x)) with (@nil Update) in Q.
  rewrite render_S, Q, settle_S, (queue_run_effects_not_blend _ _ Hb), Q. reflexivity.
Qed.

Lemma fire_BlendStep (x : State) (tm : Timer) (v : nat) :
  queue x = [] -> cb tm = BlendStep v ->
  blendHighlightStep (view (fire tm x)) = v
  /\ phase (view (fire tm x)) = phase (view x)
  /\ timers (fire tm x) = filter (fun y => negb (tid y =? tid tm)) (timers x).
Proof.
  intros Hq Hc. unfold fire. rewrite Hc. cbn [run_callback].
  rewrite commit_quiet; cbn [enqueue queue set_queue clearTimeout set_timers];
    rewrite Hq; [|discriminate|reflexivity].
  repeat split.
Qed.

Lemma fire_BlendRed (x : State) (tm : Timer) (k : nat) :
  queue x = [] -> cb tm = BlendRed k ->
  blendHighlightStep (view (fire tm x)) = k + 1
  /\ phase (view (fire tm x)) = phase (view x)
  /\ timers (fire tm x)
     = (filter (fun y => negb (tid y =? tid tm)) (timers x)
        ++ [mkTimer (nextId x) (now x + 100) (ToTypePrefix k) (phaseId (view x))])%list.
Proof.
  intros Hq Hc. unfold fire. rewrite Hc. cbn [run_callback].
  rewrite commit_quiet;
    cbn [setTimeout fst enqueue queue set_queue clearTimeout set_timers set_nextId];
    rewrite Hq; [|discriminate|reflexivity].
  repeat split.
Qed.

(** The refs that the effects synchronise with the view, and the key buffer. *)
Definition core (r : Refs) :=
  (keyBufferRef r, lastKeyRef r, phaseRef r, typingCurrentIndexRef r,
   typedBufferRef r, lettersRef r).

Lemma core_auto_effect (z : State) : core (refs (auto_effect z)) = core (refs z).
Proof.
  destruct (String.eqb_spec (lastAutoRef (refs z)) (signature (view z))) as [E|E].
  { rewrite (auto_effect_same z E). reflexivity. }
  destruct (phase (view z)) as [i|k|k] eqn:Hp.
  - unfold auto_effect. cbv zeta. apply String.eqb_neq in E. rewrite E, Hp. reflexivity.
  - destruct (auto_effect_blend z k Hp E) as (_ & _ & _ & _ & _ & _ & _ & R).
    rewrite R. reflexivity.
  - unfold auto_effect. cbv zeta. apply String.eqb_neq in E. rewrite E, Hp. reflexivity.
Qed.

Lemma core_clearBlendTimeouts (z : State) :
  core (refs (clearBlendTimeouts z)) = core (refs z).
Proof.
  destruct (clearBlendTimeouts_spec z) as (_ & _ & _ & _ & _ & _ & R & _).
  rewrite R. reflexivity.
Qed.

Lemma core_drain_cleanup (z : State) : core (refs (drain_cleanup z)) = core (refs z).
Proof. rewrite (proj1 (proj2 (drain_cleanup_frame z))). reflexivity. Qed.

Lemma now_auto_effect (z : State) : now (auto_effect z) = now z.
Proof. apply auto_effect_frame. Qed.

Lemma now_drain_cleanup (z : State) : now (drain_cleanup z) = now z.
Proof. apply drain_cleanup_frame. Qed.

Lemma now_clearBlendTimeouts (z : State) : now (clearBlendTimeouts z) = now z.
Proof. apply (clearBlendTimeouts_spec z). Qed.

Lemma run_effects_core (old : View) (x : State) :
  core (refs (run_effects old x))
  = (keyBufferRef (refs x), lastKeyRef (refs x),
     if phaseId old =? phaseId (view x) then phaseRef (refs x) else phase (view x),
     if typingCurrentIndex old =? typingCurrentIndex (view x)
     then typingCurrentIndexRef (refs x) else typingCurrentIndex (view x),
     if (typedBuffer old =? typedBuffer (view x))%string
     then typedBufferRef (refs x) else typedBuffer (view x),
     if (word old =? word (view x))%string then lettersRef (refs x) else letters (view x))
  /\ now (run_effects old x) = now x.
Proof.
  unfold run_effects. cbv zeta. split.
  - rewrite (if_preserves (fun z => core (refs z)) _ drain_effect) by reflexivity.
    rewrite (if_preserves (fun z => core (refs z)) _ auto_effect)
      by (intro z; apply core_auto_effect).
    match goal with
    | |- core (refs (if _ then on_refs _
                       (if _ then on_refs _
                          (if _ then on_refs _
                             (if _ then on_refs _ ?zt else _) else _) else _) else _)) = _ =>
        assert (Z : core (refs zt) = core (refs x))
          by (rewrite (if_preserves (fun y => core (refs y)) _ drain_cleanup)
                by (intro z0; apply core_drain_cleanup);
              rewrite (if_preserves (fun y => core (refs y)) _ clearBlendTimeouts)
                by (intro z0; apply core_clearBlendTimeouts);
              reflexivity);
        revert Z; generalize zt; intros zz Z
    end.
    unfold core in Z. injection Z as Z1 Z2 Z3 Z4 Z5 Z6.
    destruct (phaseId old =? phaseId (view x)),
             (typingCurrentIndex old =? typingCurrentIndex (view x)),
             (typedBuffer old =? typedBuffer (view x))%string,
             (word old =? word (view x))%string;
      cbn [negb]; unfold core;
      cbn [on_refs refs set_refs keyBufferRef lastKeyRef phaseRef
           typingCurrentIndexRef typedBufferRef lettersRef
           set_phaseRef set_typingCurrentIndexRef set_typedBufferRef
           set_lettersRef];
      rewrite ?Z1, ?Z2, ?Z3, ?Z4, ?Z5, ?Z6; reflexivity.
  - rewrite (if_preserves now _ drain_effect) by reflexivity.
    rewrite (if_preserves now _ auto_effect) by (intro z; apply now_auto_effect).
    rewrite !(if_preserves now _ (on_refs _)) by reflexivity.
    rewrite (if_preserves now _ drain_cleanup) by (intro z; apply now_drain_cleanup).
    rewrite (if_preserves now _ clearBlendTimeouts)
      by (intro z; apply now_clearBlendTimeouts).
    reflexivity.
Qed.

Lemma fire_ToTypePrefix (x : State) (tm : Timer) (k : nat) :
  queue x = [] -> cb tm = ToTypePrefix k ->
  phase (view (fire tm x)) = type_prefix k
  /\ typedBuffer (view (fire tm x)) = ""
  /\ typingCurrentIndex (view (fire tm x)) = 0
  /\ phaseRef (refs (fire tm x)) = type_prefix k
  /\ now (fire tm x) = now x.
Proof.
  intros Hq Hc. unfold fire. rewrite Hc. cbn [run_callback]. cbv zeta.
  set (x1 := clearTimeout (tid tm) x).
  assert (Hq1 : queue x1 = []) by exact Hq.
  assert (Hn1 : now x1 = now x) by reflexivity.
  clearbody x1.
  destruct (negb (k =? 3)) eqn:E3;
    (rewrite commit_plain;
       cbn [enqueue queue set_queue]; rewrite Hq1; cbn [app];
       [|discriminate|reflexivity|cbn; discriminate]);
    rewrite view_run_effects;
    match goal with |- context [run_effects ?o ?y] =>
      set (yy := y); set (oo := o);
      assert (Vy : phase (view yy) = type_prefix k /\ typedBuffer (view yy) = ""
                   /\ typingCurrentIndex (view yy) = 0
                   /\ phaseId (view yy) = S (phaseId oo) /\ now yy = now x1)
        by (repeat split);
      clearbody yy oo;
      destruct Vy as (V1 & V2 & V3 & V4 & V5);
      destruct (run_effects_core oo yy) as (C & W);
      assert (P : (phaseId oo =? phaseId (view yy)) = false)
        by (apply Nat.eqb_neq; lia);
      rewrite P in C
    end;
    unfold core in C; injection C as _ _ C _ _ _;
    rewrite C, W, V1, V2, V3, V5, Hn1; repeat split.
Qed.

(** BlendPrefix(k) just entered, for both words and both prefixes. *)
Definition blend3_entered : option State :=
  match play_script [Press "O"; Press "D"; Pause 2100; Press "G"; Press "D"; Press "O"]
                    (mount 0) with
  | Some s => step Tick s
  | None => None
  end.

Definition cat_blend2_entered : option State :=
  match typing3_dog with
  | Some s =>
      match play_script [Press "O"; Press "G"; Press "D"; Pause 0] s with
      | Some s' => run [Key "a"; Key "c"; Tick] s'
      | None => None
      end
  | None => None
  end.

Definition cat_blend3_entered : option State :=
  match cat_blend2_entered with
  | Some s =>
      match play_script [Pause 2100; Press "T"; Press "C"; Press "A"] s with
      | Some s' => step Tick s'
      | None => None
      end
  | None => None
  end.

(** The view [dt] ms of simulated time after [s]. *)
Definition view_after (dt : nat) (s : State) : option (Phase * nat) :=
  option_map (fun s' => (phase (view s'), blendHighlightStep (view s'))) (elapse 100 dt s).

(** The course of the animation from the state [s] in which BlendPrefix(k)
    was entered. *)
Definition blend_timeline (k : nat) (s : State) : Prop :=
  phase (view s) = blend_prefix k
  /\ blendHighlightStep (view s) = 0
  /\ (forall i, i < k ->
        view_after (i * 1000) s = Some (blend_prefix k, i + 1)
        /\ view_after (i * 1000 + 999) s = Some (blend_prefix k, i + 1))
  /\ view_after (k * 1000) s = Some (blend_prefix k, k + 1)
  /\ view_after (k * 1000 + 99) s = Some (blend_prefix k, k + 1)
  /\ view_after (k * 1000 + 100) s = Some (type_prefix k, k + 1).

Lemma blend_timelines :
  (exists s, blend2_entered = Some s /\ word (view s) = "DOG" /\ blend_timeline 2 s)
  /\ (exists s, blend3_entered = Some s /\ word (view s) = "DOG" /\ blend_timeline 3 s)
  /\ (exists s, cat_blend2_entered = Some s /\ word (view s) = "CAT" /\ blend_timeline 2 s)
  /\ (exists s, cat_blend3_entered = Some s /\ word (view s) = "CAT" /\ blend_timeline 3 s).
Proof.
  repeat split;
    (eexists; split; [vm_compute; reflexivity|]; split; [reflexivity|];
     split; [reflexivity|]; split; [reflexivity|]; split;
     [intros [|[|[|i]]] Hi; try lia; split; vm_compute; reflexivity
     |repeat split; vm_compute; reflexivity]).
Qed.

(** X10. Entering BlendPrefix(k) (the auto-pronounce effect runs with a new
    signature) schedules the step callbacks [BlendStep (i+1)] at i seconds,
    i < k, and the callback at k seconds; fired, a step callback sets the
    animation step to i+1, the callback at k seconds sets it to k+1 and
    schedules the entry into TypePrefix(k) 100 ms later, and that one sets
    the phase to TypePrefix(k) with the typing progress reset.  Run in
    simulated time from the four entries of a full pass over both words, the
    step is i+1 from i seconds on, k+1 at k seconds, and the phase is
    TypePrefix(k) at k seconds and 100 ms, not before. *)
Theorem blend_runs_k_seconds (s : State) (k pid : nat) :
  phase (view s) = blend_prefix k ->
  lastAutoRef (refs s) <> signature (view s) ->
  grouped pid s ->
  let y := auto_effect s in
  (forall i, i < k ->
     In (mkTimer (nextId s + i) (now s + i * 1000) (BlendStep (i + 1)) (phaseId (view s)))
        (timers y))
  /\ In (mkTimer (nextId s + k) (now s + k * 1000) (BlendRed k) (phaseId (view s)))
        (timers y)
  /\ (forall tm, In tm (timers y) -> in_group (cb tm) = true ->
        tm = mkTimer (nextId s + k) (now s + k * 1000) (BlendRed k) (phaseId (view s))
        \/ exists i, i < k /\
             tm = mkTimer (nextId s + i) (now s + i * 1000) (BlendStep (i + 1))
                          (phaseId (view s)))
  /\ In (SetBlendHighlightStep 0) (queue y)
  /\ (forall x tm v, queue x = [] -> cb tm = BlendStep v ->
        blendHighlightStep (view (fire tm x)) = v
        /\ phase (view (fire tm x)) = phase (view x))
  /\ (forall x tm, queue x = [] -> cb tm = BlendRed k ->
        blendHighlightStep (view (fire tm x)) = k + 1
        /\ phase (view (fire tm x)) = phase (view x)
        /\ In (mkTimer (nextId x) (now x + 100) (ToTypePrefix k) (phaseId (view x)))
              (timers (fire tm x)))
  /\ (forall x tm, queue x = [] -> cb tm = ToTypePrefix k ->
        phase (view (fire tm x)) = type_prefix k
        /\ typedBuffer (view (fire tm x)) = ""
        /\ typingCurrentIndex (view (fire tm x)) = 0)
  /\ (exists s2, blend2_entered = Some s2 /\ word (view s2) = "DOG" /\ blend_timeline 2 s2)
  /\ (exists s3, blend3_entered = Some s3 /\ word (view s3) = "DOG" /\ blend_timeline 3 s3)
  /\ (exists s2, cat_blend2_entered = Some s2 /\ word (view s2) = "CAT"
                 /\ blend_timeline 2 s2)
  /\ (exists s3, cat_blend3_entered = Some s3 /\ word (view s3) = "CAT"
                 /\ blend_timeline 3 s3).
Proof.
  intros Hp Hne G y.
  destruct (auto_effect_blend s k Hp Hne) as (_ & _ & _ & _ & Q & _ & T & _).
  fold y in Q, T.
  split.
  { intros i Hi. rewrite T. apply in_or_app. right. apply in_or_app. left.
    unfold step_timers. apply in_map_iff. exists i. split; [reflexivity|].
    apply in_seq. lia. }
  split.
  { rewrite T. apply in_or_app. right. apply in_or_app. right. left. reflexivity. }
  split.
  { intros tm Hin Hg. rewrite T in Hin. apply in_app_or in Hin as [Hin|Hin].
    - exfalso. apply filter_In in Hin as [Hin Hn].
      destruct (G tm Hin Hg) as [Hid _]. rewrite (in_ids_In _ _ Hid) in Hn. discriminate.
    - apply in_app_or in Hin as [Hin|[<-|[]]].
      + right. unfold step_timers in Hin. apply in_map_iff in Hin as (i & <- & Hi).
        apply in_seq in Hi. exists i. split; [lia|reflexivity].
      + left. reflexivity. }
  split.
  { rewrite Q. apply in_or_app. right. apply in_or_app. right. left. reflexivity. }
  split.
  { intros x tm v Hq Hc. destruct (fire_BlendStep x tm v Hq Hc) as (A & B & _). auto. }
  split.
  { intros x tm Hq Hc. destruct (fire_BlendRed x tm k Hq Hc) as (A & B & C).
    split; [exact A|]. split; [exact B|]. rewrite C. apply in_or_app. right. left.
    reflexivity. }
  split.
  { intros x tm Hq Hc. destruct (fire_ToTypePrefix x tm k Hq Hc) as (A & B & C & _). auto. }
  exact blend_timelines.
Qed.

Lemma blend_runs_k_seconds_witness :
  let s := set_view (set_phase (blend_prefix 2) (view (mount 0))) (mount 0) in
  In (mkTimer (nextId s + 1) (now s + 1000) (BlendStep 2) (phaseId (view s)))
     (timers (auto_effect s))
  /\ In (mkTimer (nextId s + 2) (now s + 2000) (BlendRed 2) (phaseId (view s)))
        (timers (auto_effect s)).
Proof.
  intro s.
  assert (G : grouped 0 s).
  { intros tm Hin Hg. cbn in Hin. destruct Hin as [<-|[]]. discriminate Hg. }
  pose proof (blend_runs_k_seconds s 2 0 eq_refl ltac:(cbn; discriminate) G) as H.
  cbv zeta in H. destruct H as (H1 & H2 & _).
  split; [exact (H1 1 ltac:(lia))|exact H2].
Defined.

(** ** Typing the prefix *)

(** Keys pressed one after the other, each handled and committed before the
    next arrives. *)
Definition type_keys (ks : list string) (s : State) : State :=
  fold_left (fun acc k => onKey k acc) ks s.

(** What the first pass of a render computes from the updates a handler
    queued; the setters an updater calls meanwhile are applied by the next
    pass. *)
Definition first_pass (x : State) : State :=
  fold_left (fun acc u => apply_update u acc) (queue x) (set_queue [] x).

Lemma same_letter_refl (e : string) : same_letter e (Some e) = true.
Proof. apply String.eqb_refl. Qed.

Lemma fresh_now (n : nat) (e : string) : fresh n (mkKeyEvent e n) = true.
Proof. unfold fresh. cbn [t]. rewrite Nat.sub_diag. reflexivity. Qed.

Lemma getExpectedLetter_ext (x y : State) :
  phaseRef (refs x) = phaseRef (refs y) ->
  lettersRef (refs x) = lettersRef (refs y) ->
  typingCurrentIndexRef (refs x) = typingCurrentIndexRef (refs y) ->
  getExpectedLetter x = getExpectedLetter y.
Proof. intros A B C. unfold getExpectedLetter. rewrite A, B, C. reflexivity. Qed.

(** One invocation of [processBuffer] that finds no entry to consume. *)
Lemma processBuffer_no_match (f : nat) (pc : Phase) (s : State) (e : string) :
  getExpectedLetter s = Some e ->
  find_key e (filter (fresh (now s)) (keyBufferRef (refs s))) = None ->
  processBuffer (S f) pc s = Some (pruneBuffer s).
Proof.
  intros He Hf. cbn [processBuffer].
  change (getExpectedLetter (pruneBuffer s)) with (getExpectedLetter s).
  change (keyBufferRef (refs (pruneBuffer s)))
    with (filter (fresh (now s)) (keyBufferRef (refs s))).
  rewrite He, Hf. destruct (negb (truthy (Some e))); reflexivity.
Qed.

(** One invocation of [processBuffer] in a typing phase that finds the
    expected letter at index [i] of the pruned buffer. *)
Lemma processBuffer_consume_type (f : nat) (pc : Phase) (s : State) (e : string)
      (k i : nat) :
  getExpectedLetter s = Some e -> e <> "" ->
  phaseRef (refs s) = type_prefix k ->
  find_key e (filter (fresh (now s)) (keyBufferRef (refs s))) = Some i ->
  processBuffer (S f) pc s
  = processBuffer f pc
      (handleCorrectType e
         (on_refs (set_keyBufferRef
                     (splice1 i (filter (fresh (now s)) (keyBufferRef (refs s))))) s)).
Proof.
  intros He Hne Hp Hf. cbn [processBuffer].
  change (getExpectedLetter (pruneBuffer s)) with (getExpectedLetter s).
  change (keyBufferRef (refs (pruneBuffer s)))
    with (filter (fresh (now s)) (keyBufferRef (refs s))).
  change (phaseRef (refs (pruneBuffer s))) with (phaseRef (refs s)).
  rewrite He, Hf, Hp, (truthy_Some e Hne). cbn [negb]. reflexivity.
Qed.

Lemma addToBuffer_empty (e : string) (s : State) :
  keyBufferRef (refs s) = [] ->
  repeat_guard e (now s) (lastKeyRef (refs s)) = false ->
  addToBuffer e s
  = on_refs (fun r => set_keyBufferRef [mkKeyEvent e (now s)]
                        (set_lastKeyRef (Some (mkKeyEvent e (now s))) r)) s.
Proof.
  intros Hb Hg. unfold addToBuffer. cbv zeta.
  change (now (pruneBuffer s)) with (now s).
  change (lastKeyRef (refs (pruneBuffer s))) with (lastKeyRef (refs s)).
  rewrite Hg.
  destruct s as [v [kb lk pr ir tr ls bt la] q ts nid did n cs].
  cbn [refs keyBufferRef] in Hb. subst kb. reflexivity.
Qed.

(** A correct key in a typing phase with nothing buffered: it is put in the
    buffer, consumed at once, and answered by [handleCorrectType]. *)
Lemma onKey_body_type_correct (s : State) (k : nat) (e : string) :
  phaseRef (refs s) = type_prefix k ->
  keyBufferRef (refs s) = [] ->
  getExpectedLetter s = Some e ->
  e <> "" ->
  includes LETTERS e = true ->
  toUpperCase e = e ->
  repeat_guard e (now s) (lastKeyRef (refs s)) = false ->
  onKey_body e s
  = handleCorrectType e (on_refs (set_lastKeyRef (Some (mkKeyEvent e (now s)))) s).
Proof.
  intros Hp Hb He Hne Hin Hup Hg.
  unfold onKey_body. rewrite Hup, Hin, Hp. cbn [negb]. cbv zeta.
  rewrite He, (truthy_Some e Hne), same_letter_refl. cbn [andb].
  rewrite (addToBuffer_empty e s Hb Hg).
  set (s2 := on_refs _ s).
  assert (He2 : getExpectedLetter s2 = Some e)
    by (rewrite <- He; apply getExpectedLetter_ext; reflexivity).
  unfold drain. change (keyBufferRef (refs s2)) with [mkKeyEvent e (now s)].
  cbn [List.length].
  rewrite (processBuffer_consume_type 1 mount_phase s2 e k 0 He2 Hne Hp);
    [|change (keyBufferRef (refs s2)) with [mkKeyEvent e (now s)];
      change (now s2) with (now s); cbn [filter]; rewrite fresh_now;
      cbn [find_key key]; rewrite String.eqb_refl; reflexivity].
  change (keyBufferRef (refs s2)) with [mkKeyEvent e (now s)].
  change (now s2) with (now s). cbn [filter]. rewrite fresh_now. cbn [splice1].
  set (s3 := handleCorrectType e _).
  assert (He3 : getExpectedLetter s3 = Some e)
    by (rewrite <- He; apply getExpectedLetter_ext; reflexivity).
  rewrite (processBuffer_no_match 0 mount_phase s3 e He3) by reflexivity.
  rewrite pruneBuffer_fresh by reflexivity.
  subst s3 s2. destruct s as [v [kb lk pr ir tr ls bt la] q ts nid did n cs].
  cbn [refs keyBufferRef] in Hb. subst kb. reflexivity.
Qed.

Lemma first_pass_typing (x : State) (a tb : string) :
  queue x = [SetAnnouncement a; SetTypedBuffer tb; AdvanceTypingIndex] ->
  first_pass x
  = advance_index (set_view (set_typedBuffer tb (set_announcement a (view x)))
                            (set_queue [] x)).
Proof. intro H. unfold first_pass. rewrite H. reflexivity. Qed.

Lemma render_first_pass (n : nat) (x : State) :
  queue x <> [] -> render (S n) x = render n (first_pass x).
Proof.
  intro H. rewrite render_S. unfold first_pass.
  destruct (queue x); [contradiction|reflexivity].
Qed.

Lemma render_done (n : nat) (x : State) : queue x = [] -> render n x = x.
Proof. intro H. destruct n; [reflexivity|]. rewrite render_S, H. reflexivity. Qed.

Lemma settle_step (n : nat) (x : State) :
  queue x <> [] -> settle (S n) x = settle n (commit_once x).
Proof. intro H. rewrite settle_S. destruct (queue x); [contradiction|reflexivity]. Qed.

Lemma settle_done (n : nat) (x : State) : queue x = [] -> settle n x = x.
Proof. intro H. destruct n; [reflexivity|]. rewrite settle_S, H. reflexivity. Qed.

(** A commit whose render needs one pass, and one whose updater queued
    further setter calls and needs two; neither ends in a blend phase. *)
Lemma commit_one_pass (x : State) :
  queue x <> [] -> queue (first_pass x) = [] ->
  (forall k, phase (view (first_pass x)) <> blend_prefix k) ->
  commit x = run_effects (view x) (first_pass x).
Proof.
  intros Hne Hq Hb. unfold commit. rewrite (settle_step _ _ Hne).
  unfold commit_once. rewrite (render_first_pass _ _ Hne), (render_done _ _ Hq).
  apply settle_done. rewrite (queue_run_effects_not_blend _ _ Hb). exact Hq.
Qed.

Lemma commit_two_passes (x : State) :
  queue x <> [] -> queue (first_pass x) <> [] ->
  queue (first_pass (first_pass x)) = [] ->
  (forall k, phase (view (first_pass (first_pass x))) <> blend_prefix k) ->
  commit x = run_effects (view x) (first_pass (first_pass x)).
Proof.
  intros Hne Hne2 Hq Hb. unfold commit. rewrite (settle_step _ _ Hne).
  unfold commit_once.
  rewrite (render_first_pass _ _ Hne), (render_first_pass _ _ Hne2), (render_done _ _ Hq).
  apply settle_done. rewrite (queue_run_effects_not_blend _ _ Hb). exact Hq.
Qed.

Lemma resetForNext_frame (y : State) :
  view (resetForNext y) = view y
  /\ queue (resetForNext y)
     = (queue y ++ [SetWordIndexNext; SetPhase (click_letter 0); SetTypedBuffer "";
                    SetTypingCurrentIndex 0; SetBlendHighlightStep 0;
                    SetAnnouncement ""; SetShowImage false])%list
  /\ now (resetForNext y) = now y
  /\ phaseRef (refs (resetForNext y)) = phaseRef (refs y).
Proof.
  unfold resetForNext. cbv zeta.
  destruct (clearBlendTimeouts_spec y) as (V & Q & _ & _ & W & _ & R & _).
  cbn [enqueue on_refs view queue now refs set_refs set_queue phaseRef
       set_keyBufferRef set_lastKeyRef set_lastAutoRef].
  rewrite V, Q, W, R. repeat split. rewrite <- !app_assoc. reflexivity.
Qed.

(** TypePrefix(k) with [i] letters typed: refs in step with the view, nothing
    buffered, and the next letter not held back by the repeat guard. *)
Record typing_at (k i : nat) (s : State) : Prop := {
  ta_queue : queue s = [];
  ta_phase : phase (view s) = type_prefix k;
  ta_phaseRef : phaseRef (refs s) = type_prefix k;
  ta_index : typingCurrentIndex (view s) = i;
  ta_indexRef : typingCurrentIndexRef (refs s) = i;
  ta_typed : typedBuffer (view s) = join (slice0 i (letters (view s)));
  ta_typedRef : typedBufferRef (refs s) = join (slice0 i (letters (view s)));
  ta_word : wordIndex (view s) < List.length WORDS;
  ta_letters : lettersRef (refs s) = letters (view s);
  ta_buffer : keyBufferRef (refs s) = [];
  ta_guard : repeat_guard (nth i (letters (view s)) "") (now s) (lastKeyRef (refs s)) = false
}.

Lemma advance_index_more (y : State) (k : nat) :
  phaseRef (refs y) = type_prefix k ->
  typingCurrentIndex (view y) + 1 <> k ->
  advance_index y
  = set_view (set_typingCurrentIndex (typingCurrentIndex (view y) + 1) (view y)) y.
Proof.
  intros Hp Hk. unfold advance_index. cbv zeta. rewrite Hp.
  apply Nat.eqb_neq in Hk. rewrite Hk. reflexivity.
Qed.

Lemma typing_key_step (s : State) (k i : nat) :
  typing_at k i s -> S i < k -> k <= 3 ->
  typing_at k (S i) (onKey (nth i (letters (view s)) "") s)
  /\ wordIndex (view (onKey (nth i (letters (view s)) "") s)) = wordIndex (view s)
  /\ now (onKey (nth i (letters (view s)) "") s) = now s.
Proof.
  intros T Hi Hk.
  destruct T as [Hq Hp Hpr Hix Hir Ht Htr Hw Hl Hb Hg].
  destruct s as [[wi ph tb st ix an sh pid] [kb lk pr ir tr ls bt la] q ts nid did n cs].
  cbn [view refs queue phase phaseRef typingCurrentIndex typingCurrentIndexRef
       typedBuffer typedBufferRef wordIndex lettersRef keyBufferRef lastKeyRef now] in *.
  subst q ph pr ix ir kb.
  assert (Hwi : wi = 0 \/ wi = 1) by (cbn in Hw; lia).
  assert (Hki : (k = 2 /\ i = 0) \/ (k = 3 /\ i = 0) \/ (k = 3 /\ i = 1)) by lia.
  destruct Hwi as [-> | ->]; destruct Hki as [[-> ->]|[[-> ->]|[-> ->]]];
    cbn [letters word wordIndex nth WORDS split_chars slice0 firstn join String.concat] in *;
    subst tb tr ls.
  all: match goal with |- context [onKey ?e ?s0] =>
         set (s := s0); set (e0 := e);
         assert (He : getExpectedLetter s = Some e0) by reflexivity;
         assert (B : onKey_body e0 s
                     = handleCorrectType e0
                         (on_refs (set_lastKeyRef (Some (mkKeyEvent e0 (now s)))) s))
           by (eapply onKey_body_type_correct;
               [reflexivity|reflexivity|exact He|discriminate|reflexivity|reflexivity|exact Hg])
       end.
  all: unfold onKey; rewrite B; clear B.
  all: match goal with |- context [commit ?x0] => set (x := x0) end.
  all: assert (FP : first_pass x
                    = set_view (set_typingCurrentIndex (typingCurrentIndex (view x) + 1)
                                  (set_typedBuffer (toUpperCase (typedBufferRef (refs x) ++ e0))
                                     (set_announcement "Correct" (view x))))
                               (set_queue [] x))
         by (rewrite (first_pass_typing x "Correct" (toUpperCase (typedBufferRef (refs x) ++ e0)))
               by reflexivity;
             erewrite advance_index_more; [reflexivity|reflexivity|cbn; lia]).
  all: rewrite (commit_one_pass x);
         [|discriminate|rewrite FP; reflexivity|rewrite FP; cbn; discriminate].
  all: rewrite FP; clear FP.
  all: match goal with |- context [run_effects ?o ?y] =>
         pose proof (view_run_effects o y) as V;
         destruct (run_effects_core o y) as (C & N);
         pose proof (queue_run_effects_not_blend o y ltac:(cbn; discriminate)) as Q;
         set (z := run_effects o y) in *
       end.
  all: unfold core in C; injection C as C1 C2 C3 C4 C5 C6.
  all: split; [|split; [rewrite V; reflexivity|rewrite N; reflexivity]].
  all: constructor;
         [ rewrite Q; reflexivity
         | rewrite V; reflexivity
         | rewrite C3; destruct (_ =? _); reflexivity
         | rewrite V; reflexivity
         | rewrite C4; reflexivity
         | rewrite V; reflexivity
         | rewrite C5, V; reflexivity
         | rewrite V; cbn; lia
         | rewrite C6, V; reflexivity
         | rewrite C1; reflexivity
         | rewrite C2, N, V; reflexivity ].
Qed.

(** The updater at the last letter of the prefix: the index reaches [k] and
    the setter calls of the transition are queued for the next pass. *)
Lemma advance_index_done (y : State) (k : nat) :
  phaseRef (refs y) = type_prefix k ->
  typingCurrentIndex (view y) + 1 = k ->
  k = 2 \/ k = 3 ->
  view (advance_index y) = set_typingCurrentIndex k (view y)
  /\ queue (advance_index y)
     = (queue y ++
        if k =? 2
        then [SetPhase (click_letter 2); SetTypedBuffer ""; SetTypingCurrentIndex 0;
              SetShowImage false]
        else [SetShowImage false; SetWordIndexNext; SetPhase (click_letter 0);
              SetTypedBuffer ""; SetTypingCurrentIndex 0; SetBlendHighlightStep 0;
              SetAnnouncement ""; SetShowImage false])%list.
Proof.
  intros Hp Hi Hk. unfold advance_index. cbv zeta. rewrite Hp, Hi, Nat.eqb_refl.
  destruct Hk as [-> | ->]; cbn [Nat.eqb].
  - cbn [enqueue view queue set_view set_queue]. split; [reflexivity|].
    rewrite <- !app_assoc. reflexivity.
  - destruct (resetForNext_frame (enqueue (SetShowImage false) y)) as (V & Q & _).
    cbn [view queue set_view]. rewrite V, Q. cbn [enqueue view queue set_queue].
    split; [reflexivity|]. rewrite <- !app_assoc. reflexivity.
Qed.

(** A plain update, on the view alone. *)
Definition apply_view (u : Update) (v : View) : View :=
  match u with
  | SetWordIndexNext => set_wordIndex ((wordIndex v + 1) mod List.length WORDS) v
  | SetPhase p => set_phase p v
  | SetTypedBuffer x => set_typedBuffer x v
  | SetBlendHighlightStep n => set_blendHighlightStep n v
  | SetTypingCurrentIndex n => set_typingCurrentIndex n v
  | AdvanceTypingIndex => v
  | SetAnnouncement x => set_announcement x v
  | SetShowImage b => set_showImage b v
  end.

Lemma view_fold_plain (us : list Update) :
  forallb plain us = true ->
  forall y, view (fold_left (fun acc u => apply_update u acc) us y)
            = fold_left (fun v u => apply_view u v) us (view y).
Proof.
  induction us as [|u r IH]; intros H y; [reflexivity|].
  cbn [forallb] in H. apply andb_prop in H as [Hu Hr].
  cbn [fold_left]. rewrite (IH Hr). f_equal.
  destruct u; try discriminate; reflexivity.
Qed.

Lemma view_first_pass_plain (y : State) :
  forallb plain (queue y) = true ->
  view (first_pass y) = fold_left (fun v u => apply_view u v) (queue y) (view y).
Proof. intro H. unfold first_pass. rewrite (view_fold_plain _ H). reflexivity. Qed.

Lemma typing_key_last (s : State) (k i : nat) :
  typing_at k i s -> S i = k -> k = 2 \/ k = 3 ->
  let e := nth i (letters (view s)) "" in
  typedBuffer (view (first_pass (onKey_body e s))) = join (slice0 k (letters (view s)))
  /\ typingCurrentIndex (view (first_pass (onKey_body e s))) = k
  /\ phase (view (first_pass (onKey_body e s))) = type_prefix k
  /\ typedBuffer (view (onKey e s)) = ""
  /\ typingCurrentIndex (view (onKey e s)) = 0
  /\ phase (view (onKey e s)) = (if k =? 2 then click_letter 2 else click_letter 0)
  /\ wordIndex (view (onKey e s))
     = (if k =? 2 then wordIndex (view s)
        else (wordIndex (view s) + 1) mod List.length WORDS)
  /\ phaseRef (refs (onKey e s)) = phase (view (onKey e s))
  /\ queue (onKey e s) = [].
Proof.
  intros T Hi Hk. cbv zeta.
  destruct T as [Hq Hp Hpr Hix Hir Ht Htr Hw Hl Hb Hg].
  destruct s as [[wi ph tb st ix an sh pid] [kb lk pr ir tr ls bt la] q ts nid did n cs].
  cbn [view refs queue phase phaseRef typingCurrentIndex typingCurrentIndexRef
       typedBuffer typedBufferRef wordIndex lettersRef keyBufferRef lastKeyRef now] in *.
  subst q ph pr ix ir kb.
  assert (Hwi : wi = 0 \/ wi = 1) by (cbn in Hw; lia).
  assert (Hki : (k = 2 /\ i = 1) \/ (k = 3 /\ i = 2)) by lia.
  destruct Hwi as [-> | ->]; destruct Hki as [[-> ->]|[-> ->]];
    cbn [letters word wordIndex nth WORDS split_chars slice0 firstn join String.concat
         append] in *;
    subst tb tr ls.
  all: match goal with |- context [onKey ?e ?s0] =>
         set (s := s0); set (e0 := e);
         assert (He : getExpectedLetter s = Some e0) by reflexivity;
         assert (B : onKey_body e0 s
                     = handleCorrectType e0
                         (on_refs (set_lastKeyRef (Some (mkKeyEvent e0 (now s)))) s))
           by (eapply onKey_body_type_correct;
               [reflexivity|reflexivity|exact He|discriminate|reflexivity|reflexivity|exact Hg])
       end.
  all: unfold onKey; rewrite B; clear B.
  all: match goal with |- context [commit ?x0] => set (x := x0) end.
  all: rewrite (first_pass_typing x "Correct" (toUpperCase (typedBufferRef (refs x) ++ e0)))
         by reflexivity.
  all: pose proof (first_pass_typing x "Correct"
                     (toUpperCase (typedBufferRef (refs x) ++ e0)) eq_refl) as F1.
  all: match goal with |- context [advance_index ?y0] =>
         set (yy := y0) in *;
         assert (A1 : phaseRef (refs yy) = type_prefix (typingCurrentIndex (view yy) + 1))
           by reflexivity;
         assert (Vy : view yy = set_typedBuffer (toUpperCase (typedBufferRef (refs x) ++ e0))
                                  (set_announcement "Correct" (view s)))
           by reflexivity;
         assert (Qy : queue yy = []) by reflexivity;
         destruct (advance_index_done yy _ A1 eq_refl ltac:(cbn; auto)) as (V1 & Q1);
         set (fp1 := advance_index yy) in *
       end.
  all: let v := eval cbv in (typingCurrentIndex (view yy)) in
       assert (I1 : typingCurrentIndex (view yy) = v) by reflexivity;
       rewrite I1 in Q1, V1; clear I1.
  all: rewrite Qy in Q1; rewrite Vy in V1; cbn [app Nat.add Nat.eqb] in Q1, V1.
  all: assert (Vx : view x = view s) by reflexivity.
  all: assert (Qx : queue x <> []) by discriminate.
  all: assert (Tx : toUpperCase (typedBufferRef (refs x) ++ e0)
                    = (typedBufferRef (refs s) ++ e0)%string) by reflexivity.
  all: rewrite Tx in V1; clear Tx.
  all: clearbody fp1; clear A1 Vy Qy; clearbody yy; clearbody x.
  all: rewrite V1.
  all: split; [reflexivity|]. all: split; [reflexivity|]. all: split; [reflexivity|].
  all: assert (Q2 : queue (first_pass fp1) = [])
         by (unfold first_pass; rewrite Q1;
             match goal with |- queue (fold_left _ ?us ?y) = _ =>
               rewrite (proj1 (fold_plain_frame us eq_refl y)); reflexivity
             end).
  all: assert (V2 : view (first_pass fp1)
                    = fold_left (fun v u => apply_view u v) (queue fp1) (view fp1))
         by (apply view_first_pass_plain; rewrite Q1; reflexivity).
  all: rewrite Q1, V1 in V2.
  all: rewrite (commit_two_passes x);
         [|exact Qx|rewrite F1, Q1; discriminate|rewrite F1; exact Q2
          |rewrite F1, V2; discriminate].
  all: rewrite F1, Vx.
  all: match goal with |- context [run_effects ?o ?y] =>
         pose proof (view_run_effects o y) as V;
         destruct (run_effects_core o y) as (C & N);
         pose proof (queue_run_effects_not_blend o y
                       ltac:(rewrite V2; discriminate)) as Q;
         set (z := run_effects o y) in *; clearbody z
       end.
  all: unfold core in C; injection C as C1 C2 C3 C4 C5 C6.
  all: rewrite V2 in V, C3; clear C1 C2 C4 C5 C6 N.
  all: rewrite Q2 in Q.
  all: split; [rewrite V; reflexivity|].
  all: split; [rewrite V; reflexivity|].
  all: split; [rewrite V; reflexivity|].
  all: split; [rewrite V; reflexivity|].
  all: split; [|exact Q].
  all: rewrite C3, V.
  all: match goal with |- (if ?c then _ else _) = _ =>
         replace c with false by (symmetry; exact (eqb_succ_false pid))
       end; reflexivity.
Qed.

(** ** Every commit settles *)

Lemma quiet_plain (us : list Update) : forallb quiet us = true -> forallb plain us = true.
Proof.
  induction us as [|u r IH]; [reflexivity|]. cbn [forallb]. intro H.
  apply andb_prop in H as [Hu Hr]. rewrite (IH Hr).
  destruct u; try discriminate; reflexivity.
Qed.

(** What a render pass leaves in the queue was put there by the updater of
    [handleCorrectType], and is plain. *)
Lemma advance_index_queue (y : State) :
  exists extra, queue (advance_index y) = (queue y ++ extra)%list
                /\ forallb plain extra = true.
Proof.
  unfold advance_index. cbv zeta. cbn [queue set_view].
  destruct (phaseRef (refs y)) as [i|k|k];
    try (exists []; rewrite app_nil_r; split; reflexivity).
  destruct (typingCurrentIndex (view y) + 1 =? k);
    [|exists []; rewrite app_nil_r; split; reflexivity].
  destruct (k =? 2).
  { eexists. cbn [enqueue queue set_queue]. rewrite <- !app_assoc. split; reflexivity. }
  destruct (k =? 3); [|exists []; rewrite app_nil_r; split; reflexivity].
  destruct (resetForNext_frame (enqueue (SetShowImage false) y)) as (_ & Q & _).
  rewrite Q. cbn [enqueue queue set_queue]. eexists. rewrite <- !app_assoc.
  split; reflexivity.
Qed.

Lemma apply_update_queue (u : Update) (y : State) :
  exists extra, queue (apply_update u y) = (queue y ++ extra)%list
                /\ forallb plain extra = true.
Proof.
  destruct u; try (exists []; rewrite app_nil_r; split; reflexivity).
  apply advance_index_queue.
Qed.

Lemma fold_updates_queue (us : list Update) :
  forall y, exists extra,
    queue (fold_left (fun acc u => apply_update u acc) us y) = (queue y ++ extra)%list
    /\ forallb plain extra = true.
Proof.
  induction us as [|u r IH]; intro y; cbn [fold_left].
  - exists []. rewrite app_nil_r. split; reflexivity.
  - destruct (IH (apply_update u y)) as (e2 & Q2 & P2).
    destruct (apply_update_queue u y) as (e1 & Q1 & P1).
    exists (e1 ++ e2)%list. rewrite Q2, Q1, <- app_assoc. split; [reflexivity|].
    rewrite forallb_app, P1, P2. reflexivity.
Qed.

Lemma first_pass_queue_plain (x : State) : forallb plain (queue (first_pass x)) = true.
Proof.
  unfold first_pass.
  destruct (fold_updates_queue (queue x) (set_queue [] x)) as (e & Q & P).
  rewrite Q. exact P.
Qed.

Lemma first_pass_plain_queue (x : State) :
  forallb plain (queue x) = true -> queue (first_pass x) = [].
Proof.
  intro H. unfold first_pass.
  rewrite (proj1 (fold_plain_frame (queue x) H (set_queue [] x))). reflexivity.
Qed.

(** A render is over after two passes at most. *)
Lemma render_two_passes (n : nat) (x : State) :
  queue (render (S (S n)) x) = []
  /\ (render (S (S n)) x = x
      \/ render (S (S n)) x = first_pass x
      \/ render (S (S n)) x = first_pass (first_pass x)).
Proof.
  destruct (queue x) as [|u us] eqn:Q0.
  { rewrite render_done by exact Q0. auto. }
  rewrite render_first_pass by (rewrite Q0; discriminate).
  destruct (queue (first_pass x)) as [|u1 us1] eqn:Q1.
  { rewrite render_done by exact Q1. auto. }
  rewrite render_first_pass by (rewrite Q1; discriminate).
  assert (Q2 : queue (first_pass (first_pass x)) = [])
    by (apply first_pass_plain_queue, first_pass_queue_plain).
  rewrite render_done by exact Q2. auto.
Qed.

(** The effects queue nothing but the two setter calls of the blend entry. *)
Lemma auto_effect_queue (y : State) :
  exists extra, queue (auto_effect y) = (queue y ++ extra)%list
                /\ forallb quiet extra = true.
Proof.
  destruct (String.eqb_spec (lastAutoRef (refs y)) (signature (view y))) as [E|E].
  { rewrite (auto_effect_same y E). exists []. rewrite app_nil_r. split; reflexivity. }
  destruct (phase (view y)) as [i|k|k] eqn:Hp.
  - rewrite queue_auto_effect_not_blend by (intro; rewrite Hp; discriminate).
    exists []. rewrite app_nil_r. split; reflexivity.
  - destruct (auto_effect_blend y k Hp E) as (_ & _ & _ & _ & Q & _).
    rewrite Q. eexists. split; [reflexivity|]. destruct (k =? 3); reflexivity.
  - rewrite queue_auto_effect_not_blend by (intro; rewrite Hp; discriminate).
    exists []. rewrite app_nil_r. split; reflexivity.
Qed.

Lemma if_auto_effect_queue (b : bool) (z : State) :
  exists extra, queue (if b then auto_effect z else z) = (queue z ++ extra)%list
                /\ forallb quiet extra = true.
Proof.
  destruct b; [apply auto_effect_queue|].
  exists []. rewrite app_nil_r. split; reflexivity.
Qed.

Lemma run_effects_queue (old : View) (y : State) :
  exists extra, queue (run_effects old y) = (queue y ++ extra)%list
                /\ forallb quiet extra = true.
Proof.
  unfold run_effects. cbv zeta.
  match goal with
  | |- exists e, queue (if ?d then drain_effect ?w else ?w) = _ /\ _ =>
      assert (E1 : queue (if d then drain_effect w else w) = queue w)
        by (apply (if_preserves queue); reflexivity);
      match w with
      | (if ?b then auto_effect ?z else ?z) =>
          assert (Z : queue z = queue y)
            by (rewrite !(if_preserves queue _ (on_refs _)) by reflexivity;
                rewrite (if_preserves queue _ drain_cleanup)
                  by (intro z0; apply drain_cleanup_frame);
                rewrite (if_preserves queue _ clearBlendTimeouts)
                  by (intro z0; apply (clearBlendTimeouts_spec z0));
                reflexivity);
          destruct (if_auto_effect_queue b z) as (e & Q & P);
          exists e; rewrite E1, Q, Z; auto
      end
  end.
Qed.

Lemma commit_once_queue (x : State) : forallb quiet (queue (commit_once x)) = true.
Proof.
  unfold commit_once.
  destruct (run_effects_queue (view x) (render 25 x)) as (e & Q & P).
  rewrite Q, (proj1 (render_two_passes 23 x)). exact P.
Qed.

Lemma commit_once_quiet (y : State) :
  queue y <> [] -> forallb quiet (queue y) = true ->
  commit_once y = apply_quiet (queue y) y.
Proof.
  intros Hne Hq. unfold commit_once.
  rewrite (render_first_pass _ _ Hne).
  assert (F : first_pass y = apply_quiet (queue y) y) by reflexivity.
  pose proof (apply_quiet_frame (queue y) (set_queue [] y) Hq) as A.
  cbv zeta in A. fold (apply_quiet (queue y) y) in A.
  destruct A as (A1 & A2 & A3 & A4 & A5 & A6 & A7 & A8).
  change (queue (set_queue [] y)) with (@nil Update) in A7.
  rewrite F, (render_done _ _ A7).
  apply run_effects_same_deps; symmetry; assumption.
Qed.

Lemma settle_cases (x : State) :
  queue (commit x) = []
  /\ (commit x = x \/ commit x = commit_once x \/ commit x = commit_once (commit_once x)).
Proof.
  unfold commit.
  destruct (queue x) as [|u us] eqn:Q0.
  { rewrite settle_done by exact Q0. auto. }
  rewrite settle_step by (rewrite Q0; discriminate).
  pose proof (commit_once_queue x) as P1.
  destruct (queue (commit_once x)) as [|u1 us1] eqn:Q1.
  { rewrite settle_done by exact Q1. auto. }
  rewrite settle_step by (rewrite Q1; discriminate).
  assert (Q2 : queue (commit_once (commit_once x)) = []).
  { rewrite (commit_once_quiet (commit_once x)); rewrite Q1; [|discriminate|exact P1].
    pose proof (apply_quiet_frame (u1 :: us1) (set_queue [] (commit_once x)) P1) as A.
    cbv zeta in A. apply A. }
  rewrite settle_done by exact Q2. auto.
Qed.

(** ** Induction over the reachable states *)

Lemma earliest_In (ts : list Timer) (tm : Timer) : earliest ts = Some tm -> In tm ts.
Proof.
  revert tm. induction ts as [|x r IH]; intros tm H; cbn [earliest] in H; [discriminate|].
  destruct (earliest r) as [m|].
  - destruct (due m <? due x); injection H as <-; [right; apply IH; reflexivity|left; reflexivity].
  - injection H as <-. left. reflexivity.
Qed.

Lemma reachable_induction (I : State -> Prop) :
  (forall t0, I (mount t0)) ->
  (forall s k, I s -> I (onKey k s)) ->
  (forall s tm, I s -> In tm (timers s) -> due tm <= now s -> I (fire tm s)) ->
  (forall s dt, I s -> I (set_now (now s + dt) s)) ->
  (forall s, I s -> I (replay s)) ->
  forall s, reachable s -> I s.
Proof.
  intros Hm Hk Hf Hw Hr s (t0 & es & R).
  assert (G : forall es x y, I x -> run es x = Some y -> I y).
  { clear - Hk Hf Hw Hr. induction es as [|e r IH]; intros x y Hx H; cbn [run] in H.
    - injection H as <-. exact Hx.
    - destruct (step e x) as [x'|] eqn:E; [|discriminate].
      apply (IH x' y); [|exact H].
      destruct e as [k| |dt|]; cbn [step] in E.
      + injection E as <-. apply Hk, Hx.
      + destruct (earliest (timers x)) as [tm|] eqn:Et; [|discriminate].
        destruct (due tm <=? now x) eqn:Ed; [|discriminate].
        injection E as <-. apply Hf; [exact Hx|exact (earliest_In _ _ Et)|].
        apply Nat.leb_le, Ed.
      + injection E as <-. apply Hw, Hx.
      + injection E as <-. apply Hr, Hx. }
  exact (G es _ _ (Hm t0) R).
Qed.

(** The view after an update depends on the view alone. *)
Definition step_view (u : Update) (v : View) : View :=
  match u with
  | AdvanceTypingIndex => set_typingCurrentIndex (typingCurrentIndex v + 1) v
  | _ => apply_view u v
  end.

Lemma view_advance_index (y : State) :
  view (advance_index y) = set_typingCurrentIndex (typingCurrentIndex (view y) + 1) (view y).
Proof.
  unfold advance_index. cbv zeta. cbn [view set_view].
  destruct (phaseRef (refs y)) as [i|k|k]; try reflexivity.
  destruct (typingCurrentIndex (view y) + 1 =? k); [|reflexivity].
  destruct (k =? 2); [reflexivity|].
  destruct (k =? 3); [|reflexivity].
  rewrite (proj1 (resetForNext_frame _)). reflexivity.
Qed.

Lemma view_apply_update (u : Update) (y : State) :
  view (apply_update u y) = step_view u (view y).
Proof. destruct u; try reflexivity. apply view_advance_index. Qed.

Lemma view_fold_updates (us : list Update) :
  forall y, view (fold_left (fun acc u => apply_update u acc) us y)
            = fold_left (fun v u => step_view u v) us (view y).
Proof.
  induction us as [|u r IH]; intro y; [reflexivity|].
  cbn [fold_left]. rewrite IH, view_apply_update. reflexivity.
Qed.

Section ViewInvariant.

Variable P : View -> Prop.
Hypothesis P_step : forall u v, P v -> P (step_view u v).

Lemma P_fold (us : list Update) : forall v, P v -> P (fold_left (fun v u => step_view u v) us v).
Proof. induction us as [|u r IH]; intros v H; [exact H|]. cbn [fold_left]. apply IH, P_step, H. Qed.

Lemma P_first_pass (x : State) : P (view x) -> P (view (first_pass x)).
Proof. intro H. unfold first_pass. rewrite view_fold_updates. apply P_fold, H. Qed.

Lemma P_render (n : nat) : forall x, P (view x) -> P (view (render n x)).
Proof.
  induction n as [|n IH]; intros x H; [exact H|].
  destruct (queue x) as [|u us] eqn:Q.
  - rewrite render_done by exact Q. exact H.
  - rewrite render_first_pass by (rewrite Q; discriminate). apply IH, P_first_pass, H.
Qed.

Lemma P_commit_once (x : State) : P (view x) -> P (view (commit_once x)).
Proof. intro H. unfold commit_once. rewrite view_run_effects. apply P_render, H. Qed.

Lemma P_commit (x : State) : P (view x) -> P (view (commit x)).
Proof.
  intro H. destruct (settle_cases x) as (_ & [E|[E|E]]); rewrite E;
    [exact H|apply P_commit_once, H|apply P_commit_once, P_commit_once, H].
Qed.

Lemma P_reachable : P (view (first_render 0)) -> forall s, reachable s -> P (view s).
Proof.
  intro H0. apply reachable_induction.
  - intro t0. unfold mount. apply P_commit.
    unfold drain_effect. cbn [setTimeout set_drainId view set_nextId set_timers].
    rewrite (proj1 (auto_effect_frame _)). exact H0.
  - intros s k H. unfold onKey. apply P_commit. rewrite view_onKey_body. exact H.
  - intros s tm H _ _. unfold fire. apply P_commit. rewrite view_run_callback. exact H.
  - intros s dt H. exact H.
  - intros s H. rewrite (proj1 (replay_frame s)). exact H.
Qed.

End ViewInvariant.

Lemma word_in_range (s : State) :
  reachable s ->
  wordIndex (view s) < List.length WORDS
  /\ In (word (view s)) WORDS
  /\ List.length (letters (view s)) = 3.
Proof.
  intro R.
  assert (H : wordIndex (view s) < List.length WORDS).
  { revert s R. apply (P_reachable (fun v => wordIndex v < List.length WORDS)).
    - intros u v H. destruct u; try exact H.
      unfold step_view, apply_view. cbn [wordIndex set_wordIndex].
      apply Nat.mod_upper_bound. discriminate.
    - cbn. lia. }
  split; [exact H|]. unfold letters, word. cbn in H.
  destruct (wordIndex (view s)) as [|[|n]]; [| |lia]; cbn; auto.
Qed.

(** ** The refs follow the state *)

(** The four refs that mirror a [useState] value. *)
Definition mirror (r : Refs) :=
  (phaseRef r, typingCurrentIndexRef r, typedBufferRef r, lettersRef r).

Definition synced (s : State) : Prop :=
  mirror (refs s)
  = (phase (view s), typingCurrentIndex (view s), typedBuffer (view s), letters (view s)).

Lemma mirror_processBuffer (fuel : nat) :
  forall phase_c x x', processBuffer fuel phase_c x = Some x' ->
    mirror (refs x') = mirror (refs x).
Proof.
  induction fuel as [|f IH]; intros phase_c x x' H; [discriminate|].
  cbn [processBuffer] in H.
  destruct (negb (truthy (getExpectedLetter (pruneBuffer x)))); [injection H as <-; reflexivity|].
  destruct (find_key _ _) as [i|]; [|injection H as <-; reflexivity].
  apply IH in H. rewrite H.
  destruct (phaseRef (refs (pruneBuffer x))) as [ci|k|k]; try reflexivity.
  unfold handleCorrectLetterClick, advanceToNextPhase. cbv zeta.
  destruct phase_c as [[|[|[|j]]]|k|k]; reflexivity.
Qed.

Lemma mirror_drain (phase_c : Phase) (x : State) :
  mirror (refs (drain phase_c x)) = mirror (refs x).
Proof.
  unfold drain. destruct (processBuffer _ phase_c x) as [x'|] eqn:E; [|reflexivity].
  exact (mirror_processBuffer _ _ _ _ E).
Qed.

Lemma mirror_addToBuffer (k : string) (x : State) :
  mirror (refs (addToBuffer k x)) = mirror (refs x).
Proof.
  destruct (addToBuffer_frame k x) as (_ & _ & _ & _ & A & B & C & D).
  unfold mirror. rewrite A, B, C, D. reflexivity.
Qed.

Lemma mirror_onKey_body (k : string) (x : State) :
  mirror (refs (onKey_body k x)) = mirror (refs x).
Proof.
  unfold onKey_body. cbv zeta.
  destruct (negb (includes LETTERS (toUpperCase k))); [reflexivity|].
  assert (V : mirror (refs (if truthy (getExpectedLetter x)
                               && same_letter (toUpperCase k) (getExpectedLetter x)
                            then drain mount_phase (addToBuffer (toUpperCase k) x)
                            else if truthy (getExpectedLetter x)
                                 then addToBuffer (toUpperCase k)
                                        (announce "Try again" (playSoundEffect wrong x))
                                 else x)) = mirror (refs x)).
  { destruct (truthy (getExpectedLetter x) && same_letter (toUpperCase k) (getExpectedLetter x)).
    - rewrite mirror_drain. apply mirror_addToBuffer.
    - destruct (truthy (getExpectedLetter x)); [|reflexivity].
      rewrite mirror_addToBuffer. reflexivity. }
  destruct (phaseRef (refs x)); [exact V|reflexivity|exact V].
Qed.

Lemma mirror_run_callback (c : Callback) (x : State) :
  mirror (refs (run_callback c x)) = mirror (refs x).
Proof.
  destruct c as [| |v|k|k|p]; cbn [run_callback]; try reflexivity.
  - cbv zeta. destruct (negb (k =? 3)); reflexivity.
  - apply mirror_drain.
Qed.

Lemma mirror_resetForNext (y : State) : mirror (refs (resetForNext y)) = mirror (refs y).
Proof.
  unfold resetForNext. cbv zeta.
  destruct (clearBlendTimeouts_spec y) as (_ & _ & _ & _ & _ & _ & R & _).
  cbn [enqueue on_refs refs set_refs set_queue]. rewrite R. reflexivity.
Qed.

Lemma mirror_apply_update (u : Update) (y : State) :
  mirror (refs (apply_update u y)) = mirror (refs y).
Proof.
  destruct u; try reflexivity.
  cbn [apply_update]. unfold advance_index. cbv zeta. cbn [refs set_view].
  destruct (phaseRef (refs y)) as [i|k|k]; try reflexivity.
  destruct (typingCurrentIndex (view y) + 1 =? k); [|reflexivity].
  destruct (k =? 2); [reflexivity|].
  destruct (k =? 3); [|reflexivity].
  rewrite mirror_resetForNext. reflexivity.
Qed.

Lemma mirror_first_pass (x : State) : mirror (refs (first_pass x)) = mirror (refs x).
Proof.
  unfold first_pass. change (mirror (refs x)) with (mirror (refs (set_queue [] x))).
  generalize (set_queue [] x). induction (queue x) as [|u r IH]; intro y; [reflexivity|].
  cbn [fold_left]. rewrite IH. apply mirror_apply_update.
Qed.

Lemma mirror_render (n : nat) : forall x, mirror (refs (render n x)) = mirror (refs x).
Proof.
  induction n as [|n IH]; intro x; [reflexivity|].
  destruct (queue x) as [|u us] eqn:Q.
  - rewrite render_done by exact Q. reflexivity.
  - rewrite render_first_pass by (rewrite Q; discriminate).
    rewrite IH. apply mirror_first_pass.
Qed.

(** A [phase] object that is still the same object has the same contents. *)
Definition same_object (v0 v : View) : Prop :=
  phaseId v0 <= phaseId v /\ (phaseId v = phaseId v0 -> phase v = phase v0).

Lemma same_object_render (n : nat) (x : State) : same_object (view x) (view (render n x)).
Proof.
  apply (P_render (same_object (view x))).
  - intros u v [A B]. unfold same_object.
    destruct u; unfold step_view, apply_view;
      cbn [phaseId phase set_wordIndex set_phase set_typedBuffer set_blendHighlightStep
           set_typingCurrentIndex set_announcement set_showImage];
      try (split; assumption).
    split; [lia|intro; lia].
  - split; [lia|reflexivity].
Qed.

Lemma mirror_of_core (a b : Refs) : core a = core b -> mirror a = mirror b.
Proof.
  unfold core, mirror. intro C. injection C as _ _ C3 C4 C5 C6.
  rewrite C3, C4, C5, C6. reflexivity.
Qed.

Lemma synced_commit_once (x : State) : synced x -> synced (commit_once x).
Proof.
  unfold synced, commit_once. intro S.
  pose proof (mirror_render 25 x) as M. rewrite S in M.
  destruct (same_object_render 25 x) as [_ O].
  generalize dependent (render 25 x). intros r M O.
  destruct (run_effects_core (view x) r) as (C & _).
  rewrite view_run_effects.
  unfold mirror in M |- *. unfold core in C.
  injection C as _ _ C3 C4 C5 C6. injection M as M3 M4 M5 M6.
  rewrite C3, C4, C5, C6, M3, M4, M5, M6. clear C3 C4 C5 C6 M3 M4 M5 M6.
  f_equal; [f_equal; [f_equal|]|].
  - destruct (Nat.eqb_spec (phaseId (view x)) (phaseId (view r))) as [E|E];
      [symmetry; apply O; symmetry; exact E|reflexivity].
  - destruct (Nat.eqb_spec (typingCurrentIndex (view x))
                (typingCurrentIndex (view r))) as [E|E]; [exact E|reflexivity].
  - destruct (String.eqb_spec (typedBuffer (view x)) (typedBuffer (view r)))
      as [E|E]; [exact E|reflexivity].
  - destruct (String.eqb_spec (word (view x)) (word (view r))) as [E|E];
      [unfold letters; rewrite E; reflexivity|reflexivity].
Qed.

Lemma synced_commit (x : State) : synced x -> synced (commit x).
Proof.
  intro H. destruct (settle_cases x) as (_ & [E|[E|E]]); rewrite E;
    [exact H|apply synced_commit_once, H|apply synced_commit_once, synced_commit_once, H].
Qed.

Lemma synced_same (x y : State) :
  view y = view x -> mirror (refs y) = mirror (refs x) -> synced x -> synced y.
Proof. unfold synced. intros V M S. rewrite V, M. exact S. Qed.

Lemma synced_reachable (s : State) : reachable s -> queue s = [] /\ synced s.
Proof.
  revert s. apply reachable_induction.
  - intro t0. unfold mount. split; [apply settle_cases|].
    apply synced_commit.
    apply (synced_same (first_render t0)); [| |reflexivity].
    + unfold drain_effect. cbn [setTimeout set_drainId view set_nextId set_timers].
      apply auto_effect_frame.
    + unfold drain_effect. cbn [setTimeout set_drainId refs set_nextId set_timers].
      apply mirror_of_core, core_auto_effect.
  - intros s k [_ S]. unfold onKey. split; [apply settle_cases|].
    apply synced_commit, (synced_same s); [apply view_onKey_body|apply mirror_onKey_body|exact S].
  - intros s tm [_ S] _ _. unfold fire. split; [apply settle_cases|].
    apply synced_commit, (synced_same s);
      [rewrite view_run_callback; reflexivity
      |rewrite mirror_run_callback; reflexivity|exact S].
  - intros s dt [Q S]. split; [exact Q|exact S].
  - intros s [Q S]. destruct (replay_frame s) as (V & R & Q' & _).
    split; [rewrite Q'; exact Q|].
    apply (synced_same s); [exact V|rewrite R; reflexivity|exact S].
Qed.

(** ** The type-ahead buffer stays within its bounds *)

(** [b'] holds entries of [b] only, and no more of them. *)
Definition shrunk (b' b : list KeyEvent) : Prop :=
  List.length b' <= List.length b /\ incl b' b.

(** The clock is the same and the buffer has lost entries at most. *)
Definition shrinks (s s' : State) : Prop :=
  now s' = now s /\ shrunk (keyBufferRef (refs s')) (keyBufferRef (refs s)).

Lemma shrunk_refl (b : list KeyEvent) : shrunk b b.
Proof. split; [lia|apply incl_refl]. Qed.

Lemma shrunk_trans (a b c : list KeyEvent) : shrunk a b -> shrunk b c -> shrunk a c.
Proof. intros [A1 A2] [B1 B2]. split; [lia|exact (incl_tran A2 B2)]. Qed.

Lemma shrunk_filter (f : KeyEvent -> bool) (b : list KeyEvent) : shrunk (filter f b) b.
Proof. split; [apply filter_length_le|apply incl_filter]. Qed.

Lemma splice1_length_le {A} (i : nat) (xs : list A) :
  List.length (splice1 i xs) <= List.length xs.
Proof.
  revert i; induction xs as [|x r IH]; intro i; [destruct i; apply Nat.le_refl|].
  destruct i; cbn [splice1 List.length]; [lia|]. specialize (IH i). lia.
Qed.

Lemma shrunk_splice1 (i : nat) (b : list KeyEvent) : shrunk (splice1 i b) b.
Proof. split; [apply splice1_length_le|apply splice1_incl]. Qed.

Lemma shrunk_nil (b : list KeyEvent) : shrunk [] b.
Proof. split; [cbn; lia|intros x []]. Qed.

Lemma shrinks_refl (s : State) : shrinks s s.
Proof. split; [reflexivity|apply shrunk_refl]. Qed.

Lemma shrinks_trans (a b c : State) : shrinks a b -> shrinks b c -> shrinks a c.
Proof.
  intros [A1 A2] [B1 B2]. split; [congruence|exact (shrunk_trans _ _ _ B2 A2)].
Qed.

(** A step that leaves the clock and the buffer alone. *)
Lemma shrinks_same (s s' : State) :
  now s' = now s -> keyBufferRef (refs s') = keyBufferRef (refs s) -> shrinks s s'.
Proof. intros N B. split; [exact N|rewrite B; apply shrunk_refl]. Qed.

Lemma shrinks_pruneBuffer (s : State) : shrinks s (pruneBuffer s).
Proof. split; [reflexivity|apply shrunk_filter]. Qed.

Lemma shrinks_handleCorrectLetterClick (p : Phase) (ch : string) (s : State) :
  shrinks s (handleCorrectLetterClick p ch s).
Proof.
  apply shrinks_same; unfold handleCorrectLetterClick, advanceToNextPhase; cbv zeta;
    destruct p as [[|[|[|j]]]|k|k]; reflexivity.
Qed.

Lemma shrinks_handleCorrectType (ch : string) (s : State) :
  shrinks s (handleCorrectType ch s).
Proof. apply shrinks_same; reflexivity. Qed.

Lemma shrinks_processBuffer (fuel : nat) :
  forall phase_c x x', processBuffer fuel phase_c x = Some x' -> shrinks x x'.
Proof.
  induction fuel as [|f IH]; intros phase_c x x' H; [discriminate|].
  cbn [processBuffer] in H.
  destruct (negb (truthy (getExpectedLetter (pruneBuffer x))));
    [injection H as <-; apply shrinks_pruneBuffer|].
  destruct (find_key _ _) as [i|]; [|injection H as <-; apply shrinks_pruneBuffer].
  apply IH in H. refine (shrinks_trans _ _ _ _ H). clear H.
  apply (shrinks_trans _ (pruneBuffer x)); [apply shrinks_pruneBuffer|].
  set (y := on_refs _ (pruneBuffer x)).
  assert (Y : shrinks (pruneBuffer x) y) by (split; [reflexivity|apply shrunk_splice1]).
  refine (shrinks_trans _ _ _ Y _).
  destruct (phaseRef (refs (pruneBuffer x))) as [ci|k|k];
    [apply shrinks_handleCorrectLetterClick|apply shrinks_refl|apply shrinks_handleCorrectType].
Qed.

Lemma shrinks_drain (phase_c : Phase) (x : State) : shrinks x (drain phase_c x).
Proof.
  unfold drain. destruct (processBuffer _ phase_c x) as [x'|] eqn:E; [|apply shrinks_refl].
  exact (shrinks_processBuffer _ _ _ _ E).
Qed.

Lemma shrinks_run_callback (c : Callback) (x : State) : shrinks x (run_callback c x).
Proof.
  destruct c as [| |v|k|k|p]; cbn [run_callback]; try (apply shrinks_same; reflexivity).
  - cbv zeta. destruct (negb (k =? 3)); apply shrinks_same; reflexivity.
  - apply shrinks_drain.
Qed.

Lemma shrinks_resetForNext (y : State) : shrinks y (resetForNext y).
Proof.
  unfold resetForNext. cbv zeta.
  destruct (clearBlendTimeouts_spec y) as (_ & _ & _ & _ & W & _ & _ & _).
  split; [exact W|apply shrunk_nil].
Qed.

Lemma shrinks_apply_update (u : Update) (y : State) : shrinks y (apply_update u y).
Proof.
  destruct u; try (apply shrinks_same; reflexivity).
  cbn [apply_update]. unfold advance_index. cbv zeta.
  match goal with |- shrinks _ (set_view _ ?z) =>
    assert (Z : shrinks y z); [|exact Z]
  end.
  destruct (phaseRef (refs y)) as [i|k|k]; try apply shrinks_refl.
  destruct (typingCurrentIndex (view y) + 1 =? k); [|apply shrinks_refl].
  destruct (k =? 2); [apply shrinks_same; reflexivity|].
  destruct (k =? 3); [|apply shrinks_refl].
  apply (shrinks_trans _ (enqueue (SetShowImage false) y));
    [apply shrinks_same; reflexivity|apply shrinks_resetForNext].
Qed.

Lemma shrinks_first_pass (x : State) : shrinks x (first_pass x).
Proof.
  unfold first_pass.
  apply (shrinks_trans _ (set_queue [] x)); [apply shrinks_same; reflexivity|].
  generalize (set_queue [] x). induction (queue x) as [|u r IH]; intro y; [apply shrinks_refl|].
  cbn [fold_left]. exact (shrinks_trans _ _ _ (shrinks_apply_update u y) (IH _)).
Qed.

Lemma shrinks_render (n : nat) : forall x, shrinks x (render n x).
Proof.
  induction n as [|n IH]; intro x; [apply shrinks_refl|].
  destruct (queue x) as [|u us] eqn:Q.
  - rewrite render_done by exact Q. apply shrinks_refl.
  - rewrite render_first_pass by (rewrite Q; discriminate).
    exact (shrinks_trans _ _ _ (shrinks_first_pass x) (IH _)).
Qed.

Lemma shrinks_run_effects (old : View) (x : State) : shrinks x (run_effects old x).
Proof.
  destruct (run_effects_core old x) as (C & W).
  apply shrinks_same; [exact W|].
  unfold core in C. exact (f_equal (fun c => fst (fst (fst (fst (fst c))))) C).
Qed.

Lemma shrinks_commit_once (x : State) : shrinks x (commit_once x).
Proof.
  unfold commit_once.
  exact (shrinks_trans _ _ _ (shrinks_render 25 x) (shrinks_run_effects _ _)).
Qed.

Lemma shrinks_commit (x : State) : shrinks x (commit x).
Proof.
  destruct (settle_cases x) as (_ & [E|[E|E]]); rewrite E;
    [apply shrinks_refl|apply shrinks_commit_once|].
  exact (shrinks_trans _ _ _ (shrinks_commit_once x) (shrinks_commit_once _)).
Qed.

(** What the buffer may hold at clock [n]: at most [BUFFER_MAX] entries,
    each a capital letter stamped no later than [n]. *)
Definition within (n : nat) (b : list KeyEvent) : Prop :=
  List.length b <= BUFFER_MAX
  /\ Forall (fun ev => includes LETTERS (key ev) = true /\ t ev <= n) b.

Definition buffer_ok (s : State) : Prop := within (now s) (keyBufferRef (refs s)).

Lemma within_shrunk (n : nat) (b b' : list KeyEvent) :
  shrunk b' b -> within n b -> within n b'.
Proof.
  intros [L I] [A B]. split; [lia|].
  apply Forall_forall. intros ev H. exact (proj1 (Forall_forall _ _) B ev (I ev H)).
Qed.

Lemma buffer_ok_shrinks (s s' : State) : shrinks s s' -> buffer_ok s -> buffer_ok s'.
Proof.
  intros [N S] H. unfold buffer_ok. rewrite N. exact (within_shrunk _ _ _ S H).
Qed.

Lemma within_push (n : nat) (k : string) (b : list KeyEvent) :
  includes LETTERS k = true -> within n b ->
  within n ((if BUFFER_MAX <=? List.length b then tl b else b) ++ [mkKeyEvent k n]).
Proof.
  intros K [L F]. unfold within, BUFFER_MAX in *. split.
  - rewrite length_app. cbn [List.length].
    destruct (Nat.leb_spec 16 (List.length b)) as [G|G].
    + destruct b as [|e r]; cbn [tl List.length] in *; lia.
    + lia.
  - apply Forall_app. split.
    + destruct (16 <=? List.length b); [|exact F].
      destruct b as [|e r]; [exact F|]. exact (Forall_inv_tail F).
    + constructor; [|constructor]. split; [exact K|apply Nat.le_refl].
Qed.

Lemma buffer_ok_addToBuffer (k : string) (s : State) :
  includes LETTERS k = true -> buffer_ok s -> buffer_ok (addToBuffer k s).
Proof.
  intros K H. unfold addToBuffer. cbv zeta.
  pose proof (buffer_ok_shrinks _ _ (shrinks_pruneBuffer s) H) as P.
  destruct (repeat_guard k (now s) (lastKeyRef (refs (pruneBuffer s)))); [exact P|].
  unfold buffer_ok in *.
  change (now (pruneBuffer s)) with (now s) in P.
  set (b := keyBufferRef (refs (pruneBuffer s))) in *.
  pose proof (within_push (now s) k b K P) as W.
  match goal with |- within ?n ?b' =>
    replace n with (now s); [replace b' with
      ((if BUFFER_MAX <=? List.length b then tl b else b) ++ [mkKeyEvent k (now s)])%list|]
  end; [exact W| |].
  - subst b. cbn [on_refs refs set_refs keyBufferRef set_lastKeyRef].
    destruct (BUFFER_MAX <=? _); reflexivity.
  - cbn [on_refs now set_refs]. destruct (BUFFER_MAX <=? _); reflexivity.
Qed.

Lemma buffer_ok_same (s s' : State) :
  now s' = now s -> keyBufferRef (refs s') = keyBufferRef (refs s) ->
  buffer_ok s -> buffer_ok s'.
Proof. intros N B. apply buffer_ok_shrinks, shrinks_same; assumption. Qed.

Lemma buffer_ok_onKey_body (k : string) (x : State) :
  buffer_ok x -> buffer_ok (onKey_body k x).
Proof.
  intro H. unfold onKey_body. cbv zeta.
  destruct (negb (includes LETTERS (toUpperCase k))) eqn:K; [exact H|].
  apply negb_false_iff in K.
  assert (V : buffer_ok (if truthy (getExpectedLetter x)
                            && same_letter (toUpperCase k) (getExpectedLetter x)
                         then drain mount_phase (addToBuffer (toUpperCase k) x)
                         else if truthy (getExpectedLetter x)
                              then addToBuffer (toUpperCase k)
                                     (announce "Try again" (playSoundEffect wrong x))
                              else x)).
  { destruct (truthy (getExpectedLetter x) && same_letter (toUpperCase k) (getExpectedLetter x)).
    - apply (buffer_ok_shrinks _ _ (shrinks_drain _ _)), buffer_ok_addToBuffer; assumption.
    - destruct (truthy (getExpectedLetter x)); [|exact H].
      apply buffer_ok_addToBuffer; [exact K|].
      apply (buffer_ok_same x); [reflexivity|reflexivity|exact H]. }
  destruct (phaseRef (refs x)); [exact V|exact H|exact V].
Qed.

Lemma buffer_ok_reachable (s : State) : reachable s -> buffer_ok s.
Proof.
  revert s. apply reachable_induction.
  - intro t0. unfold mount. apply (buffer_ok_shrinks _ _ (shrinks_commit _)).
    apply (buffer_ok_same (first_render t0)).
    + unfold drain_effect. cbn [setTimeout set_drainId now set_nextId set_timers].
      apply now_auto_effect.
    + unfold drain_effect. cbn [setTimeout set_drainId refs set_nextId set_timers].
      exact (f_equal (fun c => fst (fst (fst (fst (fst c)))))
                     (core_auto_effect (first_render t0))).
    + split; [cbn; lia|constructor].
  - intros s k H. unfold onKey.
    apply (buffer_ok_shrinks _ _ (shrinks_commit _)), buffer_ok_onKey_body, H.
  - intros s tm H _ _. unfold fire.
    apply (buffer_ok_shrinks _ _ (shrinks_commit _)).
    apply (buffer_ok_shrinks _ _ (shrinks_run_callback _ _)).
    apply (buffer_ok_same s); [reflexivity|reflexivity|exact H].
  - intros s dt [L F]. split; [exact L|].
    cbn [set_now refs now]. eapply Forall_impl; [|exact F].
    cbn beta. intros ev [A B]. split; [exact A|lia].
  - intros s H. destruct (replay_frame s) as (_ & R & _ & _ & _ & _ & N).
    apply (buffer_ok_same s); [exact N|rewrite R; reflexivity|exact H].
Qed.

(** ** The phase stays one of the seven of the cycle *)

(** The run-time content of the annotations [clickIndex: 0 | 1 | 2] and
    [k: 2 | 3]. *)
Definition wf_phase (p : Phase) : Prop :=
  match p with
  | click_letter i => i <= 2
  | blend_prefix k | type_prefix k => k = 2 \/ k = 3
  end.

Definition wf_update (u : Update) : Prop :=
  match u with SetPhase p => wf_phase p | _ => True end.

Definition wf_cb (c : Callback) : Prop :=
  match c with BlendRed k | ToTypePrefix k => k = 2 \/ k = 3 | _ => True end.

(** [playLetterSound] is not asked for [undefined]. *)
Definition wf_cue (c : Cue) : Prop :=
  match c with LetterSound None => False | _ => True end.

Definition wf_view (v : View) : Prop :=
  wf_phase (phase v) /\ wordIndex v < List.length WORDS.

Definition wf (s : State) : Prop :=
  wf_view (view s)
  /\ Forall wf_update (queue s)
  /\ Forall (fun tm => wf_cb (cb tm)) (timers s)
  /\ Forall wf_cue (cues s).

Lemma Forall_incl {A} (P : A -> Prop) (l l' : list A) :
  incl l' l -> Forall P l -> Forall P l'.
Proof.
  intros I F. apply Forall_forall. intros x H.
  exact (proj1 (Forall_forall _ _) F x (I x H)).
Qed.

Lemma wf_same (s s' : State) :
  view s' = view s -> queue s' = queue s ->
  incl (timers s') (timers s) -> cues s' = cues s -> wf s -> wf s'.
Proof.
  intros V Q T U (A & B & C & D). unfold wf. rewrite V, Q, U.
  split; [exact A|]. split; [exact B|]. split; [exact (Forall_incl _ _ _ T C)|exact D].
Qed.

Lemma wf_enqueue (u : Update) (s : State) : wf_update u -> wf s -> wf (enqueue u s).
Proof.
  intros U (A & B & C & D). split; [exact A|]. split; [|split; [exact C|exact D]].
  cbn [enqueue queue set_queue]. apply Forall_app. split; [exact B|].
  constructor; [exact U|constructor].
Qed.

Lemma wf_setTimeout (c : Callback) (d : nat) (s : State) :
  wf_cb c -> wf s -> wf (fst (setTimeout c d s)).
Proof.
  intros U (A & B & C & D). split; [exact A|]. split; [exact B|]. split; [|exact D].
  cbn [setTimeout fst timers set_nextId set_timers]. apply Forall_app. split; [exact C|].
  constructor; [exact U|constructor].
Qed.

Lemma wf_on_refs (f : Refs -> Refs) (s : State) : wf s -> wf (on_refs f s).
Proof. apply wf_same; [reflexivity|reflexivity|apply incl_refl|reflexivity]. Qed.

Lemma wf_play (c : Cue) (s : State) : wf_cue c -> wf s -> wf (play c s).
Proof.
  intros U (A & B & C & D). split; [exact A|]. split; [exact B|]. split; [exact C|].
  cbn [play cues set_cues]. constructor; [exact U|exact D].
Qed.

Lemma wf_clearTimeout (id : nat) (s : State) : wf s -> wf (clearTimeout id s).
Proof. apply wf_same; [reflexivity|reflexivity|apply incl_filter|reflexivity]. Qed.

Lemma wf_clearBlendTimeouts (s : State) : wf s -> wf (clearBlendTimeouts s).
Proof.
  destruct (clearBlendTimeouts_spec s) as (V & Q & _ & _ & _ & U & _ & T).
  apply wf_same; [exact V|exact Q|rewrite T; apply incl_filter|exact U].
Qed.

Lemma wf_announce (msg : string) (s : State) : wf s -> wf (announce msg s).
Proof. intro H. unfold announce. apply wf_setTimeout; [exact I|]. apply wf_enqueue; [exact I|exact H]. Qed.

Lemma wf_advanceToNextPhase (p : Phase) (s : State) : wf s -> wf (advanceToNextPhase p s).
Proof.
  intro H. unfold advanceToNextPhase.
  destruct p as [[|[|[|j]]]|k|k]; try exact H;
    (apply wf_enqueue; [exact I|]; apply wf_enqueue; [|exact H]); cbn; lia.
Qed.

Lemma wf_handleCorrectLetterClick (p : Phase) (ch : string) (s : State) :
  wf s -> wf (handleCorrectLetterClick p ch s).
Proof.
  intro H. unfold handleCorrectLetterClick. cbv zeta.
  apply wf_setTimeout; [exact I|].
  apply wf_advanceToNextPhase, wf_announce, wf_play; [exact I|exact H].
Qed.

Lemma wf_handleCorrectType (ch : string) (s : State) : wf s -> wf (handleCorrectType ch s).
Proof.
  intro H. unfold handleCorrectType. cbv zeta.
  apply wf_enqueue; [exact I|]. apply wf_enqueue; [exact I|].
  apply wf_announce, wf_play; [exact I|exact H].
Qed.

Lemma wf_pruneBuffer (s : State) : wf s -> wf (pruneBuffer s).
Proof. apply wf_on_refs. Qed.

Lemma wf_addToBuffer (k : string) (s : State) : wf s -> wf (addToBuffer k s).
Proof.
  destruct (addToBuffer_frame k s) as (V & Q & T & U & _).
  apply wf_same; [exact V|exact Q|rewrite T; apply incl_refl|exact U].
Qed.

Lemma wf_processBuffer (fuel : nat) :
  forall phase_c x x', processBuffer fuel phase_c x = Some x' -> wf x -> wf x'.
Proof.
  induction fuel as [|f IH]; intros phase_c x x' H G; [discriminate|].
  cbn [processBuffer] in H.
  destruct (negb (truthy (getExpectedLetter (pruneBuffer x))));
    [injection H as <-; apply wf_pruneBuffer, G|].
  destruct (find_key _ _) as [i|]; [|injection H as <-; apply wf_pruneBuffer, G].
  apply IH in H; [exact H|]. clear H.
  destruct (phaseRef (refs (pruneBuffer x))) as [ci|k|k].
  - apply wf_handleCorrectLetterClick, wf_on_refs, wf_pruneBuffer, G.
  - apply wf_on_refs, wf_pruneBuffer, G.
  - apply wf_handleCorrectType, wf_on_refs, wf_pruneBuffer, G.
Qed.

Lemma wf_drain (phase_c : Phase) (x : State) : wf x -> wf (drain phase_c x).
Proof.
  intro G. unfold drain. destruct (processBuffer _ phase_c x) as [x'|] eqn:E; [|exact G].
  exact (wf_processBuffer _ _ _ _ E G).
Qed.

Lemma wf_onKey_body (k : string) (x : State) : wf x -> wf (onKey_body k x).
Proof.
  intro H. unfold onKey_body. cbv zeta.
  destruct (negb (includes LETTERS (toUpperCase k))); [exact H|].
  assert (V : wf (if truthy (getExpectedLetter x)
                     && same_letter (toUpperCase k) (getExpectedLetter x)
                  then drain mount_phase (addToBuffer (toUpperCase k) x)
                  else if truthy (getExpectedLetter x)
                       then addToBuffer (toUpperCase k)
                              (announce "Try again" (playSoundEffect wrong x))
                       else x)).
  { destruct (truthy (getExpectedLetter x) && same_letter (toUpperCase k) (getExpectedLetter x)).
    - apply wf_drain, wf_addToBuffer, H.
    - destruct (truthy (getExpectedLetter x)); [|exact H].
      apply wf_addToBuffer, wf_announce, wf_play; [exact I|exact H]. }
  destruct (phaseRef (refs x)); [exact V|exact H|exact V].
Qed.

Lemma wf_run_callback (c : Callback) (x : State) : wf_cb c -> wf x -> wf (run_callback c x).
Proof.
  intros C H. destruct c as [| |v|k|k|p]; cbn [run_callback].
  - apply wf_enqueue; [exact I|exact H].
  - exact H.
  - apply wf_enqueue; [exact I|exact H].
  - apply wf_setTimeout; [exact C|]. apply wf_enqueue; [exact I|exact H].
  - cbv zeta.
    assert (G : wf (enqueue (SetTypingCurrentIndex 0)
                      (enqueue (SetTypedBuffer "") (enqueue (SetPhase (type_prefix k)) x)))).
    { apply wf_enqueue; [exact I|]. apply wf_enqueue; [exact I|].
      apply wf_enqueue; [exact C|exact H]. }
    destruct (negb (k =? 3)); [apply wf_enqueue; [exact I|exact G]|exact G].
  - apply wf_drain, H.
Qed.

Lemma wf_resetForNext (y : State) : wf y -> wf (resetForNext y).
Proof.
  intro H. unfold resetForNext. cbv zeta.
  apply wf_enqueue; [exact I|]. apply wf_enqueue; [exact I|]. apply wf_on_refs.
  apply wf_enqueue; [exact I|]. apply wf_enqueue; [exact I|]. apply wf_enqueue; [exact I|].
  apply wf_enqueue; [cbn; lia|]. apply wf_enqueue; [exact I|].
  apply wf_on_refs, wf_on_refs, wf_clearBlendTimeouts, H.
Qed.

Lemma wf_set_view (v : View) (s : State) : wf_view v -> wf s -> wf (set_view v s).
Proof. intros P (_ & B & C). split; [exact P|exact (conj B C)]. Qed.

Lemma wf_view_step (u : Update) (v : View) : wf_update u -> wf_view v -> wf_view (step_view u v).
Proof.
  intros U [A B]. destruct u; try exact (conj A B).
  - split; [exact A|]. unfold step_view, apply_view. cbn [wordIndex set_wordIndex].
    apply Nat.mod_upper_bound. discriminate.
  - split; [exact U|exact B].
Qed.

Lemma wf_apply_update (u : Update) (y : State) :
  wf_update u -> wf y -> wf (apply_update u y).
Proof.
  intros U H.
  destruct u;
    try (apply wf_set_view; [exact (wf_view_step _ _ U (proj1 H))|exact H]).
  cbn [apply_update]. unfold advance_index. cbv zeta.
  - match goal with |- wf (set_view _ ?z) =>
      assert (Z : wf z); [|apply wf_set_view; [exact (proj1 Z)|exact Z]]
    end.
    destruct (phaseRef (refs y)) as [i|k|k]; try exact H.
    destruct (typingCurrentIndex (view y) + 1 =? k); [|exact H].
    destruct (k =? 2).
    + apply wf_enqueue; [exact I|]. apply wf_enqueue; [exact I|].
      apply wf_enqueue; [exact I|]. apply wf_enqueue; [cbn; lia|exact H].
    + destruct (k =? 3); [|exact H].
      apply wf_resetForNext, wf_enqueue; [exact I|exact H].
Qed.

Lemma wf_fold_updates (us : list Update) :
  forall y, Forall wf_update us -> wf y ->
            wf (fold_left (fun acc u => apply_update u acc) us y).
Proof.
  induction us as [|u r IH]; intros y F H; [exact H|].
  cbn [fold_left]. apply IH; [exact (Forall_inv_tail F)|].
  apply wf_apply_update; [exact (Forall_inv F)|exact H].
Qed.

Lemma wf_first_pass (x : State) : wf x -> wf (first_pass x).
Proof.
  intros (A & B & C). unfold first_pass. apply wf_fold_updates; [exact B|].
  split; [exact A|]. split; [constructor|exact C].
Qed.

Lemma wf_render (n : nat) : forall x, wf x -> wf (render n x).
Proof.
  induction n as [|n IH]; intros x H; [exact H|].
  destruct (queue x) as [|u us] eqn:Q.
  - rewrite render_done by exact Q. exact H.
  - rewrite render_first_pass by (rewrite Q; discriminate). apply IH, wf_first_pass, H.
Qed.

Lemma wf_auto_effect (x : State) : wf x -> wf (auto_effect x).
Proof.
  intro G.
  destruct (String.eqb_spec (lastAutoRef (refs x)) (signature (view x))) as [E|E].
  { rewrite (auto_effect_same x E). exact G. }
  destruct (phase (view x)) as [i|k|k] eqn:Hp.
  - unfold auto_effect. cbv zeta. apply String.eqb_neq in E. rewrite E, Hp.
    apply wf_play; [|apply wf_on_refs, G].
    destruct G as ([A B] & _). rewrite Hp in A. cbn [wf_phase] in A.
    unfold letters, word. cbn in B.
    destruct (wordIndex (view x)) as [|[|n]]; [| |lia];
      destruct i as [|[|[|i]]]; try lia; exact I.
  - destruct (auto_effect_blend x k Hp E) as (V & U & _ & _ & Q & _ & T & _).
    destruct G as (A & B & C & D). unfold wf. rewrite V, Q, T, U.
    split; [exact A|]. split; [|split; [|constructor; [exact I|exact D]]].
    + apply Forall_app. split; [exact B|]. apply Forall_app. split.
      * destruct (k =? 3); constructor; [exact I|constructor].
      * constructor; [exact I|constructor].
    + apply Forall_app. split; [exact (Forall_incl _ _ _ (incl_filter _ _) C)|].
      apply Forall_app. split.
      * apply Forall_forall. intros tm Hin. unfold step_timers in Hin.
        apply in_map_iff in Hin as (j & <- & _). exact I.
      * constructor; [|constructor]. cbn [red_timer cb wf_cb].
        destruct A as [A _]. rewrite Hp in A. exact A.
  - unfold auto_effect. cbv zeta. apply String.eqb_neq in E. rewrite E, Hp.
    apply wf_on_refs, G.
Qed.

Lemma wf_drain_effect (x : State) : wf x -> wf (drain_effect x).
Proof.
  intro G. unfold drain_effect.
  pose proof (wf_setTimeout (DrainTimer (phase (view x))) 0 x I G) as G1.
  revert G1. apply wf_same; [reflexivity|reflexivity|apply incl_refl|reflexivity].
Qed.

Lemma wf_drain_cleanup (x : State) : wf x -> wf (drain_cleanup x).
Proof.
  destruct (drain_cleanup_frame x) as (V & _ & Q & U & _ & _ & T).
  apply wf_same; [exact V|exact Q|exact T|exact U].
Qed.

Lemma wf_run_effects (old : View) (x : State) : wf x -> wf (run_effects old x).
Proof.
  intro G. unfold run_effects. cbv zeta.
  assert (Pif : forall (b : bool) (f : State -> State) y,
             (forall z, wf z -> wf (f z)) -> wf y -> wf (if b then f y else y)).
  { intros [|] f y Hf Hy; [apply Hf, Hy|exact Hy]. }
  apply (Pif _ drain_effect); [exact wf_drain_effect|].
  apply (Pif _ auto_effect); [exact wf_auto_effect|].
  apply (Pif _ (on_refs (set_lettersRef (letters (view x))))); [intro z; apply wf_on_refs|].
  apply (Pif _ (on_refs (set_typedBufferRef (typedBuffer (view x)))));
    [intro z; apply wf_on_refs|].
  apply (Pif _ (on_refs (set_typingCurrentIndexRef (typingCurrentIndex (view x)))));
    [intro z; apply wf_on_refs|].
  apply (Pif _ (on_refs (set_phaseRef (phase (view x))))); [intro z; apply wf_on_refs|].
  apply (Pif _ drain_cleanup); [exact wf_drain_cleanup|].
  apply (Pif _ clearBlendTimeouts); [exact wf_clearBlendTimeouts|exact G].
Qed.

Lemma wf_commit_once (x : State) : wf x -> wf (commit_once x).
Proof. intro G. unfold commit_once. apply wf_run_effects, wf_render, G. Qed.

Lemma wf_commit (x : State) : wf x -> wf (commit x).
Proof.
  intro H. destruct (settle_cases x) as (_ & [E|[E|E]]); rewrite E;
    [exact H|apply wf_commit_once, H|apply wf_commit_once, wf_commit_once, H].
Qed.

Lemma wf_reachable (s : State) : reachable s -> wf s.
Proof.
  revert s. apply reachable_induction.
  - intro t0. unfold mount. apply wf_commit, wf_drain_effect, wf_auto_effect.
    split; [split; cbn; lia|]. split; [constructor|]. split; constructor.
  - intros s k H. unfold onKey. apply wf_commit, wf_onKey_body, H.
  - intros s tm H Hin _. unfold fire. apply wf_commit, wf_run_callback.
    + destruct H as (_ & _ & C & _). exact (proj1 (Forall_forall _ _) C tm Hin).
    + apply wf_clearTimeout, H.
  - intros s dt H. exact H.
  - intros s H. unfold replay. cbv zeta.
    destruct (phase (view s)) as [i|k|k] eqn:Hp; apply wf_play; try exact H; try exact I.
    destruct H as ([A B] & _). rewrite Hp in A. cbn [wf_phase] in A.
    unfold letters, word. cbn in B.
    destruct (wordIndex (view s)) as [|[|n]]; [| |lia];
      destruct i as [|[|[|i]]]; try lia; exact I.
Qed.

Lemma letters_wordIndex (v v' : View) :
  wordIndex v = wordIndex v' -> letters v = letters v'.
Proof. intro H. unfold letters, word. rewrite H. reflexivity. Qed.

Lemma letters_three (v : View) :
  wordIndex v < List.length WORDS ->
  exists a b c, letters v = [a; b; c].
Proof.
  intro H. unfold letters, word. cbn in H.
  destruct (wordIndex v) as [|[|n]]; [| |lia]; cbn; eauto.
Qed.

(** X11. In TypePrefix(k), k = 2 or 3, entered with nothing typed, pressing the
    first k letters of the word in order types the whole prefix: when the
    last key is handled the first render pass has the typed buffer equal to
    the prefix and the index equal to k, and the commit leaves
    ClickLetter(2) for k = 2, the next word at ClickLetter(0) for k = 3,
    with the typing progress reset and the refs in step. *)
Theorem typing_prefix_in_order (s : State) (k : nat) :
  typing_at k 0 s -> k = 2 \/ k = 3 ->
  let ks := slice0 k (letters (view s)) in
  let before := type_keys (removelast ks) s in
  let final := type_keys ks s in
  typing_at k (k - 1) before
  /\ final = onKey (last ks "") before
  /\ typedBuffer (view (first_pass (onKey_body (last ks "") before))) = join ks
  /\ typingCurrentIndex (view (first_pass (onKey_body (last ks "") before))) = k
  /\ typedBuffer (view final) = ""
  /\ typingCurrentIndex (view final) = 0
  /\ phase (view final) = (if k =? 2 then click_letter 2 else click_letter 0)
  /\ wordIndex (view final)
     = (if k =? 2 then wordIndex (view s)
        else (wordIndex (view s) + 1) mod List.length WORDS)
  /\ phaseRef (refs final) = phase (view final)
  /\ queue final = [].
Proof.
  intros T Hk. cbv zeta.
  destruct (letters_three (view s) (ta_word _ _ _ T)) as (a & b & c & L).
  destruct Hk as [-> | ->]; rewrite L; cbn [slice0 firstn removelast last type_keys fold_left].
  - destruct (typing_key_step s 2 0 T ltac:(lia) ltac:(lia)) as (T1 & W1 & _).
    rewrite L in T1, W1. cbn [nth] in T1, W1.
    pose proof (typing_key_last (onKey a s) 2 1 T1 eq_refl (or_introl eq_refl)) as H.
    cbv zeta in H. rewrite (letters_wordIndex _ _ W1), L in H. cbn [nth slice0 firstn] in H.
    rewrite W1 in H. cbn [Nat.sub].
    destruct H as (H1 & H2 & _ & H3 & H4 & H5 & H6 & H7 & H8).
    exact (conj T1 (conj eq_refl (conj H1 (conj H2 (conj H3 (conj H4 (conj H5
             (conj H6 (conj H7 H8))))))))).
  - destruct (typing_key_step s 3 0 T ltac:(lia) ltac:(lia)) as (T1 & W1 & _).
    rewrite L in T1, W1. cbn [nth] in T1, W1.
    destruct (typing_key_step (onKey a s) 3 1 T1 ltac:(lia) ltac:(lia)) as (T2 & W2 & _).
    rewrite (letters_wordIndex _ _ W1), L in T2, W2. cbn [nth] in T2, W2.
    pose proof (typing_key_last (onKey b (onKey a s)) 3 2 T2 eq_refl (or_intror eq_refl)) as H.
    cbv zeta in H.
    rewrite (letters_wordIndex _ (view s) (eq_trans W2 W1)), L in H.
    cbn [nth slice0 firstn] in H. rewrite W2, W1 in H. cbn [Nat.sub].
    destruct H as (H1 & H2 & _ & H3 & H4 & H5 & H6 & H7 & H8).
    exact (conj T2 (conj eq_refl (conj H1 (conj H2 (conj H3 (conj H4 (conj H5
             (conj H6 (conj H7 H8))))))))).
Qed.

Lemma typing_prefix_in_order_witness :
  exists s,
    typing3_dog = Some s
    /\ phase (view (type_keys ["D"; "O"; "G"] s)) = click_letter 0
    /\ wordIndex (view (type_keys ["D"; "O"; "G"] s)) = 1.
Proof.
  assert (E : exists s, typing3_dog = Some s /\ typing_at 3 0 s).
  { eexists. split; [vm_compute; reflexivity|]. constructor; vm_compute; try reflexivity. lia. }
  destruct E as (s & Hs & T).
  exists s. split; [exact Hs|].
  pose proof (typing_prefix_in_order s 3 T (or_intror eq_refl)) as H. cbv zeta in H.
  assert (L : letters (view s) = ["D"; "O"; "G"]).
  { vm_compute in Hs. injection Hs as <-. reflexivity. }
  rewrite L in H. cbn [slice0 firstn] in H.
  destruct H as (_ & _ & _ & _ & _ & _ & H5 & H6 & _).
  split; [exact H5|]. rewrite H6.
  vm_compute in Hs. injection Hs as <-. reflexivity.
Defined.

(** ** Invariants of the reachable states *)

Lemma synced_fields (s : State) :
  synced s ->
  phaseRef (refs s) = phase (view s)
  /\ typingCurrentIndexRef (refs s) = typingCurrentIndex (view s)
  /\ typedBufferRef (refs s) = typedBuffer (view s)
  /\ lettersRef (refs s) = letters (view s).
Proof. unfold synced, mirror. intro S. injection S as S1 S2 S3 S4. auto. Qed.

(** X1. Every commit ends with no setter call pending, after at most two
    rounds of render and effects: the bounds of React (25 passes, 50 nested
    updates), that [render] and [settle] carry as fuel, are never reached. *)
Theorem commit_settles (x : State) :
  queue (commit x) = []
  /\ (commit x = x \/ commit x = commit_once x \/ commit x = commit_once (commit_once x)).
Proof. exact (settle_cases x). Qed.

(** X2. [WORDS[wordIndex]] is always defined: in every reachable state the
    word index is below [WORDS.length], the word is one of [WORDS] and it has
    three letters. *)
Theorem wordIndex_in_range (s : State) :
  reachable s ->
  wordIndex (view s) < List.length WORDS
  /\ In (word (view s)) WORDS
  /\ List.length (letters (view s)) = 3.
Proof. exact (word_in_range s). Qed.

Lemma wordIndex_in_range_witness :
  reachable (mount 0)
  /\ wordIndex (view (mount 0)) < List.length WORDS
  /\ In (word (view (mount 0))) WORDS
  /\ List.length (letters (view (mount 0))) = 3.
Proof.
  assert (R : reachable (mount 0)) by (exists 0, []; reflexivity).
  split; [exact R|exact (wordIndex_in_range _ R)].
Defined.

(** X3. Between events no setter call is pending and the four refs that
    mirror the state (phase, typing index, typed buffer, letters) hold the
    values of the last render. *)
Theorem refs_follow_state (s : State) :
  reachable s ->
  queue s = []
  /\ phaseRef (refs s) = phase (view s)
  /\ typingCurrentIndexRef (refs s) = typingCurrentIndex (view s)
  /\ typedBufferRef (refs s) = typedBuffer (view s)
  /\ lettersRef (refs s) = letters (view s).
Proof.
  intro R. destruct (synced_reachable s R) as [Q S].
  split; [exact Q|exact (synced_fields s S)].
Qed.

Lemma refs_follow_state_witness :
  reachable (mount 0)
  /\ queue (mount 0) = []
  /\ phaseRef (refs (mount 0)) = phase (view (mount 0))
  /\ typingCurrentIndexRef (refs (mount 0)) = typingCurrentIndex (view (mount 0))
  /\ typedBufferRef (refs (mount 0)) = typedBuffer (view (mount 0))
  /\ lettersRef (refs (mount 0)) = letters (view (mount 0)).
Proof.
  assert (R : reachable (mount 0)) by (exists 0, []; reflexivity).
  split; [exact R|exact (refs_follow_state _ R)].
Defined.

(** X4. The type-ahead buffer stays within its bounds: in every reachable
    state it holds at most [BUFFER_MAX] entries, each a capital letter with
    a time stamp that is not in the future. *)
Theorem buffer_within_bounds (s : State) :
  reachable s ->
  List.length (keyBufferRef (refs s)) <= BUFFER_MAX
  /\ Forall (fun ev => includes LETTERS (key ev) = true /\ t ev <= now s)
            (keyBufferRef (refs s)).
Proof. exact (buffer_ok_reachable s). Qed.

Definition wrong_key_buffered : option State := run [Wait 5; Key "x"] (mount 0).

Lemma buffer_within_bounds_witness :
  exists s,
    wrong_key_buffered = Some s
    /\ keyBufferRef (refs s) = [mkKeyEvent "X" 5]
    /\ List.length (keyBufferRef (refs s)) <= BUFFER_MAX
    /\ Forall (fun ev => includes LETTERS (key ev) = true /\ t ev <= now s)
              (keyBufferRef (refs s)).
Proof.
  eexists. split; [vm_compute; reflexivity|]. split; [reflexivity|].
  match goal with |- _ <= _ /\ Forall _ (keyBufferRef (refs ?s)) =>
    assert (R : reachable s) by (exists 0, [Wait 5; Key "x"]; vm_compute; reflexivity);
    exact (buffer_within_bounds s R)
  end.
Defined.

(** X5. Only a key press adds to the buffer: when a timer fires (the drain
    pass, the blend steps, the status line) and the component renders, the
    buffer loses entries at most. *)
Theorem timers_only_shrink_buffer (tm : Timer) (s : State) :
  List.length (keyBufferRef (refs (fire tm s))) <= List.length (keyBufferRef (refs s))
  /\ incl (keyBufferRef (refs (fire tm s))) (keyBufferRef (refs s)).
Proof.
  unfold fire.
  assert (H : shrinks s (commit (run_callback (cb tm) (clearTimeout (tid tm) s)))).
  { apply (shrinks_trans _ (clearTimeout (tid tm) s)); [apply shrinks_same; reflexivity|].
    exact (shrinks_trans _ _ _ (shrinks_run_callback _ _) (shrinks_commit _)). }
  exact (proj2 H).
Qed.

Lemma letters_of_word (v : View) (i : nat) :
  wordIndex v < List.length WORDS -> i <= 2 ->
  exists e, nth_error (letters v) i = Some e /\ truthy (Some e) = true
            /\ char_at (word v) i = Some e.
Proof.
  intros B H. unfold char_at, letters, word. cbn in B.
  destruct (wordIndex v) as [|[|n]]; [| |lia];
    destruct i as [|[|[|i]]]; try lia; eexists; repeat split.
Qed.

(** X6. The phase is always one of the seven of the cycle: in every
    reachable state the click index is 0, 1 or 2 and k is 2 or 3, as the
    type annotations of [Phase] say; in a ClickLetter phase the expected
    letter is defined, it is the letter of the word at the click index, and
    in a BlendPrefix phase no letter is expected. *)
Theorem phase_within_cycle (s : State) :
  reachable s ->
  match phase (view s) with
  | click_letter i =>
      i <= 2
      /\ exists e, getExpectedLetter s = Some e /\ truthy (Some e) = true
                   /\ char_at (word (view s)) i = Some e
  | blend_prefix k => (k = 2 \/ k = 3) /\ getExpectedLetter s = None
  | type_prefix k => k = 2 \/ k = 3
  end.
Proof.
  intro R. destruct (wf_reachable s R) as ([A B] & _).
  destruct (synced_reachable s R) as [_ S].
  destruct (synced_fields s S) as (S1 & _ & _ & S4).
  unfold getExpectedLetter. rewrite S1, S4.
  destruct (phase (view s)) as [i|k|k]; cbn [wf_phase] in A.
  - split; [exact A|]. exact (letters_of_word _ _ B A).
  - split; [exact A|reflexivity].
  - exact A.
Qed.

Lemma phase_within_cycle_witness :
  reachable (mount 0)
  /\ match phase (view (mount 0)) with
     | click_letter i =>
         i <= 2
         /\ exists e, getExpectedLetter (mount 0) = Some e /\ truthy (Some e) = true
                      /\ char_at (word (view (mount 0))) i = Some e
     | blend_prefix k => (k = 2 \/ k = 3) /\ getExpectedLetter (mount 0) = None
     | type_prefix k => k = 2 \/ k = 3
     end.
Proof.
  assert (R : reachable (mount 0)) by (exists 0, []; reflexivity).
  split; [exact R|exact (phase_within_cycle _ R)].
Defined.

(** X7. [playLetterSound] is never called with [undefined]: every letter
    sound the component has asked for, by the auto-pronounce effect or by a
    click on Replay, in any reachable state, names a letter
    ([letters[phase.clickIndex]] was defined). *)
Theorem letter_sound_always_defined (s : State) :
  reachable s -> forall c, In c (cues s) -> c <> LetterSound None.
Proof.
  intros R c Hin E. destruct (wf_reachable s R) as (_ & _ & _ & C).
  pose proof (proj1 (Forall_forall _ _) C c Hin) as W. rewrite E in W. exact W.
Qed.

Lemma letter_sound_always_defined_witness :
  exists s,
    run [Replay; Key "d"; Replay] (mount 0) = Some s
    /\ filter (fun c => match c with LetterSound _ => true | _ => false end) (cues s)
       = [LetterSound (Some "O"); LetterSound (Some "O");
          LetterSound (Some "D"); LetterSound (Some "D")]
    /\ forall c, In c (cues s) -> c <> LetterSound None.
Proof.
  eexists. split; [vm_compute; reflexivity|]. split; [reflexivity|].
  apply letter_sound_always_defined.
  exists 0, [Replay; Key "d"; Replay]. vm_compute. reflexivity.
Defined.

Lemma prefix_char (v : View) (k idx : nat) :
  wordIndex v < List.length WORDS -> k = 2 \/ k = 3 -> idx < k ->
  char_at (join (slice0 k (letters v))) idx = nth_error (letters v) idx.
Proof.
  intros B K H. unfold char_at, letters, word, slice0, join. cbn in B.
  destruct (wordIndex v) as [|[|n]]; [| |lia];
    destruct K as [-> | ->];
    destruct idx as [|[|[|i]]]; try lia; reflexivity.
Qed.

(** X8. The display agrees with the key handler, although the one reads the
    state and the other the refs: in a reachable ClickLetter state the one
    black letter is the expected one, and [currentPrefix] is the expected
    letter; in a reachable TypePrefix state a pulsating letter inside the
    prefix is the expected one. *)
Theorem display_matches_handler (s : State) :
  reachable s ->
  (forall i, phase (view s) = click_letter i ->
     currentPrefix (view s) = getExpectedLetter s
     /\ forall idx, colorForIndex (view s) idx = "text-black" <-> idx = i)
  /\ (forall k idx, phase (view s) = type_prefix k ->
        shouldPulsate (view s) idx = true -> idx < k ->
        getExpectedLetter s = nth_error (letters (view s)) idx).
Proof.
  intro R. destruct (wf_reachable s R) as ([A B] & _).
  destruct (synced_reachable s R) as [_ S].
  destruct (synced_fields s S) as (S1 & S2 & _ & S4).
  unfold getExpectedLetter, currentPrefix, colorForIndex, shouldPulsate.
  rewrite S1, S2, S4. split.
  - intros i Hp. rewrite Hp. split; [reflexivity|].
    intro idx. destruct (Nat.eqb_spec idx i) as [E|E].
    + split; [intros _; exact E|reflexivity].
    + split; [discriminate|intro; contradiction].
  - intros k idx Hp Hs Hk. rewrite Hp in *. cbn [wf_phase] in A.
    apply andb_true_iff in Hs as [Hs _]. apply Nat.eqb_eq in Hs. rewrite <- Hs.
    exact (prefix_char _ _ _ B A Hk).
Qed.

Lemma display_matches_handler_witness :
  reachable (mount 0)
  /\ currentPrefix (view (mount 0)) = getExpectedLetter (mount 0)
  /\ forall idx, colorForIndex (view (mount 0)) idx = "text-black" <-> idx = 0.
Proof.
  assert (R : reachable (mount 0)) by (exists 0, []; reflexivity).
  split; [exact R|]. exact (proj1 (display_matches_handler _ R) 0 eq_refl).
Defined.

Lemma upper_ascii_idem (c : ascii) : upper_ascii (upper_ascii c) = upper_ascii c.
Proof. destruct c as [[] [] [] [] [] [] [] []]; reflexivity. Qed.

(** The upper case of a byte is below 128 or the byte itself. *)
Lemma upper_ascii_high (c : ascii) :
  128 <= nat_of_ascii (upper_ascii c) -> upper_ascii c = c.
Proof.
  destruct c as [[] [] [] [] [] [] [] []]; intro H; try reflexivity;
    vm_compute in H; lia.
Qed.

Lemma upper_pair_Some (c d u : ascii) :
  upper_pair c d = Some u ->
  128 <= nat_of_ascii c /\ 128 <= nat_of_ascii d /\ nat_of_ascii u < 128
  /\ upper_ascii u = u.
Proof.
  unfold upper_pair. intro H.
  destruct (nat_of_ascii c =? 196) eqn:A; destruct (nat_of_ascii d =? 177) eqn:B;
    cbn [andb] in H;
    try (injection H as <-; apply Nat.eqb_eq in A, B; cbn; repeat split; lia);
    destruct (nat_of_ascii c =? 197) eqn:A'; destruct (nat_of_ascii d =? 191) eqn:B';
    cbn [andb] in H; try discriminate;
    injection H as <-; apply Nat.eqb_eq in A', B'; cbn; repeat split; lia.
Qed.

Lemma upper_pair_low_l (c d : ascii) : nat_of_ascii c < 128 -> upper_pair c d = None.
Proof.
  intro H. destruct (upper_pair c d) as [u|] eqn:E; [|reflexivity].
  apply upper_pair_Some in E. lia.
Qed.

Lemma upper_pair_low_r (c d : ascii) : nat_of_ascii d < 128 -> upper_pair c d = None.
Proof.
  intro H. destruct (upper_pair c d) as [u|] eqn:E; [|reflexivity].
  apply upper_pair_Some in E. lia.
Qed.

(** The first byte of an upper-cased string. *)
Definition head_ok (d : ascii) (x : string) : Prop :=
  match x with
  | EmptyString => True
  | String h _ => nat_of_ascii h < 128 \/ h = d
  end.

Lemma toUpperCase_head (d : ascii) (r : string) : head_ok d (toUpperCase (String d r)).
Proof.
  cbn [toUpperCase]. destruct r as [|e r'].
  - cbn [head_ok]. destruct (Nat.lt_ge_cases (nat_of_ascii (upper_ascii d)) 128) as [H|H];
      [left; exact H|right; apply upper_ascii_high, H].
  - destruct (upper_pair d e) as [u|] eqn:E.
    + cbn [head_ok]. left. apply upper_pair_Some in E. lia.
    + cbn [head_ok]. destruct (Nat.lt_ge_cases (nat_of_ascii (upper_ascii d)) 128) as [H|H];
        [left; exact H|right; apply upper_ascii_high, H].
Qed.

Lemma upper_pair_upper (c d : ascii) :
  upper_pair c d = None -> forall h, (nat_of_ascii h < 128 \/ h = d) ->
  upper_pair (upper_ascii c) h = None.
Proof.
  intros E h [H|H]; [apply upper_pair_low_r, H|]. subst h.
  destruct (Nat.lt_ge_cases (nat_of_ascii (upper_ascii c)) 128) as [L|L].
  - apply upper_pair_low_l, L.
  - rewrite (upper_ascii_high c L). exact E.
Qed.

Lemma toUpperCase_idem_len (n : nat) :
  forall x, String.length x <= n -> toUpperCase (toUpperCase x) = toUpperCase x.
Proof.
  induction n as [|n IH]; intros x L.
  - destruct x; [reflexivity|cbn in L; lia].
  - destruct x as [|c r]; [reflexivity|]. cbn [String.length] in L.
    destruct r as [|d r'].
    + cbn [toUpperCase]. rewrite upper_ascii_idem. reflexivity.
    + cbn [String.length] in L.
      change (toUpperCase (String c (String d r')))
        with (match upper_pair c d with
              | Some u => String u (toUpperCase r')
              | None => String (upper_ascii c) (toUpperCase (String d r'))
              end).
      destruct (upper_pair c d) as [u|] eqn:E.
      * pose proof (upper_pair_Some _ _ _ E) as (_ & _ & Lu & Uu).
        pose proof (IH r' ltac:(lia)) as I1.
        destruct (toUpperCase r') as [|t T'] eqn:ET.
        -- cbn [toUpperCase]. rewrite Uu. reflexivity.
        -- change (toUpperCase (String u (String t T')))
             with (match upper_pair u t with
                   | Some u' => String u' (toUpperCase T')
                   | None => String (upper_ascii u) (toUpperCase (String t T'))
                   end).
           rewrite (upper_pair_low_l u t Lu), Uu, I1. reflexivity.
      * pose proof (IH (String d r') ltac:(cbn [String.length]; lia)) as I1.
        pose proof (toUpperCase_head d r') as Hh.
        destruct (toUpperCase (String d r')) as [|h T] eqn:ET.
        -- exfalso. cbn [toUpperCase] in ET. destruct r'; [discriminate|].
           destruct (upper_pair d a); discriminate.
        -- change (toUpperCase (String (upper_ascii c) (String h T)))
             with (match upper_pair (upper_ascii c) h with
                   | Some u' => String u' (toUpperCase T)
                   | None => String (upper_ascii (upper_ascii c)) (toUpperCase (String h T))
                   end).
           cbn [head_ok] in Hh.
           rewrite (upper_pair_upper c d E h Hh), upper_ascii_idem, I1. reflexivity.
Qed.

Lemma toUpperCase_idem (x : string) : toUpperCase (toUpperCase x) = toUpperCase x.
Proof. exact (toUpperCase_idem_len (String.length x) x (le_n _)). Qed.



(** ** At most one drain timer *)

Definition is_drain (c : Callback) : bool :=
  match c with DrainTimer _ => true | _ => false end.

Section Tidy.

(** What holds of the render whose [processBuffer] a drain timer calls. *)
Variable P : Phase -> Prop.

(** The timer ids are distinct and below [nextId]; a pending drain timer is
    the one the drain effect remembers ([strict]: there is none), and the
    [phase] it closes over satisfies [P]. *)
Definition tidy (strict : bool) (s : State) : Prop :=
  (forall tm, In tm (timers s) -> tid tm < nextId s)
  /\ NoDup (map tid (timers s))
  /\ (forall tm, In tm (timers s) -> is_drain (cb tm) = true ->
        if strict then False else drainId s = Some (tid tm))
  /\ (forall tm p, In tm (timers s) -> cb tm = DrainTimer p -> P p).

Lemma NoDup_map_filter {A B} (g : A -> B) (f : A -> bool) (l : list A) :
  NoDup (map g l) -> NoDup (map g (filter f l)).
Proof.
  induction l as [|x r IH]; intro H; [constructor|].
  cbn [map] in H. inversion H as [|y l' Hn Hr]; subst.
  cbn [filter]. destruct (f x); [|exact (IH Hr)].
  cbn [map]. constructor; [|exact (IH Hr)].
  intro Hin. apply Hn. apply in_map_iff in Hin as (z & E & Hz).
  apply in_map_iff. exists z. split; [exact E|]. apply filter_In in Hz. apply Hz.
Qed.

Lemma tidy_filter (b : bool) (f : Timer -> bool) (s s' : State) :
  timers s' = filter f (timers s) -> nextId s' = nextId s -> drainId s' = drainId s ->
  tidy b s -> tidy b s'.
Proof.
  intros T N D (A & B & C & E). unfold tidy. rewrite T, N, D.
  split; [|split; [|split]].
  - intros tm H. apply filter_In in H. apply A, H.
  - apply NoDup_map_filter, B.
  - intros tm H. apply filter_In in H. apply C, H.
  - intros tm p H. apply filter_In in H. apply E, H.
Qed.

Lemma tidy_frame (b : bool) (s s' : State) :
  timers s' = timers s -> nextId s' = nextId s -> drainId s' = drainId s ->
  tidy b s -> tidy b s'.
Proof. intros T N D (A & B & C & E). unfold tidy. rewrite T, N, D. auto. Qed.

Lemma tidy_setTimeout (b : bool) (c : Callback) (d : nat) (s : State) :
  is_drain c = false -> tidy b s -> tidy b (fst (setTimeout c d s)).
Proof.
  intros Hc (A & B & C & F). unfold tidy.
  cbn [setTimeout fst timers nextId drainId set_nextId set_timers].
  split; [|split; [|split]].
  - intros tm H. apply in_app_or in H as [H|[<-|[]]]; [specialize (A tm H); lia|cbn; lia].
  - rewrite map_app. apply NoDup_app; [exact B|repeat constructor; intros []|].
    intros a Ha [<-|[]]. apply in_map_iff in Ha as (tm & E & Htm).
    specialize (A tm Htm). cbn [tid] in E. lia.
  - intros tm H Hd. apply in_app_or in H as [H|[<-|[]]]; [exact (C tm H Hd)|].
    cbn [cb] in Hd. rewrite Hc in Hd. discriminate.
  - intros tm p H Hd. apply in_app_or in H as [H|[<-|[]]]; [exact (F tm p H Hd)|].
    cbn [cb] in Hd. rewrite Hd in Hc. discriminate.
Qed.

Lemma tidy_enqueue (b : bool) (u : Update) (s : State) : tidy b s -> tidy b (enqueue u s).
Proof. apply tidy_frame; reflexivity. Qed.

Lemma tidy_on_refs (b : bool) (f : Refs -> Refs) (s : State) : tidy b s -> tidy b (on_refs f s).
Proof. apply tidy_frame; reflexivity. Qed.

Lemma tidy_play (b : bool) (c : Cue) (s : State) : tidy b s -> tidy b (play c s).
Proof. apply tidy_frame; reflexivity. Qed.

Lemma tidy_set_view (b : bool) (v : View) (s : State) : tidy b s -> tidy b (set_view v s).
Proof. apply tidy_frame; reflexivity. Qed.

Lemma tidy_clearTimeout (b : bool) (id : nat) (s : State) : tidy b s -> tidy b (clearTimeout id s).
Proof. apply (tidy_filter b (fun tm => negb (tid tm =? id))); reflexivity. Qed.

Lemma tidy_clearBlendTimeouts (b : bool) (s : State) :
  tidy b s -> tidy b (clearBlendTimeouts s).
Proof.
  destruct (clearBlendTimeouts_spec s) as (_ & _ & N & D & _ & _ & _ & T).
  exact (tidy_filter b _ s _ T N D).
Qed.

Lemma tidy_announce (b : bool) (msg : string) (s : State) : tidy b s -> tidy b (announce msg s).
Proof.
  intro H. unfold announce. apply tidy_setTimeout; [reflexivity|]. apply tidy_enqueue, H.
Qed.

Lemma tidy_advanceToNextPhase (b : bool) (p : Phase) (s : State) :
  tidy b s -> tidy b (advanceToNextPhase p s).
Proof.
  intro H. unfold advanceToNextPhase.
  destruct p as [[|[|[|j]]]|k|k]; try exact H; apply tidy_enqueue, tidy_enqueue, H.
Qed.

Lemma tidy_handleCorrectLetterClick (b : bool) (p : Phase) (ch : string) (s : State) :
  tidy b s -> tidy b (handleCorrectLetterClick p ch s).
Proof.
  intro H. unfold handleCorrectLetterClick. cbv zeta.
  apply tidy_setTimeout; [reflexivity|].
  apply tidy_advanceToNextPhase, tidy_announce, tidy_play, H.
Qed.

Lemma tidy_handleCorrectType (b : bool) (ch : string) (s : State) :
  tidy b s -> tidy b (handleCorrectType ch s).
Proof.
  intro H. unfold handleCorrectType. cbv zeta.
  apply tidy_enqueue, tidy_enqueue, tidy_announce, tidy_play, H.
Qed.

Lemma tidy_addToBuffer (b : bool) (k : string) (s : State) :
  tidy b s -> tidy b (addToBuffer k s).
Proof.
  apply tidy_frame; unfold addToBuffer; cbv zeta;
    destruct (repeat_guard _ _ _); try reflexivity;
    destruct (BUFFER_MAX <=? _); reflexivity.
Qed.

Lemma tidy_processBuffer (b : bool) (fuel : nat) :
  forall phase_c x x', processBuffer fuel phase_c x = Some x' -> tidy b x -> tidy b x'.
Proof.
  induction fuel as [|f IH]; intros phase_c x x' H G; [discriminate|].
  cbn [processBuffer] in H.
  destruct (negb (truthy (getExpectedLetter (pruneBuffer x))));
    [injection H as <-; apply tidy_on_refs, G|].
  destruct (find_key _ _) as [i|]; [|injection H as <-; apply tidy_on_refs, G].
  apply IH in H; [exact H|]. clear H.
  destruct (phaseRef (refs (pruneBuffer x))) as [ci|k|k].
  - apply tidy_handleCorrectLetterClick, tidy_on_refs, tidy_on_refs, G.
  - apply tidy_on_refs, tidy_on_refs, G.
  - apply tidy_handleCorrectType, tidy_on_refs, tidy_on_refs, G.
Qed.

Lemma tidy_drain (b : bool) (phase_c : Phase) (x : State) : tidy b x -> tidy b (drain phase_c x).
Proof.
  intro G. unfold drain. destruct (processBuffer _ phase_c x) as [x'|] eqn:E; [|exact G].
  exact (tidy_processBuffer b _ _ _ _ E G).
Qed.

Lemma tidy_onKey_body (b : bool) (k : string) (x : State) : tidy b x -> tidy b (onKey_body k x).
Proof.
  intro H. unfold onKey_body. cbv zeta.
  destruct (negb (includes LETTERS (toUpperCase k))); [exact H|].
  assert (V : tidy b (if truthy (getExpectedLetter x)
                         && same_letter (toUpperCase k) (getExpectedLetter x)
                      then drain mount_phase (addToBuffer (toUpperCase k) x)
                      else if truthy (getExpectedLetter x)
                           then addToBuffer (toUpperCase k)
                                  (announce "Try again" (playSoundEffect wrong x))
                           else x)).
  { destruct (truthy (getExpectedLetter x) && same_letter (toUpperCase k) (getExpectedLetter x)).
    - apply tidy_drain, tidy_addToBuffer, H.
    - destruct (truthy (getExpectedLetter x)); [|exact H].
      apply tidy_addToBuffer, tidy_announce, tidy_play, H. }
  destruct (phaseRef (refs x)); [exact V|exact H|exact V].
Qed.

Lemma tidy_run_callback (b : bool) (c : Callback) (x : State) :
  tidy b x -> tidy b (run_callback c x).
Proof.
  intro H. destruct c as [| |v|k|k|p]; cbn [run_callback].
  - apply tidy_enqueue, H.
  - exact H.
  - apply tidy_enqueue, H.
  - apply tidy_setTimeout; [reflexivity|]. apply tidy_enqueue, H.
  - cbv zeta. destruct (negb (k =? 3)); repeat apply tidy_enqueue; exact H.
  - apply tidy_drain, H.
Qed.

Lemma tidy_resetForNext (b : bool) (y : State) : tidy b y -> tidy b (resetForNext y).
Proof.
  intro H. unfold resetForNext. cbv zeta.
  apply tidy_enqueue, tidy_enqueue, tidy_on_refs.
  apply tidy_enqueue, tidy_enqueue, tidy_enqueue, tidy_enqueue, tidy_enqueue.
  apply tidy_on_refs, tidy_on_refs, tidy_clearBlendTimeouts, H.
Qed.

Lemma tidy_apply_update (b : bool) (u : Update) (y : State) :
  tidy b y -> tidy b (apply_update u y).
Proof.
  intro H. destruct u; try (apply tidy_set_view, H).
  cbn [apply_update]. unfold advance_index. cbv zeta. apply tidy_set_view.
  destruct (phaseRef (refs y)) as [i|k|k]; try exact H.
  destruct (typingCurrentIndex (view y) + 1 =? k); [|exact H].
  destruct (k =? 2); [repeat apply tidy_enqueue; exact H|].
  destruct (k =? 3); [|exact H].
  apply tidy_resetForNext, tidy_enqueue, H.
Qed.

Lemma tidy_first_pass (b : bool) (x : State) : tidy b x -> tidy b (first_pass x).
Proof.
  intro H. unfold first_pass.
  assert (G : tidy b (set_queue [] x)) by (revert H; apply tidy_frame; reflexivity).
  revert G. generalize (set_queue [] x).
  induction (queue x) as [|u r IH]; intros y G; [exact G|].
  cbn [fold_left]. apply IH, tidy_apply_update, G.
Qed.

Lemma tidy_render (b : bool) (n : nat) : forall x, tidy b x -> tidy b (render n x).
Proof.
  induction n as [|n IH]; intros x H; [exact H|].
  destruct (queue x) as [|u us] eqn:Q.
  - rewrite render_done by exact Q. exact H.
  - rewrite render_first_pass by (rewrite Q; discriminate). apply IH, tidy_first_pass, H.
Qed.

Lemma tidy_schedule_steps (b : bool) (n : nat) :
  forall i s, tidy b s -> tidy b (schedule_steps n i s).
Proof.
  induction n as [|n IH]; intros i s H; [exact H|].
  cbn [schedule_steps]. destruct (setTimeout (BlendStep (i + 1)) (i * 1000) s) as [s1 id] eqn:E.
  apply IH. unfold push_blendTimeout. apply tidy_on_refs.
  change s1 with (fst (s1, id)). rewrite <- E. apply tidy_setTimeout; [reflexivity|exact H].
Qed.

Lemma tidy_auto_effect (b : bool) (x : State) : tidy b x -> tidy b (auto_effect x).
Proof.
  intro G. unfold auto_effect. cbv zeta.
  destruct (lastAutoRef (refs x) =? signature (view x))%string; [exact G|].
  destruct (phase (view x)) as [i|k|k].
  - apply tidy_play, tidy_on_refs, G.
  - match goal with |- tidy b (let (s, id) := setTimeout ?c ?d ?z in _) =>
      assert (Z : tidy b z); [|destruct (setTimeout c d z) as [s1 id] eqn:E]
    end.
    + apply tidy_schedule_steps, tidy_enqueue, tidy_clearBlendTimeouts.
      destruct (k =? 3); [apply tidy_enqueue|]; apply tidy_play, tidy_on_refs, G.
    + unfold push_blendTimeout. apply tidy_on_refs.
      change s1 with (fst (s1, id)). rewrite <- E. apply tidy_setTimeout; [reflexivity|exact Z].
  - apply tidy_on_refs, G.
Qed.

(** The cleanup of the drain effect leaves no drain timer. *)
Lemma tidy_drain_cleanup (x : State) : tidy false x -> tidy true (drain_cleanup x).
Proof.
  intros (A & B & C & E). unfold drain_cleanup. destruct (drainId x) as [id|] eqn:D.
  - split; [|split; [|split]].
    + intros tm H. apply filter_In in H. apply A, H.
    + apply NoDup_map_filter, B.
    + intros tm H Hd. apply filter_In in H as [H F].
      specialize (C tm H Hd). injection C as ->. rewrite Nat.eqb_refl in F. discriminate.
    + intros tm p H. apply filter_In in H. apply E, H.
  - split; [exact A|]. split; [exact B|]. split; [|exact E].
    intros tm H Hd. specialize (C tm H Hd). discriminate.
Qed.

Lemma tidy_drain_cleanup_strict (x : State) : tidy true x -> tidy true (drain_cleanup x).
Proof.
  intro H. unfold drain_cleanup. destruct (drainId x); [apply tidy_clearTimeout, H|exact H].
Qed.

End Tidy.

(** With no drain timer pending, nothing is said of closures. *)
Lemma tidy_strict_any (P Q : Phase -> Prop) (x : State) : tidy P true x -> tidy Q true x.
Proof.
  intros (A & B & C & _). split; [exact A|]. split; [exact B|]. split; [exact C|].
  intros tm p H E. destruct (C tm H). rewrite E. reflexivity.
Qed.

Lemma tidy_same_phase (p q : Phase) (b : bool) (x : State) :
  p = q -> tidy (eq p) b x -> tidy (eq q) b x.
Proof. intros <-. exact (fun H => H). Qed.

(** The drain effect schedules the one drain timer, for [processBuffer] of
    the render it runs after. *)
Lemma tidy_drain_effect (P : Phase -> Prop) (x : State) :
  tidy P true x -> tidy (eq (phase (view x))) false (drain_effect x).
Proof.
  intros (A & B & C & _). unfold drain_effect, tidy.
  cbn [setTimeout timers nextId drainId set_drainId set_nextId set_timers view].
  split; [|split; [|split]].
  - intros tm H. apply in_app_or in H as [H|[<-|[]]]; [specialize (A tm H); lia|cbn; lia].
  - rewrite map_app. apply NoDup_app; [exact B|repeat constructor; intros []|].
    intros a Ha [<-|[]]. apply in_map_iff in Ha as (tm & E & Htm).
    specialize (A tm Htm). cbn [tid] in E. lia.
  - intros tm H Hd. apply in_app_or in H as [H|[<-|[]]]; [destruct (C tm H Hd)|reflexivity].
  - intros tm p H E. apply in_app_or in H as [H|[<-|[]]].
    + destruct (C tm H). rewrite E. reflexivity.
    + cbn [cb] in E. injection E as <-. reflexivity.
Qed.

Lemma tidy_run_effects (old : View) (x : State) :
  same_object old (view x) ->
  tidy (eq (phase old)) false x ->
  tidy (eq (phase (view x))) false (run_effects old x).
Proof.
  intros [_ O] G. unfold run_effects. cbv zeta.
  assert (Pif : forall (P : Phase -> Prop) (b c : bool) (f : State -> State) y,
             (forall z, tidy P b z -> tidy P b (f z)) -> tidy P b y ->
             tidy P b (if c then f y else y)).
  { intros P b [|] f y Hf Hy; [apply Hf, Hy|exact Hy]. }
  match goal with |- tidy _ false (if ?c then drain_effect _ else _) =>
    destruct c eqn:Ec
  end; [match goal with |- tidy _ false (drain_effect ?z) =>
          assert (V : view z = view x)
        end|].
  - rewrite (if_preserves view _ auto_effect) by (intro z; apply auto_effect_frame).
    rewrite !(if_preserves view _ (on_refs _)) by reflexivity.
    rewrite (proj1 (drain_cleanup_frame _)).
    rewrite (if_preserves view _ clearBlendTimeouts)
      by (intro z; apply (clearBlendTimeouts_spec z)).
    reflexivity.
  - apply (tidy_same_phase _ _ _ _ (f_equal phase V)).
    apply (tidy_drain_effect (eq (phase old))).
    apply (Pif _ true _ auto_effect); [exact (tidy_auto_effect _ true)|].
    apply (Pif _ true _ (on_refs (set_lettersRef (letters (view x)))));
      [intro z; apply tidy_on_refs|].
    apply (Pif _ true _ (on_refs (set_typedBufferRef (typedBuffer (view x)))));
      [intro z; apply tidy_on_refs|].
    apply (Pif _ true _ (on_refs (set_typingCurrentIndexRef (typingCurrentIndex (view x)))));
      [intro z; apply tidy_on_refs|].
    apply (Pif _ true _ (on_refs (set_phaseRef (phase (view x)))));
      [intro z; apply tidy_on_refs|].
    apply tidy_drain_cleanup.
    apply (Pif _ false _ clearBlendTimeouts); [exact (tidy_clearBlendTimeouts _ false)|exact G].
  - apply orb_false_elim in Ec as [Ec _]. apply orb_false_elim in Ec as [Ec _].
    apply orb_false_elim in Ec as [Ec _].
    apply negb_false_iff, Nat.eqb_eq in Ec.
    apply (tidy_same_phase (phase old)); [symmetry; apply O; symmetry; exact Ec|].
    apply (Pif _ false _ auto_effect); [exact (tidy_auto_effect _ false)|].
    apply (Pif _ false _ (on_refs (set_lettersRef (letters (view x)))));
      [intro z; apply tidy_on_refs|].
    apply (Pif _ false _ (on_refs (set_typedBufferRef (typedBuffer (view x)))));
      [intro z; apply tidy_on_refs|].
    apply (Pif _ false _ (on_refs (set_typingCurrentIndexRef (typingCurrentIndex (view x)))));
      [intro z; apply tidy_on_refs|].
    apply (Pif _ false _ (on_refs (set_phaseRef (phase (view x)))));
      [intro z; apply tidy_on_refs|].
    apply (Pif _ false _ clearBlendTimeouts); [exact (tidy_clearBlendTimeouts _ false)|exact G].
Qed.

(** The drain timer is the one of the last render. *)
Definition drain_timer_current (s : State) : Prop := tidy (eq (phase (view s))) false s.

Lemma tidy_commit_once (x : State) : drain_timer_current x -> drain_timer_current (commit_once x).
Proof.
  unfold drain_timer_current, commit_once. intro G. rewrite view_run_effects.
  apply tidy_run_effects; [apply same_object_render|]. apply tidy_render, G.
Qed.

Lemma tidy_commit (x : State) : drain_timer_current x -> drain_timer_current (commit x).
Proof.
  intro H. destruct (settle_cases x) as (_ & [E|[E|E]]); rewrite E;
    [exact H|apply tidy_commit_once, H|apply tidy_commit_once, tidy_commit_once, H].
Qed.

Lemma tidy_reachable (s : State) : reachable s -> drain_timer_current s.
Proof.
  revert s. apply reachable_induction.
  - intro t0. unfold mount. apply tidy_commit. unfold drain_timer_current.
    replace (phase (view (drain_effect (auto_effect (first_render t0)))))
      with (phase (view (auto_effect (first_render t0)))) by reflexivity.
    apply (tidy_drain_effect (fun _ => True)), tidy_auto_effect.
    split; [intros tm []|]. split; [constructor|]. split; [intros tm []|intros tm p []].
  - intros s k H. unfold onKey. apply tidy_commit. unfold drain_timer_current.
    rewrite view_onKey_body. apply tidy_onKey_body, H.
  - intros s tm H _ _. unfold fire. apply tidy_commit. unfold drain_timer_current.
    rewrite view_run_callback. apply tidy_run_callback, tidy_clearTimeout, H.
  - intros s dt H. revert H. apply tidy_frame; reflexivity.
  - intros s H. destruct (replay_frame s) as (V & _ & _ & T & N & D & _).
    unfold drain_timer_current. rewrite V. revert H. apply tidy_frame; assumption.
Qed.

(** X23. The drain effect keeps at most one timer: in every reachable
    state the pending timers have distinct ids, all handed out before, and
    two pending timers that would run [processBuffer] are the same timer,
    the one the effect's cleanup will clear. *)
Theorem at_most_one_drain_timer (s : State) :
  reachable s ->
  NoDup (map tid (timers s))
  /\ (forall tm, In tm (timers s) -> tid tm < nextId s)
  /\ (forall tm tm', In tm (timers s) -> In tm' (timers s) ->
        is_drain (cb tm) = true -> is_drain (cb tm') = true ->
        tm = tm' /\ drainId s = Some (tid tm)).
Proof.
  intro R. destruct (tidy_reachable s R) as (A & B & C & _).
  split; [exact B|]. split; [exact A|].
  intros tm tm' H H' D D'. split; [|exact (C tm H D)].
  pose proof (C tm H D) as E. pose proof (C tm' H' D') as E'. rewrite E in E'.
  injection E' as E'.
  clear - B H H' E'. induction (timers s) as [|x r IH]; [destruct H|].
  cbn [map] in B. inversion B as [|y l Hn Hr]; subst.
  destruct H as [<-|H]; destruct H' as [<-|H'].
  - reflexivity.
  - exfalso. apply Hn. rewrite E'. apply in_map, H'.
  - exfalso. apply Hn. rewrite <- E'. apply in_map, H.
  - exact (IH Hr H H').
Qed.

Lemma at_most_one_drain_timer_witness :
  reachable (mount 0)
  /\ map cb (timers (mount 0)) = [DrainTimer (click_letter 0)]
  /\ NoDup (map tid (timers (mount 0)))
  /\ (forall tm, In tm (timers (mount 0)) -> tid tm < nextId (mount 0)).
Proof.
  assert (R : reachable (mount 0)) by (exists 0, []; reflexivity).
  destruct (at_most_one_drain_timer _ R) as (A & B & _).
  split; [exact R|]. split; [reflexivity|]. split; [exact A|exact B].
Defined.

(** X25. The drain timer never holds a stale closure: in every reachable
    state a pending timer that would run [processBuffer] runs the one of
    the last render, whose [phase] is the current phase (the key handler, in
    contrast, keeps [processBuffer] of the first render). *)
Theorem drain_timer_closure_is_current (s : State) :
  reachable s ->
  forall tm p, In tm (timers s) -> cb tm = DrainTimer p -> p = phase (view s).
Proof.
  intros R tm p H E. destruct (tidy_reachable s R) as (_ & _ & _ & C).
  symmetry. exact (C tm p H E).
Qed.

Definition early_key_buffered : option State := run [Key "o"] (mount 0).

Lemma drain_timer_closure_is_current_witness :
  exists s,
    early_key_buffered = Some s
    /\ map cb (timers s) = [DrainTimer (click_letter 0); ClearAnnouncement]
    /\ forall tm p, In tm (timers s) -> cb tm = DrainTimer p -> p = phase (view s).
Proof.
  eexists. split; [vm_compute; reflexivity|]. split; [reflexivity|].
  match goal with |- forall tm p, In tm (timers ?s) -> _ =>
    assert (R : reachable s) by (exists 0, [Key "o"]; vm_compute; reflexivity);
    exact (drain_timer_closure_is_current s R)
  end.
Defined.

(** ** Callbacks of an old phase *)

(** The transition callback, and the two callbacks that lead out of a blend
    phase; the status callbacks and the drain callback are the calm ones. *)
Definition is_exit (c : Callback) : bool :=
  match c with BlendRed _ | ToTypePrefix _ => true | _ => false end.

Definition calm_cb (c : Callback) : bool :=
  match c with ClearAnnouncement | Noop | DrainTimer _ => true | _ => false end.

Definition calm (s : State) : Prop :=
  forall tm, In tm (timers s) -> calm_cb (cb tm) = true.

Definition exits (s : State) : list Timer :=
  filter (fun tm => is_exit (cb tm)) (timers s).

(** Every pending animation or transition callback was scheduled under the
    phase object of the view [v], a blend phase with the callback's [k], and
    at most one callback that leads out of the phase is pending. *)
Definition anim (v : View) (s : State) : Prop :=
  (forall tm, In tm (timers s) -> calm_cb (cb tm) = false ->
     born tm = phaseId v
     /\ exists k, phase v = blend_prefix k
          /\ forall k', cb tm = BlendRed k' \/ cb tm = ToTypePrefix k' -> k' = k)
  /\ List.length (exits s) <= 1.

Lemma run_snoc (es : list Event) (e : Event) :
  forall x, run (es ++ [e]) x = match run es x with Some y => step e y | None => None end.
Proof.
  induction es as [|a r IH]; intro x; cbn [run app].
  - destruct (step e x); reflexivity.
  - destruct (step a x) as [x'|]; [apply IH|reflexivity].
Qed.

Lemma reachable_step (e : Event) (s s' : State) :
  reachable s -> step e s = Some s' -> reachable s'.
Proof.
  intros (t0 & es & R) H. exists t0, (es ++ [e])%list. rewrite run_snoc, R. exact H.
Qed.

Lemma reachable_step_induction (I : State -> Prop) :
  (forall t0, I (mount t0)) ->
  (forall e s s', reachable s -> I s -> step e s = Some s' -> I s') ->
  forall s, reachable s -> I s.
Proof.
  intros Hm Hs s (t0 & es & R).
  assert (G : forall es x y, reachable x -> I x -> run es x = Some y -> I y).
  { clear - Hs. induction es as [|e r IH]; intros x y Rx Hx H; cbn [run] in H.
    - injection H as <-. exact Hx.
    - destruct (step e x) as [x'|] eqn:E; [|discriminate].
      exact (IH x' y (reachable_step e x x' Rx E) (Hs e x x' Rx Hx E) H). }
  apply (G es (mount t0) s); [exists t0, []; reflexivity|apply Hm|exact R].
Qed.

Lemma grouped_reachable (s : State) : reachable s -> grouped (phaseId (view s)) s.
Proof. intros (t0 & es & R). exact (grouped_run es _ _ R (grouped_mount t0)). Qed.

(** *** Calm timers *)

Lemma calm_same (x x' : State) : incl (timers x') (timers x) -> calm x -> calm x'.
Proof. intros Ht G tm Hin. apply G, Ht, Hin. Qed.

Lemma calm_setTimeout (c : Callback) (d : nat) (x : State) :
  calm_cb c = true -> calm x -> calm (fst (setTimeout c d x)).
Proof.
  intros Hc G tm Hin. cbn in Hin. apply in_app_or in Hin as [Hin|[<-|[]]].
  - apply G, Hin.
  - exact Hc.
Qed.

Lemma calm_announce (msg : string) (x : State) : calm x -> calm (announce msg x).
Proof. intro G. apply calm_setTimeout; [reflexivity|exact G]. Qed.

Lemma calm_addToBuffer (k : string) (x : State) : calm x -> calm (addToBuffer k x).
Proof.
  apply calm_same. rewrite (proj1 (proj2 (proj2 (addToBuffer_frame k x)))). apply incl_refl.
Qed.

Lemma calm_handleCorrectLetterClick (p : Phase) (ch : string) (x : State) :
  calm x -> calm (handleCorrectLetterClick p ch x).
Proof.
  intro G. unfold handleCorrectLetterClick. cbv zeta.
  apply calm_setTimeout; [reflexivity|].
  assert (G1 : calm (announce "Correct" (playSoundEffect correct x)))
    by (apply calm_announce; exact G).
  unfold advanceToNextPhase.
  destruct p as [[|[|[|i]]]|k|k]; exact G1.
Qed.

Lemma calm_handleCorrectType (ch : string) (x : State) :
  calm x -> calm (handleCorrectType ch x).
Proof. intro G. unfold handleCorrectType. cbv zeta. apply (calm_announce "Correct"), G. Qed.

Lemma calm_processBuffer (fuel : nat) :
  forall phase_c x x', processBuffer fuel phase_c x = Some x' -> calm x -> calm x'.
Proof.
  induction fuel as [|f IH]; intros phase_c x x' H G; [discriminate|].
  cbn [processBuffer] in H.
  destruct (negb (truthy (getExpectedLetter (pruneBuffer x)))).
  { injection H as <-. exact G. }
  destruct (find_key _ _) as [i|]; [|injection H as <-; exact G].
  apply IH in H; [exact H|].
  destruct (phaseRef (refs (pruneBuffer x))).
  - apply calm_handleCorrectLetterClick, G.
  - exact G.
  - apply calm_handleCorrectType, G.
Qed.

Lemma calm_drain (phase_c : Phase) (x : State) : calm x -> calm (drain phase_c x).
Proof.
  intro G. unfold drain.
  destruct (processBuffer _ phase_c x) as [x'|] eqn:E; [|exact G].
  exact (calm_processBuffer _ _ _ _ E G).
Qed.

Lemma calm_onKey_body (k : string) (x : State) : calm x -> calm (onKey_body k x).
Proof.
  intro G. unfold onKey_body. cbv zeta.
  destruct (negb (includes LETTERS (toUpperCase k))); [exact G|].
  assert (G' : calm
                 (if truthy (getExpectedLetter x) && same_letter (toUpperCase k) (getExpectedLetter x)
                  then drain mount_phase (addToBuffer (toUpperCase k) x)
                  else if truthy (getExpectedLetter x)
                       then addToBuffer (toUpperCase k)
                              (announce "Try again" (playSoundEffect wrong x))
                       else x)).
  { destruct (truthy (getExpectedLetter x) && same_letter (toUpperCase k) (getExpectedLetter x)).
    - apply calm_drain, calm_addToBuffer, G.
    - destruct (truthy (getExpectedLetter x)); [|exact G].
      apply calm_addToBuffer, (calm_announce "Try again"), G. }
  destruct (phaseRef (refs x)); [exact G'|exact G|exact G'].
Qed.

Lemma calm_run_callback (c : Callback) (x : State) :
  calm_cb c = true -> calm x -> calm (run_callback c x).
Proof.
  intros Hc G. destruct c as [| |v|k|k|p]; try discriminate; cbn [run_callback].
  - exact G.
  - exact G.
  - apply calm_drain, G.
Qed.

Lemma calm_clearBlendTimeouts (x : State) : calm x -> calm (clearBlendTimeouts x).
Proof.
  apply calm_same.
  destruct (clearBlendTimeouts_spec x) as (_ & _ & _ & _ & _ & _ & _ & T).
  rewrite T. apply incl_filter.
Qed.

Lemma calm_resetForNext (x : State) : calm x -> calm (resetForNext x).
Proof. intro G. unfold resetForNext. cbv zeta. apply (calm_clearBlendTimeouts x), G. Qed.

Lemma calm_apply_update (u : Update) (x : State) : calm x -> calm (apply_update u x).
Proof.
  intro G. destruct u; cbn [apply_update]; try exact G.
  unfold advance_index. cbv zeta.
  assert (G' : calm (match phaseRef (refs x) with
                     | type_prefix k =>
                         if typingCurrentIndex (view x) + 1 =? k then
                           if k =? 2 then
                             enqueue (SetShowImage false)
                               (enqueue (SetTypingCurrentIndex 0)
                                  (enqueue (SetTypedBuffer "")
                                     (enqueue (SetPhase (click_letter 2)) x)))
                           else if k =? 3 then resetForNext (enqueue (SetShowImage false) x)
                           else x
                         else x
                     | _ => x
                     end)).
  { destruct (phaseRef (refs x)) as [i|k|k]; try exact G.
    destruct (typingCurrentIndex (view x) + 1 =? k); [|exact G].
    destruct (k =? 2); [exact G|].
    destruct (k =? 3); [|exact G].
    apply (calm_resetForNext (enqueue (SetShowImage false) x)), G. }
  exact G'.
Qed.

Lemma calm_fold_updates (us : list Update) :
  forall x, calm x -> calm (fold_left (fun acc u => apply_update u acc) us x).
Proof.
  induction us as [|u r IH]; intros x G; [exact G|].
  cbn [fold_left]. apply IH, calm_apply_update, G.
Qed.

Lemma calm_render (n : nat) : forall x, calm x -> calm (render n x).
Proof.
  induction n as [|n IH]; intros x G; [exact G|].
  rewrite render_S. destruct (queue x) as [|u us]; [exact G|].
  apply IH, calm_fold_updates. exact G.
Qed.

Lemma calm_drain_effect (x : State) : calm x -> calm (drain_effect x).
Proof.
  intro G. unfold drain_effect.
  exact (calm_setTimeout (DrainTimer (phase (view x))) 0 x eq_refl G).
Qed.

Lemma calm_drain_cleanup (x : State) : calm x -> calm (drain_cleanup x).
Proof.
  apply calm_same. apply (drain_cleanup_frame x).
Qed.

(** *** The animation invariant *)

Lemma calm_not_exit (c : Callback) : calm_cb c = true -> is_exit c = false.
Proof. destruct c; intro H; try discriminate; reflexivity. Qed.

Lemma filter_exit_calm (l : list Timer) :
  (forall tm, In tm l -> calm_cb (cb tm) = true) ->
  filter (fun tm => is_exit (cb tm)) l = [].
Proof.
  induction l as [|tm r IH]; intro G; [reflexivity|].
  cbn [filter]. rewrite (calm_not_exit _ (G tm (or_introl eq_refl))).
  apply IH. intros x H. apply G. right. exact H.
Qed.

Lemma exits_calm (s : State) : calm s -> exits s = [].
Proof. apply filter_exit_calm. Qed.

Lemma anim_calm (v : View) (s : State) : calm s -> anim v s.
Proof.
  intro G. split.
  - intros tm Hin Hc. rewrite (G tm Hin) in Hc. discriminate.
  - rewrite (exits_calm s G). cbn. lia.
Qed.

Lemma anim_same (v v' : View) (s s' : State) :
  phaseId v' = phaseId v -> phase v' = phase v -> timers s' = timers s ->
  anim v s -> anim v' s'.
Proof.
  intros Hi Hp Ht [A B]. unfold anim, exits. rewrite Ht, Hi, Hp. split; assumption.
Qed.

Lemma filter_filter_length {A} (f g : A -> bool) (l : list A) :
  List.length (filter f (filter g l)) <= List.length (filter f l).
Proof.
  induction l as [|x r IH]; [apply le_n|].
  cbn [filter]. destruct (g x); cbn [filter]; destruct (f x); cbn [List.length]; lia.
Qed.

Lemma anim_filter (v : View) (f : Timer -> bool) (s s' : State) :
  timers s' = filter f (timers s) -> anim v s -> anim v s'.
Proof.
  intros Ht [A B]. unfold anim, exits. rewrite Ht. split.
  - intros tm Hin. apply filter_In in Hin as [Hin _]. apply A, Hin.
  - pose proof (filter_filter_length (fun tm => is_exit (cb tm)) f (timers s)) as L.
    unfold exits in B. lia.
Qed.

Lemma anim_add_calm (v : View) (tm : Timer) (s s' : State) :
  timers s' = (timers s ++ [tm])%list -> calm_cb (cb tm) = true -> anim v s -> anim v s'.
Proof.
  intros Ht Hc [A B]. unfold anim, exits. rewrite Ht. split.
  - intros x Hin Hx. apply in_app_or in Hin as [Hin|[<-|[]]]; [apply A; assumption|].
    rewrite Hc in Hx. discriminate.
  - rewrite filter_app, length_app. cbn [filter].
    rewrite (calm_not_exit _ Hc). cbn [List.length]. unfold exits in B. lia.
Qed.

(** Removing the one pending exit callback leaves none. *)
Lemma exits_removed (tm : Timer) (s : State) :
  In tm (timers s) -> is_exit (cb tm) = true -> List.length (exits s) <= 1 ->
  filter (fun x => is_exit (cb x)) (filter (fun y => negb (tid y =? tid tm)) (timers s)) = [].
Proof.
  unfold exits. intros Hin He L.
  induction (timers s) as [|x r IH] in Hin, L |- *; [reflexivity|].
  cbn [filter] in L |- *.
  destruct Hin as [->|Hin].
  - rewrite Nat.eqb_refl. cbn [negb]. rewrite He in L. cbn [List.length] in L.
    assert (E : filter (fun x => is_exit (cb x)) r = [])
      by (destruct (filter (fun x => is_exit (cb x)) r); [reflexivity|cbn in L; lia]).
    clear - E. induction r as [|y r IH]; [reflexivity|].
    cbn [filter] in E |- *. destruct (is_exit (cb y)) eqn:Ey; [discriminate|].
    destruct (negb (tid y =? tid tm)); cbn [filter]; [rewrite Ey|]; apply IH, E.
  - destruct (is_exit (cb x)) eqn:Ex.
    + cbn [List.length] in L.
      assert (E : filter (fun x => is_exit (cb x)) r = [])
        by (destruct (filter (fun x => is_exit (cb x)) r); [reflexivity|cbn in L; lia]).
      exfalso. assert (H : In tm (filter (fun x => is_exit (cb x)) r))
        by (apply filter_In; split; assumption).
      rewrite E in H. destruct H.
    + destruct (negb (tid x =? tid tm)); cbn [filter]; [rewrite Ex|]; apply IH; assumption.
Qed.

Lemma step_timers_not_exit (id0 t0 b i n : nat) :
  filter (fun tm => is_exit (cb tm)) (step_timers id0 t0 b i n) = [].
Proof.
  unfold step_timers. induction (seq 0 n) as [|j r IH]; [reflexivity|].
  cbn [map filter cb is_exit]. exact IH.
Qed.

(** The auto-pronounce effect, run with no animation or transition callback
    pending, leaves those of the phase it enters. *)
Lemma anim_auto_effect (x : State) : calm x -> anim (view x) (auto_effect x).
Proof.
  intro G.
  destruct (String.eqb_spec (lastAutoRef (refs x)) (signature (view x))) as [E|E].
  { rewrite (auto_effect_same x E). apply anim_calm, G. }
  destruct (phase (view x)) as [i|k|k] eqn:Hp.
  - apply anim_calm. unfold auto_effect. cbv zeta. apply String.eqb_neq in E. rewrite E, Hp.
    exact G.
  - destruct (auto_effect_blend x k Hp E) as (_ & _ & _ & _ & _ & _ & T & _).
    assert (C : calm (set_timers (filter (fun tm => negb (in_ids (blendTimeoutsRef (refs x)) tm))
                                         (timers x)) x))
      by (revert G; apply calm_same; apply incl_filter).
    split.
    + intros tm Hin Hc. rewrite T in Hin. apply in_app_or in Hin as [Hin|Hin].
      { rewrite (C tm Hin) in Hc. discriminate. }
      apply in_app_or in Hin as [Hin|[<-|[]]].
      * unfold step_timers in Hin. apply in_map_iff in Hin as (j & <- & _).
        cbn [born cb]. split; [reflexivity|]. exists k. split; [exact Hp|].
        intros k' [H|H]; discriminate.
      * cbn [red_timer born cb]. split; [reflexivity|]. exists k. split; [exact Hp|].
        intros k' [H|H]; [injection H as <-; reflexivity|discriminate].
    + unfold exits. rewrite T, !filter_app, !length_app, step_timers_not_exit.
      change (filter (fun tm => is_exit (cb tm))
                (filter (fun tm => negb (in_ids (blendTimeoutsRef (refs x)) tm)) (timers x)))
        with (exits (set_timers (filter (fun tm => negb (in_ids (blendTimeoutsRef (refs x)) tm))
                                        (timers x)) x)).
      rewrite (exits_calm _ C). cbn. lia.
  - apply anim_calm. unfold auto_effect. cbv zeta. apply String.eqb_neq in E. rewrite E, Hp.
    exact G.
Qed.

Lemma anim_drain_effect (v : View) (x : State) : anim v x -> anim v (drain_effect x).
Proof.
  apply (anim_add_calm v (mkTimer (nextId x) (now x + 0) (DrainTimer (phase (view x)))
                                  (phaseId (view x)))); reflexivity.
Qed.

(** The effects after a render: when the phase object changed, the cleanup
    cancels the registered animation callbacks of the old phase; what is
    pending afterwards belongs to the phase entered. *)
Lemma anim_run_effects (old : View) (x : State) :
  calm x
  \/ (phaseId old <> phaseId (view x) /\ grouped (phaseId old) x
      /\ forall tm, In tm (timers x) -> in_group (cb tm) = false -> calm_cb (cb tm) = true) ->
  anim (view x) (run_effects old x).
Proof.
  intro H. unfold run_effects. cbv zeta.
  set (autoCh := negb (phaseId old =? phaseId (view x))
                 || negb (word old =? word (view x))%string).
  set (drainCh := negb (phaseId old =? phaseId (view x))
                  || negb (typingCurrentIndex old =? typingCurrentIndex (view x))
                  || negb (word old =? word (view x))%string
                  || negb (typedBuffer old =? typedBuffer (view x))%string).
  set (P := fun y => calm y /\ view y = view x).
  assert (Pif : forall (b : bool) (f : State -> State) y,
             (forall z, P z -> P (f z)) -> P y -> P (if b then f y else y)).
  { intros [|] f y Hf Hy; [apply Hf, Hy|exact Hy]. }
  assert (Prefs : forall f z, P z -> P (on_refs f z)).
  { intros f z [Gz Vz]. split; [exact Gz|exact Vz]. }
  assert (P1 : P (if autoCh then clearBlendTimeouts x else x)).
  { destruct H as [C|(Hid & G & N)].
    - apply Pif; [|split; [exact C|reflexivity]].
      intros z [Cz Vz]. split; [apply calm_clearBlendTimeouts, Cz|].
      rewrite (proj1 (clearBlendTimeouts_spec z)). exact Vz.
    - assert (Ea : autoCh = true).
      { subst autoCh. apply Nat.eqb_neq in Hid. rewrite Hid. reflexivity. }
      rewrite Ea. destruct (clearBlendTimeouts_spec x) as (V & _ & _ & _ & _ & _ & _ & T).
      split; [|exact V]. intros tm Hin. rewrite T in Hin.
      apply filter_In in Hin as [Hin Hn].
      destruct (in_group (cb tm)) eqn:Eg.
      + destruct (G tm Hin Eg) as [Hr _]. rewrite (in_ids_In _ _ Hr) in Hn. discriminate.
      + apply N; [exact Hin|exact Eg]. }
  set (z6 := if negb (word old =? word (view x))%string
             then on_refs (set_lettersRef (letters (view x))) _ else _).
  assert (P6 : P z6).
  { subst z6. apply Pif; [apply Prefs|]. apply Pif; [apply Prefs|].
    apply Pif; [apply Prefs|]. apply Pif; [apply Prefs|].
    apply (Pif _ drain_cleanup); [|exact P1].
    intros z [Cz Vz]. split; [apply calm_drain_cleanup, Cz|].
    rewrite (proj1 (drain_cleanup_frame z)). exact Vz. }
  clearbody z6. destruct P6 as [C6 V6].
  assert (A7 : anim (view x) (if autoCh then auto_effect z6 else z6)).
  { destruct autoCh; [|apply anim_calm, C6]. rewrite <- V6. apply anim_auto_effect, C6. }
  destruct drainCh; [apply anim_drain_effect, A7|exact A7].
Qed.

Lemma anim_quiet (us : list Update) (y : State) :
  forallb quiet us = true -> anim (view y) y ->
  anim (view (apply_quiet us y)) (apply_quiet us y).
Proof.
  intros Hq A. pose proof (apply_quiet_frame us (set_queue [] y) Hq) as F.
  cbv zeta in F. fold (apply_quiet us y) in F.
  destruct F as (F1 & F2 & _ & _ & _ & _ & _ & F8 & _).
  revert A. apply anim_same; assumption.
Qed.

Lemma anim_commit_quiet (x : State) :
  forallb quiet (queue x) = true -> anim (view x) x -> anim (view (commit x)) (commit x).
Proof.
  intros Hq A. destruct (queue x) as [|u us] eqn:Q.
  - rewrite (commit_idle x Q). exact A.
  - rewrite commit_quiet; rewrite Q; [|discriminate|exact Hq]. apply anim_quiet; assumption.
Qed.

Lemma anim_commit_once_quiet (y : State) :
  forallb quiet (queue y) = true -> anim (view y) y ->
  anim (view (commit_once y)) (commit_once y).
Proof.
  intros Hq A. destruct (queue y) as [|u us] eqn:Q.
  - unfold commit_once. rewrite (render_done _ _ Q).
    rewrite run_effects_same_deps by reflexivity. exact A.
  - rewrite commit_once_quiet; rewrite Q; [|discriminate|exact Hq].
    apply anim_quiet; assumption.
Qed.

Lemma anim_commit (x : State) :
  (queue x = [] -> anim (view x) x) ->
  anim (view (commit_once x)) (commit_once x) ->
  anim (view (commit x)) (commit x).
Proof.
  intros H0 H1. destruct (settle_cases x) as (Q & [E|[E|E]]).
  - rewrite E in Q |- *. apply H0, Q.
  - rewrite E. exact H1.
  - rewrite E. apply anim_commit_once_quiet; [apply commit_once_queue|exact H1].
Qed.

Lemma anim_commit_calm (x : State) : calm x -> anim (view (commit x)) (commit x).
Proof.
  intro C. apply anim_commit; [intros _; apply anim_calm, C|].
  unfold commit_once. rewrite view_run_effects. apply anim_run_effects.
  left. apply calm_render, C.
Qed.

(** Outside a blend phase no animation or transition callback is pending. *)
Lemma anim_not_blend (s : State) :
  anim (view s) s -> (forall k, phase (view s) <> blend_prefix k) -> calm s.
Proof.
  intros [A _] Hp tm Hin. destruct (calm_cb (cb tm)) eqn:E; [reflexivity|].
  destruct (A tm Hin E) as (_ & k & Hk & _). destruct (Hp k Hk).
Qed.

Lemma anim_fire_blend (s : State) (tm : Timer) (k : nat) :
  queue s = [] -> synced s -> grouped (phaseId (view s)) s ->
  anim (view s) s -> phase (view s) = blend_prefix k -> In tm (timers s) ->
  anim (view (fire tm s)) (fire tm s).
Proof.
  intros Q Sy G A Hp Hin.
  assert (A0 : anim (view s) (clearTimeout (tid tm) s))
    by (revert A; apply (anim_filter _ (fun y => negb (tid y =? tid tm))); reflexivity).
  assert (Hr : phaseRef (refs s) = blend_prefix k)
    by (rewrite (proj1 (synced_fields s Sy)); exact Hp).
  unfold fire. destruct (cb tm) as [| |v|k'|k'|p] eqn:Hc; cbn [run_callback].
  - apply anim_commit_quiet; [cbn [enqueue queue set_queue clearTimeout set_timers]; rewrite Q; reflexivity|].
    revert A0. apply anim_same; reflexivity.
  - apply anim_commit_quiet; [cbn [queue set_queue clearTimeout set_timers]; rewrite Q; reflexivity|].
    exact A0.
  - apply anim_commit_quiet; [cbn [enqueue queue set_queue clearTimeout set_timers]; rewrite Q; reflexivity|].
    revert A0. apply anim_same; reflexivity.
  - apply anim_commit_quiet;
      [cbn [setTimeout fst enqueue queue set_queue clearTimeout set_timers set_nextId];
       rewrite Q; reflexivity|].
    destruct A as [A1 A2].
    destruct (A1 tm Hin ltac:(rewrite Hc; reflexivity)) as (_ & k0 & Hk0 & Hk').
    specialize (Hk' k' (or_introl Hc)). subst k0.
    split.
    + intros x Hx Hcx. cbn in Hx. apply in_app_or in Hx as [Hx|[<-|[]]].
      * apply filter_In in Hx as [Hx _]. exact (A1 x Hx Hcx).
      * cbn [born cb]. split; [reflexivity|]. exists k'. split; [exact Hk0|].
        intros k'' [H|H]; [discriminate|injection H as <-; reflexivity].
    + unfold exits.
      cbn [setTimeout fst enqueue timers set_queue clearTimeout set_timers set_nextId].
      rewrite filter_app, (exits_removed tm s Hin ltac:(rewrite Hc; reflexivity) A2).
      cbn. lia.
  - cbv zeta. destruct A as [A1 A2].
    pose proof (exits_removed tm s Hin ltac:(rewrite Hc; reflexivity) A2) as Ex.
    set (x0 := clearTimeout (tid tm) s) in *.
    assert (T0 : timers x0 = filter (fun y => negb (tid y =? tid tm)) (timers s)) by reflexivity.
    assert (Q0 : queue x0 = []) by exact Q.
    assert (G0 : grouped (phaseId (view x0)) x0) by (apply grouped_clearTimeout, G).
    rewrite <- T0 in Ex. clearbody x0.
    set (x1 := if negb (k' =? 3) then _ else _).
    assert (X1 : timers x1 = timers x0 /\ view x1 = view x0
                 /\ queue x1 <> [] /\ forallb plain (queue x1) = true
                 /\ phaseId (fold_left (fun v u => apply_view u v) (queue x1) (view x1))
                    = S (phaseId (view x0))
                 /\ grouped (phaseId (view x0)) x1).
    { subst x1. destruct (negb (k' =? 3));
        cbn [enqueue queue set_queue timers view]; rewrite Q0; cbn [app];
        (split; [reflexivity|]); (split; [reflexivity|]); (split; [discriminate|]);
        (split; [reflexivity|]); (split; [reflexivity|]);
        repeat apply grouped_enqueue; exact G0. }
    clearbody x1. destruct X1 as (T1 & V1 & Qn & Qp & Pid & G1).
    apply anim_commit; [intro E; destruct (Qn E)|].
    unfold commit_once. rewrite view_run_effects.
    assert (Er : render 25 x1 = first_pass x1).
    { rewrite (render_first_pass _ _ Qn). apply render_done, first_pass_plain_queue, Qp. }
    rewrite Er. apply anim_run_effects. right.
    pose proof (fold_plain_frame (queue x1) Qp (set_queue [] x1)) as F. cbv zeta in F.
    fold (first_pass x1) in F. destruct F as (_ & F2 & F3 & _).
    split; [|split].
    + rewrite (view_first_pass_plain x1 Qp), Pid, V1. lia.
    + rewrite V1. rewrite <- Er. apply grouped_render. exact G1.
    + intros x Hx Hg. rewrite F3 in Hx. cbn [timers set_queue] in Hx. rewrite T1 in Hx.
      assert (He : is_exit (cb x) = false).
      { destruct (is_exit (cb x)) eqn:He; [|reflexivity].
        assert (H : In x (filter (fun y => is_exit (cb y)) (timers x0)))
          by (apply filter_In; split; assumption).
        rewrite Ex in H. destruct H. }
      destruct (cb x); try discriminate; reflexivity.
  - assert (E : drain p (clearTimeout (tid tm) s) = pruneBuffer (clearTimeout (tid tm) s))
      by (apply drain_no_expected, (getExpectedLetter_blend _ k); exact Hr).
    rewrite E. apply anim_commit_quiet; [cbn [queue pruneBuffer on_refs set_refs clearTimeout set_timers]; rewrite Q; reflexivity|].
    revert A0. apply anim_same; reflexivity.
Qed.

Lemma anim_reachable (s : State) : reachable s -> anim (view s) s.
Proof.
  revert s. apply reachable_step_induction.
  - intro t0. unfold mount. apply anim_commit_calm, calm_drain_effect.
    intros tm Hin. destruct Hin.
  - intros e s s' R A H.
    destruct (synced_reachable s R) as [Q Sy].
    pose proof (grouped_reachable s R) as G.
    destruct e as [k| |dt|]; cbn [step] in H.
    + injection H as <-. unfold onKey.
      destruct (phase (view s)) as [i|j|j] eqn:Hp.
      * apply anim_commit_calm, calm_onKey_body, (anim_not_blend s A).
        intro j. rewrite Hp. discriminate.
      * assert (E : onKey_body k s = s).
        { apply onKey_body_no_expected, (getExpectedLetter_blend _ j).
          rewrite (proj1 (synced_fields s Sy)). exact Hp. }
        rewrite E, (commit_idle s Q). exact A.
      * apply anim_commit_calm, calm_onKey_body, (anim_not_blend s A).
        intro i. rewrite Hp. discriminate.
    + destruct (earliest (timers s)) as [tm|] eqn:Et; [|discriminate].
      destruct (due tm <=? now s); [|discriminate]. injection H as <-.
      pose proof (earliest_In _ _ Et) as Hin.
      assert (N : (forall j, phase (view s) <> blend_prefix j) ->
                  anim (view (fire tm s)) (fire tm s)).
      { intro Hn. pose proof (anim_not_blend s A Hn) as C.
        unfold fire. apply anim_commit_calm, calm_run_callback; [apply C, Hin|].
        revert C. apply calm_same, incl_filter. }
      destruct (phase (view s)) as [i|j|j] eqn:Hp.
      * apply N. intro j. discriminate.
      * apply (anim_fire_blend s tm j); assumption.
      * apply N. intro i. discriminate.
    + injection H as <-. revert A. apply anim_same; reflexivity.
    + injection H as <-. destruct (replay_frame s) as (V & _ & _ & T & _).
      revert A. apply anim_same; [rewrite V; reflexivity|rewrite V; reflexivity|exact T].
Qed.

(** What a callback that is not cancelled may change: the status line, and
    its own entry in the pending timers. *)
Definition status_only (s s' : State) : Prop :=
  set_announcement "" (view s') = set_announcement "" (view s)
  /\ refs s' = refs s /\ cues s' = cues s /\ incl (timers s') (timers s).

Lemma fire_status_only (s : State) (tm : Timer) :
  queue s = [] -> cb tm = ClearAnnouncement \/ cb tm = Noop -> status_only s (fire tm s).
Proof.
  intros Q [Hc|Hc]; unfold fire; rewrite Hc; cbn [run_callback].
  - rewrite commit_quiet;
      cbn [enqueue queue set_queue clearTimeout set_timers]; rewrite Q;
      [|discriminate|reflexivity].
    split; [reflexivity|]. split; [reflexivity|]. split; [reflexivity|apply incl_filter].
  - rewrite commit_idle by exact Q.
    split; [reflexivity|]. split; [reflexivity|]. split; [reflexivity|apply incl_filter].
Qed.

(** C3 (as the code has it).  A change of the phase object runs the cleanup
    of the auto-pronounce effect, and [resetForNext] calls
    [clearBlendTimeouts]: both cancel every pending timer of the blend group
    (the animation steps and the callback at +k seconds).  In every state
    the component can reach, a pending animation step, callback at +k
    seconds or transition callback (the nested 100 ms timer that enters
    TypePrefix(k), which no group holds) was scheduled under the phase
    object that is current, BlendPrefix(k), and a pending drain callback is
    the one of the current render: none of them runs after the phase has
    changed.  The callbacks that are never cancelled are the status reset
    and the empty 100 ms callback; one that fires changes the status line
    only. *)
Theorem phase_change_cancels_old_timers (old : View) (x s : State) :
  grouped (phaseId old) x -> phaseId old <> phaseId (view x) -> reachable s ->
  (forall tm, In tm (timers x) -> in_group (cb tm) = true ->
     ~ In tm (timers (run_effects old x)) /\ ~ In tm (timers (resetForNext x)))
  /\ (forall tm, In tm (timers s) ->
        match cb tm with
        | BlendStep _ =>
            born tm = phaseId (view s) /\ In (tid tm) (blendTimeoutsRef (refs s))
            /\ exists k, phase (view s) = blend_prefix k
        | BlendRed k =>
            born tm = phaseId (view s) /\ In (tid tm) (blendTimeoutsRef (refs s))
            /\ phase (view s) = blend_prefix k
        | ToTypePrefix k => born tm = phaseId (view s) /\ phase (view s) = blend_prefix k
        | DrainTimer p => p = phase (view s)
        | ClearAnnouncement | Noop => status_only s (fire tm s)
        end).
Proof.
  intros G Hid R. split.
  - intros tm Hin Hg. destruct (G tm Hin Hg) as [_ Hb]. split; intro H.
    + destruct (grouped_run_effects old x G tm H Hg) as [_ Hb']. congruence.
    + destruct (grouped_resetForNext (phaseId old) (S (born tm)) x G tm H Hg) as [_ Hb'].
      lia.
  - intros tm Hin.
    destruct (synced_reachable s R) as [Q _].
    destruct (anim_reachable s R) as [A _].
    pose proof (grouped_reachable s R tm Hin) as Gs.
    destruct (cb tm) as [| |v|k|k|p] eqn:Hc.
    + apply fire_status_only; [exact Q|left; exact Hc].
    + apply fire_status_only; [exact Q|right; exact Hc].
    + destruct (A tm Hin ltac:(rewrite Hc; reflexivity)) as (B & k & Hk & _).
      destruct (Gs eq_refl) as [I _].
      split; [exact B|]. split; [exact I|]. exists k. exact Hk.
    + destruct (A tm Hin ltac:(rewrite Hc; reflexivity)) as (B & k0 & Hk & E).
      destruct (Gs eq_refl) as [I _].
      rewrite (E k (or_introl Hc)). split; [exact B|]. split; [exact I|exact Hk].
    + destruct (A tm Hin ltac:(rewrite Hc; reflexivity)) as (B & k0 & Hk & E).
      rewrite (E k (or_intror Hc)). split; [exact B|exact Hk].
    + destruct (tidy_reachable s R) as (_ & _ & _ & C). symmetry. exact (C tm p Hin Hc).
Qed.

(** BlendPrefix(2) with its three animation timers pending; [leaving] is that
    state with the phase object replaced, before the effects have run. *)
Definition leaving (b : State) : State :=
  set_view (set_phase (type_prefix 2) (view b)) b.

Lemma phase_change_cancels_old_timers_witness :
  exists b,
    blend2_entered = Some b
    /\ filter in_group (map cb (timers b)) = [BlendStep 1; BlendStep 2; BlendRed 2]
    /\ filter in_group (map cb (timers (run_effects (view b) (leaving b)))) = []
    /\ filter in_group (map cb (timers (resetForNext (leaving b)))) = []
    /\ (forall tm, In tm (timers (leaving b)) -> in_group (cb tm) = true ->
          ~ In tm (timers (run_effects (view b) (leaving b)))
          /\ ~ In tm (timers (resetForNext (leaving b))))
    /\ (forall tm k, In tm (timers b) -> cb tm = BlendRed k ->
          born tm = phaseId (view b) /\ phase (view b) = blend_prefix k).
Proof.
  eexists. split; [vm_compute; reflexivity|].
  match goal with |- filter _ (map cb (timers ?s)) = _ /\ _ =>
    assert (R : reachable s)
      by (exists 0, [Key "o"; Key "d"; Tick]; vm_compute; reflexivity);
    set (b := s) in *
  end.
  split; [vm_compute; reflexivity|]. split; [vm_compute; reflexivity|].
  split; [vm_compute; reflexivity|].
  assert (G : grouped (phaseId (view b)) (leaving b))
    by (apply grouped_set_view, grouped_reachable, R).
  destruct (phase_change_cancels_old_timers (view b) (leaving b) b G
              ltac:(cbn; lia) R) as [A B].
  split; [exact A|].
  intros tm k Hin Hc. specialize (B tm Hin). rewrite Hc in B.
  split; [exact (proj1 B)|exact (proj2 (proj2 B))].
Defined.

(** ** Typing the prefix, with time passing between the keys *)













(** ** The blend animation in simulated time *)

(** The pending animation and transition callbacks. *)
Definition noncalm (s : State) : list Timer :=
  filter (fun tm => negb (calm_cb (cb tm))) (timers s).

(** The [i]-th timer of the animation of BlendPrefix(k) entered at [T0]:
    the step callbacks for [i < k], then the callback at k seconds. *)
Definition item (k T0 id0 pid i : nat) : Timer :=
  mkTimer (id0 + i) (T0 + i * 1000) (if i <? k then BlendStep (i + 1) else BlendRed k) pid.

(** Those still to come when [m] of them have fired. *)
Definition agenda (k T0 id0 pid m : nat) : list Timer :=
  map (item k T0 id0 pid) (seq m (k + 1 - m)).

(** The nested timer that enters TypePrefix(k). *)
Definition exit_timer (k T0 idT pid : nat) : Timer :=
  mkTimer idT (T0 + k * 1000 + 100) (ToTypePrefix k) pid.

(** BlendPrefix(k), entered at [T0], when [m] timers of the animation have
    fired, each at its time. *)
Record blend_run (k T0 id0 pid m : nat) (s : State) : Prop := {
  br_phase : phase (view s) = blend_prefix k;
  br_pid : phaseId (view s) = pid;
  br_step : blendHighlightStep (view s) = m;
  br_pending : (m <= k /\ noncalm s = agenda k T0 id0 pid m)
               \/ (m = k + 1 /\ exists idT, noncalm s = [exit_timer k T0 idT pid]);
  br_before : now s <= (if m <=? k then T0 + m * 1000 else T0 + k * 1000 + 100);
  br_after : m = 0 \/ T0 + (m - 1) * 1000 <= now s
}.

Lemma earliest_min (ts : list Timer) (tm : Timer) :
  earliest ts = Some tm -> forall x, In x ts -> due tm <= due x.
Proof.
  revert tm. induction ts as [|y r IH]; intros tm H x Hx; [destruct Hx|].
  cbn [earliest] in H. destruct (earliest r) as [m|] eqn:E.
  - destruct (due m <? due y) eqn:L; injection H as <-.
    + apply Nat.ltb_lt in L. destruct Hx as [<-|Hx]; [lia|apply (IH m eq_refl), Hx].
    + apply Nat.ltb_ge in L. destruct Hx as [<-|Hx]; [lia|].
      pose proof (IH m eq_refl x Hx). lia.
  - injection H as <-. destruct Hx as [<-|Hx]; [lia|].
    destruct r as [|z r']; [destruct Hx|]. cbn [earliest] in E.
    destruct (earliest r') as [m'|]; [destruct (due m' <? due z)|]; discriminate.
Qed.

Lemma tid_inj (l : list Timer) (x y : Timer) :
  NoDup (map tid l) -> In x l -> In y l -> tid x = tid y -> x = y.
Proof.
  induction l as [|z r IH]; intros N Hx Hy E; [destruct Hx|].
  cbn [map] in N. inversion N as [|a l' Hn Hr]; subst.
  destruct Hx as [<-|Hx], Hy as [<-|Hy]; try reflexivity.
  - exfalso. apply Hn. rewrite E. apply in_map, Hy.
  - exfalso. apply Hn. rewrite <- E. apply in_map, Hx.
  - apply IH; assumption.
Qed.

(** Clearing a calm timer leaves the animation timers. *)
Lemma noncalm_clear_calm (l : list Timer) (tm : Timer) :
  NoDup (map tid l) -> In tm l -> calm_cb (cb tm) = true ->
  filter (fun y => negb (calm_cb (cb y))) (filter (fun y => negb (tid y =? tid tm)) l)
  = filter (fun y => negb (calm_cb (cb y))) l.
Proof.
  intros N Hin Hc. rewrite filter_filter. apply filter_ext_in.
  intros y Hy. destruct (calm_cb (cb y)) eqn:Ey; [apply andb_false_r|].
  cbn [negb]. rewrite andb_true_r.
  destruct (Nat.eqb_spec (tid y) (tid tm)) as [E|E]; [|reflexivity].
  rewrite (tid_inj l y tm N Hy Hin E) in Ey. congruence.
Qed.

Lemma agenda_cons (k T0 id0 pid m : nat) :
  m <= k -> agenda k T0 id0 pid m = item k T0 id0 pid m :: agenda k T0 id0 pid (S m).
Proof.
  intro H. unfold agenda. replace (k + 1 - m) with (S (k + 1 - S m)) by lia. reflexivity.
Qed.

Lemma agenda_end (k T0 id0 pid : nat) : agenda k T0 id0 pid (S k) = [].
Proof. unfold agenda. replace (k + 1 - S k) with 0 by lia. reflexivity. Qed.

Lemma agenda_In (k T0 id0 pid m : nat) (x : Timer) :
  In x (agenda k T0 id0 pid m) -> exists j, m <= j <= k /\ x = item k T0 id0 pid j.
Proof.
  unfold agenda. intro H. apply in_map_iff in H as (j & <- & Hj). apply in_seq in Hj.
  exists j. split; [lia|reflexivity].
Qed.

(** Clearing the first of the animation timers leaves the others. *)
Lemma agenda_clear_head (k T0 id0 pid m : nat) :
  m <= k ->
  filter (fun y => negb (tid y =? tid (item k T0 id0 pid m))) (agenda k T0 id0 pid m)
  = agenda k T0 id0 pid (S m).
Proof.
  intro H. rewrite (agenda_cons _ _ _ _ _ H). cbn [filter]. rewrite Nat.eqb_refl. cbn [negb].
  apply filter_all. apply forallb_forall. intros x Hx.
  apply agenda_In in Hx as (j & Hj & ->). cbn [item tid].
  apply negb_true_iff, Nat.eqb_neq. lia.
Qed.

Lemma noncalm_commute (l : list Timer) (g : Timer -> bool) :
  filter (fun y => negb (calm_cb (cb y))) (filter g l)
  = filter g (filter (fun y => negb (calm_cb (cb y))) l).
Proof.
  rewrite !filter_filter. apply filter_ext. intro y. apply andb_comm.
Qed.

(** A timer that fires in a blend phase, other than the transition: what it
    changes. *)
Lemma fire_in_blend (s : State) (tm : Timer) (k : nat) :
  queue s = [] -> phaseRef (refs s) = blend_prefix k ->
  (forall j, cb tm <> ToTypePrefix j) ->
  let s' := fire tm s in
  phase (view s') = phase (view s)
  /\ phaseId (view s') = phaseId (view s)
  /\ now s' = now s
  /\ blendHighlightStep (view s')
     = match cb tm with
       | BlendStep v => v
       | BlendRed j => j + 1
       | _ => blendHighlightStep (view s)
       end
  /\ timers s'
     = (filter (fun y => negb (tid y =? tid tm)) (timers s)
        ++ match cb tm with
           | BlendRed j => [mkTimer (nextId s) (now s + 100) (ToTypePrefix j) (phaseId (view s))]
           | _ => []
           end)%list.
Proof.
  intros Q Hr Hn. cbv zeta. unfold fire.
  destruct (cb tm) as [| |v|j|j|p] eqn:Hc; cbn [run_callback].
  - rewrite commit_quiet;
      cbn [enqueue queue set_queue clearTimeout set_timers]; rewrite Q;
      [|discriminate|reflexivity].
    rewrite app_nil_r. repeat split.
  - rewrite commit_idle by exact Q. rewrite app_nil_r. repeat split.
  - rewrite commit_quiet;
      cbn [enqueue queue set_queue clearTimeout set_timers]; rewrite Q;
      [|discriminate|reflexivity].
    rewrite app_nil_r. repeat split.
  - rewrite commit_quiet;
      cbn [setTimeout fst enqueue queue set_queue clearTimeout set_timers set_nextId];
      rewrite Q; [|discriminate|reflexivity].
    repeat split.
  - destruct (Hn j eq_refl).
  - assert (E : drain p (clearTimeout (tid tm) s) = pruneBuffer (clearTimeout (tid tm) s))
      by (apply drain_no_expected, (getExpectedLetter_blend _ k); exact Hr).
    rewrite E, commit_idle by exact Q. rewrite app_nil_r. repeat split.
Qed.

Lemma filter_length_lt {A} (g : A -> bool) (l : list A) (x : A) :
  In x l -> g x = false -> List.length (filter g l) < List.length l.
Proof.
  induction l as [|y r IH]; intros Hin Hg; [destruct Hin|].
  cbn [filter List.length]. pose proof (filter_length_le g r) as L.
  destruct Hin as [->|Hin].
  - rewrite Hg. lia.
  - specialize (IH Hin Hg). destruct (g y); cbn [List.length]; lia.
Qed.

(** The timer that simulated time fires next: the animation goes one step
    on when it is the first of its timers, and stays where it is when it is
    a status or drain callback. *)
Lemma blend_fire (k T0 id0 pid m : nat) (s : State) (tm : Timer) :
  reachable s -> blend_run k T0 id0 pid m s ->
  earliest (timers s) = Some tm -> due tm <= now s -> now s < T0 + k * 1000 + 100 ->
  exists m',
    blend_run k T0 id0 pid m' (fire tm s)
    /\ now (fire tm s) = now s
    /\ reachable (fire tm s)
    /\ List.length (timers (fire tm s)) + (k + 1 - m') < List.length (timers s) + (k + 1 - m).
Proof.
  intros R B Et Hd Hend.
  destruct (synced_reachable s R) as [Q Sy].
  destruct (tidy_reachable s R) as (_ & N & _).
  pose proof (earliest_In _ _ Et) as Hin.
  pose proof (earliest_min _ _ Et) as Hmin.
  destruct B as [Bp Bi Bs Bpend Bb Ba].
  assert (Hr : phaseRef (refs s) = blend_prefix k)
    by (rewrite (proj1 (synced_fields s Sy)); exact Bp).
  assert (Rf : reachable (fire tm s)).
  { apply (reachable_step Tick s); [exact R|]. cbn [step]. rewrite Et.
    apply Nat.leb_le in Hd. rewrite Hd. reflexivity. }
  assert (Hg : (fun y : Timer => negb (tid y =? tid tm)) tm = false)
    by (cbn beta; rewrite Nat.eqb_refl; reflexivity).
  destruct (calm_cb (cb tm)) eqn:Ec.
  - (* a status or drain callback *)
    destruct (fire_in_blend s tm k Q Hr) as (F1 & F2 & F3 & F4 & F5).
    { intros j E. rewrite E in Ec. discriminate. }
    assert (T' : timers (fire tm s) = filter (fun y => negb (tid y =? tid tm)) (timers s)).
    { rewrite F5. destruct (cb tm); try discriminate; apply app_nil_r. }
    exists m. split; [|split; [exact F3|split; [exact Rf|]]].
    + constructor; rewrite ?F1, ?F2, ?F3; try assumption.
      * rewrite F4. destruct (cb tm); try discriminate; exact Bs.
      * unfold noncalm in *. rewrite T', (noncalm_clear_calm _ _ N Hin Ec). exact Bpend.
    + rewrite T'. pose proof (filter_length_lt _ _ _ Hin Hg). lia.
  - (* an animation timer: the first one *)
    assert (Hnc : In tm (noncalm s))
      by (apply filter_In; split; [exact Hin|rewrite Ec; reflexivity]).
    destruct Bpend as [[Hm Ea]|[Hm (idT & Ea)]].
    2:{ exfalso. rewrite Ea in Hnc. destruct Hnc as [<-|[]]. cbn [exit_timer due] in Hd. lia. }
    assert (Hhead : In (item k T0 id0 pid m) (timers s)).
    { assert (H : In (item k T0 id0 pid m) (noncalm s))
        by (rewrite Ea, (agenda_cons _ _ _ _ _ Hm); left; reflexivity).
      apply filter_In in H. apply H. }
    assert (Etm : tm = item k T0 id0 pid m).
    { rewrite Ea in Hnc. apply agenda_In in Hnc as (j & Hj & ->).
      specialize (Hmin _ Hhead). cbn [item due] in Hmin.
      assert (j = m) by lia. subst j. reflexivity. }
    assert (Hdue : due tm = T0 + m * 1000) by (rewrite Etm; reflexivity).
    assert (Bb' : now s <= T0 + m * 1000).
    { apply Nat.leb_le in Hm. rewrite Hm in Bb. exact Bb. }
    destruct (fire_in_blend s tm k Q Hr) as (F1 & F2 & F3 & F4 & F5).
    { intros j E. rewrite Etm in E. cbn [item cb] in E. destruct (m <? k); discriminate. }
    assert (Nc' : filter (fun y => negb (calm_cb (cb y)))
                         (filter (fun y => negb (tid y =? tid tm)) (timers s))
                  = agenda k T0 id0 pid (S m)).
    { rewrite noncalm_commute. fold (noncalm s). rewrite Ea, Etm.
      apply agenda_clear_head, Hm. }
    destruct (Nat.ltb_spec m k) as [Hlt|Hge].
    + (* an animation step *)
      assert (Hcb : cb tm = BlendStep (m + 1)).
      { rewrite Etm. cbn [item cb]. apply Nat.ltb_lt in Hlt. rewrite Hlt. reflexivity. }
      rewrite Hcb in F4, F5. rewrite app_nil_r in F5.
      exists (S m). split; [|split; [exact F3|split; [exact Rf|]]].
      * constructor; rewrite ?F1, ?F2, ?F3; try assumption.
        -- rewrite F4. lia.
        -- left. split; [lia|]. unfold noncalm. rewrite F5. exact Nc'.
        -- assert (E : (S m <=? k) = true) by (apply Nat.leb_le; lia). rewrite E. lia.
        -- right. cbn [Nat.sub]. rewrite Nat.sub_0_r. lia.
      * rewrite F5. pose proof (filter_length_lt _ _ _ Hin Hg). lia.
    + (* the callback at k seconds *)
      assert (Em : m = k) by lia. revert Bs. subst m. intro Bs.
      assert (Hcb : cb tm = BlendRed k).
      { rewrite Etm. cbn [item cb]. rewrite Nat.ltb_irrefl. reflexivity. }
      rewrite Hcb in F4, F5.
      exists (k + 1). split; [|split; [exact F3|split; [exact Rf|]]].
      * constructor; rewrite ?F1, ?F2, ?F3; try assumption.
        -- right. split; [reflexivity|]. exists (nextId s). unfold noncalm.
           rewrite F5, filter_app, Nc', agenda_end. cbn [filter cb calm_cb negb app].
           unfold exit_timer. rewrite Bi. f_equal. f_equal. lia.
        -- assert (E : (k + 1 <=? k) = false) by (apply Nat.leb_gt; lia). rewrite E. lia.
        -- right. replace (k + 1 - 1) with k by lia. lia.
      * rewrite F5, length_app. cbn [List.length].
        pose proof (filter_length_lt _ _ _ Hin Hg). lia.
Qed.

Lemma earliest_None (ts : list Timer) : earliest ts = None -> ts = [].
Proof.
  destruct ts as [|z r]; [reflexivity|]. cbn [earliest].
  destruct (earliest r) as [m|]; [destruct (due m <? due z)|]; discriminate.
Qed.

(** An animation or transition timer is pending, due at the next point of
    the timeline. *)
Lemma blend_next (k T0 id0 pid m : nat) (s : State) :
  blend_run k T0 id0 pid m s ->
  exists x, In x (timers s)
            /\ due x = (if m <=? k then T0 + m * 1000 else T0 + k * 1000 + 100).
Proof.
  intros [_ _ _ [[Hm Ea]|[Hm (idT & Ea)]] _ _].
  - exists (item k T0 id0 pid m). split.
    + assert (H : In (item k T0 id0 pid m) (noncalm s))
        by (rewrite Ea, (agenda_cons _ _ _ _ _ Hm); left; reflexivity).
      apply filter_In in H. apply H.
    + apply Nat.leb_le in Hm. rewrite Hm. reflexivity.
  - exists (exit_timer k T0 idT pid). split.
    + assert (H : In (exit_timer k T0 idT pid) (noncalm s)) by (rewrite Ea; left; reflexivity).
      apply filter_In in H. apply H.
    + assert (E : (m <=? k) = false) by (apply Nat.leb_gt; lia). rewrite E. reflexivity.
Qed.

(** The clock moves on, not past the next timer. *)
Lemma blend_wait (k T0 id0 pid m d : nat) (s : State) (tm : Timer) :
  reachable s -> blend_run k T0 id0 pid m s ->
  earliest (timers s) = Some tm -> now s + d <= due tm ->
  reachable (set_now (now s + d) s) /\ blend_run k T0 id0 pid m (set_now (now s + d) s).
Proof.
  intros R B Et Hd. split; [exact (reachable_step (Wait d) s _ R eq_refl)|].
  destruct (blend_next _ _ _ _ _ _ B) as (x & Hx & Dx).
  pose proof (earliest_min _ _ Et x Hx) as Hmin.
  destruct B as [Bp Bi Bs Bpend Bb Ba].
  constructor; try assumption; cbn [set_now now]; [rewrite <- Dx; lia|].
  destruct Ba as [Ba|Ba]; [left; exact Ba|right; lia].
Qed.

(** Simulated time in a blend phase, up to the moment before the transition
    is due: with enough fuel every timer due in the meantime fires, at its
    time, and the animation is where the clock says. *)
Lemma blend_elapse (k T0 id0 pid Tend : nat) :
  Tend < T0 + k * 1000 + 100 ->
  forall n fuel s dt m,
    reachable s -> blend_run k T0 id0 pid m s -> now s + dt = Tend ->
    List.length (timers s) + (k + 1 - m) <= n -> 2 * n + 1 <= fuel ->
    exists x m',
      elapse fuel dt s = Some x /\ reachable x /\ blend_run k T0 id0 pid m' x
      /\ now x = Tend /\ forall tm, In tm (timers x) -> now x < due tm.
Proof.
  intro Hend. induction n as [|n IH]; intros fuel s dt m R B Hn Hmu Hf.
  - exfalso. destruct (blend_next _ _ _ _ _ _ B) as (x & Hx & _).
    destruct (timers s); [destruct Hx|cbn [List.length] in Hmu; lia].
  - destruct fuel as [|f]; [lia|]. cbn [elapse].
    destruct (earliest (timers s)) as [tm|] eqn:Et.
    2:{ exfalso. destruct (blend_next _ _ _ _ _ _ B) as (x & Hx & _).
        rewrite (earliest_None _ Et) in Hx. destruct Hx. }
    destruct (due tm <=? now s) eqn:Ed.
    + apply Nat.leb_le in Ed.
      destruct (blend_fire k T0 id0 pid m s tm R B Et Ed ltac:(lia)) as (m1 & B1 & N1 & R1 & L1).
      apply (IH f (fire tm s) dt m1 R1 B1); lia.
    + apply Nat.leb_gt in Ed.
      destruct (due tm - now s <=? dt) eqn:Ew.
      * apply Nat.leb_le in Ew.
        destruct (blend_wait k T0 id0 pid m (due tm - now s) s tm R B Et ltac:(lia))
          as [R2 B2].
        replace (now s + (due tm - now s)) with (due tm) in R2, B2 by lia.
        destruct f as [|f']; [lia|]. cbn [elapse].
        change (timers (set_now (due tm) s)) with (timers s). rewrite Et.
        change (now (set_now (due tm) s)) with (due tm). rewrite Nat.leb_refl.
        destruct (blend_fire k T0 id0 pid m (set_now (due tm) s) tm R2 B2 Et (le_n _)
                    ltac:(cbn [set_now now]; lia)) as (m1 & B1 & N1 & R1 & L1).
        cbn [set_now now timers] in N1, L1.
        apply (IH f' (fire tm (set_now (due tm) s)) (dt - (due tm - now s)) m1 R1 B1); lia.
      * apply Nat.leb_gt in Ew.
        destruct (blend_wait k T0 id0 pid m dt s tm R B Et ltac:(lia)) as [R2 B2].
        exists (set_now (now s + dt) s), m.
        split; [reflexivity|]. split; [exact R2|]. split; [exact B2|].
        split; [exact Hn|]. intros x Hx. cbn [set_now now timers] in Hx |- *.
        pose proof (earliest_min _ _ Et x Hx). lia.
Qed.

(** BlendPrefix(k) has just been entered: the animation step is 0 and the
    timers of the animation are pending as the auto-pronounce effect
    scheduled them, counting from now. *)
Definition blend_entered (k id0 : nat) (s : State) : Prop :=
  phase (view s) = blend_prefix k
  /\ blendHighlightStep (view s) = 0
  /\ noncalm s = agenda k (now s) id0 (phaseId (view s)) 0.

Lemma agenda_entry (k T0 id0 pid : nat) :
  (step_timers id0 T0 pid 0 k ++ [red_timer id0 T0 pid k])%list = agenda k T0 id0 pid 0.
Proof.
  unfold agenda, step_timers, red_timer. rewrite Nat.sub_0_r, Nat.add_1_r, seq_S, map_app.
  cbn [map Nat.add]. f_equal.
  - apply map_ext_in. intros j Hj. apply in_seq in Hj. unfold item.
    assert (E : (j <? k) = true) by (apply Nat.ltb_lt; lia). rewrite E. reflexivity.
  - unfold item. rewrite Nat.ltb_irrefl. reflexivity.
Qed.

(** C4. On entering BlendPrefix(k) the auto-pronounce effect schedules the
    animation: a step callback at each second i < k and the callback at k
    seconds, counting from the entry, and it sets the animation step to 0.
    From a state so entered, in simulated time (every timer firing when it
    is due, status and drain timers included), after t ms, for every
    t < k * 1000 + 100, the phase is still BlendPrefix(k) and the animation
    step is i + 1 during the second that begins at i seconds, i < k, and
    k + 1 from k seconds on; from k seconds on the transition callback is
    pending, due exactly k seconds and 100 ms after the entry, and when it
    fires then the phase is TypePrefix(k), with the typing progress
    reset. *)
Theorem blend_timeline_in_simulated_time (z s : State) (k id0 t fuel : nat) :
  phase (view z) = blend_prefix k -> lastAutoRef (refs z) <> signature (view z) -> calm z ->
  reachable s -> blend_entered k id0 s ->
  t < k * 1000 + 100 -> 2 * (List.length (timers s) + k + 1) + 1 <= fuel ->
  (noncalm (auto_effect z) = agenda k (now z) (nextId z) (phaseId (view z)) 0
   /\ In (SetBlendHighlightStep 0) (queue (auto_effect z)))
  /\ exists x,
       elapse fuel t s = Some x
       /\ now x = now s + t
       /\ phase (view x) = blend_prefix k
       /\ blendHighlightStep (view x) = (if t <? k * 1000 then t / 1000 + 1 else k + 1)
       /\ (k * 1000 <= t ->
           exists tm,
             noncalm x = [tm] /\ cb tm = ToTypePrefix k
             /\ due tm = now s + k * 1000 + 100
             /\ let y := fire tm (set_now (due tm) x) in
                now y = now s + k * 1000 + 100
                /\ phase (view y) = type_prefix k
                /\ typedBuffer (view y) = ""
                /\ typingCurrentIndex (view y) = 0).
Proof.
  intros Hz Hsig Cz R (Hp & Hs & Ha) Ht Hf. split.
  - destruct (auto_effect_blend z k Hz Hsig) as (_ & _ & _ & _ & Q & _ & T & _).
    split.
    + unfold noncalm. rewrite T, filter_app.
      assert (E1 : filter (fun tm => negb (calm_cb (cb tm)))
                     (filter (fun tm => negb (in_ids (blendTimeoutsRef (refs z)) tm))
                             (timers z)) = []).
      { unfold calm in Cz. revert Cz. generalize (timers z) as l.
        induction l as [|y r IH]; intro Cz; [reflexivity|].
        cbn [filter]. destruct (negb (in_ids (blendTimeoutsRef (refs z)) y)).
        - cbn [filter]. rewrite (Cz y (or_introl eq_refl)). cbn [negb].
          apply IH. intros x Hx. apply Cz. right. exact Hx.
        - apply IH. intros x Hx. apply Cz. right. exact Hx. }
      rewrite E1. cbn [app]. rewrite <- agenda_entry. apply filter_all, forallb_forall.
      intros x Hx. apply in_app_or in Hx as [Hx|[<-|[]]]; [|reflexivity].
      unfold step_timers in Hx. apply in_map_iff in Hx as (j & <- & _). reflexivity.
    + rewrite Q. apply in_or_app. right. apply in_or_app. right. left. reflexivity.
  - assert (B : blend_run k (now s) id0 (phaseId (view s)) 0 s).
    { constructor; try assumption; try reflexivity.
      - left. split; [lia|exact Ha].
      - cbn. lia.
      - left. reflexivity. }
    destruct (blend_elapse k (now s) id0 (phaseId (view s)) (now s + t) ltac:(lia)
                (List.length (timers s) + (k + 1)) fuel s t 0 R B eq_refl ltac:(lia)
                ltac:(lia)) as (x & m & E & Rx & Bx & Nx & Late).
    exists x. split; [exact E|]. split; [exact Nx|].
    destruct (blend_next _ _ _ _ _ _ Bx) as (h & Hh & Dh).
    pose proof (Late h Hh) as Lh. rewrite Dh, Nx in Lh.
    destruct Bx as [Bp Bi Bs Bpend Bb Ba].
    split; [exact Bp|]. rewrite Bs.
    destruct Bpend as [[Hm Ea]|[Hm (idT & Ea)]].
    + assert (Em : (m <=? k) = true) by (apply Nat.leb_le; exact Hm). rewrite Em in Lh.
      assert (H1 : t < m * 1000) by lia.
      assert (H2 : (m - 1) * 1000 <= t) by (destruct Ba as [->|Ba]; [lia|lia]).
      assert (Hlt : (t <? k * 1000) = true) by (apply Nat.ltb_lt; nia).
      rewrite Hlt. split.
      * assert (Hd : t / 1000 = m - 1).
        { symmetry. apply (Nat.div_unique t 1000 (m - 1) (t - (m - 1) * 1000)); lia. }
        rewrite Hd. lia.
      * intro H. apply Nat.ltb_lt in Hlt. lia.
    + assert (Hge : k * 1000 <= t).
      { destruct Ba as [->|Ba]; [lia|]. replace (m - 1) with k in Ba by lia. lia. }
      assert (Hlt : (t <? k * 1000) = false) by (apply Nat.ltb_ge; exact Hge).
      rewrite Hlt. split; [exact Hm|]. intros _.
      exists (exit_timer k (now s) idT (phaseId (view s))).
      split; [exact Ea|]. split; [reflexivity|]. split; [reflexivity|]. cbv zeta.
      destruct (synced_reachable x Rx) as [Qx _].
      destruct (fire_ToTypePrefix (set_now (due (exit_timer k (now s) idT (phaseId (view s)))) x)
                  (exit_timer k (now s) idT (phaseId (view s))) k Qx eq_refl)
        as (F1 & F2 & F3 & _ & F5).
      split; [rewrite F5; reflexivity|]. split; [exact F1|]. split; [exact F2|exact F3].
Qed.

Lemma blend_timeline_in_simulated_time_witness :
  exists b x,
    blend2_entered = Some b
    /\ elapse 100 1500 b = Some x
    /\ phase (view x) = blend_prefix 2
    /\ blendHighlightStep (view x) = 2.
Proof.
  assert (E : exists b, blend2_entered = Some b /\ blend_entered 2 7 b /\ reachable b
                        /\ 2 * (List.length (timers b) + 2 + 1) + 1 <= 100).
  { eexists. split; [vm_compute; reflexivity|].
    split; [split; [reflexivity|split; [reflexivity|vm_compute; reflexivity]]|].
    split; [exists 0, [Key "o"; Key "d"; Tick]; vm_compute; reflexivity|].
    vm_compute. lia. }
  destruct E as (b & Hb & B & R & F).
  set (z := set_view (set_phase (blend_prefix 2) (view (mount 0))) (mount 0)).
  assert (Cz : calm z).
  { intros tm Hin. cbn in Hin. destruct Hin as [<-|[]]. reflexivity. }
  destruct (blend_timeline_in_simulated_time z b 2 7 1500 100 eq_refl
              ltac:(cbn; discriminate) Cz R B ltac:(lia) F)
    as (_ & x & Hx & _ & P & S & _).
  exists b, x. split; [exact Hb|]. split; [exact Hx|]. split; [exact P|exact S].
Defined.

(** ** Type-ahead keys follow the order *)

(** The state a commit shows is the state of its render: the setter calls
    the effects make concern the animation and the image only. *)
Lemma commit_shows_render (x : State) :
  phase (view (commit x)) = phase (view (render 25 x))
  /\ typedBuffer (view (commit x)) = typedBuffer (view (render 25 x))
  /\ wordIndex (view (commit x)) = wordIndex (view (render 25 x)).
Proof.
  unfold commit.
  destruct (queue x) as [|u us] eqn:Q0.
  { rewrite settle_done, render_done by exact Q0. auto. }
  rewrite settle_step by (rewrite Q0; discriminate).
  assert (V : view (commit_once x) = view (render 25 x))
    by (unfold commit_once; apply view_run_effects).
  pose proof (commit_once_queue x) as P1.
  destruct (queue (commit_once x)) as [|u1 us1] eqn:Q1.
  { rewrite settle_done by exact Q1. rewrite V. auto. }
  rewrite settle_step by (rewrite Q1; discriminate).
  rewrite (commit_once_quiet (commit_once x)); rewrite Q1; [|discriminate|exact P1].
  pose proof (apply_quiet_frame (u1 :: us1) (set_queue [] (commit_once x)) P1) as A.
  cbv zeta in A. fold (apply_quiet (u1 :: us1) (commit_once x)) in A.
  destruct A as (_ & A2 & _ & A4 & A5 & _ & A7 & _).
  change (queue (set_queue [] (commit_once x))) with (@nil Update) in A7.
  rewrite settle_done by exact A7.
  rewrite A2, A4, A5. cbn [view set_queue]. rewrite V. auto.
Qed.

(** The setter calls of one correct letter click whose successor is [q]. *)
Definition click_block (q : Phase) : list Update :=
  [SetAnnouncement "Correct"; SetPhase q; SetTypedBuffer ""].

Lemma click_blocks_plain (q : Phase) (n : nat) :
  forallb plain (List.concat (repeat (click_block q) n)) = true.
Proof. induction n as [|n IH]; [reflexivity|]. cbn [repeat List.concat]. exact IH. Qed.

Lemma click_blocks_view (q : Phase) (n : nat) :
  forall v,
    let v' := fold_left (fun v u => step_view u v) (List.concat (repeat (click_block q) (S n))) v in
    phase v' = q /\ typedBuffer v' = "" /\ wordIndex v' = wordIndex v.
Proof.
  induction n as [|n IH]; intro v.
  - cbv zeta. cbn. auto.
  - cbv zeta. change (repeat (click_block q) (S (S n)))
      with (click_block q :: repeat (click_block q) (S n)).
    cbn [List.concat]. rewrite fold_left_app.
    destruct (IH (fold_left (fun v u => step_view u v) (click_block q) v)) as (A & B & C).
    cbv zeta in A, B, C. rewrite A, B, C. auto.
Qed.

(** A drain pass in ClickLetter(i), run by the [processBuffer] of a render
    with that phase: each entry it consumes calls the setters of one correct
    click, and it consumes one if the expected letter is in the buffer and
    fresh. *)
Lemma processBuffer_click (i : nat) (q : Phase) (e : string) (fuel : nat) :
  i <= 2 -> successor (click_letter i) = Some q -> truthy (Some e) = true ->
  forall x x',
    processBuffer fuel (click_letter i) x = Some x' ->
    phaseRef (refs x) = click_letter i ->
    getExpectedLetter x = Some e ->
    exists n,
      queue x' = (queue x ++ List.concat (repeat (click_block q) n))%list
      /\ (find_key e (filter (fresh (now x)) (keyBufferRef (refs x))) <> None -> 1 <= n).
Proof.
  intros Hi Hq He. induction fuel as [|f IH]; intros x x' H Hp Hx; [discriminate|].
  cbn [processBuffer] in H.
  change (getExpectedLetter (pruneBuffer x)) with (getExpectedLetter x) in H.
  change (phaseRef (refs (pruneBuffer x))) with (phaseRef (refs x)) in H.
  change (keyBufferRef (refs (pruneBuffer x)))
    with (filter (fresh (now x)) (keyBufferRef (refs x))) in H.
  rewrite Hx, He, Hp in H. cbn [negb] in H.
  destruct (find_key e (filter (fresh (now x)) (keyBufferRef (refs x)))) as [j|] eqn:F.
  - match type of H with processBuffer f _ ?z = _ =>
      destruct (IH z x' H) as (n & Q & _)
    end.
    + destruct i as [|[|[|i]]]; try lia; exact Hp.
    + rewrite <- Hx. apply getExpectedLetter_ext;
        destruct i as [|[|[|i]]]; try lia; reflexivity.
    + exists (S n). split; [|intros _; lia].
      rewrite Q. cbn [repeat List.concat]. rewrite app_assoc. f_equal.
      destruct i as [|[|[|i]]]; [| | |lia]; cbn in Hq; injection Hq as <-;
        cbn; rewrite <- !app_assoc; reflexivity.
  - injection H as <-. exists 0. split; [cbn; rewrite app_nil_r; reflexivity|].
    intro X. contradiction.
Qed.

Lemma find_key_some (e : string) (b : list KeyEvent) (ev : KeyEvent) :
  In ev b -> key ev = e -> find_key e b <> None.
Proof. intros H K N. exact (find_key_none e b N ev H K). Qed.

(** X26. Type-ahead keys follow the order.  In a reachable ClickLetter(i)
    state whose expected letter waits in the buffer, pressed early and less
    than 3000 ms ago, the drain timer, when it fires, consumes the letter
    and the phase becomes the successor of ClickLetter(i) (ClickLetter(1),
    BlendPrefix(2), BlendPrefix(3)), with the typed buffer empty and the
    word the same. *)
Theorem buffered_letter_follows_order (s : State) (tm : Timer) (i : nat) (ev : KeyEvent) :
  reachable s ->
  phase (view s) = click_letter i ->
  In tm (timers s) -> is_drain (cb tm) = true ->
  In ev (keyBufferRef (refs s)) -> fresh (now s) ev = true ->
  getExpectedLetter s = Some (key ev) ->
  successor (click_letter i) = Some (phase (view (fire tm s)))
  /\ typedBuffer (view (fire tm s)) = ""
  /\ wordIndex (view (fire tm s)) = wordIndex (view s).
Proof.
  intros R Hp Htm Hd Hev Hf He.
  destruct (synced_reachable s R) as [Q Sy].
  destruct (synced_fields s Sy) as (S1 & _ & _ & S4).
  destruct (wf_reachable s R) as ([A B] & _). rewrite Hp in A. cbn [wf_phase] in A.
  destruct (tidy_reachable s R) as (_ & _ & _ & C).
  destruct (cb tm) as [| |v|k|k|p] eqn:Ecb; try discriminate Hd.
  pose proof (C tm p Htm Ecb) as Ep. rewrite Hp in Ep. subst p.
  destruct (letters_of_word (view s) i B A) as (e & E1 & E2 & _).
  assert (Ee : key ev = e).
  { unfold getExpectedLetter in He. rewrite S1, Hp, S4, E1 in He. injection He as <-.
    reflexivity. }
  rewrite Ee in He.
  assert (Hq : exists q, successor (click_letter i) = Some q).
  { destruct i as [|[|[|i]]]; [| | |lia]; eexists; reflexivity. }
  destruct Hq as (q & Hq).
  unfold fire. rewrite Ecb. cbn [run_callback].
  set (x0 := clearTimeout (tid tm) s).
  destruct (processBuffer_fuel (S (List.length (keyBufferRef (refs x0)))) (click_letter i) x0)
    as (x' & Px & _); [lia|].
  assert (Dx : drain (click_letter i) x0 = x') by (unfold drain; rewrite Px; reflexivity).
  rewrite Dx.
  destruct (processBuffer_click i q e _ A Hq E2 x0 x' Px) as (n & Qn & Hn).
  { exact (eq_trans eq_refl (eq_trans S1 Hp)). }
  { exact He. }
  assert (N1 : 1 <= n).
  { apply Hn. apply (find_key_some e _ ev); [|exact Ee].
    apply filter_In. split; [exact Hev|exact Hf]. }
  change (queue x0) with (queue s) in Qn. rewrite Q in Qn. cbn [app] in Qn.
  destruct n as [|n]; [lia|].
  pose proof (view_processBuffer _ _ _ _ Px) as Vx. change (view x0) with (view s) in Vx.
  destruct (commit_shows_render x') as (C1 & C2 & C3).
  assert (Rx : view (render 25 x')
               = fold_left (fun v u => step_view u v)
                           (List.concat (repeat (click_block q) (S n))) (view s)).
  { rewrite render_first_pass by (rewrite Qn; discriminate).
    rewrite render_done.
    - unfold first_pass. rewrite view_fold_updates, Qn. cbn [view set_queue].
      rewrite Vx. reflexivity.
    - apply first_pass_plain_queue. rewrite Qn. apply click_blocks_plain. }
  destruct (click_blocks_view q n (view s)) as (V1 & V2 & V3). cbv zeta in V1, V2, V3.
  rewrite C1, C2, C3, Rx, V1, V2, V3. auto.
Qed.

Definition early_o_then_d : option State := run [Key "o"; Key "d"] (mount 0).

Lemma buffered_letter_follows_order_witness :
  exists s tm,
    early_o_then_d = Some s
    /\ phase (view s) = click_letter 1
    /\ earliest (timers s) = Some tm
    /\ keyBufferRef (refs s) = [mkKeyEvent "O" 0]
    /\ phase (view (fire tm s)) = blend_prefix 2.
Proof.
  eexists. eexists. split; [vm_compute; reflexivity|].
  split; [reflexivity|]. split; [vm_compute; reflexivity|]. split; [reflexivity|].
  match goal with |- phase (view (fire ?tm ?s)) = _ =>
    assert (R : reachable s) by (exists 0, [Key "o"; Key "d"]; vm_compute; reflexivity);
    assert (Htm : In tm (timers s)) by (apply earliest_In; vm_compute; reflexivity);
    destruct (buffered_letter_follows_order s tm 1 (mkKeyEvent "O" 0) R eq_refl
                Htm eq_refl (or_introl eq_refl) eq_refl eq_refl)
      as (H & _)
  end.
  exact (eq_sym (f_equal (fun o => match o with Some p => p | None => blend_prefix 2 end) H)).
Defined.

(** ** The strict component *)

Lemma strict_press_word (v : Strict.View) (k : string) :
  Strict.wordIndex (Strict.press v k) = Strict.wordIndex v
  /\ Strict.blendHighlightStep (Strict.press v k) = Strict.blendHighlightStep v.
Proof.
  unfold Strict.press, Strict.onKey. cbv zeta.
  destruct (negb (includes LETTERS (toUpperCase k))); [split; reflexivity|].
  destruct (Strict.phase v) as [i|j|j] eqn:Hp; [| split; reflexivity |].
  - unfold Strict.handleLetterClick. rewrite Hp. cbv zeta.
    destruct (negb (same_letter _ _)); [split; reflexivity|].
    destruct i as [|[|[|i]]]; split; reflexivity.
  - unfold Strict.handleType. rewrite Hp. cbv zeta.
    destruct (negb (prefix _ _)); [split; reflexivity|].
    destruct (_ =? _)%string; [|split; reflexivity].
    destruct j as [|[|[|[|j]]]]; split; reflexivity.
Qed.

(** What a key does in TypePrefix(k). *)
Lemma strict_press_type (v : Strict.View) (key : string) (k : nat) :
  Strict.phase v = type_prefix k ->
  includes LETTERS (toUpperCase key) = true ->
  let next := toUpperCase (Strict.typedBuffer v ++ toUpperCase key) in
  Strict.press v key
  = if negb (prefix next (Strict.target k v)) then v
    else if (next =? Strict.target k v)%string && (k =? 2)
         then Strict.mkView (Strict.wordIndex v) (click_letter 2) "" (Strict.blendHighlightStep v)
         else Strict.mkView (Strict.wordIndex v) (type_prefix k) next
                            (Strict.blendHighlightStep v).
Proof.
  intros Hp Hl. cbv zeta.
  unfold Strict.press, Strict.onKey. cbv zeta. rewrite Hl, Hp. cbn [negb].
  unfold Strict.handleType. rewrite Hp. cbv zeta. fold (Strict.target k v).
  destruct (negb (prefix _ _)); [reflexivity|].
  destruct (_ =? _)%string; cbn [andb].
  - destruct (k =? 2) eqn:E2; [reflexivity|].
    destruct (k =? 3); cbn; rewrite Hp; reflexivity.
  - cbn. rewrite Hp. reflexivity.
Qed.

Lemma prefix_refl (x : string) : prefix x x = true.
Proof. induction x as [|c r IH]; [reflexivity|]. cbn. destruct (ascii_dec c c); [exact IH|contradiction]. Qed.

Lemma strict_target_word (v v' : Strict.View) (k : nat) :
  Strict.wordIndex v' = Strict.wordIndex v -> Strict.target k v' = Strict.target k v.
Proof. intro H. unfold Strict.target, Strict.letters, Strict.word. rewrite H. reflexivity. Qed.

Definition strict_next (p : Phase) : Phase :=
  match p with
  | click_letter 0 => click_letter 1
  | click_letter 1 => blend_prefix 2
  | click_letter 2 => blend_prefix 3
  | _ => p
  end.

(** What a key does in ClickLetter(i). *)
Lemma strict_press_click (v : Strict.View) (key : string) (i : nat) :
  Strict.phase v = click_letter i ->
  Strict.press v key = v
  \/ Strict.press v key
     = Strict.mkView (Strict.wordIndex v) (strict_next (click_letter i)) ""
                     (Strict.blendHighlightStep v).
Proof.
  intro Hp. unfold Strict.press, Strict.onKey. cbv zeta. rewrite Hp.
  destruct (negb (includes LETTERS (toUpperCase key))); [left; reflexivity|].
  unfold Strict.handleLetterClick. rewrite Hp. cbv zeta.
  destruct (negb (same_letter _ _)); [left; reflexivity|].
  destruct i as [|[|[|i]]]; [right; reflexivity ..|left; reflexivity].
Qed.

Definition is_type (p : Phase) : bool :=
  match p with type_prefix _ => true | _ => false end.

(** While no timer fires: the typed buffer holds a prefix of the target, or
    the prefix is done, the typing phase is left and the buffer is empty. *)
Definition strict_typing (k : nat) (v0 v : Strict.View) : Prop :=
  Strict.wordIndex v = Strict.wordIndex v0
  /\ ((Strict.phase v = type_prefix k
       /\ prefix (Strict.typedBuffer v) (Strict.target k v0) = true)
      \/ (is_type (Strict.phase v) = false /\ Strict.typedBuffer v = "")).

Lemma strict_typing_press (k : nat) (v0 v : Strict.View) (key : string) :
  strict_typing k v0 v -> strict_typing k v0 (Strict.press v key).
Proof.
  intros [W H]. destruct (strict_press_word v key) as [W' _].
  split; [congruence|].
  destruct H as [[Hp Hpre]|[Hn Hb]].
  - destruct (includes LETTERS (toUpperCase key)) eqn:Hl.
    + rewrite (strict_press_type v key k Hp Hl). cbv zeta.
      rewrite (strict_target_word v0 v k W).
      destruct (negb (prefix _ _)) eqn:E; [left; split; assumption|].
      apply negb_false_iff in E.
      destruct (_ && _); [right; split; reflexivity|left; split; [reflexivity|exact E]].
    + unfold Strict.press, Strict.onKey. cbv zeta. rewrite Hl. cbn.
      left. split; assumption.
  - right. destruct (Strict.phase v) as [i|j|j] eqn:Hp; [| |discriminate].
    + destruct (strict_press_click v key i Hp) as [E|E]; rewrite E.
      * rewrite Hp. split; [reflexivity|exact Hb].
      * split; [|reflexivity]. destruct i as [|[|[|i]]]; reflexivity.
    + unfold Strict.press, Strict.onKey. cbv zeta. rewrite Hp.
      destruct (negb _); cbn; rewrite Hp; split; (reflexivity || exact Hb).
Qed.

(** X12. In the strict component the typed buffer never holds a wrong
    letter: from TypePrefix(k) with a prefix of the target typed, after any
    keys (and no timer) the typed buffer is still a prefix of the target. *)
Theorem strict_typed_buffer_is_prefix (k : nat) (v : Strict.View) (ks : list string) :
  Strict.phase v = type_prefix k ->
  prefix (Strict.typedBuffer v) (Strict.target k v) = true ->
  prefix (Strict.typedBuffer (Strict.presses ks v)) (Strict.target k v) = true
  /\ Strict.wordIndex (Strict.presses ks v) = Strict.wordIndex v.
Proof.
  intros Hp Hpre.
  assert (H : strict_typing k v (Strict.presses ks v)).
  { unfold Strict.presses.
    assert (G : strict_typing k v v) by (split; [reflexivity|left; split; assumption]).
    revert G. generalize v at 2 4. induction ks as [|key r IH]; intros x G; [exact G|].
    cbn [fold_left]. apply IH, strict_typing_press, G. }
  destruct H as [W [[_ H]|[_ H]]]; (split; [|exact W]); [exact H|].
  rewrite H. destruct (Strict.target k v); reflexivity.
Qed.

Lemma strict_typed_buffer_is_prefix_witness :
  let v := Strict.mkView 0 (type_prefix 3) "D" 4 in
  prefix (Strict.typedBuffer (Strict.presses ["x"; "o"; "d"; "G"] v)) "DOG" = true
  /\ Strict.typedBuffer (Strict.presses ["x"; "o"; "d"; "G"] v) = "DOG".
Proof.
  intro v. split; [|reflexivity].
  exact (proj1 (strict_typed_buffer_is_prefix 3 v ["x"; "o"; "d"; "G"] eq_refl eq_refl)).
Defined.

Lemma strict_onKey_upper (v : Strict.View) (key : string) :
  Strict.onKey v key = Strict.onKey v (toUpperCase key).
Proof. unfold Strict.onKey. rewrite toUpperCase_idem. reflexivity. Qed.

Lemma strict_press_upper (v : Strict.View) (key : string) :
  Strict.press v key = Strict.press v (toUpperCase key).
Proof. unfold Strict.press. rewrite strict_onKey_upper. reflexivity. Qed.

Lemma strict_presses_upper (ks : list string) :
  forall v, Strict.presses ks v = Strict.presses (map toUpperCase ks) v.
Proof.
  unfold Strict.presses. induction ks as [|key r IH]; intro v; [reflexivity|].
  cbn [fold_left map]. rewrite IH, strict_press_upper. reflexivity.
Qed.

(** X13. In the strict component, the letters of the target prefix typed in
    order (capital or not) from TypePrefix(k) with nothing typed: for k = 2
    the last key leaves ClickLetter(2) with the typed buffer cleared; for
    k = 3 it leaves the whole word typed, still in TypePrefix(3), asks for
    [resetForNext] 350 ms later, and that call leaves the next word at
    ClickLetter(0). *)
Theorem strict_types_prefix_in_order (v : Strict.View) (k : nat) (ks : list string) :
  Strict.wordIndex v < List.length WORDS ->
  Strict.phase v = type_prefix k ->
  Strict.typedBuffer v = "" ->
  map toUpperCase ks = slice0 k (Strict.letters v) ->
  (k = 2 ->
     Strict.presses ks v
     = Strict.mkView (Strict.wordIndex v) (click_letter 2) "" (Strict.blendHighlightStep v))
  /\ (k = 3 ->
        Strict.presses ks v
        = Strict.mkView (Strict.wordIndex v) (type_prefix 3) (Strict.word v)
                        (Strict.blendHighlightStep v)
        /\ In (Strict.ResetAfter 350)
              (Strict.onKey (Strict.presses (removelast ks) v) (last ks ""))
        /\ Strict.rendered Strict.resetForNext (Strict.presses ks v)
           = Strict.mkView ((Strict.wordIndex v + 1) mod List.length WORDS)
                           (click_letter 0) "" 0).
Proof.
  intros B Hp Hb Hk. destruct v as [wi p tb st]. cbn in B, Hp, Hb. subst p tb.
  cbn [Strict.wordIndex Strict.blendHighlightStep].
  split; intros ->.
  - rewrite strict_presses_upper, Hk.
    destruct wi as [|[|n]]; [vm_compute; reflexivity|vm_compute; reflexivity|lia].
  - assert (L : List.length ks = 3).
    { rewrite <- (length_map toUpperCase), Hk.
      destruct wi as [|[|n]]; [reflexivity|reflexivity|lia]. }
    destruct ks as [|a [|b [|c [|d r]]]]; try discriminate L.
    cbn [removelast last].
    rewrite (strict_onKey_upper _ c).
    rewrite (strict_presses_upper [a; b; c]), (strict_presses_upper [a; b]).
    cbn [map] in Hk |- *.
    destruct wi as [|[|n]]; [| |lia];
      cbv [slice0 firstn Strict.letters Strict.word Strict.wordIndex WORDS nth split_chars]
        in Hk;
      injection Hk as -> -> ->;
      (split; [vm_compute; reflexivity|]); (split; [|vm_compute; reflexivity]);
      vm_compute; auto.
Qed.

Lemma strict_types_prefix_in_order_witness :
  let v := Strict.mkView 1 (type_prefix 3) "" 4 in
  Strict.presses ["c"; "A"; "t"] v = Strict.mkView 1 (type_prefix 3) "CAT" 4
  /\ In (Strict.ResetAfter 350) (Strict.onKey (Strict.presses ["c"; "A"] v) "t")
  /\ Strict.rendered Strict.resetForNext (Strict.presses ["c"; "A"; "t"] v)
     = Strict.mkView 0 (click_letter 0) "" 0.
Proof.
  intro v.
  exact (proj2 (strict_types_prefix_in_order v 3 ["c"; "A"; "t"]
                  ltac:(cbn; lia) eq_refl eq_refl eq_refl) eq_refl).
Defined.

(** X14. In the strict component a key in ClickLetter(i) either is the
    letter at the click index, and the phase moves to its successor
    (ClickLetter(1), BlendPrefix(2), BlendPrefix(3)) with the success sound,
    or it is another letter, and nothing is set: the failure sound plays and
    the letter is said again. *)
Theorem strict_click_advances (v : Strict.View) (i : nat) (key need : string) :
  Strict.phase v = click_letter i ->
  i <= 2 ->
  nth_error (Strict.letters v) i = Some need ->
  includes LETTERS (toUpperCase key) = true ->
  (toUpperCase key = need ->
     Strict.press v key
     = Strict.mkView (Strict.wordIndex v) (strict_next (click_letter i)) ""
                     (Strict.blendHighlightStep v)
     /\ Strict.sounds (Strict.onKey v key) = [Strict.PlayFeedback Strict.success])
  /\ (toUpperCase key <> need ->
        Strict.onKey v key
        = [Strict.PlayFeedback Strict.failure; Strict.PlayLetterSound (Some need)]
        /\ Strict.press v key = v).
Proof.
  intros Hp Hi Hn Hl.
  unfold Strict.press, Strict.onKey. cbv zeta. rewrite Hl, Hp. cbn [negb].
  unfold Strict.handleLetterClick. rewrite Hp, Hn. cbv zeta. cbn [same_letter].
  split; intro E.
  - apply String.eqb_eq in E. rewrite E. cbn [negb].
    destruct i as [|[|[|i]]]; [| | |lia]; split; reflexivity.
  - apply String.eqb_neq in E. rewrite E. cbn [negb]. split; reflexivity.
Qed.

Lemma strict_click_advances_witness :
  let v := Strict.mkView 0 (click_letter 1) "" 0 in
  Strict.press v "o" = Strict.mkView 0 (blend_prefix 2) "" 0
  /\ Strict.onKey v "g"
     = [Strict.PlayFeedback Strict.failure; Strict.PlayLetterSound (Some "O")].
Proof.
  intro v. split.
  - exact (proj1 (proj1 (strict_click_advances v 1 "o" "O" eq_refl ltac:(lia) eq_refl eq_refl)
                   eq_refl)).
  - exact (proj1 (proj2 (strict_click_advances v 1 "g" "O" eq_refl ltac:(lia) eq_refl eq_refl)
                   ltac:(discriminate))).
Defined.

(** ** The delayed component *)

Lemma delayed_onKey_upper (v : Delayed.View) (key : string) :
  Delayed.onKey v key = Delayed.onKey v (toUpperCase key).
Proof. unfold Delayed.onKey. rewrite toUpperCase_idem. reflexivity. Qed.

Lemma delayed_press_and_wait_upper (v : Delayed.View) (key : string) :
  Delayed.press_and_wait v key = Delayed.press_and_wait v (toUpperCase key).
Proof.
  unfold Delayed.press_and_wait, Delayed.press. rewrite delayed_onKey_upper. reflexivity.
Qed.

Lemma delayed_fold_upper (ks : list string) :
  forall v, fold_left Delayed.press_and_wait ks v
            = fold_left Delayed.press_and_wait (map toUpperCase ks) v.
Proof.
  induction ks as [|key r IH]; intro v; [reflexivity|].
  cbn [fold_left map]. rewrite IH, delayed_press_and_wait_upper. reflexivity.
Qed.

(** X21. In the delayed component, the letters of the target prefix typed
    in order (capital or not) from TypePrefix(k) with nothing typed, each key
    pressed after the timers of the one before have fired: before the last
    1500 ms callback the typed buffer is the whole prefix, and after it the
    phase is ClickLetter(2) for k = 2 and ClickLetter(0) of the next word for
    k = 3, with typed buffer, typing index and status line reset and the
    image hidden. *)
Theorem delayed_types_prefix_in_order (v : Delayed.View) (k : nat) (ks : list string) :
  Delayed.wordIndex v < List.length WORDS ->
  Delayed.phase v = type_prefix k ->
  k = 2 \/ k = 3 ->
  Delayed.typedBuffer v = "" ->
  Delayed.typingCurrentIndex v = 0 ->
  map toUpperCase ks = slice0 k (Delayed.letters v) ->
  let before := fold_left Delayed.press_and_wait (removelast ks) v in
  let final := fold_left Delayed.press_and_wait ks v in
  Delayed.typedBuffer (Delayed.press before (last ks "")) = join (slice0 k (Delayed.letters v))
  /\ Delayed.phase (Delayed.press before (last ks "")) = type_prefix k
  /\ final
     = if k =? 2
       then Delayed.mkView (Delayed.wordIndex v) (click_letter 2) ""
                           (Delayed.blendHighlightStep v) 0 "" false
       else Delayed.mkView ((Delayed.wordIndex v + 1) mod List.length WORDS)
                           (click_letter 0) "" 0 0 "" false.
Proof.
  intros B Hp Hk Hb Hi Hks. destruct v as [wi p tb st idx an sh].
  cbn in B, Hp, Hb, Hi. subst p tb idx.
  cbn [Delayed.wordIndex Delayed.blendHighlightStep].
  assert (L : List.length ks = k).
  { rewrite <- (length_map toUpperCase), Hks.
    destruct Hk as [-> | ->]; (destruct wi as [|[|n]]; [reflexivity|reflexivity|lia]). }
  cbv zeta.
  destruct Hk as [-> | ->].
  - destruct ks as [|a [|b [|c r]]]; try discriminate L.
    cbn [removelast last].
    unfold Delayed.press. rewrite (delayed_onKey_upper _ b).
    rewrite (delayed_fold_upper [a; b]), (delayed_fold_upper [a]).
    cbn [map] in Hks |- *.
    destruct wi as [|[|n]]; [| |lia];
      cbv [slice0 firstn Delayed.letters Delayed.word Delayed.wordIndex WORDS nth split_chars]
        in Hks;
      injection Hks as -> ->; repeat split; vm_compute; reflexivity.
  - destruct ks as [|a [|b [|c [|d r]]]]; try discriminate L.
    cbn [removelast last].
    unfold Delayed.press. rewrite (delayed_onKey_upper _ c).
    rewrite (delayed_fold_upper [a; b; c]), (delayed_fold_upper [a; b]).
    cbn [map] in Hks |- *.
    destruct wi as [|[|n]]; [| |lia];
      cbv [slice0 firstn Delayed.letters Delayed.word Delayed.wordIndex WORDS nth split_chars]
        in Hks;
      injection Hks as -> -> ->; repeat split; vm_compute; reflexivity.
Qed.

Lemma delayed_types_prefix_in_order_witness :
  let v := Delayed.mkView 0 (type_prefix 3) "" 4 0 "" true in
  Delayed.typedBuffer
    (Delayed.press (fold_left Delayed.press_and_wait ["d"; "O"] v) "g") = "DOG"
  /\ fold_left Delayed.press_and_wait ["d"; "O"; "g"] v
     = Delayed.mkView 1 (click_letter 0) "" 0 0 "" false.
Proof.
  intro v.
  destruct (delayed_types_prefix_in_order v 3 ["d"; "O"; "g"]
              ltac:(cbn; lia) eq_refl (or_intror eq_refl) eq_refl eq_refl eq_refl)
    as (A & _ & C).
  split; [exact A|exact C].
Defined.

(** X22. In the delayed component a key in TypePrefix(k) is answered at
    once and counted later.  A key that is not the expected letter changes
    the status line only.  The expected letter is appended to the typed
    buffer at once, with the typing index and the phase as they were until
    the 1500 ms callback runs; so the same key pressed again before that is
    accepted again and appended a second time, and both callbacks set the
    typing index to the same value. *)
Theorem delayed_key_counts_when_timer_fires (v : Delayed.View) (k : nat) (key e : string) :
  Delayed.phase v = type_prefix k ->
  includes LETTERS (toUpperCase key) = true ->
  char_at (toUpperCase (join (slice0 k (Delayed.letters v)))) (Delayed.typingCurrentIndex v)
  = Some e ->
  let idx := Delayed.typingCurrentIndex v in
  let typed := Delayed.typedBuffer v in
  (toUpperCase key <> e ->
     Delayed.press v key
     = Delayed.mkView (Delayed.wordIndex v) (type_prefix k) typed
                      (Delayed.blendHighlightStep v) idx "Try again" (Delayed.showImage v)
     /\ Delayed.timeouts (Delayed.onKey v key) = [(Delayed.ClearAnnouncement, 1000)])
  /\ (toUpperCase key = e ->
        Delayed.press v key
        = Delayed.mkView (Delayed.wordIndex v) (type_prefix k)
                         (toUpperCase (typed ++ toUpperCase key))
                         (Delayed.blendHighlightStep v) idx "Correct" (Delayed.showImage v)
        /\ Delayed.timeouts (Delayed.onKey v key)
           = [(Delayed.ClearAnnouncement, 1000); (Delayed.AdvanceType idx k, 1500)]
        /\ Delayed.typedBuffer (Delayed.press (Delayed.press v key) key)
           = toUpperCase (toUpperCase (typed ++ toUpperCase key) ++ toUpperCase key)
        /\ Delayed.timeouts (Delayed.onKey (Delayed.press v key) key)
           = [(Delayed.ClearAnnouncement, 1000); (Delayed.AdvanceType idx k, 1500)]).
Proof.
  intros Hp Hl He idx typed. subst idx typed.
  assert (P : forall x,
             Delayed.phase x = type_prefix k ->
             Delayed.wordIndex x = Delayed.wordIndex v ->
             Delayed.typingCurrentIndex x = Delayed.typingCurrentIndex v ->
             Delayed.onKey x key
             = if negb (toUpperCase key =? e)%string
               then [Delayed.PlaySoundEffect wrong;
                     Delayed.Set_ (Delayed.SetAnnouncement "Try again");
                     Delayed.SetTimeout Delayed.ClearAnnouncement 1000]
               else [Delayed.PlaySoundEffect correct;
                     Delayed.Set_ (Delayed.SetAnnouncement "Correct");
                     Delayed.SetTimeout Delayed.ClearAnnouncement 1000;
                     Delayed.Set_ (Delayed.SetTypedBuffer
                                     (toUpperCase (Delayed.typedBuffer x ++ toUpperCase key)));
                     Delayed.SetTimeout
                       (Delayed.AdvanceType (Delayed.typingCurrentIndex v) k) 1500]).
  { intros x Hx Wx Ix. unfold Delayed.onKey. cbv zeta. rewrite Hl, Hx. cbn [negb].
    unfold Delayed.handleType. rewrite Hx. cbv zeta.
    unfold Delayed.letters, Delayed.word. rewrite Wx, Ix.
    unfold Delayed.letters, Delayed.word in He. rewrite He.
    rewrite toUpperCase_idem. cbn [same_letter]. reflexivity. }
  split; intro E.
  - unfold Delayed.press. rewrite (P v Hp eq_refl eq_refl).
    apply String.eqb_neq in E. rewrite E. cbn. rewrite Hp. split; reflexivity.
  - unfold Delayed.press at 1. rewrite (P v Hp eq_refl eq_refl).
    apply String.eqb_eq in E. rewrite E. cbn [negb].
    cbn [Delayed.rendered fold_left Delayed.apply_update Delayed.wordIndex Delayed.phase
         Delayed.typedBuffer Delayed.blendHighlightStep Delayed.typingCurrentIndex
         Delayed.announcement Delayed.showImage Delayed.timeouts].
    rewrite Hp. split; [reflexivity|]. split; [reflexivity|].
    set (v1 := Delayed.press v key).
    assert (V1 : v1 = Delayed.mkView (Delayed.wordIndex v) (type_prefix k)
                        (toUpperCase (Delayed.typedBuffer v ++ toUpperCase key))
                        (Delayed.blendHighlightStep v) (Delayed.typingCurrentIndex v)
                        "Correct" (Delayed.showImage v)).
    { subst v1. unfold Delayed.press. rewrite (P v Hp eq_refl eq_refl), E. cbn.
      rewrite Hp. reflexivity. }
    unfold Delayed.press.
    rewrite (P v1) by (rewrite V1; reflexivity). rewrite E. cbn [negb].
    rewrite V1. split; reflexivity.
Qed.

Lemma delayed_key_counts_when_timer_fires_witness :
  let v := Delayed.mkView 0 (type_prefix 2) "" 3 0 "" false in
  Delayed.typedBuffer (Delayed.press (Delayed.press v "d") "d") = "DD"
  /\ Delayed.typingCurrentIndex (Delayed.press (Delayed.press v "d") "d") = 0
  /\ Delayed.press v "o" = Delayed.mkView 0 (type_prefix 2) "" 3 0 "Try again" false.
Proof.
  intro v.
  destruct (delayed_key_counts_when_timer_fires v 2 "d" "D" eq_refl eq_refl eq_refl)
    as (_ & A).
  destruct (A eq_refl) as (_ & _ & A3 & _).
  destruct (delayed_key_counts_when_timer_fires v 2 "o" "D" eq_refl eq_refl eq_refl)
    as (B & _).
  destruct (B ltac:(discriminate)) as (B1 & _).
  split; [exact A3|]. split; [reflexivity|exact B1].
Defined.

(** ** The clip player *)

(** The element fails: by its [error] event or by its [play()]. *)
Definition clip_fails (i : nat) (e : Clip.Event) : Prop :=
  e = Clip.Error i \/ e = Clip.PlayRejected i.

Lemma clip_is_resolved_resolve (p : nat) (w : Clip.World) :
  Clip.is_resolved p (Clip.resolve p w) = true.
Proof.
  unfold Clip.is_resolved, Clip.resolve.
  destruct (existsb (Nat.eqb p) (Clip.resolved w)) eqn:E; [exact E|].
  cbn. rewrite Nat.eqb_refl. reflexivity.
Qed.

(** After [m] failure notifications of the m4a element [el1]: [m] elements
    for the mp3 file, and nothing resolved. *)
Lemma clip_run_failures (el1 el2 : Clip.Element) (w1 : Clip.World) (n : nat) (fs : list Clip.Event) :
  nth_error (Clip.elements w1) n = Some el1 ->
  Clip.rest el1 = ["mp3"] ->
  el2 = Clip.mkElement ("/audio/" ++ Clip.base el1 ++ ".mp3") (Clip.promise el1)
                       (Clip.base el1) [] ->
  (forall f, In f fs -> clip_fails n f) ->
  forall w', Clip.resolved w' = Clip.resolved w1 ->
    (exists m, Clip.elements w' = (Clip.elements w1 ++ repeat el2 m)%list) ->
    Clip.resolved (Clip.run fs w') = Clip.resolved w1
    /\ forall m, Clip.elements w' = (Clip.elements w1 ++ repeat el2 m)%list ->
         Clip.elements (Clip.run fs w')
         = (Clip.elements w1 ++ repeat el2 (m + List.length fs))%list.
Proof.
  intros N1 Hr E2. induction fs as [|f r IH]; intros F w' R (m0 & M0).
  - split; [exact R|]. intros m M. rewrite Nat.add_0_r. exact M.
  - assert (S1 : Clip.step f w'
                 = Clip.mkWorld (Clip.elements w' ++ [el2]) (Clip.resolved w')
                                (Clip.nextPromise w')).
    { assert (N : nth_error (Clip.elements w') n = Some el1).
      { rewrite M0, nth_error_app1; [exact N1|]. apply nth_error_Some. rewrite N1. discriminate. }
      destruct (F f (or_introl eq_refl)) as [-> | ->]; cbn [Clip.step]; rewrite N;
        unfold Clip.tryExt; rewrite Hr, E2; reflexivity. }
    assert (A : forall m, Clip.elements w' = (Clip.elements w1 ++ repeat el2 m)%list ->
                Clip.elements (Clip.step f w') = (Clip.elements w1 ++ repeat el2 (S m))%list).
    { intros m M. rewrite S1. cbn [Clip.elements]. rewrite M, <- app_assoc.
      f_equal. rewrite <- repeat_cons. reflexivity. }
    change (Clip.run (f :: r) w') with (Clip.run r (Clip.step f w')).
    destruct (IH (fun g H => F g (or_intror H)) (Clip.step f w')) as [R' M'].
    + rewrite S1. exact R.
    + exists (S m0). apply A, M0.
    + split; [exact R'|]. intros m M. rewrite (M' (S m) (A m M)).
      cbn [List.length]. f_equal. f_equal. lia.
Qed.

(** X24. [playClip] tries the m4a file, then the mp3 file, then gives up.
    The call makes one element, for /audio/<base>.m4a, and leaves the
    promise pending.  Each failure notification of that element makes one
    more element for /audio/<base>.mp3: the [error] event and the rejection
    of [play()] both call [tryExt(rest)], so a load that fails with both
    leaves two mp3 elements, each played.  The promise stays pending
    meanwhile; it is resolved when the m4a element or an mp3 element ends,
    and when an mp3 element fails. *)
Theorem playClip_tries_m4a_then_mp3 (b : string) (w : Clip.World) (fs : list Clip.Event) :
  (forall q, In q (Clip.resolved w) -> q < Clip.nextPromise w) ->
  let n := List.length (Clip.elements w) in
  let w1 := fst (Clip.playClip b w) in
  let p := snd (Clip.playClip b w) in
  let w2 := Clip.run fs w1 in
  (forall f, In f fs -> clip_fails n f) ->
  Clip.elements w1
  = (Clip.elements w ++ [Clip.mkElement ("/audio/" ++ b ++ ".m4a") p b ["mp3"]])%list
  /\ Clip.is_resolved p w1 = false
  /\ Clip.elements w2
     = (Clip.elements w1
        ++ repeat (Clip.mkElement ("/audio/" ++ b ++ ".mp3") p b []) (List.length fs))%list
  /\ Clip.is_resolved p w2 = false
  /\ Clip.is_resolved p (Clip.step (Clip.Ended n) w2) = true
  /\ forall j g, j < List.length fs ->
       g = Clip.Ended (S n + j) \/ clip_fails (S n + j) g ->
       Clip.is_resolved p (Clip.step g w2) = true.
Proof.
  intros K n w1 p w2 F.
  set (el1 := Clip.mkElement ("/audio/" ++ b ++ ".m4a") (Clip.nextPromise w) b ["mp3"]).
  set (el2 := Clip.mkElement ("/audio/" ++ b ++ ".mp3") (Clip.nextPromise w) b []).
  assert (E1 : w1 = Clip.mkWorld (Clip.elements w ++ [el1]) (Clip.resolved w)
                                 (S (Clip.nextPromise w))) by reflexivity.
  assert (Ep : p = Clip.nextPromise w) by reflexivity.
  clearbody w1 p. subst p.
  assert (Ee : Clip.elements w1 = (Clip.elements w ++ [el1])%list) by (rewrite E1; reflexivity).
  assert (R : Clip.is_resolved (Clip.nextPromise w) w1 = false).
  { unfold Clip.is_resolved. rewrite E1. cbn [Clip.resolved]. apply not_true_is_false. intro E.
    apply existsb_exists in E as (q & Hq & Eq). apply Nat.eqb_eq in Eq. subst q.
    specialize (K _ Hq). lia. }
  assert (N1 : nth_error (Clip.elements w1) n = Some el1).
  { rewrite Ee. subst n. rewrite nth_error_app2, Nat.sub_diag by lia. reflexivity. }
  assert (L1 : List.length (Clip.elements w1) = S n).
  { rewrite Ee, length_app. cbn [List.length]. subst n. lia. }
  destruct (clip_run_failures el1 el2 w1 n fs N1 eq_refl eq_refl F w1 eq_refl)
    as [R2 M2].
  { exists 0. cbn [repeat]. rewrite app_nil_r. reflexivity. }
  specialize (M2 0 ltac:(cbn [repeat]; rewrite app_nil_r; reflexivity)).
  cbn [Nat.add] in M2. fold w2 in R2, M2.
  assert (N1' : nth_error (Clip.elements w2) n = Some el1).
  { rewrite M2, nth_error_app1 by lia. exact N1. }
  split; [exact Ee|]. split; [exact R|]. split; [exact M2|]. split.
  { unfold Clip.is_resolved. rewrite R2. exact R. }
  split.
  { cbn [Clip.step]. rewrite N1'. apply clip_is_resolved_resolve. }
  intros j g Hj Hg.
  assert (N2 : nth_error (Clip.elements w2) (S n + j) = Some el2).
  { rewrite M2, nth_error_app2 by lia. rewrite L1.
    replace (S n + j - S n) with j by lia. apply nth_error_repeat, Hj. }
  destruct Hg as [-> | [-> | ->]]; cbn [Clip.step]; rewrite N2;
    apply clip_is_resolved_resolve.
Qed.

Lemma playClip_tries_m4a_then_mp3_witness :
  let w1 := fst (Clip.playClip "DO" (Clip.mkWorld [] [] 0)) in
  let w2 := Clip.run [Clip.Error 0; Clip.PlayRejected 0] w1 in
  Clip.elements w2
  = [Clip.mkElement "/audio/DO.m4a" 0 "DO" ["mp3"];
     Clip.mkElement "/audio/DO.mp3" 0 "DO" [];
     Clip.mkElement "/audio/DO.mp3" 0 "DO" []]
  /\ Clip.is_resolved 0 w2 = false
  /\ Clip.is_resolved 0 (Clip.step (Clip.Ended 2) w2) = true.
Proof.
  intros w1 w2.
  destruct (playClip_tries_m4a_then_mp3 "DO" (Clip.mkWorld [] [] 0)
              [Clip.Error 0; Clip.PlayRejected 0]
              ltac:(intros q [])
              ltac:(intros f [<-|[<-|[]]]; [left|right]; reflexivity))
    as (_ & _ & A & B & _ & C).
  split; [exact A|]. split; [exact B|].
  exact (C 1 (Clip.Ended 2) ltac:(cbn; lia) (or_introl eq_refl)).
Defined.

(** ** The letter-sound player *)

Lemma store_same (k : string) (v : Speech.Slot) (c : string -> Speech.Slot) :
  Speech.store k v c k = v.
Proof. unfold Speech.store. rewrite String.eqb_refl. reflexivity. Qed.


(** What a preloaded entry is. *)
Definition preloaded_slot (b : Speech.Browser) (base : string) : Speech.Slot :=
  match Speech.resolveUrl b base with
  | Some url => Speech.Element (Speech.mkAudio url true None)
  | None => Speech.Null
  end.

Lemma preload_one_spec (b : Speech.Browser) (c : string -> Speech.Slot) (base k : string) :
  Speech.preload_one b c base k = if (k =? base)%string then preloaded_slot b base else c k.
Proof.
  unfold Speech.preload_one, preloaded_slot, Speech.store.
  destruct (Speech.resolveUrl b base); reflexivity.
Qed.

Lemma preload_fold (b : Speech.Browser) (names : list string) :
  forall c k,
    fold_left (Speech.preload_one b) names c k
    = if existsb (String.eqb k) names then preloaded_slot b k else c k.
Proof.
  induction names as [|n r IH]; intros c k; [reflexivity|].
  cbn [fold_left existsb]. rewrite IH, preload_one_spec.
  destruct (String.eqb_spec k n) as [->|E]; cbn [orb].
  - destruct (existsb _ r); reflexivity.
  - reflexivity.
Qed.

Lemma preload_fills_cache_cases (b : Speech.Browser) (w : Speech.World) :
  Speech.didPreload w = false ->
  forall k, Speech.cache (Speech.preloadLetterSounds b w) k = Speech.cache w k
            \/ Speech.cache (Speech.preloadLetterSounds b w) k = preloaded_slot b k.
Proof.
  intros D k. unfold Speech.preloadLetterSounds. rewrite D. cbv zeta.
  cbn [Speech.cache Speech.set_cache Speech.set_didPreload]. rewrite !preload_fold.
  destruct (existsb _ ["success"; "failure"]); [right; reflexivity|].
  destruct (existsb _ _); [right|left]; reflexivity.
Qed.

(** X15. [preloadLetterSounds] fills the cache once: after the first call
    each of the 26 letters and "success" and "failure" has its element, for
    the m4a file where the browser can play m4a, else for the mp3 file
    where it can play mp3, else [null]; every other entry is as before; and
    a further call, whatever the browser answers then, changes nothing. *)
Theorem preload_fills_cache_once (b b' : Speech.Browser) (w : Speech.World) :
  Speech.didPreload w = false ->
  let w' := Speech.preloadLetterSounds b w in
  (forall k, In k Speech.preload_names ->
     Speech.cache w' k
     = if Speech.canPlay b Speech.m4a
       then Speech.Element (Speech.mkAudio ("/audio/" ++ k ++ ".m4a") true None)
       else if Speech.canPlay b Speech.mp3
            then Speech.Element (Speech.mkAudio ("/audio/" ++ k ++ ".mp3") true None)
            else Speech.Null)
  /\ (forall k, ~ In k Speech.preload_names -> Speech.cache w' k = Speech.cache w k)
  /\ Speech.preloadLetterSounds b' w' = w'.
Proof.
  intros D w'. subst w'. unfold Speech.preloadLetterSounds. rewrite D. cbv zeta.
  cbn [Speech.cache Speech.set_cache Speech.set_didPreload Speech.didPreload].
  assert (F : forall k,
             fold_left (Speech.preload_one b) ["success"; "failure"]
               (fold_left (Speech.preload_one b)
                  (split_chars "ABCDEFGHIJKLMNOPQRSTUVWXYZ") (Speech.cache w)) k
             = if existsb (String.eqb k) Speech.preload_names
               then preloaded_slot b k else Speech.cache w k).
  { intro k. rewrite !preload_fold. unfold Speech.preload_names. rewrite existsb_app.
    destruct (existsb (String.eqb k) ["success"; "failure"]); [rewrite orb_true_r|rewrite orb_false_r];
      reflexivity. }
  split; [|split; [|reflexivity]].
  - intros k Hin. rewrite F.
    replace (existsb (String.eqb k) Speech.preload_names) with true.
    + unfold preloaded_slot, Speech.resolveUrl.
      destruct (Speech.canPlay b Speech.m4a); [reflexivity|].
      destruct (Speech.canPlay b Speech.mp3); reflexivity.
    + symmetry. apply existsb_exists. exists k. split; [exact Hin|apply String.eqb_refl].
  - intros k Hin. rewrite F.
    replace (existsb (String.eqb k) Speech.preload_names) with false; [reflexivity|].
    symmetry. apply not_true_is_false. intro E. apply Hin.
    apply existsb_exists in E as (x & Hx & Ex). apply String.eqb_eq in Ex. subst x. exact Hx.
Qed.

Lemma preload_fills_cache_once_witness :
  let b := Speech.mkBrowser true
             (fun ty => if (ty =? "audio/mpeg")%string then "maybe" else "") true in
  Speech.cache (Speech.preloadLetterSounds b Speech.initial) "D"
  = Speech.Element (Speech.mkAudio "/audio/D.mp3" true None)
  /\ Speech.cache (Speech.preloadLetterSounds b Speech.initial) "d" = Speech.Absent.
Proof.
  intro b.
  destruct (preload_fills_cache_once b b Speech.initial eq_refl) as (A & B & _).
  split.
  - exact (A "D" ltac:(cbn; tauto)).
  - refine (B "d" _). cbn. intro H.
    repeat (destruct H as [H|H]; [discriminate H|]). exact H.
Defined.

(** The promises handed out so far are below [nextPromise]. *)
Definition promises_known (w : Speech.World) : Prop :=
  (forall q, In q (Speech.resolved w) -> q < Speech.nextPromise w)
  /\ (forall k el q, Speech.cache w k = Speech.Element el -> Speech.onended el = Some q ->
                     q < Speech.nextPromise w).

Lemma is_resolved_fresh (w : Speech.World) (p : nat) :
  promises_known w -> Speech.nextPromise w <= p -> existsb (Nat.eqb p) (Speech.resolved w) = false.
Proof.
  intros [K _] H. apply not_true_is_false. intro E.
  apply existsb_exists in E as (q & Hq & Eq). apply Nat.eqb_eq in Eq. subst q.
  specialize (K p Hq). lia.
Qed.

Lemma is_resolved_resolve (p : nat) (w : Speech.World) :
  Speech.is_resolved p (Speech.resolve p w) = true.
Proof.
  unfold Speech.is_resolved, Speech.resolve.
  destruct (existsb (Nat.eqb p) (Speech.resolved w)) eqn:E; [exact E|].
  cbn. rewrite Nat.eqb_refl. reflexivity.
Qed.

Lemma resolve_frame (p : nat) (w : Speech.World) :
  Speech.speaking (Speech.resolve p w) = Speech.speaking w
  /\ Speech.cache (Speech.resolve p w) = Speech.cache w
  /\ Speech.playing (Speech.resolve p w) = Speech.playing w.
Proof.
  unfold Speech.resolve. destruct (existsb _ _); repeat split.
Qed.

Lemma ttsLetter_frame (b : Speech.Browser) (L : string) (w : Speech.World) :
  Speech.resolved (Speech.ttsLetter b L w) = Speech.resolved w
  /\ Speech.cache (Speech.ttsLetter b L w) = Speech.cache w
  /\ Speech.playing (Speech.ttsLetter b L w) = Speech.playing w
  /\ Speech.speaking (Speech.ttsLetter b L w)
     = if Speech.hasSpeech b then [Speech.utterance L] else Speech.speaking w.
Proof. unfold Speech.ttsLetter. destruct (Speech.hasSpeech b); repeat split. Qed.

Definition has_element (w : Speech.World) (k : string) : bool :=
  match Speech.cache w k with Speech.Element _ => true | _ => false end.

(** X16. [playLetterSound] does not leave the caller waiting when the sound
    cannot play: when the cache has no element for the letter, when the
    element throws, or when the promise of [play()] rejects later, the
    returned promise is resolved and the letter is handed to speech
    synthesis (name and sound of [PHONICS]), if the browser has it; nothing
    else is queued there. *)
Theorem playLetterSound_falls_back_to_speech
  (b : Speech.Browser) (how : Speech.Attempt) (letter : string) (w : Speech.World) :
  promises_known w ->
  let L := toUpperCase letter in
  let w' := fst (Speech.playLetterSound b how letter w) in
  let p := snd (Speech.playLetterSound b how letter w) in
  let said (x : Speech.World) :=
    Speech.speaking x = if Speech.hasSpeech b then [Speech.utterance L] else Speech.speaking w in
  (has_element w L = false \/ how <> Speech.Started ->
     Speech.is_resolved p w' = true /\ said w')
  /\ (has_element w L = true -> how = Speech.Started ->
        Speech.is_resolved p w' = false
        /\ Speech.speaking w' = Speech.speaking w
        /\ let w'' := Speech.step b (Speech.PlayRejected p) w' in
           Speech.is_resolved p w'' = true /\ said w'').
Proof.
  intros K L w' p said. subst w' p said. unfold Speech.playLetterSound, has_element. cbv zeta.
  fold L. cbn [Speech.cache Speech.set_nextPromise].
  split.
  - intros H.
    assert (G : forall x,
               Speech.speaking x = Speech.speaking w ->
               Speech.is_resolved (Speech.nextPromise w)
                 (Speech.resolve (Speech.nextPromise w) (Speech.ttsLetter b L x)) = true
               /\ Speech.speaking (Speech.resolve (Speech.nextPromise w) (Speech.ttsLetter b L x))
                  = if Speech.hasSpeech b then [Speech.utterance L] else Speech.speaking w).
    { intros x Hx. split; [apply is_resolved_resolve|].
      rewrite (proj1 (resolve_frame _ _)).
      rewrite (proj2 (proj2 (proj2 (ttsLetter_frame b L x)))), Hx. reflexivity. }
    destruct (Speech.cache w L) as [| |el]; cbn [fst snd]; try (apply G; reflexivity).
    destruct how; cbn [fst snd]; try (apply G; reflexivity).
    destruct H as [H|H]; [discriminate H|contradiction].
  - intros H ->. destruct (Speech.cache w L) as [| |el] eqn:C; try discriminate H.
    cbn [fst snd]. split; [|split; [reflexivity|]].
    + unfold Speech.is_resolved. cbn. apply is_resolved_fresh; [exact K|lia].
    + cbv zeta. cbn [Speech.step Speech.playing Speech.set_playing find fst].
      rewrite Nat.eqb_refl. split; [apply is_resolved_resolve|].
      rewrite (proj1 (resolve_frame _ _)).
      rewrite (proj2 (proj2 (proj2 (ttsLetter_frame b L _)))). reflexivity.
Qed.

Lemma playLetterSound_falls_back_to_speech_witness :
  let b := Speech.mkBrowser false (fun _ => "") true in
  let w' := fst (Speech.playLetterSound b Speech.Started "d" Speech.initial) in
  Speech.is_resolved 0 w' = true
  /\ Speech.speaking w' = [Speech.mkUtterance "D, dee. duh" 90].
Proof.
  intros b w'.
  assert (K : promises_known Speech.initial) by (split; [intros q []|discriminate]).
  exact (proj1 (playLetterSound_falls_back_to_speech b Speech.Started "d" Speech.initial K)
               (or_introl eq_refl)).
Defined.

(** No element would resolve promise [p] when it ends. *)
Definition unhandled (p : nat) (w : Speech.World) : Prop :=
  forall k el, Speech.cache w k = Speech.Element el -> Speech.onended el <> Some p.

Lemma is_resolved_resolve_other (p q : nat) (w : Speech.World) :
  p <> q -> Speech.is_resolved p (Speech.resolve q w) = Speech.is_resolved p w.
Proof.
  intro H. unfold Speech.is_resolved, Speech.resolve.
  destruct (existsb (Nat.eqb q) (Speech.resolved w)); [reflexivity|].
  cbn. apply Nat.eqb_neq in H. rewrite H. reflexivity.
Qed.

Lemma step_keeps_pending (b : Speech.Browser) (e : Speech.Event) (p : nat) (w : Speech.World) :
  e <> Speech.PlayRejected p -> unhandled p w -> Speech.is_resolved p w = false ->
  unhandled p (Speech.step b e w) /\ Speech.is_resolved p (Speech.step b e w) = false.
Proof.
  intros He U R. destruct e as [q|q|k]; cbn [Speech.step].
  - destruct (find _ _) as [[q' L]|] eqn:F; [|split; assumption].
    apply find_some in F as [_ F]. cbn in F. apply Nat.eqb_eq in F. subst q'.
    assert (Hq : p <> q) by (intro E; apply He; rewrite E; reflexivity).
    split.
    + intros k el. rewrite (proj1 (proj2 (resolve_frame _ _))).
      rewrite (proj1 (proj2 (ttsLetter_frame _ _ _))). apply U.
    + rewrite (is_resolved_resolve_other _ _ _ Hq). unfold Speech.is_resolved.
      rewrite (proj1 (ttsLetter_frame _ _ _)). exact R.
  - split; assumption.
  - destruct (Speech.cache w k) as [| |el] eqn:C; try (split; assumption).
    destruct (Speech.onended el) as [q|] eqn:O; [|split; assumption].
    assert (Hq : p <> q) by (intro E; apply (U k el C); rewrite O, E; reflexivity).
    split.
    + intros k' el'. rewrite (proj1 (proj2 (resolve_frame _ _))). apply U.
    + rewrite (is_resolved_resolve_other _ _ _ Hq). exact R.
Qed.

Lemma run_keeps_pending (b : Speech.Browser) (p : nat) (es : list Speech.Event) :
  forall w, ~ In (Speech.PlayRejected p) es -> unhandled p w ->
            Speech.is_resolved p w = false ->
            Speech.is_resolved p (Speech.run b es w) = false.
Proof.
  unfold Speech.run. induction es as [|e r IH]; intros w Hn U R; [exact R|].
  cbn [fold_left].
  destruct (step_keeps_pending b e p w) as [U' R']; [|exact U|exact R|].
  - intro E. apply Hn. left. exact E.
  - apply IH; [|exact U'|exact R']. intro H. apply Hn. right. exact H.
Qed.

(** The state after a call whose [play()] has started. *)
Definition started (el : Speech.Audio) (L : string) (w : Speech.World) : Speech.World :=
  Speech.mkWorld
    (Speech.store L (Speech.Element (Speech.mkAudio (Speech.src el) (Speech.preloaded el)
                                       (Some (Speech.nextPromise w))))
                  (Speech.cache w))
    (Speech.didPreload w) (Speech.speaking w) (Speech.resolved w)
    (S (Speech.nextPromise w)) ((Speech.nextPromise w, L) :: Speech.playing w)
    (L :: Speech.asked w).

Lemma playLetterSound_started (b : Speech.Browser) (letter : string) (w : Speech.World)
      (el : Speech.Audio) :
  Speech.cache w (toUpperCase letter) = Speech.Element el ->
  Speech.playLetterSound b Speech.Started letter w
  = (started el (toUpperCase letter) w, Speech.nextPromise w).
Proof.
  intro C. unfold Speech.playLetterSound. cbv zeta.
  cbn [Speech.cache Speech.set_nextPromise]. rewrite C. reflexivity.
Qed.

(** X17. The promise of [playLetterSound] hangs on the [onended] slot of the
    cached element.  When playing starts, the [ended] event of the element
    resolves the promise, and nothing is said.  A second call for the same
    letter before that takes the slot over: [ended] then resolves the
    second promise, and the first one stays pending whatever the element
    does later, unless its own [play()] rejects. *)
Theorem playLetterSound_resolves_on_ended
  (b : Speech.Browser) (letter : string) (w : Speech.World) (es : list Speech.Event) :
  promises_known w ->
  let L := toUpperCase letter in
  has_element w L = true ->
  let w1 := fst (Speech.playLetterSound b Speech.Started letter w) in
  let p1 := snd (Speech.playLetterSound b Speech.Started letter w) in
  let w2 := fst (Speech.playLetterSound b Speech.Started letter w1) in
  let p2 := snd (Speech.playLetterSound b Speech.Started letter w1) in
  (Speech.is_resolved p1 (Speech.step b (Speech.Ended L) w1) = true
   /\ Speech.speaking (Speech.step b (Speech.Ended L) w1) = Speech.speaking w)
  /\ p2 <> p1
  /\ Speech.is_resolved p2 (Speech.step b (Speech.Ended L) w2) = true
  /\ (~ In (Speech.PlayRejected p1) es -> Speech.is_resolved p1 (Speech.run b es w2) = false).
Proof.
  intros K L H w1 p1 w2 p2. subst w1 p1 w2 p2.
  unfold has_element in H. destruct (Speech.cache w L) as [| |el] eqn:C; try discriminate H.
  rewrite (playLetterSound_started b letter w el C). cbn [fst snd]. fold L.
  set (w1 := started el L w).
  set (el1 := Speech.mkAudio (Speech.src el) (Speech.preloaded el)
                             (Some (Speech.nextPromise w))).
  assert (C1 : Speech.cache w1 L = Speech.Element el1) by apply store_same.
  assert (R1 : Speech.is_resolved (Speech.nextPromise w) w1 = false).
  { unfold Speech.is_resolved. cbn. apply is_resolved_fresh; [exact K|lia]. }
  rewrite (playLetterSound_started b letter w1 el1 C1). cbn [fst snd]. fold L.
  set (w2 := started el1 L w1).
  split.
  { cbn [Speech.step]. rewrite C1. cbn [Speech.onended el1].
    split; [apply is_resolved_resolve|]. rewrite (proj1 (resolve_frame _ _)). reflexivity. }
  assert (N1 : Speech.nextPromise w1 = S (Speech.nextPromise w)) by reflexivity.
  split; [rewrite N1; lia|].
  assert (C2 : forall k, Speech.cache w2 k
               = if (k =? L)%string
                 then Speech.Element (Speech.mkAudio (Speech.src el) (Speech.preloaded el)
                                        (Some (Speech.nextPromise w1)))
                 else Speech.cache w k).
  { intro k. subst w2 w1. cbn. unfold Speech.store.
    destruct (k =? L)%string; reflexivity. }
  split.
  { cbn [Speech.step]. rewrite C2, String.eqb_refl. cbn [Speech.onended].
    apply is_resolved_resolve. }
  intro Hn. apply run_keeps_pending; [exact Hn| |].
  - intros k el'. rewrite C2. destruct (String.eqb_spec k L) as [E|E].
    + intro X. injection X as <-. cbn [Speech.onended]. intro Y.
      injection Y as Y. unfold w1 in Y. cbn [started Speech.nextPromise] in Y. lia.
    + intros X Y. pose proof (proj2 K k el' _ X Y). lia.
  - unfold Speech.is_resolved. cbn. apply is_resolved_fresh; [exact K|lia].
Qed.

Lemma playLetterSound_resolves_on_ended_witness :
  let b := Speech.mkBrowser true (fun _ => "probably") true in
  let w := Speech.preloadLetterSounds b Speech.initial in
  let w2 := fst (Speech.playLetterSound b Speech.Started "d"
                   (fst (Speech.playLetterSound b Speech.Started "d" w))) in
  Speech.is_resolved 1 (Speech.step b (Speech.Ended "D") w2) = true
  /\ Speech.is_resolved 0
       (Speech.run b [Speech.PlayFulfilled 0; Speech.PlayFulfilled 1; Speech.Ended "D"] w2)
     = false.
Proof.
  intros b w w2.
  assert (K : promises_known w).
  { split; [intros q []|]. intros k el q C E.
    destruct (preload_fills_cache_cases b Speech.initial eq_refl k) as [X|X];
      fold w in X; rewrite C in X.
    - discriminate X.
    - unfold preloaded_slot in X. destruct (Speech.resolveUrl b k); [|discriminate X].
      injection X as ->. discriminate E. }
  destruct (playLetterSound_resolves_on_ended b "d" w
              [Speech.PlayFulfilled 0; Speech.PlayFulfilled 1; Speech.Ended "D"]
              K eq_refl) as (_ & _ & A & B).
  split; [exact A|]. apply B. cbn. intro H.
  repeat (destruct H as [H|H]; [discriminate H|]). exact H.
Defined.

(** ** The promise of [playLetterSound] *)











(** ** The deck *)

(** [Math.random] returns a double of [[0, 1)]: at least 0 and at most
    [1 - 2^-53], the double just below 1. *)
Definition max_random : Q := Qmake (Zpos two53 - 1) two53.

Definition unit_interval (random : nat -> Q) : Prop :=
  forall n, Qle (inject_Z 0) (random n) /\ Qle (random n) max_random.

(** The rounding of the product can reach the next integer, as it does in
    [Math.floor(0.8333333333333333 * 6)], which is 5. *)
Lemma pick_rounds_up :
  Shuffle.pick (Qmake 7505999378950826 two53) 5 = 5
  /\ Qfloor (Qmult (Qmake 7505999378950826 two53) (inject_Z 6)) = 4%Z.
Proof. split; vm_compute; reflexivity. Qed.

(** It never reaches [i + 1]: the index stays inside the part of the array
    still to shuffle. *)
Lemma pick_le (r : Q) (i : nat) :
  Qle (inject_Z 0) r -> Qle r max_random -> Shuffle.pick r i <= i.
Proof.
  intros H0 H1. unfold Shuffle.pick. cbv zeta.
  remember (Z.of_nat (i + 1)) as n eqn:En.
  assert (Hn : (1 <= n)%Z) by lia.
  set (x := Qmult r (inject_Z n)).
  assert (Hx : Qle x (Qmult max_random (inject_Z n))).
  { subst x. apply Qmult_le_compat_r; [exact H1|].
    change 0%Q with (inject_Z 0). rewrite <- Zle_Qle. lia. }
  assert (Hlt : Qlt (Qmult max_random (inject_Z n)) (inject_Z n)).
  { unfold Qlt, max_random, Qmult, inject_Z. cbn [Qnum Qden]. unfold two53. lia. }
  assert (Hc : (Qceiling x <= n)%Z).
  { rewrite <- (Qceiling_Z n). apply Qceiling_resp_le.
    apply Qlt_le_weak. eapply Qle_lt_trans; [exact Hx|exact Hlt]. }
  assert (Hf : (Qfloor x < n)%Z).
  { rewrite Zlt_Qlt. eapply Qle_lt_trans; [apply Qfloor_le|].
    eapply Qle_lt_trans; [exact Hx|exact Hlt]. }
  destruct (Qle_bool (Qminus (inject_Z (Qceiling x)) (half_gap (Qceiling x))) x) eqn:E;
    [|lia].
  apply Qle_bool_iff in E.
  assert (Hne : Qceiling x <> n).
  { intro Ec. rewrite Ec in E.
    pose proof (Qle_trans _ _ _ E Hx) as L. clear - L Hn.
    unfold half_gap in L. destruct (n <=? 1)%Z eqn:E1.
    - apply Z.leb_le in E1. assert (n = 1%Z) by lia. subst n.
      vm_compute in L. apply L. reflexivity.
    - apply Z.leb_gt in E1.
      pose proof (Z.log2_spec (n - 1) ltac:(lia)) as [S1 _].
      set (a := (2 ^ Z.log2 (n - 1))%Z) in *.
      unfold Qle, Qminus, Qplus, Qopp, max_random, Qmult, inject_Z in L.
      cbn [Qnum Qden] in L. unfold two53 in L. lia. }
  lia.
Qed.

Section SwapFacts.

Variable T : Type.
Implicit Types d l : list (option T).

Lemma write_app l1 (x : option T) l2 (k : nat) :
  Shuffle.write (List.length l1 + k) x (l1 ++ l2) = (l1 ++ Shuffle.write k x l2)%list.
Proof.
  induction l1 as [|y r IH]; [reflexivity|].
  cbn [List.length Nat.add app Shuffle.write]. rewrite IH. reflexivity.
Qed.

Lemma read_app l1 l2 (k : nat) :
  Shuffle.read (List.length l1 + k) (l1 ++ l2) = Shuffle.read k l2.
Proof.
  unfold Shuffle.read. rewrite nth_error_app2 by lia.
  replace (List.length l1 + k - List.length l1) with k by lia. reflexivity.
Qed.

Lemma split_at (i : nat) d :
  i < List.length d ->
  exists l1 x l2, d = (l1 ++ x :: l2)%list /\ List.length l1 = i.
Proof.
  intro H. destruct (nth_error d i) as [x|] eqn:E.
  - destruct (nth_error_split _ _ E) as (l1 & l2 & -> & L). exists l1, x, l2. auto.
  - apply nth_error_None in E. lia.
Qed.

Lemma read_at l1 (x : option T) l2 : Shuffle.read (List.length l1) (l1 ++ x :: l2) = x.
Proof. unfold Shuffle.read. rewrite nth_error_app2, Nat.sub_diag by lia. reflexivity. Qed.

Lemma write_at l1 (x v : option T) l2 :
  Shuffle.write (List.length l1) v (l1 ++ x :: l2) = (l1 ++ v :: l2)%list.
Proof.
  rewrite <- (Nat.add_0_r (List.length l1)), write_app. reflexivity.
Qed.

Lemma swap_perm (i j : nat) d :
  j <= i -> i < List.length d ->
  Permutation (Shuffle.swap i j d) d /\ List.length (Shuffle.swap i j d) = List.length d.
Proof.
  intros Hji Hi. unfold Shuffle.swap. cbv zeta.
  destruct (Nat.eq_dec j i) as [->|Hne].
  - destruct (split_at i d Hi) as (l1 & x & l2 & -> & <-).
    rewrite read_at, !write_at. split; reflexivity.
  - destruct (split_at j d ltac:(lia)) as (l1 & y & r & -> & <-).
    assert (Hr : i - List.length l1 - 1 < List.length r).
    { rewrite length_app in Hi. cbn [List.length] in Hi. lia. }
    destruct (split_at _ r Hr) as (l2 & x & l3 & -> & L2).
    assert (Ei : i = List.length (l1 ++ y :: l2)).
    { rewrite length_app. cbn [List.length]. lia. }
    rewrite (read_at l1 y (l2 ++ x :: l3)).
    replace (l1 ++ y :: l2 ++ x :: l3)%list with ((l1 ++ y :: l2) ++ x :: l3)%list
      by (rewrite <- app_assoc; reflexivity).
    rewrite Ei.
    rewrite (read_at (l1 ++ y :: l2) x l3), (write_at (l1 ++ y :: l2) x y l3).
    rewrite <- !app_assoc. cbn [app].
    rewrite (write_at l1 y x (l2 ++ y :: l3)).
    split.
    + apply Permutation_app_head.
      rewrite <- !Permutation_middle. apply perm_swap.
    + rewrite !length_app. cbn [List.length]. rewrite !length_app. reflexivity.
Qed.

End SwapFacts.

Section DeckFacts.

Variable T : Type.
Variable random : nat -> Q.
Hypothesis random_unit : unit_interval random.
Implicit Types d : list (option T).

Lemma shuffle_from_perm (i : nat) :
  forall s : Shuffle.State T, i < List.length (Shuffle.deck s) ->
    Permutation (Shuffle.deck (Shuffle.shuffle_from random i s)) (Shuffle.deck s)
    /\ Shuffle.calls (Shuffle.shuffle_from random i s) = Shuffle.calls s + i.
Proof.
  induction i as [|i IH]; intros s H; cbn [Shuffle.shuffle_from].
  - split; [reflexivity|lia].
  - cbv zeta.
    destruct (random_unit (Shuffle.calls s)) as [R0 R1].
    pose proof (pick_le _ (S i) R0 R1) as Hj.
    destruct (swap_perm T (S i) _ (Shuffle.deck s) Hj H) as [P L].
    destruct (IH (Shuffle.mkState
                    (Shuffle.swap (S i) (Shuffle.pick (random (Shuffle.calls s)) (S i))
                                  (Shuffle.deck s))
                    (S (Shuffle.calls s)))) as [P' C'].
    { cbn [Shuffle.deck]. rewrite L. lia. }
    cbn [Shuffle.deck Shuffle.calls] in P', C'.
    split; [exact (Permutation_trans P' P)|lia].
Qed.

Lemma shuffle_perm (s : Shuffle.State T) :
  Permutation (Shuffle.deck (Shuffle.shuffle random s)) (Shuffle.deck s).
Proof.
  unfold Shuffle.shuffle. destruct (Shuffle.deck s) as [|x r] eqn:E.
  - cbn. rewrite E. reflexivity.
  - rewrite <- E. apply shuffle_from_perm. rewrite E. cbn [List.length]. lia.
Qed.

Lemma refill_perm (items : list T) (s : Shuffle.State T) :
  Permutation (Shuffle.deck (Shuffle.refill random items s)) (map Some items).
Proof. unfold Shuffle.refill. apply (shuffle_perm (Shuffle.mkState _ _)). Qed.

(** Popping a deck that is not empty. *)
Lemma next_pop (items : list T) d (x : option T) (c : nat) :
  Shuffle.next random items (Shuffle.mkState (d ++ [x]) c) = (x, Shuffle.mkState d c).
Proof.
  unfold Shuffle.next. cbn [Shuffle.deck Shuffle.calls].
  rewrite length_app. cbn [List.length].
  replace (List.length d + 1 =? 0) with false by (symmetry; apply Nat.eqb_neq; lia).
  cbn [Shuffle.deck Shuffle.calls]. rewrite length_app. cbn [List.length].
  replace (List.length d + 1 - 1) with (List.length d) by lia.
  rewrite read_at, removelast_last. reflexivity.
Qed.

(** Dealing a whole deck gives its cards last to first and leaves it empty. *)
Lemma deal_all (items : list T) d :
  forall c, Shuffle.deal random items (List.length d) (Shuffle.mkState d c)
            = (rev d, Shuffle.mkState [] c).
Proof.
  induction d as [|x r IH] using rev_ind; intro c; [reflexivity|].
  rewrite length_app. cbn [List.length]. rewrite Nat.add_1_r.
  cbn [Shuffle.deal]. rewrite next_pop, IH, rev_app_distr. reflexivity.
Qed.

(** A round starts with a full shuffled deck (after the constructor) or
    with an empty one (after a round). *)
Definition round_start (items : list T) (s : Shuffle.State T) : Prop :=
  Shuffle.deck s = [] \/ Permutation (Shuffle.deck s) (map Some items).

Lemma deal_round (items : list T) (s : Shuffle.State T) :
  items <> [] -> round_start items s ->
  Permutation (fst (Shuffle.deal random items (List.length items) s)) (map Some items)
  /\ Shuffle.deck (snd (Shuffle.deal random items (List.length items) s)) = [].
Proof.
  intros Hne [E|P].
  - destruct items as [|a r] eqn:Ei; [contradiction|]. rewrite <- Ei in *.
    assert (Hl : List.length items = S (List.length r)) by (rewrite Ei; reflexivity).
    rewrite Hl. cbn [Shuffle.deal].
    pose proof (refill_perm items s) as P.
    set (s1 := Shuffle.refill random items s) in *.
    assert (L1 : List.length (Shuffle.deck s1) = S (List.length r)).
    { rewrite (Permutation_length P), length_map. exact Hl. }
    destruct s1 as [d1 c1] eqn:E1. cbn [Shuffle.deck] in P, L1.
    destruct (exists_last (l := d1)) as (d' & x & ->); [intro X; rewrite X in L1; discriminate|].
    assert (N : Shuffle.next random items s = (x, Shuffle.mkState d' c1)).
    { unfold Shuffle.next. rewrite E. cbn [List.length Nat.eqb]. fold s1. rewrite E1.
      cbn [Shuffle.deck Shuffle.calls]. rewrite length_app. cbn [List.length].
      replace (List.length d' + 1 - 1) with (List.length d') by lia.
      rewrite read_at, removelast_last. reflexivity. }
    rewrite N.
    assert (L' : List.length r = List.length d').
    { rewrite length_app in L1. cbn [List.length] in L1. lia. }
    rewrite L', deal_all. cbn [fst snd Shuffle.deck]. split; [|reflexivity].
    rewrite <- P. rewrite Permutation_app_comm. cbn [app].
    apply perm_skip. symmetry. apply Permutation_rev.
  - destruct s as [d c]. cbn [Shuffle.deck] in P.
    rewrite <- (length_map Some items), <- (Permutation_length P), deal_all.
    cbn [fst snd Shuffle.deck]. split; [|reflexivity].
    rewrite <- P. symmetry. apply Permutation_rev.
Qed.

Lemma round_start_after (items : list T) (m : nat) :
  items <> [] ->
  forall s : Shuffle.State T, round_start items s ->
    round_start items (snd (Shuffle.deal random items (m * List.length items) s)).
Proof.
  intro Hne. induction m as [|m IH]; intros s H; [exact H|].
  cbn [Nat.mul].
  assert (D : forall a b s0,
             snd (Shuffle.deal random items (a + b) s0)
             = snd (Shuffle.deal random items b (snd (Shuffle.deal random items a s0)))).
  { clear. induction a as [|a IHa]; intros b s0; [reflexivity|].
    cbn [Nat.add Shuffle.deal].
    destruct (Shuffle.next random items s0) as [c s1].
    specialize (IHa b s1).
    destruct (Shuffle.deal random items (a + b) s1) as [cs s2].
    destruct (Shuffle.deal random items a s1) as [cs' s2']. exact IHa. }
  rewrite D. apply IH. left. apply deal_round; assumption.
Qed.

End DeckFacts.

(** X18. The shuffle only reorders: whatever doubles of [[0, 1)]
    [Math.random] returns, every index [Math.floor(Math.random() * (i + 1))],
    computed in double arithmetic, stays within [0..i], and the deck after
    [shuffle()] holds the same cards, each as often as before, and no
    [undefined]. *)
Theorem shuffle_is_permutation (T : Type) (random : nat -> Q) (items : list T) :
  unit_interval random ->
  Permutation (Shuffle.deck (Shuffle.makeExhaustiveDeck random items)) (map Some items).
Proof. intro R. apply refill_perm, R. Qed.

Lemma shuffle_is_permutation_witness :
  Permutation
    (Shuffle.deck (Shuffle.makeExhaustiveDeck (fun _ => Qmake 1 2) ["A"; "B"; "C"]))
    (map Some ["A"; "B"; "C"]).
Proof.
  apply shuffle_is_permutation. intro n.
  split; apply Qle_bool_iff; vm_compute; reflexivity.
Defined.

(** X19. The deck is exhaustive: with [n > 0] items, every round of [n]
    calls of [next()] (the first [n], the next [n], ...) deals every item
    exactly once, in some order, and never [undefined]; the deck is
    reshuffled only when it is empty. *)
Theorem deck_deals_every_item_once (T : Type) (random : nat -> Q) (items : list T) (m : nat) :
  unit_interval random ->
  items <> [] ->
  let n := List.length items in
  let s := snd (Shuffle.deal random items (m * n) (Shuffle.makeExhaustiveDeck random items)) in
  Permutation (fst (Shuffle.deal random items n s)) (map Some items).
Proof.
  intros R Hne n s. subst n s. apply deal_round; [exact R|exact Hne|].
  apply round_start_after; [exact R|exact Hne|].
  right. apply refill_perm, R.
Qed.

Lemma deck_deals_every_item_once_witness :
  let random := fun n : nat => Qmake (Z.of_nat (n mod 4)) 4 in
  let items := ["A"; "B"; "C"] in
  let s := snd (Shuffle.deal random items 3 (Shuffle.makeExhaustiveDeck random items)) in
  Permutation (fst (Shuffle.deal random items 3 s)) (map Some items).
Proof.
  intros random items s.
  refine (deck_deals_every_item_once string random items 1 _ _).
  - intro n. unfold random. split.
    + unfold Qle. cbn [Qnum Qden inject_Z]. lia.
    + unfold Qle, max_random, two53. cbn [Qnum Qden].
      pose proof (Nat.mod_upper_bound n 4 ltac:(discriminate)). lia.
  - discriminate.
Defined.

Lemma deal_empty (T : Type) (random : nat -> Q) (n : nat) :
  forall s : Shuffle.State T, Shuffle.deck s = [] ->
    fst (Shuffle.deal random (@nil T) n s) = repeat None n.
Proof.
  induction n as [|n IH]; intros s E; [reflexivity|].
  cbn [Shuffle.deal repeat]. unfold Shuffle.next. rewrite E. cbn.
  specialize (IH (Shuffle.mkState [] (Shuffle.calls s)) eq_refl).
  destruct (Shuffle.deal random [] n _) as [cs s2]. cbn [fst] in *. rewrite IH. reflexivity.
Qed.

(** X20. A deck made of no items has nothing to deal: every [next()]
    returns [undefined]. *)
Theorem empty_deck_deals_undefined (T : Type) (random : nat -> Q) (n : nat) :
  fst (Shuffle.deal random (@nil T) n (Shuffle.makeExhaustiveDeck random [])) = repeat None n.
Proof. apply deal_empty. reflexivity. Qed.
